(** * Services of chainpoint-services: proof generation, task accumulation,
      the API endpoints, the NIST beacon and the token transfer script

    The development embeds
    - the proof generation service (the file that defines [generateCALProof],
      [generateBTCProof], [addChainpointHeader], [addCalendarBranch],
      [addBtcBranch] and [processMessage]): composition, persistence,
      notification and acknowledgment;
    - the task accumulator (the file that defines the four pools and their
      drains), as a system of events;
    - the endpoints of the API service: [getProofsByIDV1Async] of
      [node-api-service/lib/endpoints/proofs.js], and [postHashV1Async],
      [generatePostHashResponse] and [updateNistVars] of the hashes endpoint;
    - [getNistLatestAsync] of the NIST service;
    - [node-eth-contracts/scripts/transferTokens.js].

    JavaScript objects and arrays live in a store of mutable cells addressed by
    references, so that aliasing and in-place mutation ([push], property
    assignment) are what they are in the source.  Library calls whose code is not
    part of the repository ([JSON.parse], the schema validator, the binary
    encoder, [uuid-time], [uuid-validate], the table of registered Nodes, the
    HMAC, BLAKE2s, the uuid generator, [utils.js]) are parameters of the
    sections that use them. *)

From stdpp Require Import base gmap strings list fin_maps.
From Stdlib Require Import ZArith Lia DecimalString.
From Stdlib Require DecimalPos DecimalZ.

Open Scope Z_scope.

(** ** Values and the object store *)

Definition loc := nat.

(** A JavaScript value: a primitive, a reference to a cell of the store, or a
    built-in method (the method of [String.prototype] that a property read on a
    string gives).  Numbers are the integers (the only numbers this program
    computes with are millisecond counts and second counts, all far below
    2^53). *)
Inductive val :=
| VUndef
| VNull
| VBool (b : bool)
| VNum (z : Z)
| VStr (s : string)
| VRef (l : loc)
| VFun (name : string).

(** A cell: named properties, and the indexed elements when the cell is an
    array ([elems = None] for a plain object). *)
Record hobj := HObj { props : gmap string val; elems : option (list val) }.

Abbreviation heap := (list hobj).

Inductive exn :=
| TypeError
| RangeError
| SyntaxError
| LibError (m : string).

(** The outcome of evaluating a piece of code: a value, or an exception that
    propagates to the caller. *)
Inductive result (A : Type) :=
| Ok (a : A)
| Throw (e : exn).
Arguments Ok {A} a.
Arguments Throw {A} e.

(** Code running over a state [S] that may throw; mutations made before a throw
    stay in the state. *)
Definition ST (S A : Type) : Type := S -> S * result A.

Definition ret {S A} (a : A) : ST S A := fun s => (s, Ok a).

Definition throw {S A} (e : exn) : ST S A := fun s => (s, Throw e).

Definition bind {S A B} (c : ST S A) (f : A -> ST S B) : ST S B :=
  fun s => match c s with
           | (s', Ok a) => f a s'
           | (s', Throw e) => (s', Throw e)
           end.

Declare Scope st_scope.
Delimit Scope st_scope with st.
Notation "x <- c ;; k" := (bind c (fun x => k))
  (at level 100, c at next level, right associativity) : st_scope.
Notation "c ;; k" := (bind c (fun _ => k))
  (at level 100, right associativity) : st_scope.
Open Scope st_scope.

Abbreviation JS := (ST heap).

Definition empty_object : hobj := HObj ∅ None.

Definition mk_array (xs : list val) : hobj := HObj ∅ (Some xs).

(** Allocation of a new cell: [{}] and array literals. *)
Definition alloc (o : hobj) : JS val :=
  fun h => (h ++ [o], Ok (VRef (length h))).

Definition new_object : JS val := alloc empty_object.

Definition new_array (xs : list val) : JS val := alloc (mk_array xs).

(** [v.k] for the property names this program reads ([hash], [hash_id],
    [agg_state], [cal_state], [anchor_agg_state], [btctx_state],
    [btchead_state], [ops], [anchor], [anchor_id], [uris], [branches]): a
    TypeError on [undefined] and [null]; on a string, [anchor] is the method
    [String.prototype.anchor] and the other names are [undefined]; [undefined]
    on a number, a boolean and a built-in method (none of these names is a
    property of theirs) and on a cell that has no such property. *)
Definition get_prop (v : val) (k : string) : JS val :=
  fun h => match v with
           | VUndef | VNull => (h, Throw TypeError)
           | VRef l => match h !! l with
                       | Some o => (h, Ok (default VUndef (props o !! k)))
                       | None => (h, Throw TypeError)
                       end
           | VStr _ => (h, Ok (if String.eqb k "anchor" then VFun "anchor" else VUndef))
           | _ => (h, Ok VUndef)
           end.

(** The one-character string at position [i] of [s], if any. *)
Definition char_at (s : string) (i : nat) : val :=
  match String.get i s with
  | Some c => VStr (String c EmptyString)
  | None => VUndef
  end.

(** [v[i]]: the element of an array, the property named by the index on a plain
    object, the character of a string. *)
Definition get_index (v : val) (i : nat) : JS val :=
  fun h => match v with
           | VUndef | VNull => (h, Throw TypeError)
           | VRef l => match h !! l with
                       | Some o => match elems o with
                                   | Some xs => (h, Ok (default VUndef (xs !! i)))
                                   | None => (h, Ok (default VUndef
                                       (props o !! NilZero.string_of_uint (Nat.to_uint i))))
                                   end
                       | None => (h, Throw TypeError)
                       end
           | VStr s => (h, Ok (char_at s i))
           | _ => (h, Ok VUndef)
           end.

(** [v.k = x] (the file is not in strict mode: the assignment to a property of
    a primitive is silently dropped).  The objects of the built-in methods are
    not cells of the store: the program assigns to none of them, and an
    assignment to one leaves the store as it is. *)
Definition set_prop (v : val) (k : string) (x : val) : JS unit :=
  fun h => match v with
           | VUndef | VNull => (h, Throw TypeError)
           | VRef l => match h !! l with
                       | Some o => (<[l := HObj (<[k := x]> (props o)) (elems o)]> h, Ok tt)
                       | None => (h, Throw TypeError)
                       end
           | _ => (h, Ok tt)
           end.

(** Decimal text of an integer, as JavaScript prints it. *)
Definition decimal (z : Z) : string := NilZero.string_of_int (Z.to_int z).

Definition join (sep : string) (parts : list string) : string :=
  match parts with
  | [] => EmptyString
  | p :: ps => fold_left (fun acc q => acc +:+ sep +:+ q) ps p
  end.

(** The string conversion applied by [+] on a string and by [String.concat]:
    primitives by their text, a plain object as ["[object Object]"], an array
    as its elements joined by commas ([undefined] and [null] elements print as
    nothing).  [fuel] bounds the nesting of arrays. *)
Fixpoint ToString (fuel : nat) (h : heap) (v : val) : string :=
  match v with
  | VUndef => "undefined"
  | VNull => "null"
  | VBool true => "true"
  | VBool false => "false"
  | VNum z => decimal z
  | VStr s => s
  | VFun name => "function " +:+ name +:+ "() { [native code] }"
  | VRef l =>
      match h !! l with
      | Some o =>
          match elems o with
          | None => "[object Object]"
          | Some xs =>
              match fuel with
              | O => EmptyString
              | S f => join ","
                         (map (fun x => match x with
                                        | VUndef | VNull => EmptyString
                                        | _ => ToString f h x
                                        end) xs)
              end
          end
      | None => EmptyString
      end
  end.

Definition to_string (v : val) : JS string :=
  fun h => (h, Ok (ToString (length h) h v)).

(** What [Array.prototype.concat] appends for one argument: the elements of an
    array, any other value as a single element. *)
Definition spread (h : heap) (v : val) : list val :=
  match v with
  | VRef l => match h !! l with
              | Some o => match elems o with
                          | Some xs => xs
                          | None => [v]
                          end
              | None => [v]
              end
  | _ => [v]
  end.

(** The method call [a.concat(args)].  On an array it allocates a new array and
    leaves the receiver and the arguments as they are; on a string it is
    [String.prototype.concat]; every other receiver has no callable [concat]. *)
Definition call_concat (a : val) (args : list val) : JS val :=
  fun h => match a with
           | VRef l => match h !! l with
                       | Some o => match elems o with
                                   | Some xs => new_array (xs ++ concat (map (spread h) args)) h
                                   | None => (h, Throw TypeError)
                                   end
                       | None => (h, Throw TypeError)
                       end
           | VStr s => (h, Ok (VStr (fold_left (fun acc x => acc +:+ ToString (length h) h x) args s)))
           | _ => (h, Throw TypeError)
           end.

(** The method call [a.push(x)]: appends in place to the array cell and returns
    the new length; only arrays have [push]. *)
Definition call_push (a : val) (x : val) : JS val :=
  fun h => match a with
           | VRef l => match h !! l with
                       | Some o => match elems o with
                                   | Some xs => (<[l := HObj (props o) (Some (xs ++ [x]))]> h,
                                                 Ok (VNum (Z.of_nat (length xs) + 1)))
                                   | None => (h, Throw TypeError)
                                   end
                       | None => (h, Throw TypeError)
                       end
           | _ => (h, Throw TypeError)
           end.

(** ** Readings of the store *)

(** [v.k] as a reading of the store: [None] where the access throws. *)
Definition field (h : heap) (v : val) (k : string) : option val :=
  match get_prop v k h with
  | (_, Ok x) => Some x
  | (_, Throw _) => None
  end.

(** The own property [k] of the cell [v] refers to, if it has one. *)
Definition own (h : heap) (v : val) (k : string) : option val :=
  match v with
  | VRef l => match h !! l with
              | Some o => props o !! k
              | None => None
              end
  | _ => None
  end.

(** The cell [v] refers to. *)
Definition cell (h : heap) (v : val) : option hobj :=
  match v with
  | VRef l => h !! l
  | _ => None
  end.

(** The elements of the array [v] refers to. *)
Definition items (h : heap) (v : val) : option (list val) :=
  match cell h v with
  | Some o => elems o
  | None => None
  end.

(** A plain object with exactly the listed properties. *)
Definition mk_object (l : list (string * val)) : hobj := HObj (list_to_map l) None.

(** In-place replacement of one cell of a list of cells. *)
Fixpoint put (i : nat) (o : hobj) (cells : list hobj) : list hobj :=
  match cells with
  | [] => []
  | c :: cs => match i with
               | O => o :: cs
               | S i' => c :: put i' o cs
               end
  end.

(** A property of the final state and outcome of a run. *)
Definition post {S A} (P : S -> result A -> Prop) (x : S * result A) : Prop :=
  P x.1 x.2.

(** The store [s] has every cell of [h], unchanged, and possibly more. *)
Definition grows (h s : heap) : Prop := exists ext, s = h ++ ext.

(** Every cell of [h] is still in [s] with the same elements (its named
    properties may differ). *)
Definition keeps_elems (h s : heap) : Prop :=
  forall l o, h !! l = Some o -> exists o', s !! l = Some o' /\ elems o' = elems o.

(** ** Dates *)

(** A JavaScript number as far as time values need it. *)
Inductive jsnum :=
| NaN
| Num (z : Z).

(** A [Date] object is its time value in milliseconds since the epoch;
    [None] is the invalid date. *)
Definition Date := option Z.

(** [new Date(n)]: the time value is clipped to 8.64e15 ms on either side. *)
Definition new_Date (n : jsnum) : Date :=
  match n with
  | NaN => None
  | Num z => if Z.abs z <=? 8640000000000000 then Some z else None
  end.

Fixpoint zeros (n : nat) : string :=
  match n with
  | O => EmptyString
  | S n' => "0" +:+ zeros n'
  end.

(** Decimal text of a non-negative integer, zero-padded on the left to [w]
    digits. *)
Definition pad (w : nat) (z : Z) : string :=
  zeros (w - String.length (decimal z)) +:+ decimal z.

(** Year, month and day of the proleptic Gregorian calendar for a count of
    days since 1970-01-01. *)
Definition civil_from_days (days : Z) : Z * Z * Z :=
  let z := days + 719468 in
  let era := z / 146097 in
  let doe := z - era * 146097 in
  let yoe := (doe - doe / 1460 + doe / 36524 - doe / 146096) / 365 in
  let doy := doe - (365 * yoe + yoe / 4 - yoe / 100) in
  let mp := (5 * doy + 2) / 153 in
  let d := doy - (153 * mp + 2) / 5 + 1 in
  let m := if mp <? 10 then mp + 3 else mp - 9 in
  let y := yoe + era * 400 + (if m <=? 2 then 1 else 0) in
  (y, m, d).

Definition iso_year (y : Z) : string :=
  if (0 <=? y) && (y <=? 9999) then pad 4 y
  else (if y <? 0 then "-" else "+") +:+ pad 6 (Z.abs y).

(** [Date.prototype.toISOString]: [YYYY-MM-DDTHH:mm:ss.sssZ], with the
    six-digit signed year outside 0..9999, and a RangeError on the invalid
    date. *)
Definition toISOString (d : Date) : result string :=
  match d with
  | None => Throw RangeError
  | Some t =>
      let day := t / 86400000 in
      let ms := t mod 86400000 in
      let '(y, m, dd) := civil_from_days day in
      Ok (iso_year y +:+ "-" +:+ pad 2 m +:+ "-" +:+ pad 2 dd +:+ "T"
          +:+ pad 2 (ms / 3600000) +:+ ":" +:+ pad 2 (ms / 60000 mod 60) +:+ ":"
          +:+ pad 2 (ms / 1000 mod 60) +:+ "." +:+ pad 3 (ms mod 1000) +:+ "Z")
  end.

(** [s.slice(0, n)]. *)
Definition slice0 (n : nat) (s : string) : string := String.substring 0 n s.

(** Convert Date to ISO8601 string, stripping milliseconds. *)
Definition formatDateISO8601NoMs (date : Date) : result string :=
  match toISOString date with
  | Ok s => Ok (slice0 19 s +:+ "Z")
  | Throw e => Throw e
  end.

Definition lift_result {S A} (r : result A) : ST S A := fun s => (s, r).

(** ** The compositor *)

Section Compositor.

(** [uuidTime.v1] of the uuid-time package: the millisecond timestamp embedded
    in a version-1 UUID.  It is a function of its argument alone. *)
Variable uuidTime_v1 : val -> result jsnum.

Definition addChainpointHeader (proof hash hashId : val) : JS val :=
  set_prop proof "@context" (VStr "https://w3id.org/chainpoint/v3") ;;
  set_prop proof "type" (VStr "Chainpoint") ;;
  set_prop proof "hash" hash ;;
  set_prop proof "hash_id" hashId ;;
  t <- lift_result (uuidTime_v1 hashId) ;;
  submitted <- lift_result (formatDateISO8601NoMs (new_Date t)) ;;
  set_prop proof "hash_submitted_at" (VStr submitted) ;;
  ret proof.

(** The text [addChainpointHeader] stores under [hash_submitted_at]:
    [formatDateISO8601NoMs(new Date(uuidTime.v1(hashId)))]. *)
Definition submitted_at (hashId : val) : result string :=
  match uuidTime_v1 hashId with
  | Ok t => formatDateISO8601NoMs (new_Date t)
  | Throw e => Throw e
  end.

(** The object literal [{ anchors: [anchor] }]. *)
Definition anchors_literal (anchor : val) : JS val :=
  o <- new_object ;;
  arr <- new_array [anchor] ;;
  set_prop o "anchors" arr ;;
  ret o.

Definition addCalendarBranch (proof aggState calState : val) : JS val :=
  calendarBranch <- new_object ;;
  set_prop calendarBranch "label" (VStr "cal_anchor_branch") ;;
  agg_ops <- get_prop aggState "ops" ;;
  cal_ops <- get_prop calState "ops" ;;
  ops <- call_concat agg_ops [cal_ops] ;;
  set_prop calendarBranch "ops" ops ;;
  calendarAnchor <- new_object ;;
  set_prop calendarAnchor "type" (VStr "cal") ;;
  anchor <- get_prop calState "anchor" ;;
  anchor_id <- get_prop anchor "anchor_id" ;;
  set_prop calendarAnchor "anchor_id" anchor_id ;;
  anchor <- get_prop calState "anchor" ;;
  uris <- get_prop anchor "uris" ;;
  set_prop calendarAnchor "uris" uris ;;
  branch_ops <- get_prop calendarBranch "ops" ;;
  last <- anchors_literal calendarAnchor ;;
  call_push branch_ops last ;;
  branches <- new_array [calendarBranch] ;;
  set_prop proof "branches" branches ;;
  ret proof.

Definition addBtcBranch (proof anchorAggState btcTxState btcHeadState : val) : JS val :=
  btcBranch <- new_object ;;
  set_prop btcBranch "label" (VStr "btc_anchor_branch") ;;
  anchor_agg_ops <- get_prop anchorAggState "ops" ;;
  tx_ops <- get_prop btcTxState "ops" ;;
  head_ops <- get_prop btcHeadState "ops" ;;
  ops <- call_concat anchor_agg_ops [tx_ops; head_ops] ;;
  set_prop btcBranch "ops" ops ;;
  btcAnchor <- new_object ;;
  set_prop btcAnchor "type" (VStr "btc") ;;
  anchor <- get_prop btcHeadState "anchor" ;;
  anchor_id <- get_prop anchor "anchor_id" ;;
  set_prop btcAnchor "anchor_id" anchor_id ;;
  branch_ops <- get_prop btcBranch "ops" ;;
  last <- anchors_literal btcAnchor ;;
  call_push branch_ops last ;;
  proof_branches <- get_prop proof "branches" ;;
  root <- get_index proof_branches 0 ;;
  sub <- new_array [btcBranch] ;;
  set_prop root "branches" sub ;;
  ret proof.

(** The composition at the head of [generateCALProof]: a new proof object,
    the header, the calendar branch. *)
Definition cal_document (messageObj : val) : JS val :=
  proof <- new_object ;;
  hash <- get_prop messageObj "hash" ;;
  hash_id <- get_prop messageObj "hash_id" ;;
  proof <- addChainpointHeader proof hash hash_id ;;
  agg_state <- get_prop messageObj "agg_state" ;;
  cal_state <- get_prop messageObj "cal_state" ;;
  addCalendarBranch proof agg_state cal_state.

(** The composition at the head of [generateBTCProof]: as for the calendar
    proof, then the Bitcoin branch. *)
Definition btc_document (messageObj : val) : JS val :=
  proof <- new_object ;;
  hash <- get_prop messageObj "hash" ;;
  hash_id <- get_prop messageObj "hash_id" ;;
  proof <- addChainpointHeader proof hash hash_id ;;
  agg_state <- get_prop messageObj "agg_state" ;;
  cal_state <- get_prop messageObj "cal_state" ;;
  proof <- addCalendarBranch proof agg_state cal_state ;;
  anchor_agg_state <- get_prop messageObj "anchor_agg_state" ;;
  btctx_state <- get_prop messageObj "btctx_state" ;;
  btchead_state <- get_prop messageObj "btchead_state" ;;
  addBtcBranch proof anchor_agg_state btctx_state btchead_state.

End Compositor.

(** ** Stage events *)

(** The fields of a CAL stage event, as the message object carries them. *)
Record CalEvent := {
  ev_hash : val;
  ev_hashId : val;
  aggregationFragment : list val;
  calendarFragment : list val;
  calendar_anchor_id : val;
  calendar_uris : val
}.

(** A BTC stage event: the fields of a CAL event, the operations of the anchor
    aggregation, of the transaction and of the block header, and the id of the
    Bitcoin anchor. *)
Record BtcEvent := {
  cal_part : CalEvent;
  anchorAggregationFragment : list val;
  btctxFragment : list val;
  btcheadFragment : list val;
  btc_anchor_id : val
}.

(** The state object under [name] has an [ops] array with elements [ops]. *)
Definition reads_ops (h : heap) (m : val) (name : string) (ops : list val) : Prop :=
  exists state arr,
    field h m name = Some state /\ field h state "ops" = Some arr /\
    items h arr = Some ops.

(** The message object [m] of store [h] is the CAL stage event [e]. *)
Definition reads_cal (h : heap) (m : val) (e : CalEvent) : Prop :=
  field h m "hash" = Some (ev_hash e) /\
  field h m "hash_id" = Some (ev_hashId e) /\
  reads_ops h m "agg_state" (aggregationFragment e) /\
  reads_ops h m "cal_state" (calendarFragment e) /\
  exists cal anchor,
    field h m "cal_state" = Some cal /\ field h cal "anchor" = Some anchor /\
    field h anchor "anchor_id" = Some (calendar_anchor_id e) /\
    field h anchor "uris" = Some (calendar_uris e).

(** The message object [m] of store [h] is the BTC stage event [e]. *)
Definition reads_btc (h : heap) (m : val) (e : BtcEvent) : Prop :=
  reads_cal h m (cal_part e) /\
  reads_ops h m "anchor_agg_state" (anchorAggregationFragment e) /\
  reads_ops h m "btctx_state" (btctxFragment e) /\
  reads_ops h m "btchead_state" (btcheadFragment e) /\
  exists head anchor,
    field h m "btchead_state" = Some head /\ field h head "anchor" = Some anchor /\
    field h anchor "anchor_id" = Some (btc_anchor_id e).

(** The cells a CAL composition allocates, in order, when the store held [n]
    cells before: the proof, the calendar branch, its operations, the calendar
    anchor, the element that wraps it, the [anchors] array and the [branches]
    array. *)
Definition cal_cells (n : nat) (e : CalEvent) (submitted : string) : list hobj :=
  [ mk_object [("@context", VStr "https://w3id.org/chainpoint/v3");
               ("type", VStr "Chainpoint");
               ("hash", ev_hash e);
               ("hash_id", ev_hashId e);
               ("hash_submitted_at", VStr submitted);
               ("branches", VRef (n + 6)%nat)];
    mk_object [("label", VStr "cal_anchor_branch"); ("ops", VRef (n + 2)%nat)];
    mk_array (aggregationFragment e ++ calendarFragment e ++ [VRef (n + 4)%nat]);
    mk_object [("type", VStr "cal");
               ("anchor_id", calendar_anchor_id e);
               ("uris", calendar_uris e)];
    mk_object [("anchors", VRef (n + 5)%nat)];
    mk_array [VRef (n + 3)%nat];
    mk_array [VRef (n + 1)%nat] ].

(** The cells a BTC composition allocates: those of the CAL composition, where
    the calendar branch now has its [branches], then the Bitcoin branch, its
    operations, the Bitcoin anchor, the element that wraps it, the [anchors]
    array and the array of sub-branches. *)
Definition btc_cells (n : nat) (e : BtcEvent) (submitted : string) : list hobj :=
  [ mk_object [("@context", VStr "https://w3id.org/chainpoint/v3");
               ("type", VStr "Chainpoint");
               ("hash", ev_hash (cal_part e));
               ("hash_id", ev_hashId (cal_part e));
               ("hash_submitted_at", VStr submitted);
               ("branches", VRef (n + 6)%nat)];
    mk_object [("label", VStr "cal_anchor_branch"); ("ops", VRef (n + 2)%nat);
               ("branches", VRef (n + 12)%nat)];
    mk_array (aggregationFragment (cal_part e) ++ calendarFragment (cal_part e)
              ++ [VRef (n + 4)%nat]);
    mk_object [("type", VStr "cal");
               ("anchor_id", calendar_anchor_id (cal_part e));
               ("uris", calendar_uris (cal_part e))];
    mk_object [("anchors", VRef (n + 5)%nat)];
    mk_array [VRef (n + 3)%nat];
    mk_array [VRef (n + 1)%nat];
    mk_object [("label", VStr "btc_anchor_branch"); ("ops", VRef (n + 8)%nat)];
    mk_array (anchorAggregationFragment e ++ btctxFragment e ++ btcheadFragment e
              ++ [VRef (n + 10)%nat]);
    mk_object [("type", VStr "btc"); ("anchor_id", btc_anchor_id e)];
    mk_object [("anchors", VRef (n + 11)%nat)];
    mk_array [VRef (n + 9)%nat];
    mk_array [VRef (n + 7)%nat] ].

(** ** The world of the two services *)

(** The configuration read by [parse-env.js] (not among the sources), as far as
    the code below uses it. *)
Record Env := {
  RMQ_WORK_IN_GEN_QUEUE : string;
  RMQ_WORK_OUT_API_QUEUE : string;
  RMQ_OUTGOING_EXCHANGE : string;
  PROOF_EXPIRE_MINUTES : Z
}.

(** A message delivered by the broker: [msg.content.toString()],
    [msg.properties.type] ([None] when the property is undefined) and the
    delivery tag that [ack] and [nack] settle. *)
Record message := {
  content : string;
  properties_type : option string;
  deliveryTag : nat
}.

Inductive decision :=
| Ack
| Nack.

Inductive stream :=
| Stdout
| Stderr.

(** One call of [amqpChannel.publish]: exchange, routing key, the [api_id]
    header and the [persistent] option, and the two fields of the JSON body. *)
Record notification := {
  exchange : string;
  routingKey : string;
  header_api_id : string;
  persistent : bool;
  body_cx_id : string;
  body_hash_id : val
}.

(** A string key of the store, with the [EX] seconds it was set with and the
    time it was set at. *)
Record cached := {
  cached_value : string;
  cached_EX : Z;
  cached_at : Z
}.

(** The replies the store and the broker give to the I/O calls of one delivery:
    [Some err] when the call's callback receives an error. *)
Record replies := {
  set_reply : option exn;
  get_reply : option exn;
  hgetall_reply : option exn;
  publish_reply : option exn
}.

(** What the two services act on: the objects of the running process, the
    wall clock, the store (string keys with their expiry, and hashes), the
    replies the next I/O calls get, and the record of what was published,
    settled and logged.

    [redis] and [amqpChannel] are the module variables of the proof generation
    service: [false] is [null], the value they start with and the value the
    handlers of the client's ['error'] and of the connection's ['close'] give
    them; [true] is a client, a channel.  A handler runs between two turns of
    the event loop: [reconnections] lists what the handlers have made of the
    two variables by each later turn in which a callback of the delivery runs
    (none when no handler runs meanwhile).  [thrown] records the exceptions
    thrown out of callbacks: they reach the library that called the callback,
    not [processMessage]. *)
Record world := {
  objects : heap;
  clock : Z;
  redis_strings : gmap string cached;
  redis_hashes : gmap string (gmap string string);
  io : replies;
  publishes : list notification;
  settled : list (nat * decision);
  console : list (stream * list string);
  redis : bool;
  amqpChannel : bool;
  reconnections : list (bool * bool);
  thrown : list exn
}.

Abbreviation IO := (ST world).

Definition with_objects (h : heap) (w : world) : world :=
  {| objects := h; clock := clock w; redis_strings := redis_strings w;
     redis_hashes := redis_hashes w; io := io w; publishes := publishes w;
     settled := settled w; console := console w; redis := redis w;
     amqpChannel := amqpChannel w; reconnections := reconnections w;
     thrown := thrown w |}.

Definition with_redis_strings (m : gmap string cached) (w : world) : world :=
  {| objects := objects w; clock := clock w; redis_strings := m;
     redis_hashes := redis_hashes w; io := io w; publishes := publishes w;
     settled := settled w; console := console w; redis := redis w;
     amqpChannel := amqpChannel w; reconnections := reconnections w;
     thrown := thrown w |}.

Definition with_redis_hashes (m : gmap string (gmap string string)) (w : world) : world :=
  {| objects := objects w; clock := clock w; redis_strings := redis_strings w;
     redis_hashes := m; io := io w; publishes := publishes w;
     settled := settled w; console := console w; redis := redis w;
     amqpChannel := amqpChannel w; reconnections := reconnections w;
     thrown := thrown w |}.

Definition with_publishes (l : list notification) (w : world) : world :=
  {| objects := objects w; clock := clock w; redis_strings := redis_strings w;
     redis_hashes := redis_hashes w; io := io w; publishes := l;
     settled := settled w; console := console w; redis := redis w;
     amqpChannel := amqpChannel w; reconnections := reconnections w;
     thrown := thrown w |}.

Definition with_settled (l : list (nat * decision)) (w : world) : world :=
  {| objects := objects w; clock := clock w; redis_strings := redis_strings w;
     redis_hashes := redis_hashes w; io := io w; publishes := publishes w;
     settled := l; console := console w; redis := redis w;
     amqpChannel := amqpChannel w; reconnections := reconnections w;
     thrown := thrown w |}.

Definition with_console (l : list (stream * list string)) (w : world) : world :=
  {| objects := objects w; clock := clock w; redis_strings := redis_strings w;
     redis_hashes := redis_hashes w; io := io w; publishes := publishes w;
     settled := settled w; console := l; redis := redis w;
     amqpChannel := amqpChannel w; reconnections := reconnections w;
     thrown := thrown w |}.

Definition with_thrown (l : list exn) (w : world) : world :=
  {| objects := objects w; clock := clock w; redis_strings := redis_strings w;
     redis_hashes := redis_hashes w; io := io w; publishes := publishes w;
     settled := settled w; console := console w; redis := redis w;
     amqpChannel := amqpChannel w; reconnections := reconnections w;
     thrown := l |}.

(** The two variables set to a client or [null], and to a channel or [null]. *)
Definition with_connections (client channel : bool) (w : world) : world :=
  {| objects := objects w; clock := clock w; redis_strings := redis_strings w;
     redis_hashes := redis_hashes w; io := io w; publishes := publishes w;
     settled := settled w; console := console w; redis := client;
     amqpChannel := channel; reconnections := reconnections w;
     thrown := thrown w |}.

Definition with_reconnections (l : list (bool * bool)) (w : world) : world :=
  {| objects := objects w; clock := clock w; redis_strings := redis_strings w;
     redis_hashes := redis_hashes w; io := io w; publishes := publishes w;
     settled := settled w; console := console w; redis := redis w;
     amqpChannel := amqpChannel w; reconnections := l;
     thrown := thrown w |}.

(** The client and the channel are set, and no handler resets them while the
    delivery is handled. *)
Definition connected (w : world) : Prop :=
  redis w = true /\ amqpChannel w = true /\ reconnections w = [].

(** Code of the object store run inside a service. *)
Definition liftJS {A} (c : JS A) : IO A :=
  fun w => match c (objects w) with
           | (h, r) => (with_objects h w, r)
           end.

(** [new Date().getTime()]. *)
Definition Date_now : IO Z := fun w => (w, Ok (clock w)).

Definition console_log (args : list string) : IO unit :=
  fun w => (with_console (console w ++ [(Stdout, args)]) w, Ok tt).

Definition console_error (args : list string) : IO unit :=
  fun w => (with_console (console w ++ [(Stderr, args)]) w, Ok tt).

(** [amqpChannel.ack(msg)]: a TypeError while the variable is [null]. *)
Definition amqp_ack (msg : message) : IO unit :=
  fun w => if amqpChannel w
           then (with_settled (settled w ++ [(deliveryTag msg, Ack)]) w, Ok tt)
           else (w, Throw TypeError).

(** [amqpChannel.nack(msg)]. *)
Definition amqp_nack (msg : message) : IO unit :=
  fun w => if amqpChannel w
           then (with_settled (settled w ++ [(deliveryTag msg, Nack)]) w, Ok tt)
           else (w, Throw TypeError).

(** [amqpChannel.publish(...)] on the confirm channel: the call is recorded, and
    the confirmation callback receives the broker's reply; a TypeError while
    the variable is [null]. *)
Definition amqp_publish (n : notification) : IO (option exn) :=
  fun w => if amqpChannel w
           then (with_publishes (publishes w ++ [n]) w, Ok (publish_reply (io w)))
           else (w, Throw TypeError).

(** [redis.set(key, value, 'EX', seconds, cb)]: a TypeError while the variable
    is [null]. *)
Definition redis_set (key value : string) (seconds : Z) : IO (option exn) :=
  fun w => if redis w then
             match set_reply (io w) with
             | Some err => (w, Ok (Some err))
             | None =>
                 (with_redis_strings
                    (<[key := {| cached_value := value; cached_EX := seconds;
                                 cached_at := clock w |}]> (redis_strings w)) w,
                  Ok None)
             end
           else (w, Throw TypeError).

(** [redis.get(key, cb)] of the API service, on the client its own module
    holds: the value while its [EX] seconds have not elapsed, [null]
    otherwise. *)
Definition redis_get (key : string) : IO (exn + option string) :=
  fun w => match get_reply (io w) with
           | Some err => (w, Ok (inl err))
           | None =>
               (w, Ok (inr (match redis_strings w !! key with
                            | Some c => if clock w <? cached_at c + cached_EX c * 1000
                                        then Some (cached_value c) else None
                            | None => None
                            end)))
           end.

(** [redis.hgetall(key, cb)]: the fields of the hash, [null] when the key holds
    no field; a TypeError while the variable is [null]. *)
Definition redis_hgetall (key : string) : IO (exn + option (gmap string string)) :=
  fun w => if redis w then
             match hgetall_reply (io w) with
             | Some err => (w, Ok (inl err))
             | None =>
                 (w, Ok (inr (match redis_hashes w !! key with
                              | Some m => if decide (m = ∅) then None else Some m
                              | None => None
                              end)))
             end
           else (w, Throw TypeError).

(** The start of a later turn of the event loop: the two variables are what the
    handlers that ran meanwhile have made of them. *)
Definition next_turn (w : world) : world :=
  match reconnections w with
  | [] => w
  | (client, channel) :: rest => with_reconnections rest (with_connections client channel w)
  end.

(** The callback of an I/O call: it runs in a later turn, after the function
    that made the call has returned, so that an exception it throws is not an
    exception of that function. *)
Definition on_reply (callback : IO unit) : IO unit :=
  fun w => match callback (next_turn w) with
           | (w', Throw e) => (with_thrown (thrown w' ++ [e]) w', Ok tt)
           | done => done
           end.

(** Truthiness of a field read off the reply of [hgetall]: a missing field is
    [undefined], and the empty string is falsy. *)
Definition truthy (field : option string) : bool :=
  match field with
  | Some s => negb (String.eqb s "")
  | None => false
  end.

(** Whatever the code [c] leaves in the string keys of the store was there
    before or was set with [EX] equal to [T] seconds. *)
Definition saves_with {A} (T : Z) (c : IO A) : Prop :=
  forall w key e,
    redis_strings (c w).1 !! key = Some e ->
    redis_strings w !! key = Some e \/ cached_EX e = T.

(** The code [c] leaves the reading [f] of the world as it finds it. *)
Definition keeps {A B} (f : world -> B) (c : IO A) : Prop :=
  forall w, f (c w).1 = f w.

(** ** The proof generation service *)

Section ProofGen.

Variable env : Env.
Variable uuidTime_v1 : val -> result jsnum.

(** [JSON.parse]: builds the parsed value in the store, or throws. *)
Variable JSON_parse : string -> JS val.

(** [chainpointProofSchema.validate(proof).valid]. *)
Variable schema_valid : heap -> val -> bool.

(** [chpBinary.objectToBase64]: the error or the Base64 text its callback
    receives. *)
Variable objectToBase64 : heap -> val -> exn + string.

Definition validate (proof : val) : IO bool :=
  fun w => (w, Ok (schema_valid (objects w) proof)).

Definition encode (proof : val) : IO (exn + string) :=
  fun w => (w, Ok (objectToBase64 (objects w) proof)).

(** The third task of the waterfall: what the callback of [hgetall] passes on,
    [(null, null)] unless the reply has a truthy [api_id] and a truthy
    [cx_id]. *)
Definition subscription_of (res : option (gmap string string))
  : option string * option string :=
  match res with
  | None => (None, None)
  | Some r =>
      if negb (truthy (r !! "api_id")) || negb (truthy (r !! "cx_id"))
      then (None, None)
      else (r !! "api_id", r !! "cx_id")
  end.

(** The final callback of the waterfall. *)
Definition settle (tag : string) (msg : message) (err : option exn) : IO unit :=
  match err with
  | Some _ =>
      amqp_nack msg ;;
      console_error [RMQ_WORK_IN_GEN_QUEUE env; tag +:+ " consume message nacked"]
  | None =>
      amqp_ack msg ;;
      console_log [RMQ_WORK_IN_GEN_QUEUE env; tag +:+ " consume message acked"]
  end.

(** The four tasks of [async.waterfall] in [generateCALProof] and
    [generateBTCProof] (the two functions carry the same text): encode, save
    with its expiry, look the subscription up, publish; [final] is the final
    callback and receives the [err].  The encoder calls its callback at once,
    and the waterfall starts a task as soon as the one before it calls back:
    the first task and the second run before [async.waterfall] returns, up to
    the call of [redis.set]; the callbacks of [redis.set], [redis.hgetall] and
    [amqpChannel.publish], and what they start, run in later turns.  Each task
    reads [messageObj.hash_id] anew; the key of [redis.set] is that value as
    the client sends it, its string conversion, and the key of [hgetall] is
    ['sub:' + hash_id]. *)

(** The fourth task, with the callback of [publish]. *)
Definition publish_ready (messageObj : val)
           (APIServiceInstanceId wsConnectionId : option string)
           (final : option exn -> IO unit) : IO unit :=
  match APIServiceInstanceId, wsConnectionId with
  | Some api_id, Some cx_id =>
      hash_id <- liftJS (get_prop messageObj "hash_id") ;;
      publish_err <- amqp_publish {| exchange := RMQ_OUTGOING_EXCHANGE env;
                                     routingKey := "";
                                     header_api_id := api_id;
                                     persistent := true;
                                     body_cx_id := cx_id;
                                     body_hash_id := hash_id |} ;;
      on_reply
        match publish_err with
        | Some err =>
            console_error [RMQ_WORK_OUT_API_QUEUE env; "publish message nacked"] ;;
            final (Some err)
        | None =>
            console_log [RMQ_WORK_OUT_API_QUEUE env; "publish message acked"] ;;
            final None
        end
  | _, _ => final None
  end.

(** The third task, with the callback of [hgetall]. *)
Definition find_subscription (messageObj : val) (final : option exn -> IO unit)
  : IO unit :=
  hash_id <- liftJS (get_prop messageObj "hash_id") ;;
  suffix <- liftJS (to_string hash_id) ;;
  found <- redis_hgetall ("sub:" +:+ suffix) ;;
  on_reply
    match found with
    | inl err => final (Some err)
    | inr res =>
        publish_ready messageObj (subscription_of res).1 (subscription_of res).2 final
    end.

(** The second task, with the callback of [set]. *)
Definition save_proof (messageObj : val) (proofBase64 : string)
           (final : option exn -> IO unit) : IO unit :=
  hash_id <- liftJS (get_prop messageObj "hash_id") ;;
  key <- liftJS (to_string hash_id) ;;
  set_err <- redis_set key proofBase64 (PROOF_EXPIRE_MINUTES env * 60) ;;
  on_reply
    match set_err with
    | Some err => final (Some err)
    | None => find_subscription messageObj final
    end.

Definition waterfall (messageObj proof : val) (final : option exn -> IO unit) : IO unit :=
  encoded <- encode proof ;;
  match encoded with
  | inl err => final (Some err)
  | inr proofBase64 => save_proof messageObj proofBase64 final
  end.

Definition invalid_schema (msg : message) : IO unit :=
  amqp_ack msg ;;
  console_error [RMQ_WORK_IN_GEN_QUEUE env;
                 "consume message acked, but with invalid JSON schema error"].

(** The text of [generateCALProof] from the schema check to the end;
    [generateBTCProof] repeats it with the tag [[btc]] in its log lines. *)
Definition validate_store_notify (tag : string) (msg : message) (messageObj proof : val)
  : IO unit :=
  isValidSchema <- validate proof ;;
  if negb isValidSchema then invalid_schema msg
  else waterfall messageObj proof (settle tag msg).

Definition generateCALProof (msg : message) : IO unit :=
  messageObj <- liftJS (JSON_parse (content msg)) ;;
  proof <- liftJS (cal_document uuidTime_v1 messageObj) ;;
  validate_store_notify "[cal]" msg messageObj proof.

Definition generateBTCProof (msg : message) : IO unit :=
  messageObj <- liftJS (JSON_parse (content msg)) ;;
  proof <- liftJS (btc_document uuidTime_v1 messageObj) ;;
  validate_store_notify "[btc]" msg messageObj proof.

Definition generateETHProof (msg : message) : IO unit :=
  console_log ["building eth proof"].

(** Parses a message and performs the required work for that message. *)
Definition processMessage (msg : option message) : IO unit :=
  match msg with
  | None => ret tt
  | Some m =>
      match properties_type m with
      | Some type =>
          if String.eqb type "cal" then generateCALProof m
          else if String.eqb type "eth" then generateETHProof m
          else if String.eqb type "btc" then generateBTCProof m
          else console_error ["Unknown state type"; type]
      | None => console_error ["Unknown state type"; "undefined"]
      end
  end.

(** The tag [generateCALProof] and [generateBTCProof] put in their log lines,
    by the type of the message. *)
Definition log_tag (msg : message) : string :=
  match properties_type msg with
  | Some type => if String.eqb type "cal" then "[cal]" else "[btc]"
  | None => "[btc]"
  end.

(** The world once the encoded proof is saved under the hash id. *)
Definition saved (w : world) (hashId b64 : string) : world :=
  with_redis_strings
    (<[hashId := {| cached_value := b64;
                    cached_EX := PROOF_EXPIRE_MINUTES env * 60;
                    cached_at := clock w |}]> (redis_strings w)) w.

(** The notification the fourth task publishes for a subscription. *)
Definition ready (api_id cx_id hashId : string) : notification :=
  {| exchange := RMQ_OUTGOING_EXCHANGE env; routingKey := "";
     header_api_id := api_id; persistent := true;
     body_cx_id := cx_id; body_hash_id := VStr hashId |}.

(** The message is a CAL or BTC stage event of world [w]: its payload parses to
    the message object, and the composition for its type gives [proof] and
    leaves the store [h]. *)
Definition composes (msg : message) (w : world) (messageObj proof : val) (h : heap)
  : Prop :=
  exists h1,
    JSON_parse (content msg) (objects w) = (h1, Ok messageObj) /\
    ((properties_type msg = Some "cal" /\
      cal_document uuidTime_v1 messageObj h1 = (h, Ok proof)) \/
     (properties_type msg = Some "btc" /\
      btc_document uuidTime_v1 messageObj h1 = (h, Ok proof))).

(** The same, for the stage event whose [hash_id] is the string [hashId]. *)
Definition stage_event (msg : message) (w : world) (messageObj proof : val) (h : heap)
           (hashId : string) : Prop :=
  composes msg w messageObj proof h /\
  field h messageObj "hash_id" = Some (VStr hashId).

End ProofGen.

(** ** The age gate of the retrieval endpoint *)

Section Retrieval.

Variable env : Env.
Variable uuidTime_v1 : val -> result jsnum.

(** [uuidValidate(id, version)] of the uuid-validate package. *)
Variable uuidValidate : string -> Z -> bool.

(** [chpBinary.binaryToObject] applied to the reply of [redis.get] ([None]
    for [null]): the error or the object its callback receives. *)
Variable binaryToObject : option string -> JS (exn + val).

Inductive mime :=
| BASE64_MIME_TYPE
| JSONLD_MIME_TYPE.

(** The [proof] field of one entry of the response. *)
Inductive proof_field :=
| ProofNull
| ProofBase64 (s : string)
| ProofObject (v : val).

(** [nowEpoch - uuidEpoch]. *)
Definition num_sub (a : Z) (b : jsnum) : jsnum :=
  match b with
  | NaN => NaN
  | Num z => Num (a - z)
  end.

(** [a > b]: false as soon as one side is NaN. *)
Definition num_gt (a : jsnum) (b : Z) : bool :=
  match a with
  | NaN => false
  | Num z => b <? z
  end.

Definition maxDiff : Z := PROOF_EXPIRE_MINUTES env * 60 * 1000.

(** The iteratee of [async.eachLimit] in [getProofsByIDV1Async]: the proof
    reported for one hash id. *)
Definition getProofsByIDV1Async_each (requestedType : mime) (hash_id : string)
  : IO proof_field :=
  if negb (uuidValidate hash_id 1) then ret ProofNull
  else
    uuidEpoch <- lift_result (uuidTime_v1 (VStr hash_id)) ;;
    nowEpoch <- Date_now ;;
    let uuidDiff := num_sub nowEpoch uuidEpoch in
    if num_gt uuidDiff maxDiff then ret ProofNull
    else
      got <- redis_get hash_id ;;
      match got with
      | inl _ => ret ProofNull
      | inr proofBase64 =>
          match requestedType with
          | BASE64_MIME_TYPE =>
              ret (match proofBase64 with
                   | Some s => ProofBase64 s
                   | None => ProofNull
                   end)
          | JSONLD_MIME_TYPE =>
              decoded <- liftJS (binaryToObject proofBase64) ;;
              match decoded with
              | inl _ => ret ProofNull
              | inr proofObj => ret (ProofObject proofObj)
              end
          end
      end.

End Retrieval.

(** ** Further readings of the world *)

(** The world at a later time. *)
Definition with_clock (t : Z) (w : world) : world :=
  {| objects := objects w; clock := t; redis_strings := redis_strings w;
     redis_hashes := redis_hashes w; io := io w; publishes := publishes w;
     settled := settled w; console := console w; redis := redis w;
     amqpChannel := amqpChannel w; reconnections := reconnections w;
     thrown := thrown w |}.

(** The world once the final callback has settled the message: the decision,
    then its log line. *)
Definition settled_by (env : Env) (tag : string) (msg : message) (err : option exn)
           (w : world) : world :=
  match err with
  | Some _ =>
      with_console
        (console w ++ [(Stderr, [RMQ_WORK_IN_GEN_QUEUE env; tag +:+ " consume message nacked"])])
        (with_settled (settled w ++ [(deliveryTag msg, Nack)]) w)
  | None =>
      with_console
        (console w ++ [(Stdout, [RMQ_WORK_IN_GEN_QUEUE env; tag +:+ " consume message acked"])])
        (with_settled (settled w ++ [(deliveryTag msg, Ack)]) w)
  end.

(** The world once the final callback has run inside a callback: the message
    is settled, or, with no channel, the TypeError of the call on [null] has
    left the callback. *)
Definition replied (env : Env) (tag : string) (msg : message) (err : option exn)
           (w : world) : world :=
  if amqpChannel w then settled_by env tag msg err w
  else with_thrown (thrown w ++ [TypeError]) w.

(** The world once [publish] has been called and its callback has logged the
    broker's reply. *)
Definition published (env : Env) (n : notification) (w : world) : world :=
  with_console
    (console w ++ [match publish_reply (io w) with
                   | Some _ => (Stderr, [RMQ_WORK_OUT_API_QUEUE env; "publish message nacked"])
                   | None => (Stdout, [RMQ_WORK_OUT_API_QUEUE env; "publish message acked"])
                   end])
    (with_publishes (publishes w ++ [n]) w).

(** The key under which the waterfall saves the proof: the string conversion
    of [messageObj.hash_id]. *)
Definition proof_key (h : heap) (messageObj : val) : string :=
  match field h messageObj "hash_id" with
  | Some v => ToString (length h) h v
  | None => EmptyString
  end.

(** A value whose properties cannot be read: [undefined], which is also what
    a missing property reads as, and [null]. *)
Definition nullish (v : val) : Prop := v = VUndef \/ v = VNull.

(** The date and time of day of [toISOString] down to the second, for a count
    of whole seconds since the epoch. *)
Definition iso_to_second (q : Z) : string :=
  let day := q / 86400 in
  let s := q mod 86400 in
  let '(y, m, dd) := civil_from_days day in
  iso_year y +:+ "-" +:+ pad 2 m +:+ "-" +:+ pad 2 dd +:+ "T"
  +:+ pad 2 (s / 3600) +:+ ":" +:+ pad 2 (s / 60 mod 60) +:+ ":" +:+ pad 2 (s mod 60).

(** ** The task accumulator service *)

Module TaskAccumulator.

(** The four accumulation pools. *)
Inductive pool :=
| AUDIT_LOG_WRITE_POOL
| AUDIT_SCORE_UPDATE_POOL
| E2E_AUDIT_LOG_WRITE_POOL
| E2E_AUDIT_SCORE_UPDATE_POOL.

#[export] Instance pool_eq_dec : EqDecision pool.
Proof. solve_decision. Defined.

(** An element of a pool ([auditDataObj], [scoreUpdateObj]): the JSON text of
    the message and the message itself, kept to be acknowledged later. *)
Record pooled := {
  item_JSON : string;
  item_msg : option message
}.

(** One call of [taskQueue.enqueue]: the queue, the task and the array of
    JSON texts that is its one argument. *)
Record enqueue_call := {
  enq_queue : string;
  enq_task : string;
  enq_items : list string
}.

Inductive log_line :=
| Debug (namespace text : string)
| Error (text : string) (error : option exn).

(** The variables of the module and the record of what it did: the pools,
    their draining flags, whether [amqpChannel] and [taskQueue] are set
    ([false] for [null]), the calls of [taskQueue.enqueue], the decisions made
    on the channel and the lines logged. *)
Record state := {
  pools : pool -> list pooled;
  draining : pool -> bool;
  amqpChannel : bool;
  taskQueue : bool;
  enqueued : list enqueue_call;
  settled : list (nat * decision);
  logged : list log_line
}.

Definition with_pool (p : pool) (items : list pooled) (s : state) : state :=
  {| pools := fun q => if decide (q = p) then items else pools s q;
     draining := draining s; amqpChannel := amqpChannel s; taskQueue := taskQueue s;
     enqueued := enqueued s; settled := settled s; logged := logged s |}.

Definition with_draining (p : pool) (b : bool) (s : state) : state :=
  {| pools := pools s;
     draining := fun q => if decide (q = p) then b else draining s q;
     amqpChannel := amqpChannel s; taskQueue := taskQueue s;
     enqueued := enqueued s; settled := settled s; logged := logged s |}.

Definition with_amqpChannel (b : bool) (s : state) : state :=
  {| pools := pools s; draining := draining s; amqpChannel := b;
     taskQueue := taskQueue s; enqueued := enqueued s; settled := settled s;
     logged := logged s |}.

Definition with_taskQueue (b : bool) (s : state) : state :=
  {| pools := pools s; draining := draining s; amqpChannel := amqpChannel s;
     taskQueue := b; enqueued := enqueued s; settled := settled s;
     logged := logged s |}.

Definition log (l : log_line) (s : state) : state :=
  {| pools := pools s; draining := draining s; amqpChannel := amqpChannel s;
     taskQueue := taskQueue s; enqueued := enqueued s; settled := settled s;
     logged := logged s ++ [l] |}.

Definition record_enqueue (c : enqueue_call) (s : state) : state :=
  {| pools := pools s; draining := draining s; amqpChannel := amqpChannel s;
     taskQueue := taskQueue s; enqueued := enqueued s ++ [c]; settled := settled s;
     logged := logged s |}.

Definition record_settled (l : list (nat * decision)) (s : state) : state :=
  {| pools := pools s; draining := draining s; amqpChannel := amqpChannel s;
     taskQueue := taskQueue s; enqueued := enqueued s; settled := settled s ++ l;
     logged := logged s |}.

(** The four [consume...MessageAsync] functions, which differ in the pool they
    push to: the message is kept with its text, and nothing is acknowledged. *)
Definition consumeMessageAsync (p : pool) (msg : option message) (s : state) : state :=
  match msg with
  | Some m => with_pool p (pools s p ++ [{| item_JSON := content m; item_msg := Some m |}]) s
  | None => s
  end.

(** The default case of [processMessage]: the type is logged and the message is
    acknowledged; [amqpChannel.ack] on a [null] channel is a TypeError. *)
Definition unknown_type (m : message) (type : string) (s : state) : state * result unit :=
  let s := log (Error ("Unknown state type: " +:+ type) None) s in
  if amqpChannel s then (record_settled [(deliveryTag m, Ack)] s, Ok tt)
  else (s, Throw TypeError).

(** Parses a message and performs the required work for that message. *)
Definition processMessage (msg : option message) (s : state) : state * result unit :=
  match msg with
  | None => (s, Ok tt)
  | Some m =>
      match properties_type m with
      | Some type =>
          if String.eqb type "write_audit_log"
          then (consumeMessageAsync AUDIT_LOG_WRITE_POOL msg s, Ok tt)
          else if String.eqb type "write_e2e_audit_log"
          then (consumeMessageAsync E2E_AUDIT_LOG_WRITE_POOL msg s, Ok tt)
          else if String.eqb type "update_node_audit_score"
          then (consumeMessageAsync AUDIT_SCORE_UPDATE_POOL msg s, Ok tt)
          else if String.eqb type "update_node_e2e_audit_score"
          then (consumeMessageAsync E2E_AUDIT_SCORE_UPDATE_POOL msg s, Ok tt)
          else unknown_type m type s
      | None => unknown_type m "undefined" s
      end
  end.

(** The number of items to include in a single batch audit log write
    command. *)
Definition auditLogWriteBatchSize : nat := 500.

(** The number of items to include in a single batch node audit score update
    command. *)
Definition auditScoreUpdateBatchSize : nat := 1000.

(** What the four [drain...PoolAsync] functions differ in: the batch size, the
    task they enqueue, the debug channel and the texts they log. *)
Definition batchSize (p : pool) : nat :=
  match p with
  | AUDIT_LOG_WRITE_POOL | E2E_AUDIT_LOG_WRITE_POOL => auditLogWriteBatchSize
  | AUDIT_SCORE_UPDATE_POOL | E2E_AUDIT_SCORE_UPDATE_POOL => auditScoreUpdateBatchSize
  end.

Definition task_of (p : pool) : string :=
  match p with
  | AUDIT_LOG_WRITE_POOL => "write_audit_log_items"
  | E2E_AUDIT_LOG_WRITE_POOL => "write_e2e_audit_log_items"
  | AUDIT_SCORE_UPDATE_POOL => "update_audit_score_items"
  | E2E_AUDIT_SCORE_UPDATE_POOL => "update_e2e_audit_score_items"
  end.

Definition debug_of (p : pool) : string :=
  match p with
  | AUDIT_LOG_WRITE_POOL | E2E_AUDIT_LOG_WRITE_POOL => "task-accumulator:write_audit_log"
  | AUDIT_SCORE_UPDATE_POOL | E2E_AUDIT_SCORE_UPDATE_POOL =>
      "task-accumulator:update_audit_score"
  end.

Definition pending_text (p : pool) (count : nat) : string :=
  decimal (Z.of_nat count) +:+
  match p with
  | AUDIT_LOG_WRITE_POOL | E2E_AUDIT_LOG_WRITE_POOL =>
      " pending audit log writes currently in pool"
  | AUDIT_SCORE_UPDATE_POOL | E2E_AUDIT_SCORE_UPDATE_POOL =>
      " pending audit score updates currently in pool"
  end.

Definition queued_text (p : pool) (count : nat) : string :=
  decimal (Z.of_nat count) +:+
  match p with
  | AUDIT_LOG_WRITE_POOL => " audit log items queued for writing"
  | E2E_AUDIT_LOG_WRITE_POOL => " e2e audit log items queued for writing"
  | AUDIT_SCORE_UPDATE_POOL => " audit score items queued for updating"
  | E2E_AUDIT_SCORE_UPDATE_POOL => " E2E audit score items queued for updating"
  end.

Definition error_text (p : pool) : string :=
  match p with
  | AUDIT_LOG_WRITE_POOL => "Could not enqueue write task : "
  | E2E_AUDIT_LOG_WRITE_POOL => "Could not enqueue e2e write task : "
  | AUDIT_SCORE_UPDATE_POOL | E2E_AUDIT_SCORE_UPDATE_POOL =>
      "Could not enqueue update task : "
  end.

(** A drain suspended at [await taskQueue.enqueue(...)]: the pool it drains,
    the batch it spliced off the pool, and the number of iterations of its loop
    still to run after this one ([writeBatchesNeeded - x - 1]). *)
Record suspended := {
  of_pool : pool;
  pendingObjs : list pooled;
  remaining : nat
}.

(** How a run of a drain function ends for now: suspended at an [await], its
    promise fulfilled, or its promise rejected. *)
Inductive progress :=
| Awaiting (t : suspended)
| Fulfilled
| Rejected (e : exn).

(** [pendingObjs.forEach((item) => { if (item.msg !== null) amqpChannel.ack(item.msg) })],
    and the same with [nack]: [None] when the call on a [null] channel throws
    its TypeError, which happens at the first item that has a message. *)
Definition decisions (d : decision) (items : list pooled) : list (nat * decision) :=
  map (fun m => (deliveryTag m, d)) (omap item_msg items).

Definition settle_each (d : decision) (items : list pooled) (s : state) : option state :=
  if amqpChannel s then Some (record_settled (decisions d items) s)
  else match decisions d items with
       | [] => Some s
       | _ :: _ => None
       end.

(** [Math.ceil(count / size)]. *)
Definition ceil_div (count size : nat) : nat := ((count + (size - 1)) / size)%nat.

Section Drain.

Variable p : pool.

(** The [catch] block of an iteration, given how the loop goes on after it:
    the error is logged and the messages of the batch are rejected; a TypeError
    of [nack] leaves the function, so that its promise is rejected and the
    draining flag stays set. *)
Definition catch_block (error : exn) (pending : list pooled)
           (next : state -> state * progress) (s : state) : state * progress :=
  let s := log (Error (error_text p) (Some error)) s in
  match settle_each Nack pending s with
  | Some s' => next s'
  | None => (s, Rejected TypeError)
  end.

(** [taskQueue.enqueue('task-handler-queue', task, [JSON])] for a batch. *)
Definition enqueue_of (pending : list pooled) : enqueue_call :=
  {| enq_queue := "task-handler-queue";
     enq_task := task_of p;
     enq_items := map item_JSON pending |}.

(** The loop [for (x = 0; x < writeBatchesNeeded; x++)] from the iteration that
    has [n] iterations to run, up to its next [await], and the reset of the
    draining flag after the loop.  The call [taskQueue.enqueue] on a [null]
    queue is a TypeError inside the [try]. *)
Fixpoint batches (n : nat) (s : state) : state * progress :=
  match n with
  | O => (with_draining p false s, Fulfilled)
  | S n' =>
      let pending := take (batchSize p) (pools s p) in
      let s := with_pool p (drop (batchSize p) (pools s p)) s in
      if taskQueue s
      then (record_enqueue (enqueue_of pending) s,
            Awaiting {| of_pool := p; pendingObjs := pending; remaining := n' |})
      else catch_block TypeError pending (batches n') s
  end.

(** A drain function, from its call to its first [await]. *)
Definition drainPoolAsync (s : state) : state * progress :=
  if negb (draining s p) && amqpChannel s then
    let s := with_draining p true s in
    let count := length (pools s p) in
    let needed := ceil_div count (batchSize p) in
    let s := if (0 <? count)%nat then log (Debug (debug_of p) (pending_text p count)) s
             else s in
    batches needed s
  else (s, Fulfilled).

End Drain.

(** A suspended drain goes on when the promise of [taskQueue.enqueue] is
    settled: [reply] is [None] when it is fulfilled and the error when it is
    rejected. *)
Definition resume (t : suspended) (reply : option exn) (s : state) : state * progress :=
  let p := of_pool t in
  match reply with
  | None =>
      let s := log (Debug (debug_of p) (queued_text p (length (pendingObjs t)))) s in
      match settle_each Ack (pendingObjs t) s with
      | Some s' => batches p (remaining t) s'
      | None => catch_block p TypeError (pendingObjs t) (batches p (remaining t)) s
      end
  | Some error => catch_block p error (pendingObjs t) (batches p (remaining t)) s
  end.

(** What happens to the process: a delivery from the work queue, the interval
    of a drain function firing, the promise a suspended drain awaits being
    settled, and the callbacks the module hands to its connections (channel
    established, channel lost, task queue initialised, store connection
    lost). *)
Inductive event :=
| Deliver (msg : option message)
| Interval (p : pool)
| Settled (i : nat) (reply : option exn)
| ChannelEstablished
| ChannelLost
| QueueInitialised
| RedisLost.

(** The process: its variables and the drains suspended at an [await]. *)
Record process := {
  vars : state;
  awaiting : list suspended
}.

Definition keep (r : state * progress) (rest : list suspended) : process :=
  match r with
  | (s, Awaiting t) => {| vars := s; awaiting := rest ++ [t] |}
  | (s, _) => {| vars := s; awaiting := rest |}
  end.

Definition step (e : event) (P : process) : process :=
  match e with
  | Deliver msg =>
      {| vars := (processMessage msg (vars P)).1; awaiting := awaiting P |}
  | Interval p => keep (drainPoolAsync p (vars P)) (awaiting P)
  | Settled i reply =>
      match awaiting P !! i with
      | Some t => keep (resume t reply (vars P)) (delete i (awaiting P))
      | None => P
      end
  | ChannelEstablished =>
      {| vars := with_amqpChannel true (vars P); awaiting := awaiting P |}
  | ChannelLost =>
      {| vars := with_pool AUDIT_LOG_WRITE_POOL [] (with_amqpChannel false (vars P));
         awaiting := awaiting P |}
  | QueueInitialised =>
      {| vars := with_taskQueue true (vars P); awaiting := awaiting P |}
  | RedisLost =>
      {| vars := with_draining AUDIT_LOG_WRITE_POOL false (with_taskQueue false (vars P));
         awaiting := awaiting P |}
  end.

Definition run (events : list event) (P : process) : process :=
  fold_left (fun P e => step e P) events P.

(** The first [k] batches of [size] elements of a list, in order. *)
Fixpoint chunks {A} (size k : nat) (l : list A) : list (list A) :=
  match k with
  | O => []
  | S k' => take size l :: chunks size k' (drop size l)
  end.

(** The decisions a drain makes on a batch, by the reply to its enqueue. *)
Definition batch_decisions (batch : list pooled) (reply : option exn)
  : list (nat * decision) :=
  decisions (match reply with None => Ack | Some _ => Nack end) batch.

(** The delivery tags of the messages that a list of pool elements holds. *)
Definition tags (items : list pooled) : list nat :=
  map deliveryTag (omap item_msg items).

(** The delivery tags of the messages that a sequence of events delivers. *)
Definition delivered (events : list event) : list nat :=
  omap (fun e => match e with
                 | Deliver (Some m) => Some (deliveryTag m)
                 | _ => None
                 end) events.

(** The delivery tags the process holds: those of the messages in its pools,
    of the messages in the batches of its suspended drains, and of the
    decisions it has made. *)
Definition held (P : process) : list nat :=
  tags (pools (vars P) AUDIT_LOG_WRITE_POOL)
  ++ tags (pools (vars P) AUDIT_SCORE_UPDATE_POOL)
  ++ tags (pools (vars P) E2E_AUDIT_LOG_WRITE_POOL)
  ++ tags (pools (vars P) E2E_AUDIT_SCORE_UPDATE_POOL)
  ++ concat (map (fun t => tags (pendingObjs t)) (awaiting P))
  ++ map fst (settled (vars P)).

(** The suspended drains of a pool. *)
Definition in_flight (p : pool) (P : process) : list suspended :=
  filter (fun t => of_pool t = p) (awaiting P).

(** The calls of [taskQueue.enqueue] made for a pool. *)
Definition calls_of (p : pool) (s : state) : list enqueue_call :=
  filter (fun c => enq_task c = task_of p) (enqueued s).

(** The module as it is loaded: empty pools, no connection. *)
Definition start : process :=
  {| vars := {| pools := fun _ => []; draining := fun _ => false;
                amqpChannel := false; taskQueue := false;
                enqueued := []; settled := []; logged := [] |};
     awaiting := [] |}.

(** How often a delivery tag occurs in a list of tags. *)
Abbreviation occ x l := (count_occ Nat.eq_dec l x).

(** The occurrences of a tag in the pools and in the decisions made. *)
Definition weight (x : nat) (s : state) : nat :=
  (occ x (tags (pools s AUDIT_LOG_WRITE_POOL))
   + occ x (tags (pools s AUDIT_SCORE_UPDATE_POOL))
   + occ x (tags (pools s E2E_AUDIT_LOG_WRITE_POOL))
   + occ x (tags (pools s E2E_AUDIT_SCORE_UPDATE_POOL))
   + occ x (map fst (settled s)))%nat.

(** The occurrences of a tag in the batch a drain is suspended with. *)
Definition carried (x : nat) (pr : progress) : nat :=
  match pr with
  | Awaiting t => occ x (tags (pendingObjs t))
  | _ => 0%nat
  end.

Definition flying (x : nat) (ts : list suspended) : nat :=
  sum_list_with (fun t => occ x (tags (pendingObjs t))) ts.

(** The occurrences of a tag in what the process holds. *)
Definition total (x : nat) (P : process) : nat :=
  (weight x (vars P) + flying x (awaiting P))%nat.

(** Nothing of pool [q] differs between two states: its elements, its flag,
    the calls made for it. *)
Definition untouched (q : pool) (s s' : state) : Prop :=
  pools s' q = pools s q /\ draining s' q = draining s q /\
  calls_of q s' = calls_of q s.

(** What a run of the loop of pool [p] does to the flags, and which drain it
    leaves suspended. *)
Definition loop_effect (p : pool) (s : state) (r : state * progress) : Prop :=
  (forall q, q <> p -> untouched q s r.1) /\
  match r.2 with
  | Awaiting t => of_pool t = p /\ draining r.1 p = draining s p
  | Fulfilled => draining r.1 p = false
  | Rejected _ => draining r.1 p = draining s p
  end.

(** At most one drain of pool [p] is suspended, and the flag of the pool is set
    while one is. *)
Definition single (p : pool) (P : process) : Prop :=
  (length (in_flight p P) <= 1)%nat /\
  (in_flight p P <> [] -> draining (vars P) p = true).

(** The flag of pool [p] is set and no drain of the pool is suspended. *)
Definition blocked (p : pool) (P : process) : Prop :=
  draining (vars P) p = true /\ in_flight p P = [].

End TaskAccumulator.

(** ** Strings and patterns of the API endpoints *)

(** A string is the sequence of its code units, each below 256: the values of
    the headers of a request are such strings, and a character beyond that
    range is no digit and no letter of the patterns below. *)

Module Text.
Import Stdlib.Strings.Ascii.

Definition code (c : ascii) : nat := nat_of_ascii c.

(** [lo <= c <= hi] on code units. *)
Definition in_range (lo hi c : ascii) : bool :=
  (code lo <=? code c)%nat && (code c <=? code hi)%nat.

(** [String.prototype.toLowerCase] on one code unit: the letters [A-Z] and the
    capital letters of Latin-1 (all of [C0-DE] but the multiplication sign). *)
Definition lower (c : ascii) : ascii :=
  let n := code c in
  if ((65 <=? n) && (n <=? 90) || (192 <=? n) && (n <=? 222) && negb (n =? 215))%nat
  then ascii_of_nat (n + 32)
  else c.

Fixpoint toLowerCase (s : string) : string :=
  match s with
  | EmptyString => EmptyString
  | String c s' => String (lower c) (toLowerCase s')
  end.

(** White space and line terminators, as [trim] and [parseInt] skip them. *)
Definition is_space (c : ascii) : bool :=
  let n := code c in
  ((9 <=? n) && (n <=? 13) || (n =? 32) || (n =? 160))%nat.

Fixpoint trimStart (s : string) : string :=
  match s with
  | EmptyString => EmptyString
  | String c s' => if is_space c then trimStart s' else s
  end.

(** [trimEnd]: the string up to its last character that is no white space. *)
Fixpoint trimEnd (s : string) : string :=
  match s with
  | EmptyString => EmptyString
  | String c s' =>
      match trimEnd s' with
      | EmptyString => if is_space c then EmptyString else String c EmptyString
      | rest => String c rest
      end
  end.

Definition trim (s : string) : string := trimEnd (trimStart s).

(** [s.split(sep)] for a separator of one character: the pieces between the
    separators, at least one. *)
Fixpoint split (sep : ascii) (s : string) : list string :=
  match s with
  | EmptyString => [EmptyString]
  | String c s' =>
      if Ascii.eqb c sep then EmptyString :: split sep s'
      else match split sep s' with
           | piece :: pieces => String c piece :: pieces
           | [] => [String c EmptyString]
           end
  end.

(** The patterns of the regular expressions of the endpoints: a character, a
    range of a class, an alternative of a class, a sequence, and a bounded
    repetition [r{lo,hi}] ([r{n}] is [r{n,n}]). *)
Inductive regex :=
| Chr (c : ascii)
| Range (lo hi : ascii)
| Alt (r1 r2 : regex)
| Seq (r1 r2 : regex)
| Repeat (r : regex) (lo hi : nat).

(** The canonical form of a code unit under the flag [i]: the code unit of its
    upper case, unless the upper case takes two code units (the sharp s) or
    would turn a code unit from 128 on into one below.  The upper cases of the
    micro sign and of the y with diaeresis lie beyond 255. *)
Definition canonical (ignoreCase : bool) (c : ascii) : nat :=
  let n := code c in
  if negb ignoreCase then n
  else if ((97 <=? n) && (n <=? 122))%nat then (n - 32)%nat
  else if ((224 <=? n) && (n <=? 254) && negb (n =? 247))%nat then (n - 32)%nat
  else if (n =? 255)%nat then 376%nat
  else if (n =? 181)%nat then 924%nat
  else n.

(** Some character of the range has the canonical form of [c]. *)
Definition in_canonical_range (ignoreCase : bool) (lo hi c : ascii) : bool :=
  existsb (fun n => (canonical ignoreCase (ascii_of_nat n) =? canonical ignoreCase c)%nat)
          (seq (code lo) (S (code hi) - code lo)).

(** Repetition of a matcher between [lo] and [hi] times. *)
Fixpoint repeat_rest (step : string -> list string) (lo hi : nat) (s : string)
  : list string :=
  (match lo with O => [s] | S _ => [] end)
  ++ match hi with
     | O => []
     | S hi' => flat_map (repeat_rest step (pred lo) hi') (step s)
     end.

(** What can be left of [s] after a match of [r] at its start. *)
Fixpoint rest (ignoreCase : bool) (r : regex) (s : string) : list string :=
  match r with
  | Chr c =>
      match s with
      | String x s' =>
          if (canonical ignoreCase x =? canonical ignoreCase c)%nat then [s'] else []
      | EmptyString => []
      end
  | Range lo hi =>
      match s with
      | String x s' => if in_canonical_range ignoreCase lo hi x then [s'] else []
      | EmptyString => []
      end
  | Alt r1 r2 => rest ignoreCase r1 s ++ rest ignoreCase r2 s
  | Seq r1 r2 => flat_map (rest ignoreCase r2) (rest ignoreCase r1 s)
  | Repeat r lo hi => repeat_rest (rest ignoreCase r) lo hi s
  end.

(** [/^r$/.test(s)], with the flag [i] or without: some match of [r] at the
    start of [s] leaves nothing. *)
Definition test (ignoreCase : bool) (r : regex) (s : string) : bool :=
  existsb (String.eqb EmptyString) (rest ignoreCase r s).

(** [/^bearer$/i] *)
Definition bearer_pattern : regex :=
  Seq (Chr "b") (Seq (Chr "e") (Seq (Chr "a") (Seq (Chr "r") (Seq (Chr "e") (Chr "r"))))).

(** [/^0x[0-9a-f]{40}$/i] *)
Definition tnt_address_pattern : regex :=
  Seq (Chr "0") (Seq (Chr "x") (Repeat (Alt (Range "0" "9") (Range "a" "f")) 40 40)).

(** [/^([a-fA-F0-9]{2}){20,64}$/] *)
Definition hash_pattern : regex :=
  Repeat (Repeat (Alt (Range "a" "f") (Alt (Range "A" "F") (Range "0" "9"))) 2 2) 20 64.

(** A decimal digit. *)
Definition is_digit (c : ascii) : bool := in_range "0" "9" c.

(** A character of a printed integer. *)
Definition plain (c : ascii) : bool := is_digit c || Ascii.eqb c "-".

(** A hexadecimal digit, in either case. *)
Definition is_hex (c : ascii) : bool :=
  in_range "0" "9" c || in_range "a" "f" c || in_range "A" "F" c.

(** A hexadecimal digit that is no capital letter. *)
Definition is_lower_hex (c : ascii) : bool :=
  in_range "0" "9" c || in_range "a" "f" c.

(** Every character of the string satisfies [f]. *)
Fixpoint all (f : ascii -> bool) (s : string) : bool :=
  match s with
  | EmptyString => true
  | String c s' => f c && all f s'
  end.

(** [t] is what is left of [s] after [k] steps of a matcher. *)
Fixpoint reach (step : string -> list string) (k : nat) (s t : string) : Prop :=
  match k with
  | O => s = t
  | S k' => exists u, In u (step s) /\ reach step k' u t
  end.

End Text.

(** ** Numbers read from text *)

Module Number.
Import Stdlib.Strings.Ascii Text.

(** The numbers that [parseInt] and [Math.floor] give: no number, an integer
    that a double holds, or an infinity. *)
Inductive number :=
| NotANumber
| Int (z : Z)
| Infinity (negative : bool).

(** [n / d] rounded to the nearest integer, a tie to the even one. *)
Definition round_half_even (n d : Z) : Z :=
  let q := n / d in
  let r := n mod d in
  if 2 * r <? d then q
  else if d <? 2 * r then q + 1
  else if Z.even q then q else q + 1.

(** The double nearest to an integer: the integer itself up to 2^53, beyond
    that the nearest multiple of the spacing of the doubles of its size (53
    significant bits, a tie to the even one), and an infinity from 2^1024 on. *)
Definition to_double (z : Z) : number :=
  let a := Z.abs z in
  if a <=? 2 ^ 53 then Int z
  else
    let e := Z.log2 a - 52 in
    let m := round_half_even a (2 ^ e) in
    if 2 ^ 1024 <=? m * 2 ^ e then Infinity (z <? 0)
    else Int (Z.sgn z * (m * 2 ^ e)).

(** [Math.floor(x / d)] for integers [x >= d > 0] that doubles hold: the
    quotient is rounded to 53 significant bits before [Math.floor] is taken. *)
Definition floor_of_quotient (x d : Z) : Z :=
  let k := Z.log2 x - Z.log2 d in
  let e := (if x <? d * 2 ^ k then k - 1 else k) - 52 in
  if e <? 0 then round_half_even (x * 2 ^ (- e)) d / 2 ^ (- e)
  else round_half_even x (d * 2 ^ e) * 2 ^ e.

(** The value of a digit in a radix of at most 36. *)
Definition digit_value (radix : Z) (c : ascii) : option Z :=
  let n := Z.of_nat (code c) in
  let v := if (48 <=? n) && (n <=? 57) then Some (n - 48)
           else if (97 <=? n) && (n <=? 122) then Some (n - 87)
           else if (65 <=? n) && (n <=? 90) then Some (n - 55)
           else None in
  match v with
  | Some d => if d <? radix then Some d else None
  | None => None
  end.

(** The digits at the start of [s], up to the first character that is none. *)
Fixpoint digits (radix : Z) (s : string) : list Z :=
  match s with
  | EmptyString => []
  | String c s' =>
      match digit_value radix c with
      | Some d => d :: digits radix s'
      | None => []
      end
  end.

Definition value_of (radix : Z) (ds : list Z) : Z :=
  fold_left (fun acc d => acc * radix + d) ds 0.

(** The sign that starts a number. *)
Definition sign_of (s : string) : bool * string :=
  match s with
  | String "-" r => (true, r)
  | String "+" r => (false, r)
  | _ => (false, s)
  end.

(** The radix that [0x] or [0X] announces, ten without it. *)
Definition radix_of (s : string) : Z * string :=
  match s with
  | String "0" (String "x" r) => (16, r)
  | String "0" (String "X" r) => (16, r)
  | _ => (10, s)
  end.

(** [parseInt(s)] without a radix: leading white space is skipped, a sign and
    then [0x] or [0X] are taken, and the longest run of digits is read; no
    digit gives NaN.  Zero stands for both zeros. *)
Definition parseInt (s : string) : number :=
  let '(negative, s2) := sign_of (trimStart s) in
  let '(radix, s3) := radix_of s2 in
  match digits radix s3 with
  | [] => NotANumber
  | ds => to_double (if negative then - value_of radix ds else value_of radix ds)
  end.

(** A text that can follow the digits of a number without being read with
    them: it does not start with a digit, nor with the [x] that announces
    hexadecimal digits after a zero. *)
Definition ends_number (rest : string) : bool :=
  match rest with
  | EmptyString => true
  | String c _ => negb (is_digit c) && negb (Ascii.eqb c "x") && negb (Ascii.eqb c "X")
  end.

(** [!n] *)
Definition falsy (n : number) : bool :=
  match n with
  | NotANumber => true
  | Int z => z =? 0
  | Infinity _ => false
  end.

(** [n > b] for an integer [b]. *)
Definition gt (n : number) (b : Z) : bool :=
  match n with
  | NotANumber => false
  | Int z => b <? z
  | Infinity negative => negb negative
  end.

(** [a < n] for an integer [a]. *)
Definition lt (a : Z) (n : number) : bool := gt n a.

(** [Math.floor(n / 1000)], for [n > 1000000000000]. *)
Definition floor_thousandth (n : number) : number :=
  match n with
  | Int z => Int (floor_of_quotient z 1000)
  | other => other
  end.

(** The text of a time value in a template literal. *)
Definition time_text (t : option Z) : string :=
  match t with
  | Some z => decimal z
  | None => "NaN"
  end.

End Number.

(** ** The NIST value held by the hashes endpoint, and the service that
       publishes it *)

Module Nist.
Import Stdlib.Strings.Ascii Text Number.

(** The module variables [nistLatest] and [nistLatestEpoch] of the endpoint
    ([None] is [null]), and the errors whose message [console.error] printed. *)
Record vars := {
  nistLatest : option string;
  nistLatestEpoch : option number;
  printed : list exn
}.

Definition bad_nist_time : exn :=
  LibError "Bad NIST time encountered, skipping NTP/UUID > NIST validation".

Definition disabled (e : exn) (v : vars) : vars :=
  {| nistLatest := None; nistLatestEpoch := None; printed := printed v ++ [e] |}.

(** [updateNistVars(nistValue)]; [None] is a value that has no [split]
    ([undefined] or [null]). *)
Definition updateNistVars (nistValue : option string) (v : vars) : vars :=
  match nistValue with
  | None => disabled TypeError v
  | Some value =>
      let nistTimestampString := hd EmptyString (split ":" value) in
      let nistTimestampInt := parseInt nistTimestampString in
      if falsy nistTimestampInt then disabled bad_nist_time v
      else
        let nistTimestampInt :=
          if gt nistTimestampInt 1000000000000 then floor_thousandth nistTimestampInt
          else nistTimestampInt in
        {| nistLatest := Some value;
           nistLatestEpoch := Some nistTimestampInt;
           printed := printed v |}
  end.

(** The pulse of the beacon as [getNistLatestAsync] reads it: the time value
    of [new Date(result.pulse.timeStamp)] and the random value. *)
Record pulse := {
  timeStamp : Date;
  localRandomValue : string
}.

(** The key of the key-value store that holds the NIST value, the replies of
    the store to [get] and [set] ([Some err] for an error), and what the
    service logged (an error object or a text). *)
Record service := {
  NIST_KEY_value : option string;
  get_error : option exn;
  set_error : option exn;
  logged : list (stream * (exn + string))
}.

Definition timeAndSeed (p : pulse) : string :=
  toLowerCase (time_text (timeStamp p) +:+ ":" +:+ localRandomValue p).

(** [getNistLatestAsync] with the pulse the beacon returned, or the error it
    failed with; an error of [set] is thrown from its callback. *)
Definition getNistLatestAsync (beacon : exn + pulse) (s : service) : service * result unit :=
  match beacon with
  | inl error =>
      ({| NIST_KEY_value := NIST_KEY_value s; get_error := get_error s;
          set_error := set_error s;
          logged := logged s ++ [(Stderr, inl error)] |}, Ok tt)
  | inr p =>
      match get_error s with
      | Some err =>
          ({| NIST_KEY_value := NIST_KEY_value s; get_error := get_error s;
              set_error := set_error s;
              logged := logged s ++ [(Stderr, inl err)] |}, Ok tt)
      | None =>
          if bool_decide (NIST_KEY_value s = Some (timeAndSeed p)) then (s, Ok tt)
          else
            let s' := {| NIST_KEY_value := NIST_KEY_value s; get_error := get_error s;
                         set_error := set_error s;
                         logged := logged s
                                   ++ [(Stdout, inr ("New NIST value received: " +:+ timeAndSeed p))] |} in
            match set_error s with
            | Some err => (s', Throw err)
            | None =>
                ({| NIST_KEY_value := Some (timeAndSeed p); get_error := get_error s';
                    set_error := set_error s'; logged := logged s' |}, Ok tt)
            end
      end
  end.

End Nist.

(** ** The endpoints of the API service *)

Module Api.
Import Stdlib.Strings.Ascii Text.

(** The errors of restify that the handlers pass to [next]. *)
Inductive restify_error :=
| InvalidCredentialsError
| InvalidArgumentError
| InternalError
| InternalServerError
| NotAuthorizedError.

(** A row of the table of registered Nodes, as far as the handlers read it. *)
Record RegisteredNode := {
  tntAddr : string;
  hmacKey : string;
  tntCredit : string
}.

(** [req.headers[name]]; [None] also when the request has no headers. *)
Definition header (headers : option (gmap string string)) (name : string) : option string :=
  match headers with
  | Some hs => hs !! name
  | None => None
  end.

(** The string that a present field holds. *)
Definition text (field : option string) : string :=
  match field with
  | Some s => s
  | None => EmptyString
  end.

(** The checks of the [authorization] and [tnt-address] headers that open both
    handlers: the error to answer with, or the segments of the authorization
    value and the address in lower case. *)
Definition credentials (headers : option (gmap string string))
  : restify_error * string + list string * string :=
  if negb (truthy (header headers "authorization"))
  then inl (InvalidCredentialsError, "authorization denied: missing authorization key"%string)
  else
    let authValueSegments := split " " (text (header headers "authorization")) in
    if negb (length authValueSegments =? 2)%nat
       || negb (test true bearer_pattern (nth 0 authValueSegments EmptyString))
    then inl (InvalidCredentialsError, "authorization denied: bad authorization value"%string)
    else if negb (truthy (header headers "tnt-address"))
    then inl (InvalidCredentialsError, "authorization denied: missing tnt-address key"%string)
    else if negb (test true tnt_address_pattern (text (header headers "tnt-address")))
    then inl (InvalidCredentialsError, "authorization denied: invalid tnt-address value"%string)
    else inr (authValueSegments, toLowerCase (text (header headers "tnt-address"))).

(** [async.eachLimit]: the iteratee on every element.  The iteratees of the
    handler below only read the clock and the key-value store, so that running
    up to fifty of them at once gives what running them in turn gives; the
    objects of decoded proofs are allocated in the order of the list. *)
Fixpoint eachLimit {A B} (iteratee : A -> IO B) (coll : list A) : IO (list B) :=
  match coll with
  | [] => ret []
  | a :: coll' =>
      b <- iteratee a ;;
      bs <- eachLimit iteratee coll' ;;
      ret (b :: bs)
  end.

(** A request of [GET /proofs/:hash_id]: the headers, the path parameter
    ([None] when [req.params] is missing or has none), and whether
    [req.accepts(JSONLD_MIME_TYPE)]. *)
Record request := {
  headers : option (gmap string string);
  params_hash_id : option string;
  accepts_jsonld : bool
}.

(** What the handler answers: [next(error)], or [res.send] with the array of
    [{hash_id, proof}]. *)
Inductive answer :=
| Next (error : restify_error) (message : string)
| Send (hashIdResults : list (string * proof_field)).

Section Proofs.

Variable env : Env.

(** [env.GET_PROOFS_MAX_REST] *)
Variable GET_PROOFS_MAX_REST : Z.

Variable uuidTime_v1 : val -> result jsnum.
Variable uuidValidate : string -> Z -> bool.
Variable binaryToObject : option string -> JS (exn + val).

(** [RegisteredNode.findOne] for an address: the error it is rejected with,
    or the row found ([None] for [null]). *)
Variable findOne : string -> exn + option RegisteredNode.

(** [error.message] *)
Variable error_message : exn -> string.

(** [crypto.createHmac('sha256', key).update(data).digest('hex')] *)
Variable hmac_sha256_hex : string -> string -> string.

(** The hash ids of a request: the one of the path, which must be a version 1
    UUID, or else those of the [hashids] header. *)
Definition requested (req : request) : answer + list string :=
  if truthy (params_hash_id req) then
    if negb (uuidValidate (text (params_hash_id req)) 1)
    then inl (Next InvalidArgumentError "invalid request: bad hash_id")
    else inr [text (params_hash_id req)]
  else if truthy (header (headers req) "hashids")
  then inr (split "," (text (header (headers req) "hashids")))
  else inr [].

Definition getProofsByIDV1Async (req : request) : IO answer :=
  match credentials (headers req) with
  | inl (error, message) => ret (Next error message)
  | inr (authValueSegments, tntAddrHeaderParam) =>
      match requested req with
      | inl refused => ret refused
      | inr hashIdResults =>
          if (length hashIdResults =? 0)%nat
          then ret (Next InvalidArgumentError
                         "invalid request: at least one hash id required")
          else if GET_PROOFS_MAX_REST <? Z.of_nat (length hashIdResults)
          then ret (Next InvalidArgumentError
                         ("invalid request: too many hash ids ("
                          +:+ decimal GET_PROOFS_MAX_REST +:+ " max)"))
          else
            match findOne tntAddrHeaderParam with
            | inl error =>
                ret (Next InvalidCredentialsError
                          ("authorization denied: " +:+ error_message error))
            | inr None =>
                ret (Next InvalidCredentialsError "authorization denied: unknown tnt-address")
            | inr (Some regNode) =>
                let hmac := hmac_sha256_hex (hmacKey regNode) (tntAddr regNode) in
                if negb (String.eqb (nth 1 authValueSegments EmptyString) hmac)
                then ret (Next InvalidCredentialsError "authorization denied: bad hmac value")
                else
                  let hash_ids := map trim hashIdResults in
                  let requestedType :=
                    if accepts_jsonld req then JSONLD_MIME_TYPE else BASE64_MIME_TYPE in
                  proofs <- eachLimit
                              (getProofsByIDV1Async_each env uuidTime_v1 uuidValidate
                                                         binaryToObject requestedType)
                              hash_ids ;;
                  ret (Send (zip hash_ids proofs))
            end
      end
  end.

(** The clock, the key-value store and its replies as the iteratees read
    them. *)
Definition same_reads (w w' : world) : Prop :=
  clock w' = clock w /\ redis_strings w' = redis_strings w /\ io w' = io w.

(** What it takes for the proof of a hash id to be looked up: the id is a
    version 1 UUID, its time is not older than [maxDiff], and the store
    answers. *)
Definition passed_gate (w : world) (hash_id : string) : Prop :=
  uuidValidate hash_id 1 = true
  /\ (exists t, uuidTime_v1 (VStr hash_id) = Ok t
                /\ num_gt (num_sub (clock w) t) (maxDiff env) = false)
  /\ get_reply (io w) = None.

End Proofs.

(** *** [POST /hash] *)

Section Hashes.
Import Number Nist.

(** [env.RMQ_WORK_OUT_AGG_QUEUE] and [env.BALANCE_CHECK_KEY_PREFIX] *)
Variable RMQ_WORK_OUT_AGG_QUEUE : string.
Variable BALANCE_CHECK_KEY_PREFIX : string.

(** The text of [tntUnits.grainsToTNT(minGrainsBalanceNeeded)]. *)
Variable minTNTBalanceNeeded : string.

Variable findOne : string -> exn + option RegisteredNode.
Variable hmac_sha256_hex : string -> string -> string.

(** The five bytes of the BLAKE2s hash, personalized with [CHAINPNT], of the
    bytes of a text. *)
Variable blake2s : string -> list Z.

(** [uuidv1({msecs, node})] of the uuid package, which keeps the time and the
    sequence of its last call. *)
Context {uuid_state : Type}.
Variable uuidv1 : Z -> list Z -> uuid_state -> uuid_state * result string.

(** [formatDateISO8601NoMs], [addMinutes] and [addSeconds] of [utils.js], on
    time values. *)
Variable utils_formatDateISO8601NoMs : Z -> string.
Variable utils_addMinutes : Z -> Z -> Z.
Variable utils_addSeconds : Z -> Z -> Z.

(** [new Date(t)] then [setHours(getHours(), 0, 0, 0)]: the start of the hour
    of [t] in the time zone of the process. *)
Variable start_of_local_hour : Z -> Z.

(** [parseFloat] of the credit of a Node, [None] for a credit that is
    missing. *)
Context {float : Type}.
Variable parseFloat : option string -> float.

(** What the handler prints with [console.error]. *)
Inductive printed_line :=
| BadNTPTime (NTPEpoch : Z) (nistLatestEpoch : option number)
| UnableToQueryBalanceKeys (error : exn)
| UnableToQueryRedis (error : exn)
| UnableToWriteToRedis (error : exn)
| CouldNotQueryRegisteredNodes (error : exn)
| PublishMessageNacked (queue : string).

(** A message sent to a queue: the object whose JSON text is the content, and
    the [persistent] option. *)
Record queued := {
  queue_name : string;
  hashObj_hash_id : string;
  hashObj_hash : string;
  hashObj_nist : string;
  queued_persistent : bool
}.

(** The replies of the store and of the broker to the calls of one request:
    [Some error] when the call is rejected. *)
Record faults := {
  get_fault : option exn;
  hgetall_fault : option exn;
  hmset_fault : option exn;
  expire_fault : option exn;
  sendToQueue_fault : option exn
}.

(** The state the handler runs in: the module variables, the clock (which
    stands still while a request is handled), the state of the uuid generator,
    the store (string keys, hashes, and the times at which keys expire), the
    replies to come, and what was sent and printed. *)
Record state := {
  vars : Nist.vars;
  amqpChannel : bool;
  enforcePrivateNodeStake : bool;
  now : Z;
  uuids : uuid_state;
  strings : gmap string string;
  hashes : gmap string (gmap string string);
  expires_at : gmap string Z;
  replies_of : faults;
  sent : list queued;
  errors : list printed_line
}.

Record processing_hints := {
  hint_cal : string;
  hint_eth : string;
  hint_btc : string
}.

Record response := {
  hash_id : string;
  hash : string;
  nist : string;
  submitted_at : string;
  hints : processing_hints;
  tnt_credit_balance : float
}.

(** A request of [POST /hash]: [req.contentType()], the headers, and the
    parameters parsed from the body. *)
Record post := {
  contentType : string;
  post_headers : option (gmap string string);
  params : gmap string val
}.

Inductive outcome :=
| Refused (error : restify_error) (message : string)
| Accepted (responseObj : response).

(** The Node that authenticates a request: a row of the table, or the fields
    of the hash that caches one. *)
Inductive node :=
| Row (r : RegisteredNode)
| Cached (fields : gmap string string).

Definition node_tntAddr (n : node) : option string :=
  match n with
  | Row r => Some (tntAddr r)
  | Cached m => m !! "tntAddr"
  end.

Definition node_hmacKey (n : node) : option string :=
  match n with
  | Row r => Some (hmacKey r)
  | Cached m => m !! "hmacKey"
  end.

Definition node_tntCredit (n : node) : option string :=
  match n with
  | Row r => Some (tntCredit r)
  | Cached m => m !! "tntCredit"
  end.

Definition print (line : printed_line) (s : state) : state :=
  {| vars := vars s; amqpChannel := amqpChannel s;
     enforcePrivateNodeStake := enforcePrivateNodeStake s; now := now s; uuids := uuids s;
     strings := strings s; hashes := hashes s; expires_at := expires_at s;
     replies_of := replies_of s; sent := sent s; errors := errors s ++ [line] |}.

(** The fields of a hash of the store that has not expired. *)
Definition live (s : state) (key : string) : option (gmap string string) :=
  match hashes s !! key with
  | Some fields =>
      match expires_at s !! key with
      | Some t => if t <=? now s then None else Some fields
      | None => Some fields
      end
  | None => None
  end.

(** [redis.hmset(key, fields)]: the fields are added to the hash, which is a
    new one if the key had expired. *)
Definition hmset (key : string) (fields : gmap string string) (s : state) : state :=
  {| vars := vars s; amqpChannel := amqpChannel s;
     enforcePrivateNodeStake := enforcePrivateNodeStake s; now := now s; uuids := uuids s;
     strings := strings s;
     hashes := <[key := fields ∪ default ∅ (live s key)]> (hashes s);
     expires_at := match live s key with
                   | Some _ => expires_at s
                   | None => delete key (expires_at s)
                   end;
     replies_of := replies_of s; sent := sent s; errors := errors s |}.

(** [redis.expire(key, seconds)] *)
Definition expire (key : string) (seconds : Z) (s : state) : state :=
  {| vars := vars s; amqpChannel := amqpChannel s;
     enforcePrivateNodeStake := enforcePrivateNodeStake s; now := now s; uuids := uuids s;
     strings := strings s; hashes := hashes s;
     expires_at := match live s key with
                   | Some _ => <[key := now s + seconds * 1000]> (expires_at s)
                   | None => expires_at s
                   end;
     replies_of := replies_of s; sent := sent s; errors := errors s |}.

Definition sendToQueue (m : queued) (s : state) : state :=
  {| vars := vars s; amqpChannel := amqpChannel s;
     enforcePrivateNodeStake := enforcePrivateNodeStake s; now := now s; uuids := uuids s;
     strings := strings s; hashes := hashes s; expires_at := expires_at s;
     replies_of := replies_of s; sent := sent s ++ [m]; errors := errors s |}.

(** The state when the clock has advanced. *)
Definition later_by (ms : Z) (s : state) : state :=
  {| vars := vars s; amqpChannel := amqpChannel s;
     enforcePrivateNodeStake := enforcePrivateNodeStake s; now := now s + ms; uuids := uuids s;
     strings := strings s; hashes := hashes s; expires_at := expires_at s;
     replies_of := replies_of s; sent := sent s; errors := errors s |}.

Definition with_uuids (u : uuid_state) (s : state) : state :=
  {| vars := vars s; amqpChannel := amqpChannel s;
     enforcePrivateNodeStake := enforcePrivateNodeStake s; now := now s; uuids := u;
     strings := strings s; hashes := hashes s; expires_at := expires_at s;
     replies_of := replies_of s; sent := sent s; errors := errors s |}.

(** The text that the hash id verifies: the time, the hash and the NIST value,
    each followed by its length. *)
Definition hashStr (timestampMS : Z) (hash hashNIST : string) : string :=
  join ":" [ decimal timestampMS;
             decimal (Z.of_nat (String.length (decimal timestampMS)));
             hash;
             decimal (Z.of_nat (String.length hash));
             hashNIST;
             decimal (Z.of_nat (String.length hashNIST)) ].

Definition generateProcessingHints (timestampDate : Z) : processing_hints :=
  let twoHoursFromTimestamp := utils_addMinutes timestampDate 120 in
  let oneHourFromTopOfTheHour := start_of_local_hour twoHoursFromTimestamp in
  {| hint_cal := utils_formatDateISO8601NoMs (utils_addSeconds timestampDate 10);
     hint_eth := utils_formatDateISO8601NoMs (utils_addMinutes timestampDate 41);
     hint_btc := utils_formatDateISO8601NoMs oneHourFromTopOfTheHour |}.

Definition generatePostHashResponse (hash : string) (regNode : node)
  : ST state response :=
  fun s =>
    let hash := toLowerCase hash in
    let hashNIST := if truthy (nistLatest (vars s)) then text (nistLatest (vars s))
                    else EmptyString in
    let timestampMS := now s in
    match uuidv1 timestampMS (1 :: blake2s (hashStr timestampMS hash hashNIST)) (uuids s) with
    | (u, Throw e) => (with_uuids u s, Throw e)
    | (u, Ok hashId) =>
        (with_uuids u s,
         Ok {| hash_id := hashId;
               hash := hash;
               nist := hashNIST;
               submitted_at := utils_formatDateISO8601NoMs timestampMS;
               hints := generateProcessingHints timestampMS;
               tnt_credit_balance := parseFloat (node_tntCredit regNode) |})
    end.

(** [Math.ceil(Date.now() / 1000) + 1]; a time value is far below 2^53, where
    the rounding of the quotient does not move its ceiling. *)
Definition NTPEpoch (s : state) : Z := - (- now s / 1000) + 1.

(** [NTPEpoch < nistLatestEpoch], where [null] compares as zero. *)
Definition before (a : Z) (n : option number) : bool :=
  match n with
  | Some n => lt a n
  | None => a <? 0
  end.

Definition cache_key (tntAddrHeaderParam : string) : string :=
  "tntAddr:cachedHMAC:" +:+ tntAddrHeaderParam.

(** The fields under which a row is cached. *)
Definition cached_fields (r : RegisteredNode) : gmap string string :=
  {[ "tntAddr"%string := tntAddr r; "hmacKey"%string := hmacKey r;
     "tntCredit"%string := tntCredit r ]}.

(** The row of the table for an address, which is then cached for a day; a
    failure to cache it is printed and changes nothing else. *)
Definition from_table (tntAddrHeaderParam : string)
  : state -> state * (restify_error * string + node) :=
  fun s =>
    match findOne tntAddrHeaderParam with
    | inl error =>
        (print (CouldNotQueryRegisteredNodes error) s,
         inl (InternalServerError, "Could not query registered nodes"%string))
    | inr None =>
        (s, inl (InvalidCredentialsError, "authorization denied: unknown tnt-address"%string))
    | inr (Some r) =>
        (match hmset_fault (replies_of s) with
         | Some error => print (UnableToWriteToRedis error) s
         | None =>
             let s' := hmset (cache_key tntAddrHeaderParam) (cached_fields r) s in
             match expire_fault (replies_of s') with
             | Some error => print (UnableToWriteToRedis error) s'
             | None => expire (cache_key tntAddrHeaderParam) (60 * 60 * 24) s'
             end
         end,
         inr (Row r))
    end.

(** The Node of an address: the cached one if the cache answers and holds
    one, the row of the table otherwise. *)
Definition lookup (tntAddrHeaderParam : string)
  : state -> state * (restify_error * string + node) :=
  fun s =>
    match hgetall_fault (replies_of s) with
    | Some error => from_table tntAddrHeaderParam (print (UnableToQueryRedis error) s)
    | None =>
        match live s (cache_key tntAddrHeaderParam) with
        | Some fields =>
            if decide (fields = ∅) then from_table tntAddrHeaderParam s
            else (s, inr (Cached fields))
        | None => from_table tntAddrHeaderParam s
        end
    end.

(** The lookup and the check of the HMAC, which throws into the outer [catch]
    when the Node lacks its key or its address. *)
Definition authenticate (authValueSegments : list string) (tntAddrHeaderParam : string)
  : state -> state * (restify_error * string + node) :=
  fun s =>
    match lookup tntAddrHeaderParam s with
    | (s', inl refusal) => (s', inl refusal)
    | (s', inr regNode) =>
        match node_hmacKey regNode, node_tntAddr regNode with
        | Some key, Some data =>
            if negb (String.eqb (nth 1 authValueSegments EmptyString)
                                (hmac_sha256_hex key data))
            then (s', inl (InvalidCredentialsError,
                           "authorization denied: bad hmac value"%string))
            else (s', inr regNode)
        | _, _ =>
            (print (CouldNotQueryRegisteredNodes TypeError) s',
             inl (InternalServerError, "Could not query registered nodes"%string))
        end
    end.

(** The check of the balance of a private Node: whether the request goes on.
    An error of the store is printed and lets it go on. *)
Definition balance_checked (tntAddrHeaderParam : string) : state -> state * bool :=
  fun s =>
    if enforcePrivateNodeStake s then
      match get_fault (replies_of s) with
      | Some error => (print (UnableToQueryBalanceKeys error) s, true)
      | None =>
          (s, bool_decide (is_Some (strings s !! (BALANCE_CHECK_KEY_PREFIX +:+ ":"
                                                  +:+ tntAddrHeaderParam))))
      end
    else (s, true).

Definition postHashV1Async (req : post) : state -> state * result outcome :=
  fun s =>
    if negb (String.eqb (contentType req) "application/json")
    then (s, Ok (Refused InvalidArgumentError "invalid content type"))
    else
      match credentials (post_headers req) with
      | inl (error, message) => (s, Ok (Refused error message))
      | inr (authValueSegments, tntAddrHeaderParam) =>
          match params req !! "hash" with
          | None => (s, Ok (Refused InvalidArgumentError "invalid JSON body: missing hash"))
          | Some (VStr submitted) =>
              if negb (test false hash_pattern submitted)
              then (s, Ok (Refused InvalidArgumentError
                                   "invalid JSON body: bad hash submitted"))
              else if truthy (nistLatest (vars s))
                      && before (NTPEpoch s) (nistLatestEpoch (vars s))
              then (print (BadNTPTime (NTPEpoch s) (nistLatestEpoch (vars s))) s,
                    Ok (Refused InternalServerError "Bad NTP time"))
              else if negb (amqpChannel s)
              then (s, Ok (Refused InternalServerError "Message could not be delivered"))
              else
                match balance_checked tntAddrHeaderParam s with
                | (s1, false) =>
                    (s1, Ok (Refused NotAuthorizedError
                                     ("TNT address " +:+ tntAddrHeaderParam
                                      +:+ " does not have the minimum balance of "
                                      +:+ minTNTBalanceNeeded
                                      +:+ " TNT for Node operation")))
                | (s1, true) =>
                    match authenticate authValueSegments tntAddrHeaderParam s1 with
                    | (s2, inl (error, message)) => (s2, Ok (Refused error message))
                    | (s2, inr regNode) =>
                        match generatePostHashResponse submitted regNode s2 with
                        | (s3, Throw e) => (s3, Throw e)
                        | (s3, Ok responseObj) =>
                            match sendToQueue_fault (replies_of s3) with
                            | Some error =>
                                (print (PublishMessageNacked RMQ_WORK_OUT_AGG_QUEUE) s3,
                                 Ok (Refused InternalServerError
                                             "Message could not be delivered"))
                            | None =>
                                (sendToQueue
                                   {| queue_name := RMQ_WORK_OUT_AGG_QUEUE;
                                      hashObj_hash_id := hash_id responseObj;
                                      hashObj_hash := hash responseObj;
                                      hashObj_nist := nist responseObj;
                                      queued_persistent := true |} s3,
                                 Ok (Accepted responseObj))
                            end
                        end
                    end
                end
          | Some _ =>
              (s, Ok (Refused InvalidArgumentError "invalid JSON body: bad hash submitted"))
          end
      end.

(** What a step of the handler leaves as it was: everything but the cache of
    the Nodes and what was printed. *)
Definition kept (s s' : state) : Prop :=
  vars s' = vars s /\ amqpChannel s' = amqpChannel s
  /\ enforcePrivateNodeStake s' = enforcePrivateNodeStake s /\ now s' = now s
  /\ uuids s' = uuids s /\ strings s' = strings s /\ replies_of s' = replies_of s
  /\ sent s' = sent s.

End Hashes.

Arguments state : clear implicits.
Arguments response : clear implicits.
Arguments outcome : clear implicits.

End Api.

(** ** The script that transfers tokens *)

Module TransferTokens.
Import Stdlib.Strings.Ascii Text Number.

(** What the script prints. *)
Inductive line :=
| InvalidNumberOfParams
| Usage
| Sending (amt : number) (toAddr : string)
| Failed (error : exn)
| Transferred
| Transaction (res : string).

(** A run of the script: what it printed, the code it exited with ([None] if
    it never called [process.exit]), and the calls of [sendTokens] it made. *)
Record run := {
  console : list line;
  exit_code : option Z;
  transfers : list (string * number)
}.

Section Script.

(** Whether the promise of [loadToken] is fulfilled. *)
Variable token_loaded : bool.

(** What the callback of [ops.sendTokens] receives: an error or the
    transaction. *)
Variable sendTokens : string -> number -> exn + string.

(** The script on [process.argv]. *)
Definition transferTokens (argv : list string) : run :=
  if negb (length argv =? 4)%nat then
    {| console := [InvalidNumberOfParams; Usage]; exit_code := Some (-1); transfers := [] |}
  else if negb token_loaded then
    {| console := []; exit_code := None; transfers := [] |}
  else
    let toAddr := nth 2 argv EmptyString in
    let amt := parseInt (nth 3 argv EmptyString) in
    match sendTokens toAddr amt with
    | inl error =>
        {| console := [Sending amt toAddr; Failed error];
           exit_code := Some (-1);
           transfers := [(toAddr, amt)] |}
    | inr res =>
        {| console := [Sending amt toAddr; Transferred; Transaction res];
           exit_code := Some 0;
           transfers := [(toAddr, amt)] |}
    end.

End Script.

End TransferTokens.

(** ** A concrete deployment

    One configuration, one parsed payload and one world, on which the
    statements below are instantiated. *)

Definition demo_env : Env :=
  {| RMQ_WORK_IN_GEN_QUEUE := "work.gen";
     RMQ_WORK_OUT_API_QUEUE := "work.api";
     RMQ_OUTGOING_EXCHANGE := "exchange.headers";
     PROOF_EXPIRE_MINUTES := 1440 |}.

Definition demo_hashId : string := "6d627a2e-0cf7-11e7-93ae-92361f002671".

(** [uuidTime.v1] at the ids used below: the timestamp embedded in
    [demo_hashId], and the error of the package for a string that is no
    version 1 UUID. *)
Definition demo_uuidTime (v : val) : result jsnum :=
  match v with
  | VStr s => if String.eqb s demo_hashId then Ok (Num 1489964248971)
              else Throw (LibError "uuid version 1 expected")
  | _ => Throw TypeError
  end.

Definition demo_uuidValidate (s : string) (version : Z) : bool :=
  String.eqb s demo_hashId && (version =? 1).

(** The cells of a parsed BTC stage event (a CAL stage event reads the same
    object and ignores the Bitcoin states), built from cell [n] on; the message
    object is cell [n + 19]. *)
Definition demo_message (n : nat) (hash : val) : list hobj :=
  [ mk_object [("op", VStr "sha-256")];
    mk_object [("r", VStr "c1d2")];
    mk_array [VRef n; VRef (n + 1)%nat];
    mk_object [("ops", VRef (n + 2)%nat)];
    mk_object [("l", VStr "e5f6")];
    mk_array [VRef (n + 4)%nat];
    mk_array [VStr "http://a.cal.chainpoint.org/42/root"];
    mk_object [("anchor_id", VStr "42"); ("uris", VRef (n + 6)%nat)];
    mk_object [("ops", VRef (n + 5)%nat); ("anchor", VRef (n + 7)%nat)];
    mk_object [("op", VStr "sha-256-x2")];
    mk_array [VRef (n + 9)%nat];
    mk_object [("ops", VRef (n + 10)%nat)];
    mk_object [("r", VStr "0100")];
    mk_array [VRef (n + 12)%nat];
    mk_object [("ops", VRef (n + 13)%nat)];
    mk_object [("l", VStr "beef")];
    mk_array [VRef (n + 15)%nat];
    mk_object [("anchor_id", VStr "503275")];
    mk_object [("ops", VRef (n + 16)%nat); ("anchor", VRef (n + 17)%nat)];
    mk_object [("hash", hash); ("hash_id", VStr demo_hashId);
               ("agg_state", VRef (n + 3)%nat); ("cal_state", VRef (n + 8)%nat);
               ("anchor_agg_state", VRef (n + 11)%nat);
               ("btctx_state", VRef (n + 14)%nat);
               ("btchead_state", VRef (n + 18)%nat)] ].

(** A parser for two payloads: ["no-hash"] is the event whose [hash] is
    [null], any other text the event with a hash. *)
Definition demo_parse (text : string) : JS val :=
  fun h =>
    (h ++ demo_message (length h)
                       (if String.eqb text "no-hash" then VNull
                        else VStr "ab12cd34ef56ab12cd34ef56ab12cd34ef56ab12"),
     Ok (VRef (length h + 19)%nat)).

(** A validator that demands what the Chainpoint schema demands of [hash]
    first of all: a non-empty string. *)
Definition demo_schema (h : heap) (proof : val) : bool :=
  match own h proof "hash" with
  | Some (VStr s) => negb (String.eqb s "")
  | _ => false
  end.

Definition demo_encode (h : heap) (proof : val) : exn + string :=
  inr "eJyrVkrOLypKTS5RslIqSk0sBgA="%string.

Definition demo_decode (b64 : option string) : JS (exn + val) :=
  fun h => (h, Ok (inl (LibError "not a proof"))).

Definition no_fault : replies :=
  {| set_reply := None; get_reply := None; hgetall_reply := None;
     publish_reply := None |}.

Definition demo_subscription : gmap string string :=
  {[ "api_id"%string := "api-1"%string; "cx_id"%string := "cx-9"%string ]}.

(** A world with a subscription for [demo_hashId], an empty store of objects
    and nothing saved, published or settled yet; the client and the channel
    are set and stay so. *)
Definition demo_world (faults : replies) (sub : gmap string string) : world :=
  {| objects := [];
     clock := 1489964250000;
     redis_strings := ∅;
     redis_hashes := {[ ("sub:" +:+ demo_hashId) := sub ]};
     io := faults;
     publishes := [];
     settled := [];
     console := [];
     redis := true;
     amqpChannel := true;
     reconnections := [];
     thrown := [] |}.

(** The same world after the ['error'] event of the store client: the handler
    has set [redis] to [null], and the channel is still there. *)
Definition demo_store_down : world :=
  with_connections false true (demo_world no_fault demo_subscription).

Definition demo_msg (text type : string) : message :=
  {| content := text; properties_type := Some type; deliveryTag := 7%nat |}.

Definition demo_hash : val := VStr "ab12cd34ef56ab12cd34ef56ab12cd34ef56ab12".

(** The CAL stage event that [demo_message 0 hash] holds. *)
Definition demo_cal_event_of (hash : val) : CalEvent :=
  {| ev_hash := hash;
     ev_hashId := VStr demo_hashId;
     aggregationFragment := [VRef 0%nat; VRef 1%nat];
     calendarFragment := [VRef 4%nat];
     calendar_anchor_id := VStr "42";
     calendar_uris := VRef 6%nat |}.

Definition demo_cal_event : CalEvent := demo_cal_event_of demo_hash.

Definition demo_btc_event : BtcEvent :=
  {| cal_part := demo_cal_event;
     anchorAggregationFragment := [VRef 9%nat];
     btctxFragment := [VRef 12%nat];
     btcheadFragment := [VRef 15%nat];
     btc_anchor_id := VStr "503275" |}.

Definition demo_store (hash : val) : heap := demo_message 0%nat hash.

Definition demo_submitted : string := "2017-03-19T22:57:28Z".

(** The store after the CAL composition of the demo payload. *)
Definition demo_cal_store (hash : val) : heap :=
  demo_store hash ++ cal_cells 20 (demo_cal_event_of hash) demo_submitted.

(** A parser that, besides the payloads of [demo_parse], knows three payloads
    that are no stage event: ["{"] is no JSON, ["{}"] is the empty object, and
    ["untimed"] is an object whose [hash_id] is no UUID. *)
Definition demo_parse_any (text : string) : JS val :=
  if String.eqb text "{" then throw SyntaxError
  else if String.eqb text "{}" then new_object
  else if String.eqb text "untimed"
       then alloc (mk_object [("hash", demo_hash); ("hash_id", VStr "not-a-uuid")])
       else demo_parse text.

(** The store connection refuses writes. *)
Definition demo_read_only : replies :=
  {| set_reply := Some (LibError "READONLY"); get_reply := None;
     hgetall_reply := None; publish_reply := None |}.

(** The broker refuses the publish. *)
Definition demo_unroutable : replies :=
  {| set_reply := None; get_reply := None;
     hgetall_reply := None; publish_reply := Some (LibError "NO_ROUTE") |}.

(** A delivery for the audit score pool of the task accumulator. *)
Definition demo_score (tag : nat) : message :=
  {| content := "score"; properties_type := Some "update_node_audit_score"%string;
     deliveryTag := tag |}.

(** The task accumulator with its connections established and two deliveries
    in the audit score pool. *)
Definition demo_accumulator : TaskAccumulator.process :=
  TaskAccumulator.run
    [TaskAccumulator.ChannelEstablished; TaskAccumulator.QueueInitialised;
     TaskAccumulator.Deliver (Some (demo_score 1)); TaskAccumulator.Deliver (Some (demo_score 2))]
    TaskAccumulator.start.

(** The channel is lost while the drain of the audit score pool awaits the
    reply to its enqueue. *)
Definition demo_channel_lost : list TaskAccumulator.event :=
  [TaskAccumulator.ChannelEstablished; TaskAccumulator.QueueInitialised;
   TaskAccumulator.Deliver (Some (demo_score 1));
   TaskAccumulator.Interval TaskAccumulator.AUDIT_SCORE_UPDATE_POOL;
   TaskAccumulator.ChannelLost].

(** The connection comes back, a message is delivered and the interval of the
    drain fires. *)
Definition demo_reconnected : list TaskAccumulator.event :=
  [TaskAccumulator.ChannelEstablished;
   TaskAccumulator.Deliver (Some (demo_score 2));
   TaskAccumulator.Interval TaskAccumulator.AUDIT_SCORE_UPDATE_POOL].

(** The drain that [demo_channel_lost] leaves suspended. *)
Definition demo_suspended : TaskAccumulator.suspended :=
  {| TaskAccumulator.of_pool := TaskAccumulator.AUDIT_SCORE_UPDATE_POOL;
     TaskAccumulator.pendingObjs :=
       [{| TaskAccumulator.item_JSON := "score";
           TaskAccumulator.item_msg := Some (demo_score 1) |}];
     TaskAccumulator.remaining := 0 |}.

(** ** A concrete deployment of the API service *)

(** A registered Node. *)
Definition demo_node : Api.RegisteredNode :=
  {| Api.tntAddr := "0xab12cd34ef56ab12cd34ef56ab12cd34ef56ab12";
     Api.hmacKey := "2b7e151628aed2a6";
     Api.tntCredit := "86400" |}.

(** A stand-in for the HMAC: the key and the data side by side. *)
Definition demo_hmac (key data : string) : string := key +:+ data.

(** A table that holds [demo_node] alone. *)
Definition demo_findOne (tntAddr : string) : exn + option Api.RegisteredNode :=
  if String.eqb tntAddr (Api.tntAddr demo_node) then inr (Some demo_node) else inr None.

(** A table that holds nothing. *)
Definition demo_findOne_nothing (tntAddr : string) : exn + option Api.RegisteredNode :=
  inr None.

Definition demo_error_message (e : exn) : string :=
  match e with
  | LibError m => m
  | _ => "error"
  end.

(** The headers of a request of [demo_node], with the address in capitals. *)
Definition demo_headers (hashids : string) : option (gmap string string) :=
  Some {[ "authorization"%string :=
            "Bearer 2b7e151628aed2a60xab12cd34ef56ab12cd34ef56ab12cd34ef56ab12"%string;
          "tnt-address"%string := "0XAB12CD34EF56AB12CD34EF56AB12CD34EF56AB12"%string;
          "hashids"%string := hashids ]}.

(** A request for two proofs by header: the hash id of [demo_hashId] with
    blanks around it, and a text that is no UUID. *)
Definition demo_get : Api.request :=
  {| Api.headers := demo_headers " 6d627a2e-0cf7-11e7-93ae-92361f002671 ,bogus";
     Api.params_hash_id := None;
     Api.accepts_jsonld := false |}.

(** The world of [demo_world] with a proof saved under [demo_hashId]. *)
Definition demo_saved_world : world :=
  saved demo_env (demo_world no_fault demo_subscription) demo_hashId
        "eJyrVkrOLypKTS5RslIqSk0sBgA=".

(** A pulse of the beacon, thirty seconds before the clock of [demo_state]. *)
Definition demo_pulse : Nist.pulse :=
  {| Nist.timeStamp := Some 1489964220000;
     Nist.localRandomValue := "9F2C7A11D0E4" |}.

Definition demo_service : Nist.service :=
  {| Nist.NIST_KEY_value := None; Nist.get_error := None; Nist.set_error := None;
     Nist.logged := [] |}.

Definition demo_vars : Nist.vars :=
  Nist.updateNistVars (Some (Nist.timeAndSeed demo_pulse))
    {| Nist.nistLatest := None; Nist.nistLatestEpoch := None; Nist.printed := [] |}.

(** A request of [POST /hash] of [demo_node]. *)
Definition demo_post (hash : val) : Api.post :=
  {| Api.contentType := "application/json";
     Api.post_headers := demo_headers EmptyString;
     Api.params := {[ "hash"%string := hash ]} |}.

Definition demo_hex : string := "AB12CD34EF56AB12CD34EF56AB12CD34EF56AB12".

Definition no_faults : Api.faults :=
  {| Api.get_fault := None; Api.hgetall_fault := None; Api.hmset_fault := None;
     Api.expire_fault := None; Api.sendToQueue_fault := None |}.

(** The endpoint with the NIST value of [demo_pulse], an established channel,
    an empty store and nothing sent; the uuid generator counts its calls. *)
Definition demo_state (enforce : bool) : Api.state nat :=
  {| Api.vars := demo_vars;
     Api.amqpChannel := true;
     Api.enforcePrivateNodeStake := enforce;
     Api.now := 1489964250000;
     Api.uuids := 0%nat;
     Api.strings := ∅;
     Api.hashes := ∅;
     Api.expires_at := ∅;
     Api.replies_of := no_faults;
     Api.sent := [];
     Api.errors := [] |}.

Definition demo_blake2s (text : string) : list Z := [186; 120; 22; 191; 143].

Definition demo_uuidv1 (msecs : Z) (node : list Z) (calls : nat) : nat * result string :=
  (S calls, Ok demo_hashId).

Definition demo_format (t : Z) : string :=
  match formatDateISO8601NoMs (Some t) with
  | Ok s => s
  | Throw _ => EmptyString
  end.

Definition demo_addMinutes (t minutes : Z) : Z := t + minutes * 60000.

Definition demo_addSeconds (t seconds : Z) : Z := t + seconds * 1000.

(** The start of the hour in a process that runs in UTC. *)
Definition demo_start_of_hour (t : Z) : Z := t - t mod 3600000.

Definition demo_parseFloat (credit : option string) : string := Api.text credit.

(** The response to the hash [demo_hex] posted in [demo_state]. *)
Definition demo_response : Api.response string :=
  {| Api.hash_id := demo_hashId;
     Api.hash := "ab12cd34ef56ab12cd34ef56ab12cd34ef56ab12";
     Api.nist := "1489964220000:9f2c7a11d0e4";
     Api.submitted_at := "2017-03-19T22:57:30Z";
     Api.hints := {| Api.hint_cal := "2017-03-19T22:57:40Z";
                     Api.hint_eth := "2017-03-19T23:38:30Z";
                     Api.hint_btc := "2017-03-20T00:00:00Z" |};
     Api.tnt_credit_balance := "86400" |}.

(** The handler of [POST /hash] of the deployment, over a table. *)
Definition demo_postHash (table : string -> exn + option Api.RegisteredNode)
  : Api.post -> Api.state nat -> Api.state nat * result (Api.outcome string) :=
  Api.postHashV1Async "work.agg" "balance" "5000" table demo_hmac demo_blake2s demo_uuidv1
                      demo_format demo_addMinutes demo_addSeconds demo_start_of_hour
                      demo_parseFloat.

(** The handler of [GET /proofs] of the deployment, which answers at most
    [250] hash ids. *)
Definition demo_getProofs : Api.request -> IO Api.answer :=
  Api.getProofsByIDV1Async demo_env 250 demo_uuidTime demo_uuidValidate demo_decode
                           demo_findOne demo_error_message demo_hmac.

(** A token contract that accepts every transfer. *)
Definition demo_sendTokens (toAddr : string) (amt : Number.number) : exn + string :=
  inr "0x5c504ed432cb51138bcf09aa5e8a410dd4a1e204ef84bfed1be16dfba1b22060"%string.

(** * Properties *)

(** The example of the source's comment on [formatDateISO8601NoMs], and the
    format at the ends of the range of years. *)
Example formatDateISO8601NoMs_example :
  formatDateISO8601NoMs (new_Date (Num 1489965872123)) = Ok "2017-03-19T23:24:32Z"%string.
Proof. reflexivity. Qed.

Example toISOString_epoch :
  toISOString (new_Date (Num 0)) = Ok "1970-01-01T00:00:00.000Z"%string.
Proof. reflexivity. Qed.

Example toISOString_leap_day :
  toISOString (new_Date (Num 951868799999)) = Ok "2000-02-29T23:59:59.999Z"%string.
Proof. reflexivity. Qed.

Example toISOString_gregorian_start :
  toISOString (new_Date (Num (-12219292800000))) = Ok "1582-10-15T00:00:00.000Z"%string.
Proof. reflexivity. Qed.

Example toISOString_year_10000 :
  toISOString (new_Date (Num 253402300800000)) = Ok "+010000-01-01T00:00:00.000Z"%string.
Proof. reflexivity. Qed.

Example toISOString_invalid :
  toISOString (new_Date NaN) = Throw RangeError.
Proof. reflexivity. Qed.

(** ** Running code step by step *)

Lemma bind_assoc {S A B C} (c : ST S A) (f : A -> ST S B) (g : B -> ST S C) s :
  bind (bind c f) g s = bind c (fun a => bind (f a) g) s.
Proof. unfold bind. destruct (c s) as [s' [a|e]]; reflexivity. Qed.

Lemma post_ok {S A B} (P : S -> result B -> Prop) (c : ST S A) (f : A -> ST S B) s s' a :
  c s = (s', Ok a) -> post P (f a s') -> post P (bind c f s).
Proof. intros H HP. unfold bind. rewrite H. exact HP. Qed.

Lemma post_assoc {S A B C} (P : S -> result C -> Prop)
      (c : ST S A) (f : A -> ST S B) (g : B -> ST S C) s :
  post P (bind c (fun a => bind (f a) g) s) -> post P (bind (bind c f) g s).
Proof. rewrite bind_assoc. auto. Qed.

Lemma post_ret {S A} (P : S -> result A -> Prop) (a : A) s :
  P s (Ok a) -> post P (ret a s).
Proof. auto. Qed.

Lemma post_lift {S A B} (P : S -> result B -> Prop) (r : result A) (f : A -> ST S B) s :
  match r with
  | Ok a => post P (f a s)
  | Throw e => P s (Throw e)
  end -> post P (bind (lift_result r) f s).
Proof. destruct r; auto. Qed.

Lemma post_eq {S A} (x R : S * result A) :
  post (fun s r => (s, r) = R) x -> x = R.
Proof. destruct x. auto. Qed.

Lemma post_start {A} (P : heap -> result A -> Prop) (c : JS A) (h : heap) :
  post P (c (h ++ [])) -> post P (c h).
Proof. rewrite app_nil_r. auto. Qed.

(** ** Cells of the store *)

Lemma put_insert i o (cells : list hobj) : put i o cells = <[i := o]> cells.
Proof. revert i. induction cells as [|c cs IH]; intros [|i]; simpl; f_equal; auto. Qed.

Lemma lookup_new (h ext : heap) i : (h ++ ext) !! (length h + i)%nat = ext !! i.
Proof. rewrite lookup_app_r by lia. f_equal. lia. Qed.

Lemma alloc_ext (h ext : heap) o :
  alloc o (h ++ ext) = (h ++ (ext ++ [o]), Ok (VRef (length h + length ext)%nat)).
Proof. unfold alloc. rewrite length_app, <- app_assoc. reflexivity. Qed.

Lemma get_prop_new (h ext : heap) i m e k x :
  ext !! i = Some (HObj m e) -> default VUndef (m !! k) = x ->
  get_prop (VRef (length h + i)%nat) k (h ++ ext) = (h ++ ext, Ok x).
Proof. intros H <-. unfold get_prop. rewrite lookup_new, H. reflexivity. Qed.

Lemma get_index_new (h ext : heap) i m xs j x :
  ext !! i = Some (HObj m (Some xs)) -> default VUndef (xs !! j) = x ->
  get_index (VRef (length h + i)%nat) j (h ++ ext) = (h ++ ext, Ok x).
Proof. intros H <-. unfold get_index. rewrite lookup_new, H. reflexivity. Qed.

Lemma set_prop_new (h ext : heap) i m e k x :
  ext !! i = Some (HObj m e) ->
  set_prop (VRef (length h + i)%nat) k x (h ++ ext)
  = (h ++ put i (HObj (<[k := x]> m) e) ext, Ok tt).
Proof.
  intros H. unfold set_prop. rewrite lookup_new, H. simpl.
  rewrite put_insert, insert_app_r. reflexivity.
Qed.

Lemma call_push_new (h ext : heap) i m xs x :
  ext !! i = Some (HObj m (Some xs)) ->
  call_push (VRef (length h + i)%nat) x (h ++ ext)
  = (h ++ put i (HObj m (Some (xs ++ [x]))) ext, Ok (VNum (Z.of_nat (length xs) + 1))).
Proof.
  intros H. unfold call_push. rewrite lookup_new, H. simpl.
  rewrite put_insert, insert_app_r. reflexivity.
Qed.

Lemma get_prop_old (h ext : heap) v k x :
  field h v k = Some x -> get_prop v k (h ++ ext) = (h ++ ext, Ok x).
Proof.
  unfold field, get_prop. destruct v as [| | | | |l|fn]; try discriminate; try congruence.
  destruct (h !! l) as [o|] eqn:E; [|discriminate].
  intros [= <-]. rewrite (lookup_app_l_Some _ _ _ _ E). reflexivity.
Qed.

Lemma field_old (h ext : heap) v k x :
  field h v k = Some x -> field (h ++ ext) v k = Some x.
Proof. intros H. unfold field. rewrite (get_prop_old _ _ _ _ _ H). reflexivity. Qed.

Lemma spread_old (h ext : heap) v xs : items h v = Some xs -> spread (h ++ ext) v = xs.
Proof.
  unfold items, cell, spread. destruct v as [| | | | |l|fn]; try discriminate.
  destruct (h !! l) as [o|] eqn:E; [|discriminate].
  intros H. rewrite (lookup_app_l_Some _ _ _ _ E), H. reflexivity.
Qed.

Lemma call_concat_old (h ext : heap) a args xs ys :
  items h a = Some xs -> concat (map (spread (h ++ ext)) args) = ys ->
  call_concat a args (h ++ ext)
  = (h ++ (ext ++ [HObj ∅ (Some (xs ++ ys))]), Ok (VRef (length h + length ext)%nat)).
Proof.
  unfold items, cell, call_concat. destruct a as [| | | | |l|fn]; try discriminate.
  destruct (h !! l) as [o|] eqn:E; [|discriminate].
  intros H <-. rewrite (lookup_app_l_Some _ _ _ _ E), H.
  unfold new_array, mk_array. apply alloc_ext.
Qed.

(** Reads and calls whose operands are not known: what they can do. *)

Lemma get_prop_any (P : heap -> result val -> Prop) v k (f : val -> JS val) s :
  P s (Throw TypeError) -> (forall x, post P (f x s)) ->
  post P (bind (get_prop v k) f s).
Proof.
  intros HT HO. unfold bind, get_prop.
  destruct v as [| | | | |l|fn]; auto. destruct (s !! l); auto.
Qed.

Lemma get_index_any (P : heap -> result val -> Prop) v i (f : val -> JS val) s :
  P s (Throw TypeError) -> (forall x, post P (f x s)) ->
  post P (bind (get_index v i) f s).
Proof.
  intros HT HO. unfold bind, get_index.
  destruct v as [| | | | |l|fn]; auto. destruct (s !! l) as [o|]; auto.
  destruct (elems o); auto.
Qed.

Lemma call_concat_any (P : heap -> result val -> Prop) a args (f : val -> JS val)
      (h ext : heap) :
  P (h ++ ext) (Throw TypeError) ->
  (forall str, post P (f (VStr str) (h ++ ext))) ->
  (forall xs, post P (f (VRef (length h + length ext)%nat)
                        (h ++ (ext ++ [HObj ∅ (Some xs)])))) ->
  post P (bind (call_concat a args) f (h ++ ext)).
Proof.
  intros HT HS HA. unfold bind, call_concat.
  destruct a as [| | | | |l|fn]; auto. destruct ((h ++ ext) !! l) as [o|]; auto.
  destruct (elems o); auto.
  unfold new_array, mk_array. rewrite alloc_ext. auto.
Qed.

Lemma call_push_prim (P : heap -> result val -> Prop) v x (f : val -> JS val) s :
  match v with VRef _ => False | _ => True end ->
  P s (Throw TypeError) -> post P (bind (call_push v x) f s).
Proof. destruct v; simpl; intros []; auto. Qed.

Ltac map_side :=
  repeat first [ rewrite lookup_insert_eq
               | rewrite lookup_insert_ne by discriminate
               | rewrite lookup_empty ];
  lazymatch goal with
  | |- default _ (Some ?v) = _ => exact (eq_refl v)
  | |- default ?d None = _ => exact (eq_refl d)
  end.

(** One step of a run whose store is [h ++ ext], with [ext] the cells
    allocated so far: allocation, reads and writes of those cells, and reads of
    cells of [h] that a hypothesis gives. *)
Ltac js_step :=
  lazymatch goal with
  | |- post _ (bind (bind _ _) _ _) => apply post_assoc
  | |- post _ (bind (ret _) _ _) => change (bind (ret ?a) ?f ?s) with (f a s); cbv beta
  | |- post _ (ret _ _) => apply post_ret
  | |- post _ (bind (alloc _) _ (_ ++ _)) =>
      eapply post_ok; [apply alloc_ext | cbv beta; cbn [app length]]
  | |- post _ (bind (set_prop (VRef (length _ + _)%nat) _ _) _ _) =>
      eapply post_ok; [eapply set_prop_new; reflexivity | cbv beta; cbn [put]]
  | |- post _ (bind (get_prop (VRef (length _ + _)%nat) _) _ _) =>
      eapply post_ok; [eapply get_prop_new; [reflexivity | map_side] | cbv beta]
  | |- post _ (bind (get_index (VRef (length _ + _)%nat) _) _ _) =>
      eapply post_ok;
      [eapply get_index_new;
       [reflexivity | cbv [from_option id lookup list_lookup]; reflexivity]
      | cbv beta]
  | |- post _ (bind (call_push (VRef (length _ + _)%nat) _) _ _) =>
      eapply post_ok; [eapply call_push_new; reflexivity | cbv beta; cbn [put]]
  end.

(** A read of the message: the value a hypothesis gives. *)
Ltac js_read :=
  lazymatch goal with
  | |- post _ (bind (get_prop _ _) _ _) =>
      eapply post_ok; [eapply get_prop_old; eassumption | cbv beta]
  | |- post _ (bind (lift_result _) _ _) =>
      apply post_lift;
      lazymatch goal with
      | H : ?r = _ |- context [match ?r with _ => _ end] => rewrite H
      end
  | |- post _ (bind (call_concat _ _) _ _) =>
      eapply post_ok;
      [eapply call_concat_old;
       [eassumption
       | cbn [map concat]; repeat (erewrite spread_old by eassumption);
         rewrite ?app_nil_r; reflexivity]
      | cbv beta; cbn [app length]]
  end.

Ltac js_unfold :=
  unfold cal_document, btc_document, addChainpointHeader, addCalendarBranch,
    addBtcBranch, anchors_literal, new_object, new_array, mk_array, empty_object.

(** ** The composed documents *)

Section CompositorFacts.

Variable uuidTime_v1 : val -> result jsnum.

Lemma cal_document_run (h : heap) m e s :
  reads_cal h m e -> submitted_at uuidTime_v1 (ev_hashId e) = Ok s ->
  cal_document uuidTime_v1 m h = (h ++ cal_cells (length h) e s, Ok (VRef (length h))).
Proof.
  intros (Hh & Hid & (agg & aops & Hagg & Haops & HA) & (cal & cops & Hcal & Hcops & HC)
          & (cal' & an & Hcal' & Han & Haid & Huris)) Hs.
  assert (cal' = cal) as -> by congruence.
  unfold submitted_at in Hs.
  destruct (uuidTime_v1 (ev_hashId e)) as [t|] eqn:Ht; [|discriminate].
  apply post_eq. js_unfold. apply post_start.
  repeat first [js_step | js_read].
  rewrite Nat.add_0_r, <- !app_assoc. reflexivity.
Qed.

Lemma btc_document_run (h : heap) m e s :
  reads_btc h m e -> submitted_at uuidTime_v1 (ev_hashId (cal_part e)) = Ok s ->
  btc_document uuidTime_v1 m h = (h ++ btc_cells (length h) e s, Ok (VRef (length h))).
Proof.
  intros ((Hh & Hid & (agg & aops & Hagg & Haops & HA) & (cal & cops & Hcal & Hcops & HC)
           & (cal' & an & Hcal' & Han & Haid & Huris))
          & (aa & aaops & Haa & Haaops & HAA) & (tx & txops & Htx & Htxops & HT)
          & (hd & hdops & Hhd & Hhdops & HH) & (hd' & ban & Hhd' & Hban & Hbid)) Hs.
  assert (cal' = cal) as -> by congruence.
  assert (hd' = hd) as -> by congruence.
  unfold submitted_at in Hs.
  destruct (uuidTime_v1 (ev_hashId (cal_part e))) as [t|] eqn:Ht; [|discriminate].
  apply post_eq. js_unfold. apply post_start.
  repeat first [js_step | js_read].
  rewrite Nat.add_0_r, <- !app_assoc. reflexivity.
Qed.

Lemma cell_new (h ext : heap) i : cell (h ++ ext) (VRef (length h + i)%nat) = ext !! i.
Proof. apply lookup_new. Qed.

(** C1.  For every CAL stage event whose header can be built, the composed
    proof has a [branches] array with exactly one element, the calendar
    branch; that branch has a label and an [ops] array and nothing else (no
    nested branch); its [ops] are the aggregation operations, then the calendar
    operations, then one element [{anchors: [{type: 'cal', anchor_id, uris}]}]
    whose [anchor_id] and [uris] are those of the calendar state's anchor. *)
Theorem cal_proof_root_branch (h : heap) (m : val) (e : CalEvent) (s : string) :
  reads_cal h m e -> submitted_at uuidTime_v1 (ev_hashId e) = Ok s ->
  exists h' proof branches root ops last anchors anchor,
    cal_document uuidTime_v1 m h = (h', Ok proof) /\
    own h' proof "branches" = Some branches /\
    items h' branches = Some [root] /\
    cell h' root = Some (mk_object [("label", VStr "cal_anchor_branch"); ("ops", ops)]) /\
    items h' ops = Some (aggregationFragment e ++ calendarFragment e ++ [last]) /\
    cell h' last = Some (mk_object [("anchors", anchors)]) /\
    cell h' anchors = Some (mk_array [anchor]) /\
    cell h' anchor = Some (mk_object [("type", VStr "cal");
                                      ("anchor_id", calendar_anchor_id e);
                                      ("uris", calendar_uris e)]).
Proof.
  intros He Hs.
  exists (h ++ cal_cells (length h) e s), (VRef (length h + 0)%nat),
    (VRef (length h + 6)%nat), (VRef (length h + 1)%nat), (VRef (length h + 2)%nat),
    (VRef (length h + 4)%nat), (VRef (length h + 5)%nat), (VRef (length h + 3)%nat).
  split; [rewrite Nat.add_0_r; apply cal_document_run; assumption|].
  unfold own, items. rewrite !cell_new.
  change (cell (h ++ cal_cells (length h) e s) (VRef (length h + 0)%nat))
    with ((h ++ cal_cells (length h) e s) !! (length h + 0)%nat).
  rewrite lookup_new. repeat split; reflexivity.
Qed.

(** C2.  For every BTC stage event whose header can be built, the composed
    proof has exactly one root branch, the calendar branch, which has exactly
    one sub-branch, labelled [btc_anchor_branch]; the [ops] of the sub-branch
    are the anchor aggregation operations, then the transaction operations,
    then the block header operations, then one element
    [{anchors: [{type: 'btc', anchor_id}]}] with the [anchor_id] of the block
    header state's anchor. *)
Theorem btc_proof_sub_branch (h : heap) (m : val) (e : BtcEvent) (s : string) :
  reads_btc h m e -> submitted_at uuidTime_v1 (ev_hashId (cal_part e)) = Ok s ->
  exists h' proof branches root ops subs sub sub_ops last anchors anchor,
    btc_document uuidTime_v1 m h = (h', Ok proof) /\
    own h' proof "branches" = Some branches /\
    items h' branches = Some [root] /\
    cell h' root = Some (mk_object [("label", VStr "cal_anchor_branch"); ("ops", ops);
                                    ("branches", subs)]) /\
    items h' subs = Some [sub] /\
    cell h' sub = Some (mk_object [("label", VStr "btc_anchor_branch");
                                   ("ops", sub_ops)]) /\
    items h' sub_ops = Some (anchorAggregationFragment e ++ btctxFragment e
                             ++ btcheadFragment e ++ [last]) /\
    cell h' last = Some (mk_object [("anchors", anchors)]) /\
    cell h' anchors = Some (mk_array [anchor]) /\
    cell h' anchor = Some (mk_object [("type", VStr "btc");
                                      ("anchor_id", btc_anchor_id e)]).
Proof.
  intros He Hs.
  exists (h ++ btc_cells (length h) e s), (VRef (length h + 0)%nat),
    (VRef (length h + 6)%nat), (VRef (length h + 1)%nat), (VRef (length h + 2)%nat),
    (VRef (length h + 12)%nat), (VRef (length h + 7)%nat), (VRef (length h + 8)%nat),
    (VRef (length h + 10)%nat), (VRef (length h + 11)%nat), (VRef (length h + 9)%nat).
  split; [rewrite Nat.add_0_r; apply btc_document_run; assumption|].
  unfold own, items. rewrite !cell_new.
  change (cell (h ++ btc_cells (length h) e s) (VRef (length h + 0)%nat))
    with ((h ++ btc_cells (length h) e s) !! (length h + 0)%nat).
  rewrite lookup_new. repeat split; reflexivity.
Qed.

End CompositorFacts.

(** ** What composition leaves alone *)

Lemma grows_ext (h ext : heap) : grows h (h ++ ext).
Proof. exists ext. reflexivity. Qed.

Lemma keeps_elems_ext (h ext : heap) : keeps_elems h (h ++ ext).
Proof.
  intros l o H. exists o. split; [|reflexivity]. apply lookup_app_l_Some, H.
Qed.

(** A property assignment on any target, as the last effect of a run: no cell
    loses or gains an element. *)
Lemma set_prop_keeps_elems (h ext : heap) v k x (w : val) :
  post (fun s _ => keeps_elems h s) (bind (set_prop v k x) (fun _ => ret w) (h ++ ext)).
Proof.
  unfold post, bind, set_prop.
  destruct v as [| | | | |l|fn]; simpl; try apply keeps_elems_ext.
  destruct ((h ++ ext) !! l) as [o|] eqn:E; simpl; [|apply keeps_elems_ext].
  intros l' o' H'. apply (lookup_app_l_Some _ ext) in H'.
  destruct (decide (l = l')) as [<-|Hne].
  - rewrite list_lookup_insert_eq by (eapply lookup_lt_Some; eauto).
    eexists; split; [reflexivity|]. simpl.
    pose proof (eq_trans (eq_sym E) H') as [= ->]. reflexivity.
  - rewrite list_lookup_insert_ne by assumption. eauto.
Qed.

(** A result of a run that stops with the store [h ++ ext]. *)
Ltac js_stop :=
  lazymatch goal with
  | |- grows _ (_ ++ _) => apply grows_ext
  | |- keeps_elems _ (_ ++ _) => apply keeps_elems_ext
  end.

(** A read or a call whose operand is not known: every outcome it can have. *)
Ltac js_any :=
  lazymatch goal with
  | |- post _ (bind (set_prop _ _ _) (fun _ => ret _) (_ ++ _)) =>
      apply set_prop_keeps_elems
  | |- post _ (bind (get_prop _ _) _ _) =>
      apply get_prop_any; [ | intros ?x ]
  | |- post _ (bind (get_index _ _) _ _) =>
      apply get_index_any; [ | intros ?x ]
  | |- post _ (bind (lift_result ?r) _ _) =>
      apply post_lift; destruct r; cbv beta
  | |- post _ (bind (call_concat _ _) _ _) =>
      apply call_concat_any; [ | intros ?str | intros ?xs; cbn [app length] ]
  | |- post _ (bind (call_push (VStr _) _) _ _) =>
      apply call_push_prim; [exact I | ]
  end.

Ltac js_run := repeat first [js_stop | js_step | js_any].

Section Frame.

Variable uuidTime_v1 : val -> result jsnum.

Lemma addCalendarBranch_keeps_elems (h : heap) proof aggState calState :
  keeps_elems h (addCalendarBranch proof aggState calState h).1.
Proof.
  change (post (fun s _ => keeps_elems h s) (addCalendarBranch proof aggState calState h)).
  js_unfold. apply post_start. js_run.
Qed.

Lemma addBtcBranch_keeps_elems (h : heap) proof anchorAggState btcTxState btcHeadState :
  keeps_elems h (addBtcBranch proof anchorAggState btcTxState btcHeadState h).1.
Proof.
  change (post (fun s _ => keeps_elems h s)
               (addBtcBranch proof anchorAggState btcTxState btcHeadState h)).
  js_unfold. apply post_start. js_run.
Qed.

Lemma cal_document_grows (h : heap) m : grows h (cal_document uuidTime_v1 m h).1.
Proof.
  change (post (fun s _ => grows h s) (cal_document uuidTime_v1 m h)).
  js_unfold. apply post_start. js_run.
Qed.

Lemma btc_document_grows (h : heap) m : grows h (btc_document uuidTime_v1 m h).1.
Proof.
  change (post (fun s _ => grows h s) (btc_document uuidTime_v1 m h)).
  js_unfold. apply post_start. js_run.
Qed.

Lemma items_old (h ext : heap) v xs : items h v = Some xs -> items (h ++ ext) v = Some xs.
Proof.
  unfold items, cell. destruct v as [| | | | |l|fn]; try discriminate.
  destruct (h !! l) as [o|] eqn:E; [|discriminate].
  rewrite (lookup_app_l_Some _ _ _ _ E). auto.
Qed.

Lemma reads_ops_old (h ext : heap) m name ops :
  reads_ops h m name ops -> reads_ops (h ++ ext) m name ops.
Proof.
  intros (state & arr & H1 & H2 & H3). exists state, arr.
  auto using field_old, items_old.
Qed.

Lemma reads_cal_old (h ext : heap) m e : reads_cal h m e -> reads_cal (h ++ ext) m e.
Proof.
  intros (H1 & H2 & H3 & H4 & cal & anchor & H5 & H6 & H7 & H8).
  split; [apply field_old, H1|]. split; [apply field_old, H2|].
  split; [apply reads_ops_old, H3|]. split; [apply reads_ops_old, H4|].
  exists cal, anchor. auto using field_old.
Qed.

Lemma reads_btc_old (h ext : heap) m e : reads_btc h m e -> reads_btc (h ++ ext) m e.
Proof.
  intros (H1 & H2 & H3 & H4 & head & anchor & H5 & H6 & H7).
  split; [apply reads_cal_old, H1|]. split; [apply reads_ops_old, H2|].
  split; [apply reads_ops_old, H3|]. split; [apply reads_ops_old, H4|].
  exists head, anchor. auto using field_old.
Qed.

(** C10.  Building a branch mutates no operation list that existed before:
    after [addCalendarBranch] and after [addBtcBranch], whatever their
    arguments are and alias, every cell of the store still has the elements it
    had (the anchor element is pushed onto the array that [concat] has just
    allocated); and the compositions of [generateCALProof] and
    [generateBTCProof], which start from a new proof object, leave every cell
    that existed before exactly as it was, so that the message object still
    reads as the same stage event, with the same aggregation, calendar, anchor
    aggregation, transaction and block header operations. *)
Theorem fragments_not_mutated :
  (forall h proof aggState calState,
      keeps_elems h (addCalendarBranch proof aggState calState h).1) /\
  (forall h proof anchorAggState btcTxState btcHeadState,
      keeps_elems h (addBtcBranch proof anchorAggState btcTxState btcHeadState h).1) /\
  (forall h m, grows h (cal_document uuidTime_v1 m h).1) /\
  (forall h m, grows h (btc_document uuidTime_v1 m h).1) /\
  (forall h m e, reads_cal h m e -> reads_cal (cal_document uuidTime_v1 m h).1 m e) /\
  (forall h m e, reads_btc h m e -> reads_btc (btc_document uuidTime_v1 m h).1 m e).
Proof.
  split; [intros; apply addCalendarBranch_keeps_elems|].
  split; [intros; apply addBtcBranch_keeps_elems|].
  split; [intros; apply cal_document_grows|].
  split; [intros; apply btc_document_grows|].
  split.
  - intros h m e H. destruct (cal_document_grows h m) as [ext ->].
    apply reads_cal_old, H.
  - intros h m e H. destruct (btc_document_grows h m) as [ext ->].
    apply reads_btc_old, H.
Qed.

End Frame.

(** ** The header *)

Section HeaderFacts.

Variable uuidTime_v1 : val -> result jsnum.

(** What [addChainpointHeader] leaves under [hash_submitted_at] of a proof
    object, and when it throws. *)
Lemma addChainpointHeader_submitted (h : heap) l o hash hashId :
  h !! l = Some o ->
  post (fun h' r =>
          match r with
          | Ok p => exists s, submitted_at uuidTime_v1 hashId = Ok s /\
                              own h' p "hash_submitted_at" = Some (VStr s)
          | Throw e => submitted_at uuidTime_v1 hashId = Throw e
          end)
       (addChainpointHeader uuidTime_v1 (VRef l) hash hashId h).
Proof.
  intros H. apply list_elem_of_split_length in H as (h1 & h2 & -> & ->).
  destruct o as [m e]. rewrite <- (Nat.add_0_r (length h1)).
  unfold submitted_at, addChainpointHeader.
  do 4 js_step.
  apply post_lift. destruct (uuidTime_v1 hashId) as [t|err]; [|reflexivity].
  apply post_lift. destruct (formatDateISO8601NoMs (new_Date t)) as [s|err]; [|reflexivity].
  do 2 js_step.
  exists s. split; [reflexivity|].
  unfold own. rewrite lookup_new. cbn [lookup list_lookup props].
  apply lookup_insert_eq.
Qed.

(** C7.  The [hash_submitted_at] that [addChainpointHeader] writes is a
    function of the hash id alone: two runs for the same hash id, in any two
    worlds (whatever their clocks, stores and the other arguments), either both
    throw the same exception or both leave the same text, the one
    [submitted_at] computes from the hash id. *)
Theorem hash_submitted_at_from_hashId_alone
        (w1 w2 : world) (l1 l2 : loc) (hash1 hash2 hashId : val) :
  is_Some (objects w1 !! l1) -> is_Some (objects w2 !! l2) ->
  match liftJS (addChainpointHeader uuidTime_v1 (VRef l1) hash1 hashId) w1,
        liftJS (addChainpointHeader uuidTime_v1 (VRef l2) hash2 hashId) w2 with
  | (w1', Ok p1), (w2', Ok p2) =>
      exists s, submitted_at uuidTime_v1 hashId = Ok s /\
                own (objects w1') p1 "hash_submitted_at" = Some (VStr s) /\
                own (objects w2') p2 "hash_submitted_at" = Some (VStr s)
  | (_, Throw e1), (_, Throw e2) => e1 = e2
  | _, _ => False
  end.
Proof.
  intros [o1 H1] [o2 H2]. unfold liftJS.
  pose proof (addChainpointHeader_submitted _ _ _ hash1 hashId H1) as P1.
  pose proof (addChainpointHeader_submitted _ _ _ hash2 hashId H2) as P2.
  unfold post in P1, P2.
  destruct (addChainpointHeader uuidTime_v1 (VRef l1) hash1 hashId (objects w1))
    as [h1' [p1|e1]];
    destruct (addChainpointHeader uuidTime_v1 (VRef l2) hash2 hashId (objects w2))
    as [h2' [p2|e2]]; cbn [fst snd] in P1, P2.
  - destruct P1 as (s1 & E1 & O1), P2 as (s2 & E2 & O2).
    assert (s2 = s1) as -> by congruence. exists s1. auto.
  - destruct P1 as (s1 & E1 & O1). congruence.
  - destruct P2 as (s2 & E2 & O2). congruence.
  - congruence.
Qed.

End HeaderFacts.

(** ** What a composed message object reads *)

(** A value whose properties can be read in a store of [n] cells. *)
Lemma field_is_Some (h : heap) m k :
  is_Some (field h m k) <->
  match m with
  | VUndef | VNull => False
  | VRef l => (l < length h)%nat
  | _ => True
  end.
Proof.
  unfold field, get_prop. destruct m as [| | | | |l|fn]; simpl.
  - split; [intros [? [=]] | intros []].
  - split; [intros [? [=]] | intros []].
  - split; [auto | eauto].
  - split; [auto | eauto].
  - split; [auto | eauto].
  - destruct (h !! l) as [o|] eqn:E.
    + split; [intros _; eapply lookup_lt_Some; eauto | eauto].
    + split; [intros [? [=]] | intros H; apply lookup_ge_None in E; lia].
  - split; [auto | eauto].
Qed.

Ltac js_longer :=
  lazymatch goal with
  | |- (length ?h < length (?h ++ _))%nat => rewrite length_app; cbn [length]; lia
  end.

Section Readable.

Variable uuidTime_v1 : val -> result jsnum.

Lemma cal_document_allocates (h : heap) m :
  (length h < length (cal_document uuidTime_v1 m h).1)%nat.
Proof.
  change (post (fun s _ => (length h < length s)%nat) (cal_document uuidTime_v1 m h)).
  js_unfold. apply post_start. repeat first [js_longer | js_step | js_any].
Qed.

Lemma btc_document_allocates (h : heap) m :
  (length h < length (btc_document uuidTime_v1 m h).1)%nat.
Proof.
  change (post (fun s _ => (length h < length s)%nat) (btc_document uuidTime_v1 m h)).
  js_unfold. apply post_start. repeat first [js_longer | js_step | js_any].
Qed.

Lemma cal_document_reads (h h' : heap) m p k :
  cal_document uuidTime_v1 m h = (h', Ok p) -> is_Some (field h' m k).
Proof.
  intros H. pose proof (cal_document_allocates h m) as L. rewrite H in L. cbn [fst] in L.
  apply field_is_Some.
  unfold cal_document, new_object, alloc, bind in H.
  unfold get_prop at 1 in H.
  destruct m as [| | | | |l|fn]; try discriminate; try exact I.
  destruct ((h ++ [empty_object]) !! l) as [o|] eqn:E; [|discriminate].
  apply lookup_lt_Some in E. rewrite length_app in E. cbn [length] in E. lia.
Qed.

Lemma btc_document_reads (h h' : heap) m p k :
  btc_document uuidTime_v1 m h = (h', Ok p) -> is_Some (field h' m k).
Proof.
  intros H. pose proof (btc_document_allocates h m) as L. rewrite H in L. cbn [fst] in L.
  apply field_is_Some.
  unfold btc_document, new_object, alloc, bind in H.
  unfold get_prop at 1 in H.
  destruct m as [| | | | |l|fn]; try discriminate; try exact I.
  destruct ((h ++ [empty_object]) !! l) as [o|] eqn:E; [|discriminate].
  apply lookup_lt_Some in E. rewrite length_app in E. cbn [length] in E. lia.
Qed.

End Readable.

(** ** The pipeline *)

Lemma post_end {S A} (x R : S * result A) :
  x = R -> post (fun s r => (s, r) = R) x.
Proof. intros <-. destruct x. reflexivity. Qed.

Lemma get_prop_field (h : heap) v k x :
  field h v k = Some x -> get_prop v k h = (h, Ok x).
Proof.
  unfold field, get_prop. destruct v as [| | | | |l|fn]; try discriminate; try congruence.
  destruct (h !! l); [|discriminate]. congruence.
Qed.

Lemma ToString_str fuel (h : heap) s : ToString fuel h (VStr s) = s.
Proof. destruct fuel; reflexivity. Qed.

Lemma liftJS_ok {A} (c : JS A) w h a :
  c (objects w) = (h, Ok a) -> liftJS c w = (with_objects h w, Ok a).
Proof. intros H. unfold liftJS. rewrite H. reflexivity. Qed.

Lemma read_field w m k v :
  field (objects w) m k = Some v -> liftJS (get_prop m k) w = (w, Ok v).
Proof.
  intros H. unfold liftJS. rewrite (get_prop_field _ _ _ _ H). destruct w; reflexivity.
Qed.

Lemma to_string_run w v :
  liftJS (to_string v) w = (w, Ok (ToString (length (objects w)) (objects w) v)).
Proof. unfold liftJS, to_string. destruct w; reflexivity. Qed.

Lemma proof_key_str (h : heap) m hashId :
  field h m "hash_id" = Some (VStr hashId) -> proof_key h m = hashId.
Proof. intros H. unfold proof_key. rewrite H. apply ToString_str. Qed.

(** The reply of [hgetall] for a key that holds no field is [null], which the
    third task treats as it treats a missing key. *)
Lemma subscription_of_reply (hashes : gmap string (gmap string string)) key :
  subscription_of (match hashes !! key with
                   | Some m => if decide (m = ∅) then None else Some m
                   | None => None
                   end)
  = subscription_of (hashes !! key).
Proof.
  destruct (hashes !! key) as [m|]; [|reflexivity].
  destruct (decide (m = ∅)) as [->|]; reflexivity.
Qed.

(** *** Callbacks *)

Lemma next_turn_stable w : reconnections w = [] -> next_turn w = w.
Proof. intros H. unfold next_turn. rewrite H. reflexivity. Qed.

Lemma on_reply_run (c : IO unit) w :
  on_reply c w
  = match c (next_turn w) with
    | (w', Throw e) => (with_thrown (thrown w' ++ [e]) w', Ok tt)
    | (w', Ok _) => (w', Ok tt)
    end.
Proof. unfold on_reply. destruct (c (next_turn w)) as [w' [[]|e]]; reflexivity. Qed.

(** A callback hands no exception to the code that made the call. *)
Lemma on_reply_returns (c : IO unit) w : (on_reply c w).2 = Ok tt.
Proof. rewrite on_reply_run. destruct (c (next_turn w)) as [w' [[]|e]]; reflexivity. Qed.

Lemma on_reply_stable (c : IO unit) w :
  reconnections w = [] ->
  on_reply c w
  = match c w with
    | (w', Throw e) => (with_thrown (thrown w' ++ [e]) w', Ok tt)
    | (w', Ok _) => (w', Ok tt)
    end.
Proof. intros H. rewrite on_reply_run, (next_turn_stable _ H). reflexivity. Qed.

(** *** What a piece of code leaves alone *)

Lemma keeps_bind {A B C} (f : world -> C) (c : IO A) (k : A -> IO B) :
  keeps f c -> (forall a, keeps f (k a)) -> keeps f (bind c k).
Proof.
  intros Hc Hk w. unfold bind. specialize (Hc w).
  destruct (c w) as [w' [a|e]]; cbn [fst] in *; [|exact Hc].
  rewrite Hk. exact Hc.
Qed.

Lemma keeps_on_reply {C} (f : world -> C) (c : IO unit) :
  (forall w, f (next_turn w) = f w) -> (forall l w, f (with_thrown l w) = f w) ->
  keeps f c -> keeps f (on_reply c).
Proof.
  intros Hturn Hthrown Hc w. rewrite on_reply_run. specialize (Hc (next_turn w)).
  destruct (c (next_turn w)) as [w' [[]|e]]; cbn [fst] in *.
  - rewrite Hc. apply Hturn.
  - rewrite Hthrown, Hc. apply Hturn.
Qed.

Lemma keeps_liftJS {A C} (f : world -> C) (c : JS A) :
  (forall h w, f (with_objects h w) = f w) -> keeps f (liftJS c).
Proof. intros H w. unfold liftJS. destruct (c (objects w)). apply H. Qed.

Lemma keeps_ack {C} (f : world -> C) msg :
  (forall l w, f (with_settled l w) = f w) -> keeps f (amqp_ack msg).
Proof. intros H w. unfold amqp_ack. destruct (amqpChannel w); [apply H | reflexivity]. Qed.

Lemma keeps_nack {C} (f : world -> C) msg :
  (forall l w, f (with_settled l w) = f w) -> keeps f (amqp_nack msg).
Proof. intros H w. unfold amqp_nack. destruct (amqpChannel w); [apply H | reflexivity]. Qed.

Lemma keeps_console_log {C} (f : world -> C) args :
  (forall l w, f (with_console l w) = f w) -> keeps f (console_log args).
Proof. intros H w. apply H. Qed.

Lemma keeps_console_error {C} (f : world -> C) args :
  (forall l w, f (with_console l w) = f w) -> keeps f (console_error args).
Proof. intros H w. apply H. Qed.

Lemma keeps_publish {C} (f : world -> C) n :
  (forall l w, f (with_publishes l w) = f w) -> keeps f (amqp_publish n).
Proof. intros H w. unfold amqp_publish. destruct (amqpChannel w); [apply H | reflexivity]. Qed.

Lemma keeps_set {C} (f : world -> C) key value seconds :
  (forall m w, f (with_redis_strings m w) = f w) -> keeps f (redis_set key value seconds).
Proof.
  intros H w. unfold redis_set. destruct (redis w); [|reflexivity].
  destruct (set_reply (io w)); [reflexivity | apply H].
Qed.

Lemma keeps_hgetall {C} (f : world -> C) key : keeps f (redis_hgetall key).
Proof.
  intros w. unfold redis_hgetall. destruct (redis w); [|reflexivity].
  destruct (hgetall_reply (io w)); reflexivity.
Qed.

Lemma keeps_pure {A C} (f : world -> C) (c : IO A) :
  (forall w, (c w).1 = w) -> keeps f c.
Proof. intros H w. rewrite H. reflexivity. Qed.

(** A reading of the world that a step of the handlers, or a record of what
    was thrown, settled, logged, published or built, does not change. *)
Ltac keeps_side :=
  first [ intros ? ?; reflexivity
        | let w := fresh "w" in
          intros w; unfold next_turn; destruct (reconnections w) as [|[? ?] ?]; reflexivity ].

Ltac keeps_tac :=
  repeat first
    [ apply keeps_bind; [ | intros ? ]
    | apply keeps_on_reply; [keeps_side | keeps_side | ]
    | apply keeps_liftJS; keeps_side
    | apply keeps_ack; keeps_side
    | apply keeps_nack; keeps_side
    | apply keeps_console_log; keeps_side
    | apply keeps_console_error; keeps_side
    | apply keeps_publish; keeps_side
    | apply keeps_set; keeps_side
    | apply keeps_hgetall
    | lazymatch goal with
      | |- keeps _ (match ?x with _ => _ end) => destruct x
      | |- keeps _ (if ?b then _ else _) => destruct b
      end
    | apply keeps_pure; intros ?; reflexivity ].

Section PipelineFacts.

Variable env : Env.
Variable uuidTime_v1 : val -> result jsnum.
Variable JSON_parse : string -> JS val.
Variable schema_valid : heap -> val -> bool.
Variable objectToBase64 : heap -> val -> exn + string.

(** A message that composes is handed, with its message object and its proof,
    to the schema check and what follows it. *)
Lemma processMessage_composes msg w m p h :
  composes uuidTime_v1 JSON_parse msg w m p h ->
  processMessage env uuidTime_v1 JSON_parse schema_valid objectToBase64 (Some msg) w
  = validate_store_notify env schema_valid objectToBase64 (log_tag msg) msg m p
                          (with_objects h w).
Proof.
  intros (h1 & Hparse & [(Ht & Hdoc) | (Ht & Hdoc)]).
  - unfold processMessage, log_tag. rewrite Ht.
    cbn [String.eqb Ascii.eqb Bool.eqb].
    unfold generateCALProof. apply post_eq.
    eapply post_ok; [apply liftJS_ok, Hparse | cbv beta].
    eapply post_ok; [apply liftJS_ok, Hdoc | cbv beta].
    apply post_end. reflexivity.
  - unfold processMessage, log_tag. rewrite Ht.
    cbn [String.eqb Ascii.eqb Bool.eqb].
    unfold generateBTCProof. apply post_eq.
    eapply post_ok; [apply liftJS_ok, Hparse | cbv beta].
    eapply post_ok; [apply liftJS_ok, Hdoc | cbv beta].
    apply post_end. reflexivity.
Qed.

(** The final callback, with a channel and without. *)
Lemma settle_run tag msg err w :
  amqpChannel w = true ->
  settle env tag msg err w = (settled_by env tag msg err w, Ok tt).
Proof.
  intros H. unfold settle, settled_by, bind, amqp_ack, amqp_nack.
  destruct err; rewrite H; reflexivity.
Qed.

Lemma settle_down tag msg err w :
  amqpChannel w = false -> settle env tag msg err w = (w, Throw TypeError).
Proof.
  intros H. unfold settle, bind, amqp_ack, amqp_nack. destruct err; rewrite H; reflexivity.
Qed.

Lemma on_reply_settle tag msg err w :
  reconnections w = [] ->
  on_reply (settle env tag msg err) w = (replied env tag msg err w, Ok tt).
Proof.
  intros H. rewrite (on_reply_stable _ _ H). unfold replied.
  destruct (amqpChannel w) eqn:E.
  - rewrite (settle_run _ _ _ _ E). reflexivity.
  - rewrite (settle_down _ _ _ _ E). reflexivity.
Qed.

Lemma invalid_schema_run msg w :
  amqpChannel w = true ->
  invalid_schema env msg w
  = (with_console
       (console w ++ [(Stderr, [RMQ_WORK_IN_GEN_QUEUE env;
                                "consume message acked, but with invalid JSON schema error"])])
       (with_settled (settled w ++ [(deliveryTag msg, Ack)]) w), Ok tt).
Proof. intros H. unfold invalid_schema, bind, amqp_ack. rewrite H. reflexivity. Qed.

Lemma invalid_schema_down msg w :
  amqpChannel w = false -> invalid_schema env msg w = (w, Throw TypeError).
Proof. intros H. unfold invalid_schema, bind, amqp_ack. rewrite H. reflexivity. Qed.

(** The fourth task, when no handler runs meanwhile. *)
Lemma publish_ready_run tag msg m w v api_id cx_id :
  reconnections w = [] ->
  field (objects w) m "hash_id" = Some v ->
  publish_ready env m (Some api_id) (Some cx_id) (settle env tag msg) w
  = if amqpChannel w
    then (replied env tag msg (publish_reply (io w))
            (published env {| exchange := RMQ_OUTGOING_EXCHANGE env;
                              routingKey := "";
                              header_api_id := api_id;
                              persistent := true;
                              body_cx_id := cx_id;
                              body_hash_id := v |} w), Ok tt)
    else (w, Throw TypeError).
Proof.
  intros Hrec Hid. unfold publish_ready. apply post_eq.
  eapply post_ok; [apply read_field, Hid | cbv beta].
  unfold bind at 1. unfold amqp_publish.
  destruct (amqpChannel w) eqn:E; [|apply post_end; reflexivity].
  rewrite on_reply_stable by exact Hrec.
  apply post_end. unfold replied, published. cbn [amqpChannel with_console with_publishes io].
  rewrite E.
  destruct (publish_reply (io w)) as [e|]; unfold bind, console_error, console_log.
  - rewrite settle_run by exact E. reflexivity.
  - rewrite settle_run by exact E. reflexivity.
Qed.

Lemma publish_ready_skip tag msg m w api_id cx_id :
  api_id = None \/ cx_id = None ->
  publish_ready env m api_id cx_id (settle env tag msg) w = settle env tag msg None w.
Proof. intros [-> | ->]; [|destruct api_id]; reflexivity. Qed.

(** The third task, when no handler runs meanwhile. *)
Lemma find_subscription_run tag msg m w v :
  reconnections w = [] ->
  field (objects w) m "hash_id" = Some v ->
  find_subscription env m (settle env tag msg) w
  = if redis w then
      (match hgetall_reply (io w) with
       | Some e => replied env tag msg (Some e) w
       | None =>
           match subscription_of (redis_hashes w !! ("sub:" +:+ proof_key (objects w) m)) with
           | (Some api_id, Some cx_id) =>
               if amqpChannel w
               then replied env tag msg (publish_reply (io w))
                      (published env {| exchange := RMQ_OUTGOING_EXCHANGE env;
                                        routingKey := "";
                                        header_api_id := api_id;
                                        persistent := true;
                                        body_cx_id := cx_id;
                                        body_hash_id := v |} w)
               else with_thrown (thrown w ++ [TypeError]) w
           | _ => replied env tag msg None w
           end
       end, Ok tt)
    else (w, Throw TypeError).
Proof.
  intros Hrec Hid. unfold proof_key. rewrite Hid.
  unfold find_subscription. apply post_eq.
  eapply post_ok; [apply read_field, Hid | cbv beta].
  eapply post_ok; [apply to_string_run | cbv beta].
  unfold bind at 1. unfold redis_hgetall.
  destruct (redis w) eqn:Er; [|apply post_end; reflexivity].
  destruct (hgetall_reply (io w)) as [e|] eqn:Eg.
  { apply post_end. apply on_reply_settle, Hrec. }
  rewrite subscription_of_reply, on_reply_stable by exact Hrec.
  destruct (subscription_of _) as [[api|] [cx|]]; cbn [fst snd].
  - rewrite (publish_ready_run _ _ _ _ _ _ _ Hrec Hid).
    destruct (amqpChannel w); apply post_end; reflexivity.
  - rewrite publish_ready_skip by auto. rewrite <- (on_reply_stable _ _ Hrec).
    apply post_end, on_reply_settle, Hrec.
  - rewrite publish_ready_skip by auto. rewrite <- (on_reply_stable _ _ Hrec).
    apply post_end, on_reply_settle, Hrec.
  - rewrite publish_ready_skip by auto. rewrite <- (on_reply_stable _ _ Hrec).
    apply post_end, on_reply_settle, Hrec.
Qed.

(** The second task, when no handler runs meanwhile. *)
Lemma save_proof_run tag msg m w v b64 :
  reconnections w = [] ->
  field (objects w) m "hash_id" = Some v ->
  save_proof env m b64 (settle env tag msg) w
  = if redis w then
      (match set_reply (io w) with
       | Some e => replied env tag msg (Some e) w
       | None =>
           let w1 := saved env w (proof_key (objects w) m) b64 in
           match hgetall_reply (io w) with
           | Some e => replied env tag msg (Some e) w1
           | None =>
               match subscription_of
                       (redis_hashes w !! ("sub:" +:+ proof_key (objects w) m)) with
               | (Some api_id, Some cx_id) =>
                   if amqpChannel w
                   then replied env tag msg (publish_reply (io w))
                          (published env {| exchange := RMQ_OUTGOING_EXCHANGE env;
                                            routingKey := "";
                                            header_api_id := api_id;
                                            persistent := true;
                                            body_cx_id := cx_id;
                                            body_hash_id := v |} w1)
                   else with_thrown (thrown w ++ [TypeError]) w1
               | _ => replied env tag msg None w1
               end
           end
       end, Ok tt)
    else (w, Throw TypeError).
Proof.
  intros Hrec Hid. unfold save_proof. apply post_eq.
  eapply post_ok; [apply read_field, Hid | cbv beta].
  eapply post_ok; [apply to_string_run | cbv beta].
  unfold bind at 1. unfold redis_set.
  destruct (redis w) eqn:Er; [|apply post_end; reflexivity].
  destruct (set_reply (io w)) as [e|] eqn:Es.
  { apply post_end. apply on_reply_settle, Hrec. }
  rewrite on_reply_stable by exact Hrec.
  rewrite (find_subscription_run tag msg m _ v) by assumption.
  unfold saved, proof_key.
  cbn [redis io redis_hashes objects amqpChannel thrown with_redis_strings].
  rewrite Hid, Er. apply post_end. reflexivity.
Qed.

(** From the schema check on, when no handler runs meanwhile: the outcome by
    the answers of the validator, the encoder, the store and the broker, and
    by the two variables. *)
Lemma validate_store_notify_run tag msg m p w v :
  reconnections w = [] ->
  field (objects w) m "hash_id" = Some v ->
  validate_store_notify env schema_valid objectToBase64 tag msg m p w
  = if schema_valid (objects w) p then
      match objectToBase64 (objects w) p with
      | inl e => settle env tag msg (Some e) w
      | inr b64 =>
          if redis w then
            (match set_reply (io w) with
             | Some e => replied env tag msg (Some e) w
             | None =>
                 let w1 := saved env w (proof_key (objects w) m) b64 in
                 match hgetall_reply (io w) with
                 | Some e => replied env tag msg (Some e) w1
                 | None =>
                     match subscription_of
                             (redis_hashes w !! ("sub:" +:+ proof_key (objects w) m)) with
                     | (Some api_id, Some cx_id) =>
                         if amqpChannel w
                         then replied env tag msg (publish_reply (io w))
                                (published env {| exchange := RMQ_OUTGOING_EXCHANGE env;
                                                  routingKey := "";
                                                  header_api_id := api_id;
                                                  persistent := true;
                                                  body_cx_id := cx_id;
                                                  body_hash_id := v |} w1)
                         else with_thrown (thrown w ++ [TypeError]) w1
                     | _ => replied env tag msg None w1
                     end
                 end
             end, Ok tt)
          else (w, Throw TypeError)
      end
    else invalid_schema env msg w.
Proof.
  intros Hrec Hid. unfold validate_store_notify, validate.
  unfold bind at 1. destruct (schema_valid (objects w) p); cbn [negb]; [|reflexivity].
  unfold waterfall, encode. unfold bind at 1.
  destruct (objectToBase64 (objects w) p) as [e|b64]; [reflexivity|].
  apply (save_proof_run tag msg m w v b64 Hrec Hid).
Qed.

(** *** In every world *)

Lemma validate_store_notify_invalid tag msg m p w :
  schema_valid (objects w) p = false ->
  validate_store_notify env schema_valid objectToBase64 tag msg m p w
  = invalid_schema env msg w.
Proof. intros H. unfold validate_store_notify, validate, bind. rewrite H. reflexivity. Qed.

Lemma validate_store_notify_encode_err tag msg m p w e :
  schema_valid (objects w) p = true -> objectToBase64 (objects w) p = inl e ->
  validate_store_notify env schema_valid objectToBase64 tag msg m p w
  = settle env tag msg (Some e) w.
Proof.
  intros Hv He. unfold validate_store_notify, validate.
  unfold bind at 1. rewrite Hv. cbn [negb].
  unfold waterfall, encode. unfold bind at 1. rewrite He. reflexivity.
Qed.

Lemma validate_store_notify_encoded tag msg m p w b64 :
  schema_valid (objects w) p = true -> objectToBase64 (objects w) p = inr b64 ->
  validate_store_notify env schema_valid objectToBase64 tag msg m p w
  = save_proof env m b64 (settle env tag msg) w.
Proof.
  intros Hv He. unfold validate_store_notify, validate.
  unfold bind at 1. rewrite Hv. cbn [negb].
  unfold waterfall, encode. unfold bind at 1. rewrite He. reflexivity.
Qed.

(** The write on a missing client: the TypeError leaves the function, and
    nothing has changed. *)
Lemma save_proof_down m b64 final w v :
  field (objects w) m "hash_id" = Some v -> redis w = false ->
  save_proof env m b64 final w = (w, Throw TypeError).
Proof.
  intros Hid Er. unfold save_proof. apply post_eq.
  eapply post_ok; [apply read_field, Hid | cbv beta].
  eapply post_ok; [apply to_string_run | cbv beta].
  unfold bind, redis_set. rewrite Er. reflexivity.
Qed.

(** The write the store refuses: the callback hands the error on. *)
Lemma save_proof_refused m b64 final w v e :
  field (objects w) m "hash_id" = Some v -> redis w = true ->
  set_reply (io w) = Some e ->
  save_proof env m b64 final w = on_reply (final (Some e)) w.
Proof.
  intros Hid Er Es. unfold save_proof. apply post_eq.
  eapply post_ok; [apply read_field, Hid | cbv beta].
  eapply post_ok; [apply to_string_run | cbv beta].
  unfold bind, redis_set. rewrite Er, Es. apply post_end. reflexivity.
Qed.

(** The write the store accepts: the proof is saved, and the callback starts
    the third task. *)
Lemma save_proof_accepted m b64 final w v :
  field (objects w) m "hash_id" = Some v -> redis w = true ->
  set_reply (io w) = None ->
  save_proof env m b64 final w
  = on_reply (find_subscription env m final) (saved env w (proof_key (objects w) m) b64).
Proof.
  intros Hid Er Es. unfold save_proof. apply post_eq.
  eapply post_ok; [apply read_field, Hid | cbv beta].
  eapply post_ok; [apply to_string_run | cbv beta].
  unfold bind, redis_set. rewrite Er, Es. apply post_end.
  unfold saved, proof_key. rewrite Hid. reflexivity.
Qed.

(** From the schema check on, the code either returns, or throws the
    TypeError of a call on [null] before it has changed anything; it throws
    when the channel is missing for the acknowledgment of an invalid document
    or for the rejection after an encoding error, and when the client is
    missing for the write. *)
Lemma validate_store_notify_throws tag msg m p w v :
  field (objects w) m "hash_id" = Some v ->
  let r := validate_store_notify env schema_valid objectToBase64 tag msg m p w in
  if (if schema_valid (objects w) p
      then match objectToBase64 (objects w) p with
           | inl _ => amqpChannel w
           | inr _ => redis w
           end
      else amqpChannel w)
  then r.2 = Ok tt
  else r = (w, Throw TypeError).
Proof.
  intros Hid r. subst r.
  destruct (schema_valid (objects w) p) eqn:Hv.
  2:{ rewrite validate_store_notify_invalid by exact Hv.
      destruct (amqpChannel w) eqn:E.
      - rewrite invalid_schema_run by exact E. reflexivity.
      - apply invalid_schema_down, E. }
  destruct (objectToBase64 (objects w) p) as [e|b64] eqn:He.
  { rewrite (validate_store_notify_encode_err _ _ _ _ _ _ Hv He).
    destruct (amqpChannel w) eqn:E.
    - rewrite settle_run by exact E. reflexivity.
    - apply settle_down, E. }
  rewrite (validate_store_notify_encoded _ _ _ _ _ _ Hv He).
  destruct (redis w) eqn:Er.
  - destruct (set_reply (io w)) as [e|] eqn:Es.
    + rewrite (save_proof_refused _ _ _ _ _ _ Hid Er Es). apply on_reply_returns.
    + rewrite (save_proof_accepted _ _ _ _ _ Hid Er Es). apply on_reply_returns.
  - apply (save_proof_down _ _ _ _ _ Hid Er).
Qed.

(** From the accepted write on, the code leaves the string keys and the
    replies of the store and the clock as they are. *)
Lemma find_subscription_keeps {C} (f : world -> C) tag msg m :
  (forall h w, f (with_objects h w) = f w) ->
  (forall l w, f (with_settled l w) = f w) ->
  (forall l w, f (with_console l w) = f w) ->
  (forall l w, f (with_publishes l w) = f w) ->
  (forall l w, f (with_thrown l w) = f w) ->
  (forall w, f (next_turn w) = f w) ->
  keeps f (find_subscription env m (settle env tag msg)).
Proof.
  intros H1 H2 H3 H4 H5 H6.
  unfold find_subscription, publish_ready, settle.
  repeat first
    [ apply keeps_bind; [ | intros ? ]
    | apply keeps_on_reply; [exact H6 | exact H5 | ]
    | apply keeps_liftJS; exact H1
    | apply keeps_ack; exact H2
    | apply keeps_nack; exact H2
    | apply keeps_console_log; exact H3
    | apply keeps_console_error; exact H3
    | apply keeps_publish; exact H4
    | apply keeps_hgetall
    | lazymatch goal with
      | |- keeps _ (match ?x with _ => _ end) => destruct x
      | |- keeps _ (if ?b then _ else _) => destruct b
      end ].
Qed.

Lemma composes_hash_id msg w m p h :
  composes uuidTime_v1 JSON_parse msg w m p h ->
  exists v, field h m "hash_id" = Some v.
Proof.
  intros (h1 & _ & [(_ & Hdoc) | (_ & Hdoc)]).
  - exact (cal_document_reads uuidTime_v1 _ _ _ _ "hash_id" Hdoc).
  - exact (btc_document_reads uuidTime_v1 _ _ _ _ "hash_id" Hdoc).
Qed.

(** The run of a message that composes, when no handler runs meanwhile: by
    the answers of the validator, the encoder, the store and the broker, and
    by the two variables. *)
Lemma composed_run msg w m p h :
  composes uuidTime_v1 JSON_parse msg w m p h ->
  reconnections w = [] ->
  exists v, field h m "hash_id" = Some v /\
  processMessage env uuidTime_v1 JSON_parse schema_valid objectToBase64 (Some msg) w
  = let w0 := with_objects h w in
    let tag := log_tag msg in
    if schema_valid h p then
      match objectToBase64 h p with
      | inl e => settle env tag msg (Some e) w0
      | inr b64 =>
          if redis w then
            (match set_reply (io w) with
             | Some e => replied env tag msg (Some e) w0
             | None =>
                 let w1 := saved env w0 (proof_key h m) b64 in
                 match hgetall_reply (io w) with
                 | Some e => replied env tag msg (Some e) w1
                 | None =>
                     match subscription_of
                             (redis_hashes w !! ("sub:" +:+ proof_key h m)) with
                     | (Some api_id, Some cx_id) =>
                         if amqpChannel w
                         then replied env tag msg (publish_reply (io w))
                                (published env {| exchange := RMQ_OUTGOING_EXCHANGE env;
                                                  routingKey := "";
                                                  header_api_id := api_id;
                                                  persistent := true;
                                                  body_cx_id := cx_id;
                                                  body_hash_id := v |} w1)
                         else with_thrown (thrown w ++ [TypeError]) w1
                     | _ => replied env tag msg None w1
                     end
                 end
             end, Ok tt)
          else (w0, Throw TypeError)
      end
    else invalid_schema env msg w0.
Proof.
  intros Hc Hrec. destruct (composes_hash_id _ _ _ _ _ Hc) as [v Hv]. exists v.
  split; [exact Hv|].
  rewrite (processMessage_composes _ _ _ _ _ Hc).
  rewrite (validate_store_notify_run _ msg m p (with_objects h w) v Hrec Hv).
  reflexivity.
Qed.

(** In every world, a message that composes either returns, or throws the
    TypeError of a call on [null] with nothing changed but the objects it has
    built. *)
Lemma composed_throws msg w m p h :
  composes uuidTime_v1 JSON_parse msg w m p h ->
  let r := processMessage env uuidTime_v1 JSON_parse schema_valid objectToBase64
                          (Some msg) w in
  if (if schema_valid h p
      then match objectToBase64 h p with
           | inl _ => amqpChannel w
           | inr _ => redis w
           end
      else amqpChannel w)
  then r.2 = Ok tt
  else r = (with_objects h w, Throw TypeError).
Proof.
  intros Hc. destruct (composes_hash_id _ _ _ _ _ Hc) as [v Hv].
  rewrite (processMessage_composes _ _ _ _ _ Hc).
  exact (validate_store_notify_throws (log_tag msg) msg m p (with_objects h w) v Hv).
Qed.

(** In every world, a valid and encoded document that the store accepts is
    saved under the string of [hash_id] with the configured expiry and the
    time of the write, whatever happens in the callbacks. *)
Lemma composed_saved msg w m p h b64 :
  composes uuidTime_v1 JSON_parse msg w m p h ->
  schema_valid h p = true -> objectToBase64 h p = inr b64 ->
  redis w = true -> set_reply (io w) = None ->
  redis_strings (processMessage env uuidTime_v1 JSON_parse schema_valid objectToBase64
                                (Some msg) w).1
  = <[proof_key h m := {| cached_value := b64;
                          cached_EX := PROOF_EXPIRE_MINUTES env * 60;
                          cached_at := clock w |}]> (redis_strings w).
Proof.
  intros Hc Hv He Er Es. destruct (composes_hash_id _ _ _ _ _ Hc) as [v Hid].
  rewrite (processMessage_composes _ _ _ _ _ Hc).
  rewrite (validate_store_notify_encoded _ msg m p (with_objects h w) b64 Hv He).
  rewrite (save_proof_accepted m b64 _ (with_objects h w) v Hid Er Es).
  assert (keeps redis_strings
            (on_reply (find_subscription env m (settle env (log_tag msg) msg)))) as K.
  { apply keeps_on_reply; [keeps_side | keeps_side |].
    apply find_subscription_keeps; keeps_side. }
  rewrite K. reflexivity.
Qed.

(** In every world, when the schema check, the encoder or the write fails, or
    the client is missing, the string keys of the store are what they were. *)
Lemma composed_not_saved msg w m p h :
  composes uuidTime_v1 JSON_parse msg w m p h ->
  schema_valid h p = false \/ (exists e, objectToBase64 h p = inl e) \/
  is_Some (set_reply (io w)) \/ redis w = false ->
  redis_strings (processMessage env uuidTime_v1 JSON_parse schema_valid objectToBase64
                                (Some msg) w).1
  = redis_strings w.
Proof.
  intros Hc H. destruct (composes_hash_id _ _ _ _ _ Hc) as [v Hid].
  rewrite (processMessage_composes _ _ _ _ _ Hc).
  assert (forall err, keeps redis_strings (settle env (log_tag msg) msg err)) as Ks
      by (intros err; unfold settle; keeps_tac).
  destruct (schema_valid h p) eqn:Hv.
  2:{ rewrite validate_store_notify_invalid by exact Hv.
      assert (keeps redis_strings (invalid_schema env msg)) as K
          by (unfold invalid_schema; keeps_tac).
      rewrite K. reflexivity. }
  destruct (objectToBase64 h p) as [e|b64] eqn:He.
  { rewrite (validate_store_notify_encode_err _ msg m p (with_objects h w) e Hv He).
    rewrite Ks. reflexivity. }
  rewrite (validate_store_notify_encoded _ msg m p (with_objects h w) b64 Hv He).
  destruct (redis w) eqn:Er.
  2:{ rewrite (save_proof_down m b64 _ (with_objects h w) v Hid Er). reflexivity. }
  destruct (set_reply (io w)) as [e|] eqn:Es.
  2:{ destruct H as [[=] | [[e [=]] | [[e [=]] | [=]]]]. }
  rewrite (save_proof_refused m b64 _ (with_objects h w) v e Hid Er Es).
  assert (keeps redis_strings (on_reply (settle env (log_tag msg) msg (Some e)))) as K
      by (apply keeps_on_reply; [keeps_side | keeps_side | apply Ks]).
  rewrite K. reflexivity.
Qed.

(** In every world, handling a message changes neither the clock nor the
    replies the store and the broker give. *)
Lemma processMessage_keeps_clock msg :
  keeps clock (processMessage env uuidTime_v1 JSON_parse schema_valid objectToBase64 msg).
Proof.
  unfold processMessage, generateCALProof, generateBTCProof, generateETHProof,
    validate_store_notify, waterfall, save_proof, find_subscription, publish_ready,
    settle, invalid_schema, validate, encode.
  keeps_tac.
Qed.

Lemma processMessage_keeps_io msg :
  keeps io (processMessage env uuidTime_v1 JSON_parse schema_valid objectToBase64 msg).
Proof.
  unfold processMessage, generateCALProof, generateBTCProof, generateETHProof,
    validate_store_notify, waterfall, save_proof, find_subscription, publish_ready,
    settle, invalid_schema, validate, encode.
  keeps_tac.
Qed.

Lemma truthy_nonempty s : s <> ""%string -> truthy (Some s) = true.
Proof.
  intros H. unfold truthy. destruct (String.eqb s "") eqn:E; [|reflexivity].
  apply String.eqb_eq in E. contradiction.
Qed.

Lemma subscription_of_full (r : gmap string string) X Y :
  r !! "api_id" = Some X -> X <> ""%string ->
  r !! "cx_id" = Some Y -> Y <> ""%string ->
  subscription_of (Some r) = (Some X, Some Y).
Proof.
  intros HX nX HY nY. unfold subscription_of.
  rewrite HX, HY, (truthy_nonempty _ nX), (truthy_nonempty _ nY). reflexivity.
Qed.

Lemma subscription_of_partial (r : gmap string string) :
  truthy (r !! "api_id") = false \/ truthy (r !! "cx_id") = false ->
  subscription_of (Some r) = (None, None).
Proof.
  intros [H|H]; unfold subscription_of; rewrite H; cbn [negb orb]; [reflexivity|].
  destruct (negb (truthy (r !! "api_id"))); reflexivity.
Qed.

(** The run of a stage event: the notification carries the hash id. *)
Lemma stage_event_run msg w m p h hashId :
  stage_event uuidTime_v1 JSON_parse msg w m p h hashId ->
  reconnections w = [] ->
  processMessage env uuidTime_v1 JSON_parse schema_valid objectToBase64 (Some msg) w
  = let w0 := with_objects h w in
    let tag := log_tag msg in
    if schema_valid h p then
      match objectToBase64 h p with
      | inl e => settle env tag msg (Some e) w0
      | inr b64 =>
          if redis w then
            (match set_reply (io w) with
             | Some e => replied env tag msg (Some e) w0
             | None =>
                 let w1 := saved env w0 hashId b64 in
                 match hgetall_reply (io w) with
                 | Some e => replied env tag msg (Some e) w1
                 | None =>
                     match subscription_of (redis_hashes w !! ("sub:" +:+ hashId)) with
                     | (Some api_id, Some cx_id) =>
                         if amqpChannel w
                         then replied env tag msg (publish_reply (io w))
                                (published env (ready env api_id cx_id hashId) w1)
                         else with_thrown (thrown w ++ [TypeError]) w1
                     | _ => replied env tag msg None w1
                     end
                 end
             end, Ok tt)
          else (w0, Throw TypeError)
      end
    else invalid_schema env msg w0.
Proof.
  intros [Hc Hid] Hrec. destruct (composed_run _ _ _ _ _ Hc Hrec) as (v & Hv & ->).
  assert (v = VStr hashId) as -> by congruence.
  rewrite (proof_key_str _ _ _ Hid). reflexivity.
Qed.

(** While the client and the channel are set: for a CAL or BTC stage event
    that composes, a document that fails the schema check gets the message
    acknowledged, with nothing saved or published; for a document that passes,
    an error from the encoder, a refused write, a refused lookup and a refused
    publish each get the message rejected (and the refused write leaves the
    store as it was, with nothing published). *)
Lemma acknowledgment_policy (msg : message) (w : world) (m p : val) (h : heap) :
  composes uuidTime_v1 JSON_parse msg w m p h ->
  connected w ->
  let run := processMessage env uuidTime_v1 JSON_parse schema_valid objectToBase64
                            (Some msg) w in
  (schema_valid h p = false ->
   run.2 = Ok tt /\
   settled run.1 = settled w ++ [(deliveryTag msg, Ack)] /\
   redis_strings run.1 = redis_strings w /\
   publishes run.1 = publishes w) /\
  (forall e,
      schema_valid h p = true -> objectToBase64 h p = inl e ->
      settled run.1 = settled w ++ [(deliveryTag msg, Nack)] /\
      redis_strings run.1 = redis_strings w /\
      publishes run.1 = publishes w) /\
  (forall hashId b64,
      field h m "hash_id" = Some (VStr hashId) ->
      schema_valid h p = true -> objectToBase64 h p = inr b64 ->
      (is_Some (set_reply (io w)) ->
       settled run.1 = settled w ++ [(deliveryTag msg, Nack)] /\
       redis_strings run.1 = redis_strings w /\
       publishes run.1 = publishes w) /\
      (set_reply (io w) = None -> is_Some (hgetall_reply (io w)) ->
       settled run.1 = settled w ++ [(deliveryTag msg, Nack)] /\
       publishes run.1 = publishes w) /\
      (forall api_id cx_id,
          set_reply (io w) = None -> hgetall_reply (io w) = None ->
          subscription_of (redis_hashes w !! ("sub:" +:+ hashId))
          = (Some api_id, Some cx_id) ->
          is_Some (publish_reply (io w)) ->
          publishes run.1 = publishes w ++ [ready env api_id cx_id hashId] /\
          settled run.1 = settled w ++ [(deliveryTag msg, Nack)])).
Proof.
  intros Hc (Er & Ea & Hrec) run. subst run.
  split; [|split].
  - intros Hv. destruct (composed_run _ _ _ _ _ Hc Hrec) as (v & _ & ->). cbv zeta.
    rewrite Hv, invalid_schema_run by exact Ea. repeat split; reflexivity.
  - intros e Hv He. destruct (composed_run _ _ _ _ _ Hc Hrec) as (v & _ & ->). cbv zeta.
    rewrite Hv, He, settle_run by exact Ea. repeat split; reflexivity.
  - intros hashId b64 Hid Hv He.
    rewrite (stage_event_run _ _ _ _ _ hashId (conj Hc Hid) Hrec). cbv zeta.
    rewrite Hv, He, Er. unfold replied. cbn [amqpChannel published saved
      with_console with_publishes with_redis_strings with_objects]. rewrite Ea.
    split; [|split].
    + intros [err ->]. repeat split; reflexivity.
    + intros -> [err ->]. repeat split; reflexivity.
    + intros api cx -> -> -> [err ->]. split; reflexivity.
Qed.

(** C3.  The code at the input where it departs from the claim: a CAL or BTC
    stage event whose document passes the schema check and is encoded, handled
    while [redis] is [null] (the value the handler of the client's ['error']
    event gives it until the next connection).  The write is a call on [null]:
    [processMessage] throws a TypeError, and the message is neither rejected
    nor acknowledged; nothing is saved, published or logged.  No store write
    succeeded, and the claim demands a rejection. *)
Theorem store_down_message_not_settled (msg : message) (w : world) (m p : val) (h : heap)
        (b64 : string) :
  composes uuidTime_v1 JSON_parse msg w m p h ->
  schema_valid h p = true -> objectToBase64 h p = inr b64 ->
  redis w = false ->
  let run := processMessage env uuidTime_v1 JSON_parse schema_valid objectToBase64
                            (Some msg) w in
  run.2 = Throw TypeError /\
  settled run.1 = settled w /\
  redis_strings run.1 = redis_strings w /\
  publishes run.1 = publishes w /\
  console run.1 = console w /\
  thrown run.1 = thrown w.
Proof.
  intros Hc Hv He Er run. subst run.
  pose proof (composed_throws _ _ _ _ _ Hc) as H. cbv zeta in H.
  rewrite Hv, He, Er in H. rewrite H. repeat split; reflexivity.
Qed.

(** C4, as amended.  For a CAL or BTC stage event for the hash id [H] that
    composes, when no handler changes the two variables meanwhile: with the
    client and the channel set, if the document passes the schema check, is
    encoded and saved, and the lookup is answered with a record under
    ["sub:" + H] whose [api_id] and [cx_id] are non-empty, exactly one
    notification is published, with the [api_id] as its routing header and with
    the [cx_id] and [H] as its body; with the client and the channel set, if
    there is no record under that key, nothing is published and processing
    returns normally, whatever the schema check, the encoder, the store and
    the broker answer; and, whatever is under that key, nothing is published
    when the document fails the schema check, when the encoder, the write or
    the lookup answers with an error, and when the client or the channel is
    missing.  An ETH message publishes nothing, in any world. *)
Theorem notification_routing
        (msg : message) (w : world) (m p : val) (h : heap) (hashId : string) :
  stage_event uuidTime_v1 JSON_parse msg w m p h hashId ->
  reconnections w = [] ->
  let run := processMessage env uuidTime_v1 JSON_parse schema_valid objectToBase64
                            (Some msg) w in
  (forall b64 (r : gmap string string) X Y,
      redis w = true -> amqpChannel w = true ->
      schema_valid h p = true -> objectToBase64 h p = inr b64 ->
      set_reply (io w) = None -> hgetall_reply (io w) = None ->
      redis_hashes w !! ("sub:" +:+ hashId) = Some r ->
      r !! "api_id" = Some X -> X <> ""%string ->
      r !! "cx_id" = Some Y -> Y <> ""%string ->
      publishes run.1 = publishes w ++ [ready env X Y hashId]) /\
  (redis w = true -> amqpChannel w = true ->
   redis_hashes w !! ("sub:" +:+ hashId) = None ->
   publishes run.1 = publishes w /\ run.2 = Ok tt) /\
  (schema_valid h p = false \/ (exists e, objectToBase64 h p = inl e) \/
   is_Some (set_reply (io w)) \/ is_Some (hgetall_reply (io w)) \/
   redis w = false \/ amqpChannel w = false ->
   publishes run.1 = publishes w) /\
  (forall body tag w',
      publishes (processMessage env uuidTime_v1 JSON_parse schema_valid objectToBase64
                                (Some {| content := body;
                                         properties_type := Some "eth"%string;
                                         deliveryTag := tag |}) w').1
      = publishes w').
Proof.
  intros Hs Hrec run. subst run.
  rewrite (stage_event_run _ _ _ _ _ _ Hs Hrec). cbv zeta.
  split; [|split; [|split]].
  - intros b64 r X Y Er Ea Hv He Hset Hg Hr HX nX HY nY.
    rewrite Hv, He, Er, Hset, Hg, Hr, (subscription_of_full r X Y HX nX HY nY), Ea.
    unfold replied. cbn [amqpChannel published saved with_console with_publishes
      with_redis_strings with_objects]. rewrite Ea.
    destruct (publish_reply (io w)); reflexivity.
  - intros Er Ea Hr. rewrite Er, Hr. unfold replied.
    cbn [amqpChannel saved with_redis_strings with_objects]. rewrite Ea.
    destruct (schema_valid h p);
      [|rewrite invalid_schema_run by exact Ea; split; reflexivity].
    destruct (objectToBase64 h p) as [e|b64];
      [rewrite settle_run by exact Ea; split; reflexivity|].
    destruct (set_reply (io w)) as [e|]; [split; reflexivity|].
    destruct (hgetall_reply (io w)) as [e|]; split; reflexivity.
  - intros H.
    assert (forall err w1, publishes w1 = publishes w ->
                           publishes (replied env (log_tag msg) msg err w1) = publishes w)
      as Hreplied.
    { intros err w1 <-. unfold replied, settled_by.
      destruct (amqpChannel w1); [destruct err|]; reflexivity. }
    destruct (schema_valid h p) eqn:Hv.
    2:{ destruct (amqpChannel w) eqn:Ea.
        - rewrite invalid_schema_run by exact Ea. reflexivity.
        - rewrite invalid_schema_down by exact Ea. reflexivity. }
    destruct (objectToBase64 h p) as [e|b64] eqn:He.
    { destruct (amqpChannel w) eqn:Ea.
      - rewrite settle_run by exact Ea. destruct e; reflexivity.
      - rewrite settle_down by exact Ea. reflexivity. }
    destruct (redis w) eqn:Er; [|reflexivity].
    destruct (set_reply (io w)) as [e|] eqn:Hset; [apply Hreplied; reflexivity|].
    destruct (hgetall_reply (io w)) as [e|] eqn:Hg; [apply Hreplied; reflexivity|].
    destruct (amqpChannel w) eqn:Ea.
    { destruct H as [[=] | [[e [=]] | [[e [=]] | [[e [=]] | [[=] | [=]]]]]]. }
    destruct (subscription_of _) as [[api|] [cx|]];
      try (apply Hreplied; reflexivity); reflexivity.
  - intros body tag w'. reflexivity.
Qed.

(** C9.  For a CAL or BTC stage event that composes, passes the schema check,
    is encoded and saved, and whose lookup is answered, with the client and
    the channel set: a record under ["sub:" + H] that lacks a truthy [api_id]
    or a truthy [cx_id] gets no notification published, no error, and the
    message acknowledged; and the run is the run of the same world without
    that record, in its outcome and in everything it publishes, settles, logs,
    saves, builds and throws. *)
Theorem partial_subscription_as_absent
        (msg : message) (w : world) (m p : val) (h : heap) (hashId b64 : string)
        (r : gmap string string) :
  stage_event uuidTime_v1 JSON_parse msg w m p h hashId ->
  connected w ->
  schema_valid h p = true -> objectToBase64 h p = inr b64 ->
  set_reply (io w) = None -> hgetall_reply (io w) = None ->
  redis_hashes w !! ("sub:" +:+ hashId) = Some r ->
  truthy (r !! "api_id") = false \/ truthy (r !! "cx_id") = false ->
  let run := processMessage env uuidTime_v1 JSON_parse schema_valid objectToBase64
                            (Some msg) w in
  let absent := processMessage env uuidTime_v1 JSON_parse schema_valid objectToBase64
                               (Some msg)
                               (with_redis_hashes
                                  (delete ("sub:" +:+ hashId) (redis_hashes w)) w) in
  (publishes run.1 = publishes w /\ run.2 = Ok tt /\
   settled run.1 = settled w ++ [(deliveryTag msg, Ack)] /\
   thrown run.1 = thrown w) /\
  (run.2 = absent.2 /\ publishes run.1 = publishes absent.1 /\
   settled run.1 = settled absent.1 /\ console run.1 = console absent.1 /\
   redis_strings run.1 = redis_strings absent.1 /\ objects run.1 = objects absent.1 /\
   thrown run.1 = thrown absent.1).
Proof.
  intros Hs (Er & Ea & Hrec) Hv He Hset Hg Hr Hpartial run absent. subst run absent.
  assert (stage_event uuidTime_v1 JSON_parse msg
            (with_redis_hashes (delete ("sub:" +:+ hashId) (redis_hashes w)) w) m p h hashId)
    as Hs' by exact Hs.
  rewrite (stage_event_run _ _ _ _ _ _ Hs Hrec).
  rewrite (stage_event_run _ _ _ _ _ _ Hs' Hrec). cbv zeta.
  cbn [redis_hashes redis io amqpChannel with_redis_hashes].
  rewrite Hv, He, Er, Hset, Hg, Hr, (subscription_of_partial r Hpartial), lookup_delete_eq.
  cbn [subscription_of]. unfold replied.
  cbn [amqpChannel saved with_redis_strings with_objects with_redis_hashes]. rewrite Ea.
  repeat split; reflexivity.
Qed.

(** With the client and the channel set, a CAL or BTC stage event that
    composes gets exactly one acknowledgment decision, whatever the schema
    check, the encoder, the store and the broker answer. *)
Lemma composed_message_settled_once
      (msg : message) (w : world) (m p : val) (h : heap) (hashId : string) :
  stage_event uuidTime_v1 JSON_parse msg w m p h hashId ->
  connected w ->
  exists d,
    settled (processMessage env uuidTime_v1 JSON_parse schema_valid objectToBase64
                            (Some msg) w).1
    = settled w ++ [(deliveryTag msg, d)].
Proof.
  intros Hs (Er & Ea & Hrec).
  rewrite (stage_event_run _ _ _ _ _ _ Hs Hrec). cbv zeta.
  rewrite Er, Ea. unfold replied.
  cbn [amqpChannel published saved with_console with_publishes with_redis_strings
       with_objects]. rewrite Ea.
  destruct (schema_valid h p);
    [|rewrite invalid_schema_run by exact Ea; exists Ack; reflexivity].
  destruct (objectToBase64 h p) as [e|b64];
    [rewrite settle_run by exact Ea; exists Nack; reflexivity|].
  destruct (set_reply (io w)) as [e|]; [exists Nack; reflexivity|].
  destruct (hgetall_reply (io w)) as [e|]; [exists Nack; reflexivity|].
  destruct (subscription_of _) as [[api|] [cx|]].
  - destruct (publish_reply _); [exists Nack | exists Ack]; reflexivity.
  - exists Ack; reflexivity.
  - exists Ack; reflexivity.
  - exists Ack; reflexivity.
Qed.

(** A CAL message whose payload [JSON.parse] rejects: the exception leaves
    [processMessage] before any acknowledgment decision. *)
Lemma unparsable_message_not_settled (msg : message) (w : world) (h : heap) (e : exn) :
  properties_type msg = Some "cal"%string ->
  JSON_parse (content msg) (objects w) = (h, Throw e) ->
  processMessage env uuidTime_v1 JSON_parse schema_valid objectToBase64 (Some msg) w
  = (with_objects h w, Throw e).
Proof.
  intros Ht Hparse. unfold processMessage. rewrite Ht.
  cbn [String.eqb Ascii.eqb Bool.eqb].
  unfold generateCALProof, bind, liftJS. rewrite Hparse. reflexivity.
Qed.

(** C5.  The code at the inputs where it departs from the claim: a message of
    type [eth], a message of an unknown type and a message with no type are
    logged, and no acknowledgment decision is made for any of them. *)
Theorem eth_and_unknown_messages_not_settled (w : world) (body : string) (tag : nat) :
  let run := fun type =>
    processMessage env uuidTime_v1 JSON_parse schema_valid objectToBase64
      (Some {| content := body; properties_type := type; deliveryTag := tag |}) w in
  ((run (Some "eth"%string)).2 = Ok tt /\
   settled (run (Some "eth"%string)).1 = settled w /\
   console (run (Some "eth"%string)).1 = console w ++ [(Stdout, ["building eth proof"%string])]) /\
  ((run (Some "ltc"%string)).2 = Ok tt /\
   settled (run (Some "ltc"%string)).1 = settled w /\
   console (run (Some "ltc"%string)).1
   = console w ++ [(Stderr, ["Unknown state type"%string; "ltc"%string])]) /\
  ((run None).2 = Ok tt /\ settled (run None).1 = settled w).
Proof. repeat split; reflexivity. Qed.

(** ** The expiry of saved proofs *)

Lemma saves_with_keeps {A} T (c : IO A) : keeps redis_strings c -> saves_with T c.
Proof. intros H w key e. rewrite H. auto. Qed.

Lemma saves_with_bind {A B} T (c : IO A) (f : A -> IO B) :
  saves_with T c -> (forall a, saves_with T (f a)) -> saves_with T (bind c f).
Proof.
  intros Hc Hf w key e. unfold bind.
  specialize (Hc w key). destruct (c w) as [w' [a|err]]; cbn [fst] in *; [|auto].
  intros H. destruct (Hf a w' key e H) as [H'|H']; auto.
Qed.

Lemma saves_with_on_reply T (c : IO unit) : saves_with T c -> saves_with T (on_reply c).
Proof.
  intros Hc w key e. rewrite on_reply_run. specialize (Hc (next_turn w) key e).
  assert (redis_strings (next_turn w) = redis_strings w) as Hturn
      by (unfold next_turn; destruct (reconnections w) as [|[? ?] ?]; reflexivity).
  rewrite Hturn in Hc.
  destruct (c (next_turn w)) as [w' [[]|err]]; exact Hc.
Qed.

Lemma saves_with_set T key value : saves_with T (redis_set key value T).
Proof.
  intros w k e. unfold redis_set. destruct (redis w); [|auto].
  destruct (set_reply (io w)); cbn; [auto|].
  destruct (decide (key = k)) as [->|Hne].
  - rewrite lookup_insert_eq. intros [= <-]. auto.
  - rewrite lookup_insert_ne by assumption. auto.
Qed.

Ltac saves_with_tac :=
  repeat first
    [ apply saves_with_bind; [ | intros ? ]
    | apply saves_with_on_reply
    | apply saves_with_set
    | lazymatch goal with
      | |- saves_with _ (match ?x with _ => _ end) => destruct x
      | |- saves_with _ (if ?b then _ else _) => destruct b
      end
    | apply saves_with_keeps; solve [keeps_tac] ].

(** Every proof the service saves is saved with an expiry of
    [PROOF_EXPIRE_MINUTES * 60] seconds. *)
Lemma processMessage_saves_with msg :
  saves_with (PROOF_EXPIRE_MINUTES env * 60)
             (processMessage env uuidTime_v1 JSON_parse schema_valid objectToBase64 msg).
Proof.
  unfold processMessage, generateCALProof, generateBTCProof, generateETHProof,
    validate_store_notify, waterfall, save_proof, find_subscription, publish_ready,
    settle, invalid_schema, validate, encode.
  saves_with_tac.
Qed.

End PipelineFacts.

Section Expiry.

Variable gen_env api_env : Env.
Variable uuidTime_v1 : val -> result jsnum.
Variable JSON_parse : string -> JS val.
Variable schema_valid : heap -> val -> bool.
Variable objectToBase64 : heap -> val -> exn + string.
Variable uuidValidate : string -> Z -> bool.
Variable binaryToObject : option string -> JS (exn + val).

(** The gate of the retrieval endpoint, for a hash id that passes
    [uuidValidate] and has a timestamp. *)
Lemma each_gate requestedType hash_id w t :
  uuidValidate hash_id 1 = true -> uuidTime_v1 (VStr hash_id) = Ok (Num t) ->
  getProofsByIDV1Async_each api_env uuidTime_v1 uuidValidate binaryToObject
                            requestedType hash_id w
  = if maxDiff api_env <? clock w - t then (w, Ok ProofNull)
    else bind (redis_get hash_id)
              (fun got =>
                 match got with
                 | inl _ => ret ProofNull
                 | inr proofBase64 =>
                     match requestedType with
                     | BASE64_MIME_TYPE =>
                         ret (match proofBase64 with
                              | Some s => ProofBase64 s
                              | None => ProofNull
                              end)
                     | JSONLD_MIME_TYPE =>
                         bind (liftJS (binaryToObject proofBase64))
                              (fun decoded =>
                                 match decoded with
                                 | inl _ => ret ProofNull
                                 | inr proofObj => ret (ProofObject proofObj)
                                 end)
                     end
                 end) w.
Proof.
  intros Hv Ht. unfold getProofsByIDV1Async_each. rewrite Hv. cbn [negb].
  unfold bind at 1. rewrite Ht. cbn [lift_result].
  unfold bind at 1. cbn [Date_now num_sub num_gt].
  destruct (maxDiff api_env <? clock w - t); reflexivity.
Qed.

(** C8.  When the two services are configured with the same
    [PROOF_EXPIRE_MINUTES]: a CAL or BTC stage event whose document is valid
    and encoded, and whose write the store accepts, leaves the encoded proof
    in the store under the string of its hash id with an expiry of
    [PROOF_EXPIRE_MINUTES * 60] seconds, which is, in milliseconds, the
    retrieval layer's [maxDiff]; no entry is left in the store with another
    expiry, on any message and in any world; and the retrieval layer reports
    no proof for a hash id whose embedded time is more than [maxDiff]
    milliseconds old, and otherwise reads the store. *)
Theorem ttl_is_fetch_age :
  PROOF_EXPIRE_MINUTES gen_env = PROOF_EXPIRE_MINUTES api_env ->
  (forall msg w m p h b64,
      composes uuidTime_v1 JSON_parse msg w m p h ->
      schema_valid h p = true -> objectToBase64 h p = inr b64 ->
      redis w = true -> set_reply (io w) = None ->
      redis_strings
        (processMessage gen_env uuidTime_v1 JSON_parse schema_valid objectToBase64
                        (Some msg) w).1 !! proof_key h m
      = Some {| cached_value := b64;
                cached_EX := PROOF_EXPIRE_MINUTES gen_env * 60;
                cached_at := clock w |} /\
      PROOF_EXPIRE_MINUTES gen_env * 60 * 1000 = maxDiff api_env) /\
  (forall msg w key e,
      redis_strings
        (processMessage gen_env uuidTime_v1 JSON_parse schema_valid objectToBase64
                        msg w).1 !! key = Some e ->
      redis_strings w !! key = Some e \/
      (cached_EX e = PROOF_EXPIRE_MINUTES gen_env * 60 /\
       cached_EX e * 1000 = maxDiff api_env)) /\
  (forall requestedType hash_id w t,
      uuidValidate hash_id 1 = true -> uuidTime_v1 (VStr hash_id) = Ok (Num t) ->
      (maxDiff api_env < clock w - t ->
       getProofsByIDV1Async_each api_env uuidTime_v1 uuidValidate binaryToObject
                                 requestedType hash_id w = (w, Ok ProofNull)) /\
      (clock w - t <= maxDiff api_env -> get_reply (io w) = None ->
       getProofsByIDV1Async_each api_env uuidTime_v1 uuidValidate binaryToObject
                                 BASE64_MIME_TYPE hash_id w
       = (w, Ok (match redis_strings w !! hash_id with
                 | Some c => if clock w <? cached_at c + cached_EX c * 1000
                             then ProofBase64 (cached_value c) else ProofNull
                 | None => ProofNull
                 end)))).
Proof.
  intros Hsame. split; [|split].
  - intros msg w m p h b64 Hc Hv He Er Es. split.
    + rewrite (composed_saved gen_env uuidTime_v1 JSON_parse schema_valid objectToBase64
                              msg w m p h b64 Hc Hv He Er Es).
      apply lookup_insert_eq.
    + unfold maxDiff. rewrite Hsame. reflexivity.
  - intros msg w key e H.
    destruct (processMessage_saves_with gen_env uuidTime_v1 JSON_parse schema_valid
                                        objectToBase64 msg w key e H) as [H'|H'].
    + left. exact H'.
    + right. split; [exact H'|]. unfold maxDiff. rewrite H', Hsame. reflexivity.
  - intros requestedType hash_id w t Hv Ht. split.
    + intros Hold. rewrite (each_gate _ _ _ _ Hv Ht).
      apply Z.ltb_lt in Hold. rewrite Hold. reflexivity.
    + intros Hyoung Hget. rewrite (each_gate _ _ _ _ Hv Ht).
      apply Z.ltb_ge in Hyoung. rewrite Hyoung.
      unfold bind, redis_get. rewrite Hget.
      destruct (redis_strings w !! hash_id) as [c|]; [|reflexivity].
      destruct (clock w <? cached_at c + cached_EX c * 1000); reflexivity.
Qed.

End Expiry.

(** ** The statements at the concrete deployment *)

Lemma demo_reads_cal : reads_cal (demo_store demo_hash) (VRef 19%nat) demo_cal_event.
Proof.
  split; [reflexivity|]. split; [reflexivity|].
  split; [exists (VRef 3%nat), (VRef 2%nat); repeat split; reflexivity|].
  split; [exists (VRef 8%nat), (VRef 5%nat); repeat split; reflexivity|].
  exists (VRef 8%nat), (VRef 7%nat). repeat split; reflexivity.
Defined.

Lemma demo_reads_btc : reads_btc (demo_store demo_hash) (VRef 19%nat) demo_btc_event.
Proof.
  split; [exact demo_reads_cal|].
  split; [exists (VRef 11%nat), (VRef 10%nat); repeat split; reflexivity|].
  split; [exists (VRef 14%nat), (VRef 13%nat); repeat split; reflexivity|].
  split; [exists (VRef 18%nat), (VRef 16%nat); repeat split; reflexivity|].
  exists (VRef 18%nat), (VRef 17%nat). repeat split; reflexivity.
Defined.

(** The two CAL deliveries of the deployment compose: the payload with a hash,
    and the payload whose hash is [null]. *)
Lemma demo_stage_event (faults : replies) (sub : gmap string string) :
  stage_event demo_uuidTime demo_parse (demo_msg "payload" "cal")
              (demo_world faults sub) (VRef 19%nat) (VRef 20%nat)
              (demo_cal_store demo_hash) demo_hashId.
Proof.
  split; [|reflexivity].
  exists (demo_store demo_hash). split; [reflexivity|].
  left. split; [reflexivity|]. vm_compute. reflexivity.
Defined.

Lemma demo_stage_event_no_hash (faults : replies) (sub : gmap string string) :
  stage_event demo_uuidTime demo_parse (demo_msg "no-hash" "cal")
              (demo_world faults sub) (VRef 19%nat) (VRef 20%nat)
              (demo_cal_store VNull) demo_hashId.
Proof.
  split; [|reflexivity].
  exists (demo_store VNull). split; [reflexivity|].
  left. split; [reflexivity|]. vm_compute. reflexivity.
Defined.

(** A payload whose [cal_state] is a string: [calState.ops] is [undefined],
    which [concat] appends, [calState.anchor] is the method of strings, on
    which [anchor_id] and [uris] are [undefined], and the composition
    returns the proof. *)
Example string_cal_state_composes :
  let h := [mk_array [VStr "op"];
            mk_object [("ops", VRef 0%nat)];
            mk_object [("hash", demo_hash); ("hash_id", VStr demo_hashId);
                       ("agg_state", VRef 1%nat); ("cal_state", VStr "abc")]] in
  get_prop (VStr "abc") "anchor" h = (h, Ok (VFun "anchor")) /\
  exists h',
    cal_document demo_uuidTime (VRef 2%nat) h = (h', Ok (VRef 3%nat)) /\
    items h' (VRef 5%nat) = Some [VStr "op"; VUndef; VRef 7%nat] /\
    cell h' (VRef 6%nat) = Some (mk_object [("type", VStr "cal");
                                            ("anchor_id", VUndef);
                                            ("uris", VUndef)]).
Proof.
  intros h. split; [reflexivity|].
  eexists. split; [vm_compute; reflexivity|]. split; vm_compute; reflexivity.
Qed.

Lemma cal_proof_root_branch_witness :
  reads_cal (demo_store demo_hash) (VRef 19%nat) demo_cal_event /\
  submitted_at demo_uuidTime (ev_hashId demo_cal_event) = Ok demo_submitted /\
  exists h' proof branches root ops last anchors anchor,
    cal_document demo_uuidTime (VRef 19%nat) (demo_store demo_hash) = (h', Ok proof) /\
    own h' proof "branches" = Some branches /\
    items h' branches = Some [root] /\
    cell h' root = Some (mk_object [("label", VStr "cal_anchor_branch"); ("ops", ops)]) /\
    items h' ops = Some ([VRef 0%nat; VRef 1%nat] ++ [VRef 4%nat] ++ [last]) /\
    cell h' last = Some (mk_object [("anchors", anchors)]) /\
    cell h' anchors = Some (mk_array [anchor]) /\
    cell h' anchor = Some (mk_object [("type", VStr "cal");
                                      ("anchor_id", VStr "42");
                                      ("uris", VRef 6%nat)]).
Proof.
  split; [exact demo_reads_cal|]. split; [reflexivity|].
  apply (cal_proof_root_branch demo_uuidTime (demo_store demo_hash) (VRef 19%nat)
                               demo_cal_event demo_submitted).
  - exact demo_reads_cal.
  - reflexivity.
Defined.

Lemma btc_proof_sub_branch_witness :
  reads_btc (demo_store demo_hash) (VRef 19%nat) demo_btc_event /\
  submitted_at demo_uuidTime (ev_hashId (cal_part demo_btc_event)) = Ok demo_submitted /\
  exists h' proof branches root ops subs sub sub_ops last anchors anchor,
    btc_document demo_uuidTime (VRef 19%nat) (demo_store demo_hash) = (h', Ok proof) /\
    own h' proof "branches" = Some branches /\
    items h' branches = Some [root] /\
    cell h' root = Some (mk_object [("label", VStr "cal_anchor_branch"); ("ops", ops);
                                    ("branches", subs)]) /\
    items h' subs = Some [sub] /\
    cell h' sub = Some (mk_object [("label", VStr "btc_anchor_branch");
                                   ("ops", sub_ops)]) /\
    items h' sub_ops = Some ([VRef 9%nat] ++ [VRef 12%nat] ++ [VRef 15%nat] ++ [last]) /\
    cell h' last = Some (mk_object [("anchors", anchors)]) /\
    cell h' anchors = Some (mk_array [anchor]) /\
    cell h' anchor = Some (mk_object [("type", VStr "btc");
                                      ("anchor_id", VStr "503275")]).
Proof.
  split; [exact demo_reads_btc|]. split; [reflexivity|].
  apply (btc_proof_sub_branch demo_uuidTime (demo_store demo_hash) (VRef 19%nat)
                              demo_btc_event demo_submitted).
  - exact demo_reads_btc.
  - reflexivity.
Defined.

Lemma fragments_not_mutated_witness :
  reads_btc (demo_store demo_hash) (VRef 19%nat) demo_btc_event /\
  reads_btc (btc_document demo_uuidTime (VRef 19%nat) (demo_store demo_hash)).1
            (VRef 19%nat) demo_btc_event.
Proof.
  split; [exact demo_reads_btc|].
  apply (fragments_not_mutated demo_uuidTime). exact demo_reads_btc.
Defined.

Lemma hash_submitted_at_from_hashId_alone_witness :
  let w1 := with_objects [empty_object] (demo_world no_fault demo_subscription) in
  let w2 := {| objects := [mk_array []; empty_object]; clock := 1700000000000;
               redis_strings := ∅; redis_hashes := ∅; io := no_fault;
               publishes := []; settled := []; console := [];
               redis := true; amqpChannel := true; reconnections := [];
               thrown := [] |} in
  clock w1 <> clock w2 /\
  is_Some (objects w1 !! 0%nat) /\ is_Some (objects w2 !! 1%nat) /\
  match liftJS (addChainpointHeader demo_uuidTime (VRef 0%nat) demo_hash
                                    (VStr demo_hashId)) w1,
        liftJS (addChainpointHeader demo_uuidTime (VRef 1%nat) VNull
                                    (VStr demo_hashId)) w2 with
  | (w1', Ok p1), (w2', Ok p2) =>
      exists s, submitted_at demo_uuidTime (VStr demo_hashId) = Ok s /\
                own (objects w1') p1 "hash_submitted_at" = Some (VStr s) /\
                own (objects w2') p2 "hash_submitted_at" = Some (VStr s)
  | (_, Throw e1), (_, Throw e2) => e1 = e2
  | _, _ => False
  end.
Proof.
  intros w1 w2. split; [discriminate|].
  split; [eexists; reflexivity|]. split; [eexists; reflexivity|].
  apply (hash_submitted_at_from_hashId_alone demo_uuidTime w1 w2 0%nat 1%nat).
  - eexists; reflexivity.
  - eexists; reflexivity.
Defined.

(** The store client of the deployment is lost: the stage event still
    composes. *)
Lemma demo_stage_event_store_down :
  stage_event demo_uuidTime demo_parse (demo_msg "payload" "cal")
              demo_store_down (VRef 19%nat) (VRef 20%nat)
              (demo_cal_store demo_hash) demo_hashId.
Proof. exact (demo_stage_event no_fault demo_subscription). Defined.

Lemma demo_connected (faults : replies) (sub : gmap string string) :
  connected (demo_world faults sub).
Proof. repeat split. Defined.

Lemma store_down_message_not_settled_witness :
  redis demo_store_down = false /\ amqpChannel demo_store_down = true /\
  composes demo_uuidTime demo_parse (demo_msg "payload" "cal")
           demo_store_down (VRef 19%nat) (VRef 20%nat) (demo_cal_store demo_hash) /\
  demo_schema (demo_cal_store demo_hash) (VRef 20%nat) = true /\
  let run := processMessage demo_env demo_uuidTime demo_parse demo_schema demo_encode
                            (Some (demo_msg "payload" "cal")) demo_store_down in
  run.2 = Throw TypeError /\ settled run.1 = [] /\ redis_strings run.1 = ∅.
Proof.
  split; [reflexivity|]. split; [reflexivity|].
  split; [exact (proj1 demo_stage_event_store_down)|].
  split; [reflexivity|].
  destruct (store_down_message_not_settled demo_env demo_uuidTime demo_parse demo_schema
              demo_encode (demo_msg "payload" "cal") demo_store_down
              (VRef 19%nat) (VRef 20%nat) (demo_cal_store demo_hash)
              "eJyrVkrOLypKTS5RslIqSk0sBgA="%string
              (proj1 demo_stage_event_store_down) eq_refl eq_refl eq_refl)
    as (Hr & Hs & Hk & _).
  split; [exact Hr|]. split; [exact Hs | exact Hk].
Defined.

Lemma notification_routing_witness :
  stage_event demo_uuidTime demo_parse (demo_msg "payload" "cal")
              (demo_world no_fault demo_subscription) (VRef 19%nat) (VRef 20%nat)
              (demo_cal_store demo_hash) demo_hashId /\
  publishes (processMessage demo_env demo_uuidTime demo_parse demo_schema demo_encode
                            (Some (demo_msg "payload" "cal"))
                            (demo_world no_fault demo_subscription)).1
  = [ready demo_env "api-1" "cx-9" demo_hashId].
Proof.
  split; [exact (demo_stage_event no_fault demo_subscription)|].
  apply (proj1 (notification_routing demo_env demo_uuidTime demo_parse demo_schema
                  demo_encode (demo_msg "payload" "cal")
                  (demo_world no_fault demo_subscription)
                  (VRef 19%nat) (VRef 20%nat) (demo_cal_store demo_hash) demo_hashId
                  (demo_stage_event no_fault demo_subscription) eq_refl)
               "eJyrVkrOLypKTS5RslIqSk0sBgA="%string demo_subscription
               "api-1"%string "cx-9"%string);
    try reflexivity; discriminate.
Defined.

(** C4, as stated, fails: a CAL stage event for [demo_hashId], with a
    subscription record under ["sub:" + demo_hashId] that holds both ids,
    whose document fails the schema check, publishes no notification; and
    neither does an ETH message with the payload of a valid event. *)
Lemma notification_routing_counterexample :
  redis_hashes (demo_world no_fault demo_subscription) !! ("sub:" +:+ demo_hashId)
  = Some demo_subscription /\
  demo_subscription !! "api_id"%string = Some "api-1"%string /\
  demo_subscription !! "cx_id"%string = Some "cx-9"%string /\
  stage_event demo_uuidTime demo_parse (demo_msg "no-hash" "cal")
              (demo_world no_fault demo_subscription) (VRef 19%nat) (VRef 20%nat)
              (demo_cal_store VNull) demo_hashId /\
  publishes (processMessage demo_env demo_uuidTime demo_parse demo_schema demo_encode
                            (Some (demo_msg "no-hash" "cal"))
                            (demo_world no_fault demo_subscription)).1 = [] /\
  field (demo_parse "payload" []).1 (VRef 19%nat) "hash_id" = Some (VStr demo_hashId) /\
  publishes (processMessage demo_env demo_uuidTime demo_parse demo_schema demo_encode
                            (Some (demo_msg "payload" "eth"))
                            (demo_world no_fault demo_subscription)).1 = [].
Proof.
  split; [reflexivity|]. split; [reflexivity|]. split; [reflexivity|].
  split; [exact (demo_stage_event_no_hash no_fault demo_subscription)|].
  split; [vm_compute; reflexivity|]. split; [reflexivity|]. reflexivity.
Qed.

Lemma partial_subscription_as_absent_witness :
  let partial : gmap string string := {[ "api_id"%string := "api-1"%string ]} in
  stage_event demo_uuidTime demo_parse (demo_msg "payload" "cal")
              (demo_world no_fault partial) (VRef 19%nat) (VRef 20%nat)
              (demo_cal_store demo_hash) demo_hashId /\
  truthy (partial !! "cx_id"%string) = false /\
  publishes (processMessage demo_env demo_uuidTime demo_parse demo_schema demo_encode
                            (Some (demo_msg "payload" "cal"))
                            (demo_world no_fault partial)).1 = [] /\
  settled (processMessage demo_env demo_uuidTime demo_parse demo_schema demo_encode
                          (Some (demo_msg "payload" "cal"))
                          (demo_world no_fault partial)).1 = [(7%nat, Ack)].
Proof.
  intros partial.
  split; [exact (demo_stage_event no_fault partial)|].
  split; [reflexivity|].
  pose proof (partial_subscription_as_absent demo_env demo_uuidTime demo_parse
                demo_schema demo_encode (demo_msg "payload" "cal")
                (demo_world no_fault partial) (VRef 19%nat) (VRef 20%nat)
                (demo_cal_store demo_hash) demo_hashId
                "eJyrVkrOLypKTS5RslIqSk0sBgA="%string partial
                (demo_stage_event no_fault partial) (demo_connected no_fault partial)
                eq_refl eq_refl eq_refl eq_refl eq_refl (or_intror eq_refl)) as H.
  destruct H as [(Hp & _ & Hs & _) _]. split; [exact Hp | exact Hs].
Defined.

Lemma ttl_is_fetch_age_witness :
  PROOF_EXPIRE_MINUTES demo_env = PROOF_EXPIRE_MINUTES demo_env /\
  maxDiff demo_env = 86400000 /\
  let run := processMessage demo_env demo_uuidTime demo_parse demo_schema demo_encode
                            (Some (demo_msg "payload" "cal"))
                            (demo_world no_fault demo_subscription) in
  redis_strings run.1 !! demo_hashId
  = Some {| cached_value := "eJyrVkrOLypKTS5RslIqSk0sBgA=";
            cached_EX := 86400; cached_at := 1489964250000 |} /\
  getProofsByIDV1Async_each demo_env demo_uuidTime demo_uuidValidate demo_decode
    BASE64_MIME_TYPE demo_hashId (with_clock (1489964248971 + 86400001) run.1)
  = (with_clock (1489964248971 + 86400001) run.1, Ok ProofNull).
Proof.
  split; [reflexivity|]. split; [reflexivity|].
  destruct (ttl_is_fetch_age demo_env demo_env demo_uuidTime demo_parse demo_schema
              demo_encode demo_uuidValidate demo_decode eq_refl)
    as (Hsaved & _ & Hgate).
  intros run. split.
  - pose proof (proj1 (Hsaved (demo_msg "payload" "cal")
                         (demo_world no_fault demo_subscription)
                         (VRef 19%nat) (VRef 20%nat) (demo_cal_store demo_hash)
                         "eJyrVkrOLypKTS5RslIqSk0sBgA="%string
                         (proj1 (demo_stage_event no_fault demo_subscription))
                         eq_refl eq_refl eq_refl eq_refl)) as H.
    rewrite (proof_key_str (demo_cal_store demo_hash) (VRef 19%nat) demo_hashId eq_refl) in H.
    exact H.
  - apply (proj1 (Hgate BASE64_MIME_TYPE demo_hashId
                        (with_clock (1489964248971 + 86400001) run.1) 1489964248971
                        eq_refl eq_refl)).
    unfold with_clock. cbn [clock]. reflexivity.
Defined.

(** ** Every path of the pipeline *)

Section Decisions.

Variable env : Env.
Variable uuidTime_v1 : val -> result jsnum.
Variable JSON_parse : string -> JS val.
Variable schema_valid : heap -> val -> bool.
Variable objectToBase64 : heap -> val -> exn + string.

(** X1.  For a CAL or BTC message that parses and composes, whatever its
    [hash_id] is, when no handler changes the two variables meanwhile.  With a
    channel, and with a client if the write is reached (the document is valid
    and encoded), the message returns normally, no callback throws, and exactly
    one acknowledgment decision is made; it is a rejection exactly when the
    document passes the schema check and a step of the waterfall reports an
    error: the encoder, the write to the store, the subscription lookup, or
    the publish for a subscription that holds both ids.  Without a channel, or
    without a client when the write is reached, no decision is made: the
    TypeError of the call on [null] leaves [processMessage] or the callback in
    which the call is made. *)
Theorem composed_message_decision (msg : message) (w : world) (m p : val) (h : heap) :
  composes uuidTime_v1 JSON_parse msg w m p h ->
  reconnections w = [] ->
  let run := processMessage env uuidTime_v1 JSON_parse schema_valid objectToBase64
                            (Some msg) w in
  (amqpChannel w = true ->
   schema_valid h p = false \/ (exists e, objectToBase64 h p = inl e) \/ redis w = true ->
   run.2 = Ok tt /\ thrown run.1 = thrown w /\
   exists d,
     settled run.1 = settled w ++ [(deliveryTag msg, d)] /\
     (d = Nack <->
      schema_valid h p = true /\
      ((exists e, objectToBase64 h p = inl e) \/
       is_Some (set_reply (io w)) \/
       is_Some (hgetall_reply (io w)) \/
       ((exists api_id cx_id,
            subscription_of (redis_hashes w !! ("sub:" +:+ proof_key h m))
            = (Some api_id, Some cx_id)) /\
        is_Some (publish_reply (io w)))))) /\
  (amqpChannel w = false \/
   (schema_valid h p = true /\ (exists b64, objectToBase64 h p = inr b64) /\
    redis w = false) ->
   settled run.1 = settled w /\
   (run.2 = Throw TypeError \/
    (run.2 = Ok tt /\ thrown run.1 = thrown w ++ [TypeError]))).
Proof.
  intros Hc Hrec run. subst run.
  destruct (composed_run env uuidTime_v1 JSON_parse schema_valid objectToBase64
                         _ _ _ _ _ Hc Hrec) as (v & Hv & ->). cbv zeta.
  split.
  - intros Ea Hreach. unfold replied.
    cbn [amqpChannel published saved with_console with_publishes with_redis_strings
         with_objects]. rewrite Ea.
    destruct (schema_valid h p).
    2:{ rewrite invalid_schema_run by exact Ea.
        split; [reflexivity|]. split; [reflexivity|]. exists Ack. split; [reflexivity|].
        split; [discriminate | intros [[=] _]]. }
    destruct (objectToBase64 h p) as [e|b64].
    { rewrite settle_run by exact Ea.
      split; [reflexivity|]. split; [reflexivity|]. exists Nack. split; [reflexivity|].
      split; [|reflexivity]. intros _. split; [reflexivity|]. left. eauto. }
    destruct (redis w).
    2:{ destruct Hreach as [[=] | [[e [=]] | [=]]]. }
    destruct (set_reply (io w)) as [e|].
    { split; [reflexivity|]. split; [reflexivity|]. exists Nack. split; [reflexivity|].
      split; [|reflexivity]. intros _. split; [reflexivity|]. right. left. eauto. }
    destruct (hgetall_reply (io w)) as [e|].
    { split; [reflexivity|]. split; [reflexivity|]. exists Nack. split; [reflexivity|].
      split; [|reflexivity]. intros _. split; [reflexivity|]. right. right. left. eauto. }
    destruct (subscription_of _) as [[api|] [cx|]].
    + destruct (publish_reply (io w)) as [e|].
      * split; [reflexivity|]. split; [reflexivity|]. exists Nack. split; [reflexivity|].
        split; [|reflexivity]. intros _. split; [reflexivity|].
        right. right. right. split; eauto.
      * split; [reflexivity|]. split; [reflexivity|]. exists Ack. split; [reflexivity|].
        split; [discriminate|].
        intros [_ [[e [=]] | [[e [=]] | [[e [=]] | [_ [e [=]]]]]]].
    + split; [reflexivity|]. split; [reflexivity|]. exists Ack. split; [reflexivity|].
      split; [discriminate|].
      intros [_ [[e [=]] | [[e [=]] | [[e [=]] | [(a & c & [=]) _]]]]].
    + split; [reflexivity|]. split; [reflexivity|]. exists Ack. split; [reflexivity|].
      split; [discriminate|].
      intros [_ [[e [=]] | [[e [=]] | [[e [=]] | [(a & c & [=]) _]]]]].
    + split; [reflexivity|]. split; [reflexivity|]. exists Ack. split; [reflexivity|].
      split; [discriminate|].
      intros [_ [[e [=]] | [[e [=]] | [[e [=]] | [(a & c & [=]) _]]]]].
  - intros Hdown.
    destruct (amqpChannel w) eqn:Ea.
    + destruct Hdown as [[=] | (-> & [b64 ->] & ->)].
      split; [reflexivity | left; reflexivity].
    + unfold replied.
      cbn [amqpChannel thrown published saved with_console with_publishes
           with_redis_strings with_objects]. rewrite Ea.
      destruct (schema_valid h p).
      2:{ rewrite invalid_schema_down by exact Ea. split; [reflexivity | left; reflexivity]. }
      destruct (objectToBase64 h p) as [e|b64].
      { rewrite settle_down by exact Ea. split; [reflexivity | left; reflexivity]. }
      destruct (redis w); [|split; [reflexivity | left; reflexivity]].
      destruct (set_reply (io w)) as [e|];
        [split; [reflexivity | right; split; reflexivity]|].
      destruct (hgetall_reply (io w)) as [e|];
        [split; [reflexivity | right; split; reflexivity]|].
      destruct (subscription_of _) as [[api|] [cx|]];
        split; first [reflexivity | right; split; reflexivity].
Qed.

(** X2.  For a CAL or BTC message that composes, in every world: once the
    document is valid, encoded and accepted by the store, the proof is in the
    store under the string of [hash_id], with the configured expiry and the
    time of the write, whatever the lookup and the publish then answer and
    whatever becomes of the client and the channel (also when the message ends
    rejected, or without a decision); and when the schema check, the encoder
    or the write fails, or the client is missing, the string keys of the store
    are what they were. *)
Theorem proof_saved_iff_store_accepts (msg : message) (w : world) (m p : val) (h : heap) :
  composes uuidTime_v1 JSON_parse msg w m p h ->
  let run := processMessage env uuidTime_v1 JSON_parse schema_valid objectToBase64
                            (Some msg) w in
  (forall b64,
      schema_valid h p = true -> objectToBase64 h p = inr b64 ->
      redis w = true -> set_reply (io w) = None ->
      redis_strings run.1
      = <[proof_key h m := {| cached_value := b64;
                              cached_EX := PROOF_EXPIRE_MINUTES env * 60;
                              cached_at := clock w |}]> (redis_strings w)) /\
  (schema_valid h p = false \/ (exists e, objectToBase64 h p = inl e) \/
   is_Some (set_reply (io w)) \/ redis w = false ->
   redis_strings run.1 = redis_strings w).
Proof.
  intros Hc run. subst run. split.
  - intros b64 Hv He Er Es.
    exact (composed_saved env uuidTime_v1 JSON_parse schema_valid objectToBase64
                          msg w m p h b64 Hc Hv He Er Es).
  - intros H.
    exact (composed_not_saved env uuidTime_v1 JSON_parse schema_valid objectToBase64
                              msg w m p h Hc H).
Qed.

Lemma generateCALProof_cases (m : message) (w : world) :
  generateCALProof env uuidTime_v1 JSON_parse schema_valid objectToBase64 m w
  = match JSON_parse (content m) (objects w) with
    | (h1, Ok mo) =>
        match cal_document uuidTime_v1 mo h1 with
        | (h, Ok p) =>
            validate_store_notify env schema_valid objectToBase64 "[cal]" m mo p
                                  (with_objects h w)
        | (h, Throw e) => (with_objects h w, Throw e)
        end
    | (h1, Throw e) => (with_objects h1 w, Throw e)
    end.
Proof.
  unfold generateCALProof. unfold bind at 1. unfold liftJS at 1.
  destruct (JSON_parse (content m) (objects w)) as [h1 [mo|e1]]; [|reflexivity].
  unfold bind at 1. unfold liftJS at 1. cbn [objects with_objects].
  destruct (cal_document uuidTime_v1 mo h1) as [h [p|e1]]; reflexivity.
Qed.

Lemma generateBTCProof_cases (m : message) (w : world) :
  generateBTCProof env uuidTime_v1 JSON_parse schema_valid objectToBase64 m w
  = match JSON_parse (content m) (objects w) with
    | (h1, Ok mo) =>
        match btc_document uuidTime_v1 mo h1 with
        | (h, Ok p) =>
            validate_store_notify env schema_valid objectToBase64 "[btc]" m mo p
                                  (with_objects h w)
        | (h, Throw e) => (with_objects h w, Throw e)
        end
    | (h1, Throw e) => (with_objects h1 w, Throw e)
    end.
Proof.
  unfold generateBTCProof. unfold bind at 1. unfold liftJS at 1.
  destruct (JSON_parse (content m) (objects w)) as [h1 [mo|e1]]; [|reflexivity].
  unfold bind at 1. unfold liftJS at 1. cbn [objects with_objects].
  destruct (btc_document uuidTime_v1 mo h1) as [h [p|e1]]; reflexivity.
Qed.

(** X3.  In every world, [processMessage] throws only on a message of type
    [cal] or [btc] (when [JSON.parse] or the composition throws, or a call is
    made on a missing channel or client before the first callback), and then
    it has made no acknowledgment decision, published nothing, saved nothing
    and logged nothing. *)
Theorem thrown_message_untouched (msg : option message) (w : world) (e : exn) :
  let run := processMessage env uuidTime_v1 JSON_parse schema_valid objectToBase64 msg w in
  run.2 = Throw e ->
  (exists m, msg = Some m /\
             (properties_type m = Some "cal"%string \/ properties_type m = Some "btc"%string)) /\
  settled run.1 = settled w /\ publishes run.1 = publishes w /\
  redis_strings run.1 = redis_strings w /\ redis_hashes run.1 = redis_hashes w /\
  console run.1 = console w.
Proof.
  intros run. subst run. destruct msg as [m|]; [|discriminate].
  assert (forall mo p h,
             composes uuidTime_v1 JSON_parse m w mo p h ->
             let r := processMessage env uuidTime_v1 JSON_parse schema_valid objectToBase64
                                     (Some m) w in
             r.2 = Throw e ->
             settled r.1 = settled w /\ publishes r.1 = publishes w /\
             redis_strings r.1 = redis_strings w /\ redis_hashes r.1 = redis_hashes w /\
             console r.1 = console w) as Hcomposed.
  { intros mo p h Hc r. subst r.
    pose proof (composed_throws env uuidTime_v1 JSON_parse schema_valid objectToBase64
                                _ _ _ _ _ Hc) as H. cbv zeta in H.
    destruct (if schema_valid h p
              then match objectToBase64 h p with
                   | inl _ => amqpChannel w
                   | inr _ => redis w
                   end
              else amqpChannel w).
    - rewrite H. discriminate.
    - rewrite H. intros _. repeat split; reflexivity. }
  destruct (properties_type m) as [type|] eqn:Ht;
    [|unfold processMessage; rewrite Ht; discriminate].
  destruct (String.eqb type "cal") eqn:Ecal.
  { apply String.eqb_eq in Ecal. subst type. intros Hthrow. split; [eauto|].
    revert Hthrow. unfold processMessage at 1 2 3 4 5 6. rewrite Ht.
    cbn [String.eqb Ascii.eqb Bool.eqb]. rewrite generateCALProof_cases.
    destruct (JSON_parse (content m) (objects w)) as [h1 [mo|e1]] eqn:Hparse.
    2:{ intros _. repeat split; reflexivity. }
    destruct (cal_document uuidTime_v1 mo h1) as [h [p|e1]] eqn:Hdoc.
    2:{ intros _. repeat split; reflexivity. }
    assert (composes uuidTime_v1 JSON_parse m w mo p h) as Hc
        by (exists h1; split; [exact Hparse | left; split; [exact Ht | exact Hdoc]]).
    specialize (Hcomposed mo p h Hc). cbv zeta in Hcomposed.
    rewrite (processMessage_composes _ _ _ _ _ _ _ _ _ _ Hc) in Hcomposed.
    unfold log_tag in Hcomposed. rewrite Ht in Hcomposed.
    cbn [String.eqb Ascii.eqb Bool.eqb] in Hcomposed. exact Hcomposed. }
  destruct (String.eqb type "eth") eqn:Eeth;
    [unfold processMessage; rewrite Ht, Ecal, Eeth; discriminate|].
  destruct (String.eqb type "btc") eqn:Ebtc;
    [|unfold processMessage; rewrite Ht, Ecal, Eeth, Ebtc; discriminate].
  apply String.eqb_eq in Ebtc. subst type. intros Hthrow. split; [eauto|].
  revert Hthrow. unfold processMessage at 1 2 3 4 5 6. rewrite Ht.
  cbn [String.eqb Ascii.eqb Bool.eqb]. rewrite generateBTCProof_cases.
  destruct (JSON_parse (content m) (objects w)) as [h1 [mo|e1]] eqn:Hparse.
  2:{ intros _. repeat split; reflexivity. }
  destruct (btc_document uuidTime_v1 mo h1) as [h [p|e1]] eqn:Hdoc.
  2:{ intros _. repeat split; reflexivity. }
  assert (composes uuidTime_v1 JSON_parse m w mo p h) as Hc
      by (exists h1; split; [exact Hparse | right; split; [exact Ht | exact Hdoc]]).
  specialize (Hcomposed mo p h Hc). cbv zeta in Hcomposed.
  rewrite (processMessage_composes _ _ _ _ _ _ _ _ _ _ Hc) in Hcomposed.
  unfold log_tag in Hcomposed. rewrite Ht in Hcomposed.
  cbn [String.eqb Ascii.eqb Bool.eqb] in Hcomposed. exact Hcomposed.
Qed.

End Decisions.

Lemma get_prop_nullish {A} (P : heap -> result A -> Prop) v k (f : val -> JS A) s :
  nullish v -> P s (Throw TypeError) -> post P (bind (get_prop v k) f s).
Proof. intros [-> | ->] H; exact H. Qed.

Lemma get_index_nullish {A} (P : heap -> result A -> Prop) v i (f : val -> JS A) s :
  nullish v -> P s (Throw TypeError) -> post P (bind (get_index v i) f s).
Proof. intros [-> | ->] H; exact H. Qed.

Ltac js_nullish :=
  lazymatch goal with
  | |- post _ (bind (get_prop _ _) _ _) =>
      apply get_prop_nullish; [first [assumption | left; reflexivity | right; reflexivity] | ]
  | |- post _ (bind (get_index _ _) _ _) =>
      apply get_index_nullish; [first [assumption | left; reflexivity | right; reflexivity] | ]
  end.

Ltac js_thrown :=
  lazymatch goal with
  | |- exists e, Throw _ = Throw e => eexists; reflexivity
  | |- Throw ?e = Throw ?e => reflexivity
  | |- Throw ?e = Throw ?e /\ grows _ (_ ++ _) => split; [reflexivity | apply grows_ext]
  end.

Section Malformed.

Variable env : Env.
Variable uuidTime_v1 : val -> result jsnum.
Variable JSON_parse : string -> JS val.
Variable schema_valid : heap -> val -> bool.
Variable objectToBase64 : heap -> val -> exn + string.

Lemma cal_document_without_state (h : heap) mo x :
  nullish x ->
  field h mo "agg_state" = Some x \/ field h mo "cal_state" = Some x ->
  exists e, (cal_document uuidTime_v1 mo h).2 = Throw e.
Proof.
  intros Hx H.
  change (post (fun _ r => exists e, r = Throw e) (cal_document uuidTime_v1 mo h)).
  js_unfold. apply post_start.
  destruct H as [H|H]; repeat first [js_thrown | js_step | js_read | js_nullish | js_any].
Qed.


Lemma btc_document_without_state (h : heap) mo x :
  nullish x ->
  field h mo "agg_state" = Some x \/ field h mo "cal_state" = Some x ->
  exists e, (btc_document uuidTime_v1 mo h).2 = Throw e.
Proof.
  intros Hx H.
  change (post (fun _ r => exists e, r = Throw e) (btc_document uuidTime_v1 mo h)).
  js_unfold. apply post_start.
  destruct H as [H|H]; repeat first [js_thrown | js_step | js_read | js_nullish | js_any].
Qed.

Lemma field_total (h : heap) m k1 k2 x :
  field h m k1 = Some x -> exists y, field h m k2 = Some y.
Proof.
  intros H. assert (is_Some (field h m k1)) as S by eauto.
  apply field_is_Some in S. apply (field_is_Some h m k2) in S. exact S.
Qed.

Lemma cal_document_without_time (h : heap) mo hid e :
  field h mo "hash_id" = Some hid -> uuidTime_v1 hid = Throw e ->
  (cal_document uuidTime_v1 mo h).2 = Throw e.
Proof.
  intros Hid Ht. destruct (field_total h mo "hash_id" "hash" hid Hid) as [x Hx].
  change (post (fun _ r => r = Throw e) (cal_document uuidTime_v1 mo h)).
  js_unfold. apply post_start.
  repeat first [js_thrown | js_step | js_read].
Qed.

Lemma btc_document_without_time (h : heap) mo hid e :
  field h mo "hash_id" = Some hid -> uuidTime_v1 hid = Throw e ->
  (btc_document uuidTime_v1 mo h).2 = Throw e.
Proof.
  intros Hid Ht. destruct (field_total h mo "hash_id" "hash" hid Hid) as [x Hx].
  change (post (fun _ r => r = Throw e) (btc_document uuidTime_v1 mo h)).
  js_unfold. apply post_start.
  repeat first [js_thrown | js_step | js_read].
Qed.

(** What [processMessage] does with a CAL or BTC message whose payload parses
    and whose composition throws. *)
Lemma processMessage_composition_throws (msg : message) (w : world) (h1 : heap) (mo : val)
      (e : exn) :
  JSON_parse (content msg) (objects w) = (h1, Ok mo) ->
  (properties_type msg = Some "cal"%string /\ (cal_document uuidTime_v1 mo h1).2 = Throw e) \/
  (properties_type msg = Some "btc"%string /\ (btc_document uuidTime_v1 mo h1).2 = Throw e) ->
  exists h,
    processMessage env uuidTime_v1 JSON_parse schema_valid objectToBase64 (Some msg) w
    = (with_objects h w, Throw e).
Proof.
  intros Hparse [[Ht Hdoc] | [Ht Hdoc]]; unfold processMessage; rewrite Ht;
    cbn [String.eqb Ascii.eqb Bool.eqb].
  - rewrite generateCALProof_cases, Hparse.
    destruct (cal_document uuidTime_v1 mo h1) as [h [p|e1]]; [discriminate|].
    cbn [snd] in Hdoc. injection Hdoc as ->. eauto.
  - rewrite generateBTCProof_cases, Hparse.
    destruct (btc_document uuidTime_v1 mo h1) as [h [p|e1]]; [discriminate|].
    cbn [snd] in Hdoc. injection Hdoc as ->. eauto.
Qed.

(** X4.  A CAL or BTC message whose payload parses to an object without
    [agg_state] or without [cal_state] (absent or [null]) makes
    [processMessage] throw, with no acknowledgment decision, nothing
    published, nothing saved and nothing logged. *)
Theorem event_without_state_not_settled (msg : message) (w : world) (h1 : heap)
        (mo x : val) :
  properties_type msg = Some "cal"%string \/ properties_type msg = Some "btc"%string ->
  JSON_parse (content msg) (objects w) = (h1, Ok mo) ->
  nullish x ->
  field h1 mo "agg_state" = Some x \/ field h1 mo "cal_state" = Some x ->
  let run := processMessage env uuidTime_v1 JSON_parse schema_valid objectToBase64
                            (Some msg) w in
  (exists e, run.2 = Throw e) /\
  settled run.1 = settled w /\ publishes run.1 = publishes w /\
  redis_strings run.1 = redis_strings w /\ console run.1 = console w.
Proof.
  intros Ht Hparse Hx Hstate run. subst run.
  assert (exists e h,
             processMessage env uuidTime_v1 JSON_parse schema_valid objectToBase64
                            (Some msg) w = (with_objects h w, Throw e)) as (e & h & ->).
  { destruct Ht as [Ht|Ht].
    - destruct (cal_document_without_state h1 mo x Hx Hstate) as [e He].
      exists e. eapply processMessage_composition_throws; eauto.
    - destruct (btc_document_without_state h1 mo x Hx Hstate) as [e He].
      exists e. eapply processMessage_composition_throws; eauto. }
  split; [eauto|]. repeat split; reflexivity.
Qed.

(** X5.  A CAL or BTC message whose [hash_id] the call [uuidTime.v1] rejects
    (the package throws for an id that is no version 1 UUID) makes
    [processMessage] throw that exception, with no acknowledgment decision,
    nothing published, nothing saved and nothing logged. *)
Theorem event_without_time_not_settled (msg : message) (w : world) (h1 : heap)
        (mo hid : val) (e : exn) :
  properties_type msg = Some "cal"%string \/ properties_type msg = Some "btc"%string ->
  JSON_parse (content msg) (objects w) = (h1, Ok mo) ->
  field h1 mo "hash_id" = Some hid ->
  uuidTime_v1 hid = Throw e ->
  let run := processMessage env uuidTime_v1 JSON_parse schema_valid objectToBase64
                            (Some msg) w in
  run.2 = Throw e /\
  settled run.1 = settled w /\ publishes run.1 = publishes w /\
  redis_strings run.1 = redis_strings w /\ console run.1 = console w.
Proof.
  intros Ht Hparse Hid Hn run. subst run.
  assert (exists h,
             processMessage env uuidTime_v1 JSON_parse schema_valid objectToBase64
                            (Some msg) w = (with_objects h w, Throw e)) as (h & ->).
  { destruct Ht as [Ht|Ht].
    - pose proof (cal_document_without_time h1 mo hid e Hid Hn) as He.
      eapply processMessage_composition_throws; eauto.
    - pose proof (btc_document_without_time h1 mo hid e Hid Hn) as He.
      eapply processMessage_composition_throws; eauto. }
  repeat split; reflexivity.
Qed.

(** X6.  [addBtcBranch] on a proof that has no [branches] (absent or [null])
    throws a TypeError, whatever the three states are, and leaves every cell
    that existed as it was: the Bitcoin branch can only be added under a
    calendar branch. *)
Theorem addBtcBranch_needs_calendar_branch (h : heap)
        (proof anchorAggState btcTxState btcHeadState x : val) :
  field h proof "branches" = Some x -> nullish x ->
  let run := addBtcBranch proof anchorAggState btcTxState btcHeadState h in
  run.2 = Throw TypeError /\ grows h run.1.
Proof.
  intros Hb Hx run. subst run.
  change (post (fun s r => r = Throw TypeError /\ grows h s)
               (addBtcBranch proof anchorAggState btcTxState btcHeadState h)).
  js_unfold. apply post_start.
  repeat first [js_thrown | js_step | js_read | js_nullish | js_any].
Qed.

End Malformed.

Section RoundTrip.

Variable gen_env api_env : Env.
Variable uuidTime_v1 : val -> result jsnum.
Variable JSON_parse : string -> JS val.
Variable schema_valid : heap -> val -> bool.
Variable objectToBase64 : heap -> val -> exn + string.
Variable uuidValidate : string -> Z -> bool.
Variable binaryToObject : option string -> JS (exn + val).

(** X7.  What the generation service saves, the retrieval layer serves: for a
    CAL or BTC stage event that composes, is valid, encoded and accepted by the
    store (the client is set), and whose hash id was issued before the proof
    was generated, the iteratee of [getProofsByIDV1Async] reports for that hash
    id the Base64 text that was saved, at every later time that its age gate
    lets through and at which the store answers the read (with the same
    [PROOF_EXPIRE_MINUTES] in both services, the entry has not expired in the
    store by then). *)
Theorem saved_proof_is_served (msg : message) (w : world) (m p : val) (h : heap)
        (hashId b64 : string) (t now : Z) :
  stage_event uuidTime_v1 JSON_parse msg w m p h hashId ->
  schema_valid h p = true -> objectToBase64 h p = inr b64 ->
  redis w = true ->
  set_reply (io w) = None -> get_reply (io w) = None ->
  PROOF_EXPIRE_MINUTES gen_env = PROOF_EXPIRE_MINUTES api_env ->
  uuidValidate hashId 1 = true -> uuidTime_v1 (VStr hashId) = Ok (Num t) ->
  t < clock w -> now - t <= maxDiff api_env ->
  let later := with_clock now
                 (processMessage gen_env uuidTime_v1 JSON_parse schema_valid objectToBase64
                                 (Some msg) w).1 in
  (getProofsByIDV1Async_each api_env uuidTime_v1 uuidValidate binaryToObject
                             BASE64_MIME_TYPE hashId later).2
  = Ok (ProofBase64 b64).
Proof.
  intros [Hc Hid] Hv He Er Hs Hget Hsame Hval Ht Hissued Hage later.
  assert (redis_strings later !! hashId
          = Some {| cached_value := b64; cached_EX := PROOF_EXPIRE_MINUTES gen_env * 60;
                    cached_at := clock w |}) as Hsaved.
  { subst later. unfold with_clock. cbn [redis_strings].
    rewrite (composed_saved gen_env uuidTime_v1 JSON_parse schema_valid objectToBase64
                            msg w m p h b64 Hc Hv He Er Hs).
    rewrite (proof_key_str _ _ _ Hid). apply lookup_insert_eq. }
  assert (get_reply (io later) = None) as Hget'.
  { subst later. unfold with_clock. cbn [io].
    rewrite (processMessage_keeps_io gen_env uuidTime_v1 JSON_parse schema_valid
                                     objectToBase64 (Some msg) w).
    exact Hget. }
  assert (clock later = now) as Hnow by reflexivity.
  rewrite (each_gate api_env uuidTime_v1 uuidValidate binaryToObject _ _ _ _ Hval Ht).
  rewrite Hnow. apply Z.ltb_ge in Hage. rewrite Hage.
  unfold bind, redis_get. rewrite Hget', Hsaved, Hnow. cbn [cached_at cached_EX cached_value].
  unfold maxDiff in Hage. apply Z.ltb_ge in Hage.
  assert ((now <? clock w + PROOF_EXPIRE_MINUTES gen_env * 60 * 1000) = true) as ->
      by (apply Z.ltb_lt; rewrite Hsame; lia).
  reflexivity.
Qed.

End RoundTrip.

(** ** The text of a date *)

Lemma string_append_cons c (a b : string) : String c a +:+ b = String c (a +:+ b).
Proof. reflexivity. Qed.

Lemma string_append_nil (b : string) : "" +:+ b = b.
Proof. reflexivity. Qed.

Lemma string_length_append (a b : string) :
  String.length (a +:+ b) = (String.length a + String.length b)%nat.
Proof.
  induction a as [|c a IH]; [reflexivity|].
  rewrite string_append_cons. cbn [String.length]. rewrite IH. reflexivity.
Qed.

Lemma string_append_assoc (a b c : string) : (a +:+ b) +:+ c = a +:+ (b +:+ c).
Proof.
  induction a as [|x a IH]; [reflexivity|].
  rewrite !string_append_cons, IH. reflexivity.
Qed.

Lemma slice0_append (n : nat) (a b : string) :
  (n <= String.length a)%nat -> slice0 n (a +:+ b) = slice0 n a.
Proof.
  unfold slice0. revert n. induction a as [|c a IH]; intros [|n] H;
    cbn [String.length] in H; try lia.
  - rewrite string_append_nil. destruct b; reflexivity.
  - rewrite string_append_cons. reflexivity.
  - rewrite string_append_cons. cbn [String.substring]. rewrite IH by lia. reflexivity.
Qed.

Lemma zeros_length n : String.length (zeros n) = n.
Proof.
  induction n as [|n IH]; [reflexivity|].
  cbn [zeros]. rewrite string_length_append, IH. reflexivity.
Qed.

Lemma pad_length_ge w z : (w <= String.length (pad w z))%nat.
Proof. unfold pad. rewrite string_length_append, zeros_length. lia. Qed.

Lemma iso_year_length_ge y : (4 <= String.length (iso_year y))%nat.
Proof.
  unfold iso_year. destruct ((0 <=? y) && (y <=? 9999)).
  - apply pad_length_ge.
  - rewrite string_length_append. pose proof (pad_length_ge 6 (Z.abs y)). lia.
Qed.

Lemma iso_to_second_length_ge q : (19 <= String.length (iso_to_second q))%nat.
Proof.
  unfold iso_to_second. destruct (civil_from_days (q / 86400)) as [[y m] dd].
  rewrite !string_length_append. cbn [String.length].
  pose proof (iso_year_length_ge y).
  pose proof (pad_length_ge 2 m). pose proof (pad_length_ge 2 dd).
  pose proof (pad_length_ge 2 (q mod 86400 / 3600)).
  pose proof (pad_length_ge 2 (q mod 86400 / 60 mod 60)).
  pose proof (pad_length_ge 2 (q mod 86400 mod 60)).
  lia.
Qed.

Lemma toISOString_by_second t :
  toISOString (Some t)
  = Ok (iso_to_second (t / 1000) +:+ "." +:+ pad 3 (t mod 1000) +:+ "Z").
Proof.
  unfold toISOString, iso_to_second.
  replace (t / 1000 / 86400) with (t / 86400000) by (rewrite Z.div_div by lia; reflexivity).
  destruct (civil_from_days (t / 86400000)) as [[y m] dd].
  replace (t mod 86400000 / 3600000) with ((t / 1000) mod 86400 / 3600)
    by (Z.div_mod_to_equations; lia).
  replace (t mod 86400000 / 60000 mod 60) with ((t / 1000) mod 86400 / 60 mod 60)
    by (Z.div_mod_to_equations; lia).
  replace (t mod 86400000 / 1000 mod 60) with ((t / 1000) mod 86400 mod 60)
    by (Z.div_mod_to_equations; lia).
  replace (t mod 86400000 mod 1000) with (t mod 1000)
    by (Z.div_mod_to_equations; lia).
  rewrite !string_append_assoc. reflexivity.
Qed.

Lemma formatDateISO8601NoMs_by_second t :
  formatDateISO8601NoMs (Some t) = Ok (slice0 19 (iso_to_second (t / 1000)) +:+ "Z").
Proof.
  unfold formatDateISO8601NoMs. rewrite toISOString_by_second.
  rewrite slice0_append by apply iso_to_second_length_ge. reflexivity.
Qed.

Lemma slice0_all (a : string) : slice0 (String.length a) a = a.
Proof.
  unfold slice0. induction a as [|c a IH]; [reflexivity|].
  cbn [String.length String.substring]. rewrite IH. reflexivity.
Qed.

Lemma civil_month_day days :
  let '(y, m, d) := civil_from_days days in 1 <= m <= 12 /\ 1 <= d <= 31.
Proof.
  unfold civil_from_days. cbv zeta.
  set (z := days + 719468).
  set (era := z / 146097).
  set (doe := z - era * 146097).
  assert (0 <= doe < 146097) by (subst doe era; Z.div_mod_to_equations; lia).
  clearbody doe. clear z era.
  set (yoe := (doe - doe / 1460 + doe / 36524 - doe / 146096) / 365).
  set (doy := doe - (365 * yoe + yoe / 4 - yoe / 100)).
  assert (0 <= yoe <= 399 /\ 0 <= doy <= 365) as [Hy Hd].
  { subst doy yoe. Z.div_mod_to_equations. lia. }
  clearbody doy. clear Hy.
  set (mp := (5 * doy + 2) / 153).
  assert (0 <= mp <= 11) by (subst mp; Z.div_mod_to_equations; lia).
  destruct (mp <? 10) eqn:E.
  - apply Z.ltb_lt in E. split; [lia|]. subst mp. Z.div_mod_to_equations. lia.
  - apply Z.ltb_ge in E. split; [lia|]. subst mp. Z.div_mod_to_equations. lia.
Qed.

Lemma civil_year days :
  -719528 <= days <= 2932896 ->
  let '(y, m, d) := civil_from_days days in 0 <= y <= 9999.
Proof.
  intros Hdays. unfold civil_from_days. cbv zeta.
  set (z := days + 719468).
  set (era := z / 146097).
  set (doe := z - era * 146097).
  assert (0 <= doe < 146097 /\ -1 <= era <= 24 /\
          (era = -1 -> 146037 <= doe) /\ (era = 24 -> doe <= 146036)) as (Hdoe & Hera & Hlo & Hhi)
      by (subst doe era z; Z.div_mod_to_equations; lia).
  clearbody doe era. clear z Hdays.
  set (yoe := (doe - doe / 1460 + doe / 36524 - doe / 146096) / 365).
  set (doy := doe - (365 * yoe + yoe / 4 - yoe / 100)).
  assert (0 <= yoe <= 399 /\ 0 <= doy <= 365 /\
          (146037 <= doe -> yoe = 399 /\ 306 <= doy) /\
          (doe <= 146036 -> yoe = 399 -> doy <= 305)) as (Hy & Hd & Hlo' & Hhi').
  { subst doy yoe. Z.div_mod_to_equations. lia. }
  clearbody doy yoe.
  set (mp := (5 * doy + 2) / 153).
  assert (0 <= mp <= 11 /\ (306 <= doy -> 10 <= mp) /\ (doy <= 305 -> mp <= 9)) as (Hmp & Hm1 & Hm2)
      by (subst mp; Z.div_mod_to_equations; lia).
  clearbody mp.
  destruct (mp <? 10) eqn:E; [apply Z.ltb_lt in E | apply Z.ltb_ge in E].
  - destruct (mp + 3 <=? 2) eqn:E2; [apply Z.leb_le in E2; lia|]. lia.
  - destruct (mp - 9 <=? 2) eqn:E2; [|apply Z.leb_gt in E2; lia]. lia.
Qed.

Lemma forall_below (P : Z -> bool) (n : nat) :
  forallb P (map Z.of_nat (seq 0 n)) = true ->
  forall z, 0 <= z < Z.of_nat n -> P z = true.
Proof.
  intros H z Hz. rewrite forallb_forall in H. apply H.
  apply in_map_iff. exists (Z.to_nat z). split; [lia|].
  apply in_seq. lia.
Qed.

Lemma pad2_length z : 0 <= z < 100 -> String.length (pad 2 z) = 2%nat.
Proof.
  intros H.
  apply Nat.eqb_eq.
  apply (forall_below (fun z => String.length (pad 2 z) =? 2)%nat (Z.to_nat 100)); [|exact H].
  vm_compute. reflexivity.
Qed.

Lemma pad4_length z : 0 <= z < 10000 -> String.length (pad 4 z) = 4%nat.
Proof.
  intros H.
  apply Nat.eqb_eq.
  apply (forall_below (fun z => String.length (pad 4 z) =? 4)%nat (Z.to_nat 10000)); [|exact H].
  vm_compute. reflexivity.
Qed.

Lemma iso_to_second_length q :
  -62167219200 <= q <= 253402300799 -> String.length (iso_to_second q) = 19%nat.
Proof.
  intros Hq. unfold iso_to_second.
  pose proof (civil_year (q / 86400)) as Hy.
  pose proof (civil_month_day (q / 86400)) as Hm.
  destruct (civil_from_days (q / 86400)) as [[y m] dd].
  assert (0 <= y <= 9999) as Hy' by (apply Hy; Z.div_mod_to_equations; lia).
  destruct Hm as [Hm Hd].
  unfold iso_year.
  assert ((0 <=? y) && (y <=? 9999) = true) as -> by lia.
  rewrite !string_length_append. cbn [String.length].
  rewrite pad4_length by lia. rewrite !pad2_length by (Z.div_mod_to_equations; lia).
  reflexivity.
Qed.

(** X8.  [formatDateISO8601NoMs] gives the same text for two dates in the same
    second; and for a date in the years 0000 to 9999 the text is the 19
    characters of [toISOString] that precede the milliseconds, followed by
    [Z]. *)
Theorem formatDateISO8601NoMs_strips_milliseconds :
  (forall t1 t2 : Z,
      t1 / 1000 = t2 / 1000 ->
      formatDateISO8601NoMs (Some t1) = formatDateISO8601NoMs (Some t2)) /\
  (forall t : Z,
      -62167219200000 <= t <= 253402300799999 ->
      exists s,
        formatDateISO8601NoMs (Some t) = Ok (s +:+ "Z") /\
        String.length s = 19%nat /\
        toISOString (Some t) = Ok (s +:+ "." +:+ pad 3 (t mod 1000) +:+ "Z")).
Proof.
  split.
  - intros t1 t2 H. rewrite !formatDateISO8601NoMs_by_second, H. reflexivity.
  - intros t Ht. exists (iso_to_second (t / 1000)).
    assert (String.length (iso_to_second (t / 1000)) = 19%nat) as L
        by (apply iso_to_second_length; Z.div_mod_to_equations; lia).
    split; [|split; [exact L | apply toISOString_by_second]].
    rewrite formatDateISO8601NoMs_by_second.
    rewrite <- L at 1. rewrite slice0_all. reflexivity.
Qed.

(** ** The task accumulator *)

Section TaskAccumulatorFacts.
Import TaskAccumulator.

Lemma batchSize_pos p : (0 < batchSize p)%nat.
Proof. destruct p; cbv; lia. Qed.

Lemma ceil_div_covers n B : (0 < B)%nat -> (n <= ceil_div n B * B)%nat.
Proof.
  intros HB. unfold ceil_div.
  pose proof (Nat.div_mod_eq (n + (B - 1)) B) as E.
  pose proof (Nat.mod_upper_bound (n + (B - 1)) B ltac:(lia)) as U.
  nia.
Qed.

Lemma ceil_div_tight n B k :
  (0 < B)%nat -> ceil_div n B = S k -> (k * B < n)%nat.
Proof.
  intros HB. unfold ceil_div.
  pose proof (Nat.div_mod_eq (n + (B - 1)) B) as E.
  pose proof (Nat.mod_upper_bound (n + (B - 1)) B ltac:(lia)) as U.
  intros H. rewrite H in E. nia.
Qed.

Lemma ceil_div_0 B : ceil_div 0 B = 0%nat.
Proof.
  unfold ceil_div. destruct B as [|B]; [reflexivity|].
  apply Nat.div_small. lia.
Qed.

Lemma concat_chunks {A} size k (l : list A) : concat (chunks size k l) = take (k * size) l.
Proof.
  revert l. induction k as [|k IH]; intros l; [reflexivity|].
  cbn [chunks concat]. rewrite IH.
  replace (S k * size)%nat with (size + k * size)%nat by lia.
  apply take_take_drop.
Qed.

Lemma chunks_sizes {A} size k (l : list A) :
  (0 < size)%nat -> (k = 0 \/ (k - 1) * size < length l)%nat ->
  Forall (fun g => 0 < length g <= size)%nat (chunks size k l).
Proof.
  intros Hs. revert l. induction k as [|k IH]; intros l Hk; [constructor|].
  cbn [chunks]. constructor.
  - rewrite length_take. destruct Hk as [|Hk]; [discriminate|]. lia.
  - apply IH. destruct k as [|k]; [left; reflexivity|]. right.
    rewrite length_drop. destruct Hk as [|Hk]; [discriminate|].
    replace (S (S k) - 1)%nat with (S k) in Hk by lia.
    replace (S k - 1)%nat with k by lia. nia.
Qed.


Lemma batches_awaits p n s :
  taskQueue s = true ->
  batches p (S n) s
  = (record_enqueue (enqueue_of p (take (batchSize p) (pools s p)))
                    (with_pool p (drop (batchSize p) (pools s p)) s),
     Awaiting {| of_pool := p; pendingObjs := take (batchSize p) (pools s p);
                 remaining := n |}).
Proof. intros H. cbn [batches]. cbn [taskQueue with_pool]. rewrite H. reflexivity. Qed.

Lemma resume_connected t reply s :
  amqpChannel s = true ->
  resume t reply s
  = batches (of_pool t) (remaining t)
      (record_settled (batch_decisions (pendingObjs t) reply)
         (log (match reply with
               | None => Debug (debug_of (of_pool t))
                               (queued_text (of_pool t) (length (pendingObjs t)))
               | Some error => Error (error_text (of_pool t)) (Some error)
               end) s)).
Proof.
  intros H. unfold resume, catch_block, settle_each. cbn [amqpChannel log].
  rewrite H. destruct reply; reflexivity.
Qed.

(** The rest of a drain that is suspended with nothing else in flight, when
    each of its enqueues is answered before anything else happens. *)
Lemma drain_rest p n :
  forall (P : process) (t : suspended) (replies : list (option exn)),
    awaiting P = [t] -> of_pool t = p -> remaining t = n ->
    amqpChannel (vars P) = true -> taskQueue (vars P) = true ->
    length replies = S n ->
    let Q := run (map (Settled 0) replies) P in
    awaiting Q = [] /\
    pools (vars Q) p = drop (n * batchSize p) (pools (vars P) p) /\
    draining (vars Q) p = false /\
    enqueued (vars Q)
    = enqueued (vars P)
      ++ map (enqueue_of p) (chunks (batchSize p) n (pools (vars P) p)) /\
    settled (vars Q)
    = settled (vars P)
      ++ concat (zip_with batch_decisions
                          (pendingObjs t :: chunks (batchSize p) n (pools (vars P) p))
                          replies) /\
    forall q, q <> p ->
              pools (vars Q) q = pools (vars P) q /\
              draining (vars Q) q = draining (vars P) q.
Proof.
  induction n as [|n IH]; intros P t replies Ha Hp Hn Hc Hq Hlen Q; subst Q.
  - destruct replies as [|r [|? ?]]; try discriminate.
    cbn [map run fold_left step]. rewrite Ha. cbn [lookup list_lookup].
    rewrite (resume_connected _ _ _ Hc), Hp, Hn. cbn [batches keep vars awaiting delete list_delete].
    split; [reflexivity|]. split; [reflexivity|].
    split; [cbn; rewrite decide_True by reflexivity; reflexivity|].
    split; [cbn; rewrite app_nil_r; reflexivity|].
    split; [cbn; rewrite !app_nil_r; reflexivity|].
    intros q Hne. cbn. rewrite decide_False by exact Hne. split; reflexivity.
  - destruct replies as [|r replies]; [discriminate|].
    cbn [map run fold_left step]. rewrite Ha. cbn [lookup list_lookup].
    rewrite (resume_connected _ _ _ Hc), Hp, Hn.
    rewrite batches_awaits by exact Hq.
    cbn [keep delete list_delete app].
    set (P' := {| vars := _; awaiting := _ |}).
    specialize (IH P' _ replies eq_refl eq_refl eq_refl Hc Hq ltac:(cbn in Hlen; lia)).
    cbv zeta in IH. fold (run (map (Settled 0) replies) P').
    destruct IH as (I1 & I2 & I3 & I4 & I5 & I6).
    split; [exact I1|].
    split.
    { rewrite I2. subst P'. cbn. rewrite decide_True by reflexivity.
      rewrite drop_drop. reflexivity. }
    split; [exact I3|].
    split.
    { rewrite I4. subst P'. cbn. rewrite decide_True by reflexivity.
      rewrite <- app_assoc. reflexivity. }
    split.
    { rewrite I5. subst P'. cbn. rewrite decide_True by reflexivity.
      rewrite <- !app_assoc. reflexivity. }
    intros q Hne. destruct (I6 q Hne) as [J1 J2]. rewrite J1, J2. subst P'. cbn.
    rewrite decide_False by exact Hne. split; reflexivity.
Qed.

(** X9.  A drain of a pool that runs with the channel and the task queue
    connected, and whose enqueues are answered before anything else happens:
    the elements of the pool are enqueued in consecutive batches, in order, none
    empty and none larger than the batch size of the pool, as many as
    [Math.ceil(count / size)]; every message of a batch is acknowledged when the
    enqueue of that batch is fulfilled and rejected when it fails, in order; the
    pool ends empty, its flag clear and no drain suspended; the other pools and
    flags are as they were. *)
Theorem drain_in_batches (p : pool) (P : process) (replies : list (option exn)) :
  awaiting P = [] -> draining (vars P) p = false ->
  amqpChannel (vars P) = true -> taskQueue (vars P) = true ->
  length replies = ceil_div (length (pools (vars P) p)) (batchSize p) ->
  let items := pools (vars P) p in
  let groups := chunks (batchSize p) (length replies) items in
  let Q := run (Interval p :: map (Settled 0) replies) P in
  (concat groups = items /\
   Forall (fun g => 0 < length g <= batchSize p)%nat groups) /\
  enqueued (vars Q) = enqueued (vars P) ++ map (enqueue_of p) groups /\
  settled (vars Q)
  = settled (vars P) ++ concat (zip_with batch_decisions groups replies) /\
  pools (vars Q) p = [] /\ draining (vars Q) p = false /\ awaiting Q = [] /\
  forall q, q <> p ->
            pools (vars Q) q = pools (vars P) q /\
            draining (vars Q) q = draining (vars P) q.
Proof.
  intros Ha Hd Hc Hq Hlen items groups Q.
  pose proof (batchSize_pos p) as HB.
  assert (concat groups = items /\
          Forall (fun g => 0 < length g <= batchSize p)%nat groups) as Hgroups.
  { subst groups. split.
    - rewrite concat_chunks. apply take_ge. rewrite Hlen.
      apply ceil_div_covers, HB.
    - apply chunks_sizes; [exact HB|].
      destruct (length replies) as [|k] eqn:E; [left; reflexivity|]. right.
      replace (S k - 1)%nat with k by lia.
      apply (ceil_div_tight _ _ _ HB). symmetry. exact Hlen. }
  split; [exact Hgroups|].
  subst Q. cbn [run fold_left step].
  unfold drainPoolAsync. rewrite Hd, Hc. cbn [negb andb].
  cbn [pools with_draining]. fold items.
  change (pools (vars P) p) with items in Hlen. rewrite <- Hlen.
  destruct replies as [|r replies].
  - (* an empty pool *)
    assert (items = []) as E
        by (destruct Hgroups as [Hcat _]; symmetry; exact Hcat).
    subst groups. rewrite E. cbn [length Nat.ltb Nat.leb batches keep map fold_left chunks].
    rewrite Ha. cbn. rewrite !app_nil_r.
    split; [reflexivity|]. split; [reflexivity|]. split; [exact E|].
    split; [rewrite decide_True by reflexivity; reflexivity|].
    split; [reflexivity|].
    intros q Hne. rewrite !decide_False by exact Hne. split; reflexivity.
  - cbn [length].
    set (s1 := if (0 <? length items)%nat then _ else _).
    assert (taskQueue s1 = true /\ amqpChannel s1 = true /\ pools s1 = pools (vars P) /\
            enqueued s1 = enqueued (vars P) /\ settled s1 = settled (vars P) /\
            draining s1 = draining (with_draining p true (vars P))) as (T1 & T2 & T3 & T4 & T5 & T6).
    { subst s1. destruct (0 <? length items)%nat; cbn; repeat split; assumption || reflexivity. }
    rewrite batches_awaits by exact T1. rewrite Ha. cbn [keep app].
    rewrite T3. fold items.
    set (t := {| of_pool := p; pendingObjs := take (batchSize p) items;
                 remaining := length replies |}).
    set (P' := {| vars := _; awaiting := _ |}).
    assert (pools (vars P') p = drop (batchSize p) items) as Ep
        by (subst P'; cbn; rewrite decide_True by reflexivity; reflexivity).
    assert (enqueued (vars P')
            = enqueued (vars P) ++ [enqueue_of p (take (batchSize p) items)]) as Ee
        by (subst P'; cbn; rewrite T4; reflexivity).
    assert (settled (vars P') = settled (vars P)) as Es by (subst P'; cbn; exact T5).
    assert (forall q, q <> p -> pools (vars P') q = pools (vars P) q /\
                                draining (vars P') q = draining (vars P) q) as Ef.
    { intros q Hne. subst P'. cbn. rewrite T3, T6. cbn.
      rewrite !decide_False by exact Hne. split; reflexivity. }
    pose proof (drain_rest p (length replies) P' t (r :: replies)
                           eq_refl eq_refl eq_refl T2 T1 eq_refl) as R.
    cbv zeta in R. fold (run (map (Settled 0) (r :: replies)) P').
    clearbody P'.
    destruct R as (I1 & I2 & I3 & I4 & I5 & I6).
    split; [rewrite I4, Ee, Ep, <- app_assoc; reflexivity|].
    split; [rewrite I5, Es, Ep; reflexivity|].
    split.
    { rewrite I2, Ep, drop_drop. apply drop_ge.
      pose proof (ceil_div_covers (length items) (batchSize p) HB) as C.
      rewrite <- Hlen in C. cbn [length] in C. lia. }
    split; [exact I3|]. split; [exact I1|].
    intros q Hne. destruct (I6 q Hne) as [J1 J2], (Ef q Hne) as [K1 K2].
    rewrite J1, J2. split; assumption.
Qed.

End TaskAccumulatorFacts.

Section TaskAccumulatorTraces.
Import TaskAccumulator.



Lemma tags_app l1 l2 : tags (l1 ++ l2) = tags l1 ++ tags l2.
Proof. unfold tags. rewrite omap_app, map_app. reflexivity. Qed.

Lemma tags_take_drop n l x :
  (occ x (tags (take n l)) + occ x (tags (drop n l)) = occ x (tags l))%nat.
Proof. rewrite <- (take_drop n l) at 3. rewrite tags_app, count_occ_app. reflexivity. Qed.

Lemma decisions_tags d l : map fst (decisions d l) = tags l.
Proof. unfold decisions, tags. rewrite map_map. reflexivity. Qed.



Lemma weight_with_pool x p l s :
  (weight x (with_pool p l s) + occ x (tags (pools s p))
   = weight x s + occ x (tags l))%nat.
Proof.
  unfold weight. destruct p; cbn [pools with_pool settled];
    repeat case_decide; try congruence; lia.
Qed.

Lemma weight_record_settled x l s :
  weight x (record_settled l s) = (weight x s + occ x (map fst l))%nat.
Proof.
  unfold weight. cbn [pools settled record_settled].
  rewrite map_app, count_occ_app. lia.
Qed.

Lemma weight_log x l s : weight x (log l s) = weight x s.
Proof. reflexivity. Qed.

Lemma weight_record_enqueue x c s : weight x (record_enqueue c s) = weight x s.
Proof. reflexivity. Qed.

Lemma weight_with_draining x p b s : weight x (with_draining p b s) = weight x s.
Proof. reflexivity. Qed.

Lemma settle_each_weight x d items s s' :
  settle_each d items s = Some s' ->
  (weight x s' <= weight x s + occ x (tags items))%nat.
Proof.
  unfold settle_each. destruct (amqpChannel s).
  - intros [= <-]. rewrite weight_record_settled, decisions_tags. lia.
  - destruct (decisions d items); [|discriminate]. intros [= <-]. lia.
Qed.

Lemma batches_weight x p n :
  forall s, (weight x (batches p n s).1 + carried x (batches p n s).2 <= weight x s)%nat.
Proof.
  induction n as [|n IH]; intros s;
    [cbn [batches fst snd carried]; rewrite weight_with_draining; lia|].
  cbn [batches].
  pose proof (weight_with_pool x p (drop (batchSize p) (pools s p)) s) as W.
  pose proof (tags_take_drop (batchSize p) (pools s p) x) as T.
  set (s1 := with_pool p _ s) in *.
  destruct (taskQueue s1).
  - cbn [fst snd carried pendingObjs]. rewrite weight_record_enqueue. lia.
  - unfold catch_block.
    destruct (settle_each Nack _ _) as [s2|] eqn:E.
    + apply (settle_each_weight x) in E. rewrite weight_log in E.
      specialize (IH s2). lia.
    + cbn [fst snd carried]. rewrite weight_log. lia.
Qed.

Lemma catch_block_weight x p e pending n s :
  let r := catch_block p e pending (batches p n) s in
  (weight x r.1 + carried x r.2 <= weight x s + occ x (tags pending))%nat.
Proof.
  unfold catch_block. destruct (settle_each Nack _ _) as [s2|] eqn:E.
  - apply (settle_each_weight x) in E. rewrite weight_log in E.
    pose proof (batches_weight x p n s2). cbv zeta. lia.
  - cbv zeta. cbn [fst snd carried]. rewrite weight_log. lia.
Qed.

Lemma resume_weight x t reply s :
  (weight x (resume t reply s).1 + carried x (resume t reply s).2
   <= weight x s + occ x (tags (pendingObjs t)))%nat.
Proof.
  unfold resume. destruct reply as [e|].
  - apply catch_block_weight.
  - destruct (settle_each Ack _ _) as [s2|] eqn:E.
    + apply (settle_each_weight x) in E. rewrite weight_log in E.
      pose proof (batches_weight x (of_pool t) (remaining t) s2). lia.
    + pose proof (catch_block_weight x (of_pool t) TypeError (pendingObjs t) (remaining t)
                    (log (Debug (debug_of (of_pool t))
                                (queued_text (of_pool t) (length (pendingObjs t)))) s)) as C.
      cbv zeta in C. rewrite weight_log in C. exact C.
Qed.

Lemma drainPoolAsync_weight x p s :
  (weight x (drainPoolAsync p s).1 + carried x (drainPoolAsync p s).2 <= weight x s)%nat.
Proof.
  unfold drainPoolAsync. destruct (negb (draining s p) && amqpChannel s); [|cbn [fst snd carried]; lia].
  cbv zeta.
  match goal with |- context [batches p ?n ?s0] => set (s1 := s0) end.
  assert (weight x s1 = weight x s) as <-
      by (subst s1; destruct (0 <? length (pools (with_draining p true s) p))%nat; reflexivity).
  apply batches_weight.
Qed.

Lemma processMessage_weight x msg s :
  (weight x (processMessage msg s).1 <= weight x s + occ x (delivered [Deliver msg]))%nat.
Proof.
  destruct msg as [m|]; [|cbn [processMessage fst]; lia].
  assert (forall p, weight x (consumeMessageAsync p (Some m) s)
                    <= weight x s + occ x [deliveryTag m])%nat as Hc.
  { intros p. unfold consumeMessageAsync.
    pose proof (weight_with_pool x p (pools s p ++ [{| item_JSON := content m;
                                                      item_msg := Some m |}]) s) as W.
    rewrite tags_app, count_occ_app in W.
    change (tags [{| item_JSON := content m; item_msg := Some m |}])
      with [deliveryTag m] in W. lia. }
  assert (forall type, weight x (unknown_type m type s).1
                       <= weight x s + occ x [deliveryTag m])%nat as Hu.
  { intros type. unfold unknown_type. cbn [amqpChannel log].
    destruct (amqpChannel s); cbn [fst].
    - rewrite weight_record_settled, weight_log. cbn [map fst]. lia.
    - rewrite weight_log. lia. }
  unfold processMessage, delivered. cbn [omap].
  change (omap _ []) with (@nil nat).
  destruct (properties_type m) as [type|]; [|apply Hu].
  repeat (destruct (String.eqb type _); [apply Hc|]). apply Hu.
Qed.



Lemma flying_app x l1 l2 : flying x (l1 ++ l2) = (flying x l1 + flying x l2)%nat.
Proof. unfold flying. apply sum_list_with_app. Qed.

Lemma flying_delete x i l t :
  l !! i = Some t ->
  (flying x (delete i l) + occ x (tags (pendingObjs t)) = flying x l)%nat.
Proof.
  intros H. rewrite <- (take_drop_middle l i t H) at 2.
  rewrite delete_take_drop, !flying_app.
  change (flying x (t :: drop (S i) l))
    with (occ x (tags (pendingObjs t)) + flying x (drop (S i) l))%nat. lia.
Qed.

Lemma keep_total x r rest :
  total x (keep r rest) = (weight x r.1 + carried x r.2 + flying x rest)%nat.
Proof.
  destruct r as [s [t| |e]]; unfold total; cbn [keep vars awaiting fst snd carried];
    [|lia|lia].
  rewrite flying_app.
  change (flying x [t]) with (occ x (tags (pendingObjs t)) + 0)%nat. lia.
Qed.

Lemma occ_held x P : occ x (held P) = total x P.
Proof.
  unfold held, total, weight. rewrite !count_occ_app.
  assert (occ x (concat (map (fun t => tags (pendingObjs t)) (awaiting P)))
          = flying x (awaiting P)) as ->.
  { unfold flying. induction (awaiting P) as [|t l IH]; [reflexivity|].
    cbn [map concat]. rewrite count_occ_app, IH. reflexivity. }
  lia.
Qed.

Lemma step_total x e P :
  (total x (step e P) <= total x P + occ x (delivered [e]))%nat.
Proof.
  destruct e as [msg|p|i reply| | | |]; cbn [step].
  - pose proof (processMessage_weight x msg (vars P)). unfold total in *.
    cbn [vars awaiting]. lia.
  - rewrite keep_total. pose proof (drainPoolAsync_weight x p (vars P)).
    unfold total. lia.
  - destruct (awaiting P !! i) as [t|] eqn:E; [|lia].
    rewrite keep_total. pose proof (resume_weight x t reply (vars P)).
    pose proof (flying_delete x i _ t E). unfold total. lia.
  - unfold total. cbn [vars awaiting]. change (weight x (with_amqpChannel true (vars P)))
      with (weight x (vars P)). lia.
  - unfold total. cbn [vars awaiting].
    pose proof (weight_with_pool x AUDIT_LOG_WRITE_POOL [] (with_amqpChannel false (vars P))) as W.
    change (weight x (with_amqpChannel false (vars P))) with (weight x (vars P)) in W.
    change (occ x (tags [])) with 0%nat in W. lia.
  - unfold total. cbn [vars awaiting]. change (weight x (with_taskQueue true (vars P)))
      with (weight x (vars P)). lia.
  - unfold total. cbn [vars awaiting]. rewrite weight_with_draining.
    change (weight x (with_taskQueue false (vars P))) with (weight x (vars P)). lia.
Qed.

Lemma delivered_cons e es : delivered (e :: es) = delivered [e] ++ delivered es.
Proof. unfold delivered. cbn [omap]. destruct e as [[m|]| | | | | |]; reflexivity. Qed.

Lemma run_total x es :
  forall P, (total x (run es P) <= total x P + occ x (delivered es))%nat.
Proof.
  induction es as [|e es IH]; intros P; [cbn; lia|].
  cbn [run fold_left]. fold (run es (step e P)).
  specialize (IH (step e P)). pose proof (step_total x e P).
  rewrite delivered_cons, count_occ_app. lia.
Qed.

(** X10.  Whatever happens to the process, when the deliveries carry distinct
    tags, a delivery is in one place at most: in one pool, in the batch of one
    suspended drain, or decided once; no delivery is acknowledged or rejected
    twice, and nothing is decided that was not delivered. *)
Theorem no_delivery_settled_twice (events : list event) :
  NoDup (delivered events) ->
  let P := run events start in
  NoDup (held P) /\ NoDup (map fst (settled (vars P))) /\
  (forall x, x ∈ held P -> x ∈ delivered events).
Proof.
  intros HD P.
  assert (forall x, occ x (held P) <= occ x (delivered events))%nat as Hle.
  { intros x. rewrite occ_held. pose proof (run_total x events start) as R.
    change (total x start) with 0%nat in R. exact R. }
  assert (NoDup (held P)) as HN.
  { apply NoDup_ListNoDup, (NoDup_count_occ Nat.eq_dec). intros x.
    apply NoDup_ListNoDup in HD.
    pose proof (proj1 (NoDup_count_occ Nat.eq_dec _) HD x). specialize (Hle x). lia. }
  split; [exact HN|]. split.
  - unfold held in HN. rewrite !app_assoc in HN. apply NoDup_app in HN. apply HN.
  - intros x Hx. apply list_elem_of_In in Hx. apply list_elem_of_In.
    apply (count_occ_In Nat.eq_dec) in Hx. apply (count_occ_In Nat.eq_dec).
    specialize (Hle x). lia.
Qed.

End TaskAccumulatorTraces.

Section TaskAccumulatorFlags.
Import TaskAccumulator.

Lemma task_of_inj p q : task_of p = task_of q -> p = q.
Proof. destruct p, q; (reflexivity || discriminate). Qed.



Lemma untouched_refl q s : untouched q s s.
Proof. repeat split. Qed.

Lemma untouched_trans q s1 s2 s3 :
  untouched q s1 s2 -> untouched q s2 s3 -> untouched q s1 s3.
Proof. intros (A1 & A2 & A3) (B1 & B2 & B3). repeat split; congruence. Qed.

Lemma untouched_log q l s : untouched q s (log l s).
Proof. repeat split. Qed.

Lemma untouched_settled q l s : untouched q s (record_settled l s).
Proof. repeat split. Qed.

Lemma untouched_with_pool p q l s : q <> p -> untouched q s (with_pool p l s).
Proof.
  intros H. repeat split. cbn. rewrite decide_False by exact H. reflexivity.
Qed.

Lemma untouched_with_draining p q b s : q <> p -> untouched q s (with_draining p b s).
Proof.
  intros H. repeat split. cbn. rewrite decide_False by exact H. reflexivity.
Qed.

Lemma untouched_enqueue p q items s :
  q <> p -> untouched q s (record_enqueue (enqueue_of p items) s).
Proof.
  intros H. repeat split. unfold calls_of. cbn [enqueued record_enqueue].
  rewrite filter_app. rewrite (filter_cons_False _ (enqueue_of p items)).
  - rewrite filter_nil, app_nil_r. reflexivity.
  - cbn. intros E. apply task_of_inj in E. congruence.
Qed.

Lemma untouched_settle_each q d items s s' :
  settle_each d items s = Some s' -> untouched q s s'.
Proof.
  unfold settle_each. destruct (amqpChannel s).
  - intros [= <-]. apply untouched_settled.
  - destruct (decisions d items); [|discriminate]. intros [= <-]. apply untouched_refl.
Qed.



Lemma loop_effect_from p s s' r :
  (forall q, q <> p -> untouched q s s') -> draining s' p = draining s p ->
  loop_effect p s' r -> loop_effect p s r.
Proof.
  destruct r as [s'' pr]. intros H1 H2 [E1 E2]. cbn [fst snd] in *. split.
  - intros q Hq. eapply untouched_trans; [apply H1, Hq | apply E1, Hq].
  - cbn [snd fst]. destruct pr; try rewrite <- H2; exact E2.
Qed.

Lemma batches_effect p n : forall s, loop_effect p s (batches p n s).
Proof.
  induction n as [|n IH]; intros s.
  - split; [intros q Hq; apply untouched_with_draining, Hq|].
    cbn. rewrite decide_True by reflexivity. reflexivity.
  - cbn [batches]. set (s1 := with_pool p _ s).
    assert (forall q, q <> p -> untouched q s s1) as U1
        by (intros q Hq; apply untouched_with_pool, Hq).
    destruct (taskQueue s1).
    + split; [|split; reflexivity].
      intros q Hq. eapply untouched_trans; [apply U1, Hq | apply untouched_enqueue, Hq].
    + unfold catch_block. destruct (settle_each Nack _ _) as [s2|] eqn:E.
      * eapply (loop_effect_from p s s2); [| |apply IH].
        -- intros q Hq. eapply untouched_trans; [apply U1, Hq|].
           eapply untouched_trans; [apply untouched_log|].
           eapply untouched_settle_each, E.
        -- pose proof (untouched_settle_each p _ _ _ _ E) as (_ & D & _). rewrite D. reflexivity.
      * split; [|reflexivity].
        intros q Hq. eapply untouched_trans; [apply U1, Hq | apply untouched_log].
Qed.

Lemma catch_block_effect p e pending n s :
  loop_effect p s (catch_block p e pending (batches p n) s).
Proof.
  unfold catch_block. destruct (settle_each Nack _ _) as [s2|] eqn:E.
  - eapply (loop_effect_from p s s2); [| |apply batches_effect].
    + intros q Hq. eapply untouched_trans; [apply untouched_log|].
      eapply untouched_settle_each, E.
    + pose proof (untouched_settle_each p _ _ _ _ E) as (_ & D & _). rewrite D. reflexivity.
  - split; [|reflexivity]. intros q Hq. apply untouched_log.
Qed.

Lemma resume_effect t reply s : loop_effect (of_pool t) s (resume t reply s).
Proof.
  unfold resume. destruct reply as [e|]; [apply catch_block_effect|].
  destruct (settle_each Ack _ _) as [s2|] eqn:E.
  - eapply (loop_effect_from _ s s2); [| |apply batches_effect].
    + intros q Hq. eapply untouched_trans; [apply untouched_log|].
      eapply untouched_settle_each, E.
    + pose proof (untouched_settle_each (of_pool t) _ _ _ _ E) as (_ & D & _).
      rewrite D. reflexivity.
  - eapply (loop_effect_from _ s); [| |apply catch_block_effect].
    + intros q Hq. apply untouched_log.
    + reflexivity.
Qed.

(** A drain function called while its flag is set does nothing; called while
    its flag is clear, it leaves the flag set if it is suspended. *)
Lemma drainPoolAsync_effect p s :
  let r := drainPoolAsync p s in
  (forall q, q <> p -> untouched q s r.1) /\
  (draining s p = true -> r = (s, Fulfilled)) /\
  (forall t, r.2 = Awaiting t -> of_pool t = p /\ draining r.1 p = true).
Proof.
  unfold drainPoolAsync. destruct (draining s p) eqn:D; cbn [negb andb].
  { split; [intros; apply untouched_refl|]. split; [reflexivity | discriminate]. }
  destruct (amqpChannel s); cbn [negb andb].
  2:{ split; [intros; apply untouched_refl|]. split; [discriminate | discriminate]. }
  cbv zeta.
  match goal with |- context [batches p ?n ?s0] => set (s1 := s0); set (k := n) end.
  assert ((forall q, q <> p -> untouched q s s1) /\ draining s1 p = true) as [U1 D1].
  { subst s1. destruct (0 <? _)%nat.
    - split; [|cbn; rewrite decide_True by reflexivity; reflexivity].
      intros q Hq. eapply untouched_trans; [apply untouched_with_draining, Hq|].
      apply untouched_log.
    - split; [|cbn; rewrite decide_True by reflexivity; reflexivity].
      intros q Hq. apply untouched_with_draining, Hq. }
  destruct (batches_effect p k s1) as [E1 E2].
  split; [|split; [discriminate|]].
  - intros q Hq. eapply untouched_trans; [apply U1, Hq | apply E1, Hq].
  - intros t Ht. rewrite Ht in E2. destruct E2 as [E2 E3]. split; [exact E2|].
    rewrite E3. exact D1.
Qed.



Lemma in_flight_keep p r rest :
  in_flight p (keep r rest)
  = filter (fun t => of_pool t = p) rest
    ++ match r.2 with
       | Awaiting t => if decide (of_pool t = p) then [t] else []
       | _ => []
       end.
Proof.
  destruct r as [s [t| |e]]; unfold in_flight; cbn [keep awaiting snd];
    rewrite ?app_nil_r; try reflexivity.
  rewrite filter_app. reflexivity.
Qed.

Lemma filter_delete_other p i (l : list suspended) t :
  l !! i = Some t -> of_pool t <> p ->
  filter (fun t => of_pool t = p) (delete i l) = filter (fun t => of_pool t = p) l.
Proof.
  intros H Hne. rewrite <- (take_drop_middle l i t H) at 2.
  rewrite delete_take_drop, !filter_app, filter_cons_False by exact Hne. reflexivity.
Qed.

Lemma filter_delete_same p i (l : list suspended) t :
  l !! i = Some t -> of_pool t = p ->
  length (filter (fun t => of_pool t = p) l)
  = S (length (filter (fun t => of_pool t = p) (delete i l))).
Proof.
  intros H He. rewrite <- (take_drop_middle l i t H) at 1.
  rewrite delete_take_drop, !filter_app, filter_cons_True by exact He.
  rewrite !length_app. cbn [length]. lia.
Qed.

Lemma step_single p e P :
  p <> AUDIT_LOG_WRITE_POOL -> single p P -> single p (step e P).
Proof.
  intros Hp [H1 H2]. destruct e as [msg|q|i reply| | | |]; cbn [step].
  - split; [exact H1|]. intros Hf. cbn [vars].
    assert (draining (processMessage msg (vars P)).1 = draining (vars P)) as ->; [|auto].
    destruct msg as [m|]; [|reflexivity]. unfold processMessage, unknown_type.
    destruct (properties_type m) as [type|].
    + repeat (destruct (String.eqb type _); [reflexivity|]).
      cbn [amqpChannel log]. destruct (amqpChannel (vars P)); reflexivity.
    + cbn [amqpChannel log]. destruct (amqpChannel (vars P)); reflexivity.
  - pose proof (drainPoolAsync_effect q (vars P)) as E. cbv zeta in E.
    destruct E as (E1 & E2 & E3).
    unfold single. rewrite in_flight_keep.
    destruct (decide (q = p)) as [->|Hq].
    + destruct (draining (vars P) p) eqn:D.
      * rewrite (E2 eq_refl). cbn [snd]. rewrite app_nil_r. split; [exact H1|].
        intros _. cbn [keep vars]. exact D.
      * assert (in_flight p P = []) as Hnone.
        { destruct (in_flight p P) eqn:F; [reflexivity|].
          specialize (H2 ltac:(discriminate)). discriminate. }
        unfold in_flight in Hnone. rewrite Hnone. cbn [app].
        destruct (drainPoolAsync p (vars P)) as [s' [t| |e]]; cbn [fst snd] in *.
        -- destruct (E3 t eq_refl) as [Ht Hd]. rewrite decide_True by exact Ht.
           split; [cbn; lia | intros _; exact Hd].
        -- split; [cbn; lia | intros []; reflexivity].
        -- split; [cbn; lia | intros []; reflexivity].
    + assert (match (drainPoolAsync q (vars P)).2 with
              | Awaiting t => if decide (of_pool t = p) then [t] else []
              | _ => []
              end = []) as ->.
      { destruct (drainPoolAsync q (vars P)) as [s' [t| |e]]; cbn [fst snd] in *;
          try reflexivity.
        destruct (E3 t eq_refl) as [Ht _]. rewrite decide_False by congruence. reflexivity. }
      rewrite app_nil_r. split; [exact H1|].
      intros Hf. destruct (E1 p ltac:(congruence)) as (_ & D & _).
      destruct (drainPoolAsync q (vars P)) as [s' pr]. cbn [fst] in D.
      destruct pr; cbn [keep vars]; rewrite D; apply H2, Hf.
  - destruct (awaiting P !! i) as [t|] eqn:Hi; [|split; assumption].
    pose proof (resume_effect t reply (vars P)) as [E1 E2].
    unfold single. rewrite in_flight_keep.
    destruct (decide (of_pool t = p)) as [Ht|Ht].
    + pose proof (filter_delete_same p i _ t Hi Ht) as L. unfold in_flight in H1, H2.
      assert (filter (fun t => of_pool t = p) (delete i (awaiting P)) = []) as ->
          by (apply length_zero_iff_nil; lia).
      assert (draining (vars P) p = true) as D
          by (apply H2; intros E; rewrite E in L; discriminate).
      cbn [app]. rewrite Ht in E2.
      destruct (resume t reply (vars P)) as [s' [t'| |e]]; cbn [fst snd] in *.
      * destruct E2 as [E2 E3]. rewrite decide_True by exact E2.
        split; [cbn; lia | intros _; cbn [keep vars]; congruence].
      * split; [cbn; lia | intros []; reflexivity].
      * split; [cbn; lia | intros []; reflexivity].
    + rewrite (filter_delete_other p i _ t Hi Ht).
      assert (match (resume t reply (vars P)).2 with
              | Awaiting t => if decide (of_pool t = p) then [t] else []
              | _ => []
              end = []) as ->.
      { destruct (resume t reply (vars P)) as [s' [t'| |e]]; cbn [fst snd] in *;
          try reflexivity.
        destruct E2 as [E2 _]. rewrite decide_False by congruence. reflexivity. }
      rewrite app_nil_r. split; [exact H1|].
      intros Hf. destruct (E1 p ltac:(congruence)) as (_ & D & _).
      destruct (resume t reply (vars P)) as [s' pr]. cbn [fst] in D.
      destruct pr; cbn [keep vars]; rewrite D; apply H2, Hf.
  - split; [exact H1 | exact H2].
  - split; [exact H1 | exact H2].
  - split; [exact H1 | exact H2].
  - split; [exact H1|]. intros Hf. cbn. rewrite decide_False by exact Hp. apply H2, Hf.
Qed.

Lemma run_single p es :
  p <> AUDIT_LOG_WRITE_POOL -> forall P, single p P -> single p (run es P).
Proof.
  intros Hp. induction es as [|e es IH]; intros P H; [exact H|].
  cbn [run fold_left]. apply IH, step_single; assumption.
Qed.

Lemma one_drain_single_start (events : list event) (p : pool) :
  p <> AUDIT_LOG_WRITE_POOL -> single p (run events start).
Proof.
  intros Hp. apply (run_single p events Hp start).
  split; [cbn; lia | intros H; contradiction H; reflexivity].
Qed.

(** X11.  Whatever happens to the process, at most one drain of a pool other
    than the audit log pool is suspended, and the pool's flag is set while it
    is; of the audit log pool, whose flag the callback for a lost store
    connection clears, two drains can be suspended at once. *)
Theorem one_drain_in_flight :
  (forall (events : list event) (p : pool),
      p <> AUDIT_LOG_WRITE_POOL ->
      let P := run events start in
      (length (in_flight p P) <= 1)%nat /\
      (in_flight p P <> [] -> draining (vars P) p = true)) /\
  (exists events,
      length (in_flight AUDIT_LOG_WRITE_POOL (run events start)) = 2%nat).
Proof.
  split.
  - intros events p Hp P. exact (one_drain_single_start events p Hp).
  - exists [ChannelEstablished; QueueInitialised;
            Deliver (Some {| content := "{}"; properties_type := Some "write_audit_log"%string;
                             deliveryTag := 1 |});
            Interval AUDIT_LOG_WRITE_POOL;
            RedisLost; QueueInitialised;
            Deliver (Some {| content := "{}"; properties_type := Some "write_audit_log"%string;
                             deliveryTag := 2 |});
            Interval AUDIT_LOG_WRITE_POOL].
    vm_compute. reflexivity.
Qed.

End TaskAccumulatorFlags.

Section TaskAccumulatorStuck.
Import TaskAccumulator.



Lemma processMessage_pool p msg s :
  draining (processMessage msg s).1 = draining s /\
  enqueued (processMessage msg s).1 = enqueued s /\
  pools s p `prefix_of` pools (processMessage msg s).1 p.
Proof.
  assert (forall q, draining (consumeMessageAsync q msg s) = draining s /\
                    enqueued (consumeMessageAsync q msg s) = enqueued s /\
                    pools s p `prefix_of` pools (consumeMessageAsync q msg s) p) as Hc.
  { intros q. unfold consumeMessageAsync. destruct msg as [m|]; [|repeat split; reflexivity].
    repeat split. cbn. case_decide; [subst q; apply prefix_app_r; reflexivity | reflexivity]. }
  destruct msg as [m|]; [|repeat split; reflexivity].
  assert (forall type, draining (unknown_type m type s).1 = draining s /\
                       enqueued (unknown_type m type s).1 = enqueued s /\
                       pools s p `prefix_of` pools (unknown_type m type s).1 p) as Hu.
  { intros type. unfold unknown_type. cbn [amqpChannel log].
    destruct (amqpChannel s); repeat split; reflexivity. }
  unfold processMessage. destruct (properties_type m) as [type|]; [|apply Hu].
  repeat (destruct (String.eqb type _); [apply Hc|]). apply Hu.
Qed.

Lemma step_blocked p e P :
  p <> AUDIT_LOG_WRITE_POOL -> blocked p P ->
  blocked p (step e P) /\
  calls_of p (vars (step e P)) = calls_of p (vars P) /\
  pools (vars P) p `prefix_of` pools (vars (step e P)) p.
Proof.
  intros Hp [D F]. destruct e as [msg|q|i reply| | | |]; cbn [step].
  - destruct (processMessage_pool p msg (vars P)) as (E1 & E2 & E3).
    unfold blocked, calls_of, in_flight. cbn [vars awaiting]. rewrite E1, E2.
    repeat split; assumption.
  - pose proof (drainPoolAsync_effect q (vars P)) as E. cbv zeta in E.
    destruct E as (E1 & E2 & E3).
    destruct (decide (q = p)) as [->|Hq].
    + rewrite (E2 D). cbn [keep]. destruct P; repeat split; assumption || reflexivity.
    + destruct (E1 p ltac:(congruence)) as (U1 & U2 & U3).
      unfold blocked. rewrite in_flight_keep. unfold in_flight in F. rewrite F. cbn [app].
      destruct (drainPoolAsync q (vars P)) as [s' [t| |e]]; cbn [fst snd keep vars] in *;
        rewrite U1, U2, U3; repeat split; try assumption; try reflexivity.
      destruct (E3 t eq_refl) as [Ht _]. rewrite decide_False by congruence. reflexivity.
  - destruct (awaiting P !! i) as [t|] eqn:Hi; [|repeat split; assumption || reflexivity].
    assert (of_pool t <> p) as Ht.
    { intros Ht. pose proof (filter_delete_same p i _ t Hi Ht) as L.
      unfold in_flight in F. rewrite F in L. discriminate. }
    pose proof (resume_effect t reply (vars P)) as [E1 E2].
    destruct (E1 p ltac:(congruence)) as (U1 & U2 & U3).
    unfold blocked. rewrite in_flight_keep, (filter_delete_other p i _ t Hi Ht).
    unfold in_flight in F. rewrite F. cbn [app].
    destruct (resume t reply (vars P)) as [s' [t'| |e]]; cbn [fst snd keep vars] in *;
      rewrite U1, U2, U3; repeat split; try assumption; try reflexivity.
    destruct E2 as [E2 _]. rewrite decide_False by congruence. reflexivity.
  - repeat split; assumption || reflexivity.
  - unfold blocked, calls_of, in_flight. cbn [vars awaiting]. cbn.
    rewrite decide_False by exact Hp. repeat split; assumption || reflexivity.
  - repeat split; assumption || reflexivity.
  - unfold blocked, calls_of, in_flight. cbn [vars awaiting]. cbn.
    rewrite decide_False by exact Hp. repeat split; assumption || reflexivity.
Qed.

Lemma run_blocked p es :
  p <> AUDIT_LOG_WRITE_POOL ->
  forall P, blocked p P ->
            blocked p (run es P) /\
            calls_of p (vars (run es P)) = calls_of p (vars P) /\
            pools (vars P) p `prefix_of` pools (vars (run es P)) p.
Proof.
  intros Hp. induction es as [|e es IH]; intros P H; [repeat split; apply H || reflexivity|].
  cbn [run fold_left]. fold (run es (step e P)).
  destruct (step_blocked p e P Hp H) as (B & C & X).
  destruct (IH _ B) as (B' & C' & X').
  split; [exact B'|]. split; [congruence|]. etrans; eassumption.
Qed.

Lemma decisions_nil d items : decisions d items = [] <-> tags items = [].
Proof.
  unfold decisions, tags. destruct (omap item_msg items); cbn; split; congruence.
Qed.

(** A suspended drain that goes on after the channel is lost, with a batch that
    holds a message: its promise is rejected, and no decision is made. *)
Lemma resume_rejected t reply s :
  amqpChannel s = false -> tags (pendingObjs t) <> [] ->
  exists s', resume t reply s = (s', Rejected TypeError) /\
             pools s' = pools s /\ draining s' = draining s /\
             enqueued s' = enqueued s /\ settled s' = settled s.
Proof.
  intros Hc Ht.
  assert (forall d s0, amqpChannel s0 = false -> settle_each d (pendingObjs t) s0 = None) as Hn.
  { intros d s0 H0. unfold settle_each. rewrite H0.
    destruct (decisions d (pendingObjs t)) eqn:E; [|reflexivity].
    apply decisions_nil in E. contradiction. }
  unfold resume, catch_block. destruct reply as [e|].
  - rewrite Hn by exact Hc. eexists. split; [reflexivity|]. repeat split.
  - rewrite Hn by exact Hc. rewrite Hn by exact Hc. eexists. split; [reflexivity|].
    repeat split.
Qed.

(** X12.  When the channel is lost while a drain of a pool other than the audit
    log pool is suspended with a batch that holds a message, the drain ends
    without a decision on its batch and without clearing the flag of its pool;
    from then on, whatever happens, the flag stays set, no drain of the pool
    starts, no batch of the pool is enqueued, and the pool only grows. *)
Theorem rejected_drain_blocks_its_pool
        (events later : list event) (i : nat) (t : suspended) (reply : option exn) :
  let P := run events start in
  awaiting P !! i = Some t -> of_pool t <> AUDIT_LOG_WRITE_POOL ->
  amqpChannel (vars P) = false -> tags (pendingObjs t) <> [] ->
  let p := of_pool t in
  let Q := step (Settled i reply) P in
  let R := run later Q in
  settled (vars Q) = settled (vars P) /\
  draining (vars R) p = true /\ in_flight p R = [] /\
  calls_of p (vars R) = calls_of p (vars P) /\
  pools (vars P) p `prefix_of` pools (vars R) p.
Proof.
  intros P Hi Hp Hc Ht p Q R.
  destruct (resume_rejected t reply (vars P) Hc Ht) as (s' & Hr & E1 & E2 & E3 & E4).
  assert (Q = {| vars := s'; awaiting := delete i (awaiting P) |}) as HQ.
  { subst Q. cbn [step]. rewrite Hi, Hr. reflexivity. }
  destruct (one_drain_single_start events p Hp) as [S1 S2]. fold P in S1, S2.
  assert (blocked p Q) as HB.
  { rewrite HQ. split; cbn [vars].
    - rewrite E2. apply S2. intros E.
      pose proof (filter_delete_same p i _ t Hi eq_refl) as L.
      unfold in_flight in E. rewrite E in L. discriminate.
    - unfold in_flight. cbn [awaiting]. apply length_zero_iff_nil.
      pose proof (filter_delete_same p i _ t Hi eq_refl) as L.
      unfold in_flight in S1. lia. }
  destruct (run_blocked p later Hp Q HB) as ([B1 B2] & C & X). fold R in B1, B2, C, X.
  split; [rewrite HQ; exact E4|].
  split; [exact B1|]. split; [exact B2|].
  split.
  - rewrite C, HQ. unfold calls_of. cbn [vars]. rewrite E3. reflexivity.
  - rewrite HQ in X. cbn [vars] in X. rewrite E1 in X. exact X.
Qed.

End TaskAccumulatorStuck.

(** ** The patterns of the endpoints *)

Section TextFacts.
Import Stdlib.Strings.Ascii Text.

Lemma in_repeat_rest step lo hi s t :
  In t (repeat_rest step lo hi s) <-> exists k, (lo <= k <= hi)%nat /\ reach step k s t.
Proof.
  revert lo s. induction hi as [|hi IH]; intros lo s; cbn [repeat_rest].
  - rewrite app_nil_r. destruct lo as [|lo]; cbn [In].
    + split.
      * intros [<-|[]]. exists 0%nat. split; [lia | reflexivity].
      * intros (k & Hk & Hr). assert (k = 0)%nat as -> by lia. left. exact Hr.
    + split; [intros [] | intros (k & Hk & _); lia].
  - rewrite in_app_iff, in_flat_map. split.
    + intros [H | (u & Hu & H)].
      * destruct lo; [|destruct H]. destruct H as [<-|[]].
        exists 0%nat. split; [lia | reflexivity].
      * apply IH in H as (k & Hk & Hr). exists (S k). split; [lia|].
        exists u. split; assumption.
    + intros ([|k] & Hk & Hr).
      * left. assert (lo = 0)%nat as -> by lia. left. exact Hr.
      * right. destruct Hr as (u & Hu & Hr). exists u. split; [exact Hu|].
        apply IH. exists k. split; [lia | exact Hr].
Qed.

Lemma reach_add step j k s t :
  reach step (j + k) s t <-> exists u, reach step j s u /\ reach step k u t.
Proof.
  revert s. induction j as [|j IH]; intros s; cbn [Nat.add reach].
  - split; [intros H; exists s; split; [reflexivity | exact H] | intros (u & <- & H); exact H].
  - split.
    + intros (u & Hu & H). apply IH in H as (v & H1 & H2).
      exists v. split; [exists u; split; assumption | exact H2].
    + intros (v & (u & Hu & H1) & H2). exists u. split; [exact Hu|].
      apply IH. exists v. split; assumption.
Qed.

(** Steps of a matcher that takes one character of a class. *)
Lemma reach_class (f : ascii -> bool) step :
  (forall s t, In t (step s) <-> exists c, s = String c t /\ f c = true) ->
  forall k s t,
    reach step k s t <->
    exists w, s = w +:+ t /\ String.length w = k /\ all f w = true.
Proof.
  intros Hstep. induction k as [|k IH]; intros s t; cbn [reach].
  - split.
    + intros <-. exists EmptyString. repeat split.
    + intros (w & -> & Hw & _). destruct w; [reflexivity | discriminate].
  - split.
    + intros (u & Hu & Hr). apply Hstep in Hu as (c & -> & Hc).
      apply IH in Hr as (w & -> & Hw & Ha). exists (String c w).
      split; [reflexivity|]. split; [cbn; lia|]. cbn. rewrite Hc, Ha. reflexivity.
    + intros (w & -> & Hw & Ha). destruct w as [|c w]; [discriminate|].
      cbn in Ha. apply andb_true_iff in Ha as [Hc Ha].
      exists (w +:+ t). split; [apply Hstep; exists c; split; [reflexivity | exact Hc]|].
      apply IH. exists w. split; [reflexivity|]. split; [cbn in Hw; lia | exact Ha].
Qed.

(** Steps of a matcher that makes [n] steps of another. *)
Lemma reach_mul step n k :
  forall s t, reach (repeat_rest step n n) k s t <-> reach step (k * n) s t.
Proof.
  induction k as [|k IH]; intros s t; cbn [reach Nat.mul]; [reflexivity|].
  rewrite reach_add. split.
  - intros (u & Hu & H). exists u. split; [|apply IH, H].
    apply in_repeat_rest in Hu as (j & Hj & Hr). assert (j = n) as -> by lia. exact Hr.
  - intros (u & Hr & H). exists u. split; [|apply IH, H].
    apply in_repeat_rest. exists n. split; [lia | exact Hr].
Qed.

Lemma test_true i r s : test i r s = true <-> In EmptyString (rest i r s).
Proof.
  unfold test. rewrite existsb_exists. split.
  - intros (t & Ht & E). apply String.eqb_eq in E. subst t. exact Ht.
  - intros H. exists EmptyString. split; [exact H | reflexivity].
Qed.

Lemma in_rest_Range i lo hi s t :
  In t (rest i (Range lo hi) s)
  <-> exists c, s = String c t /\ in_canonical_range i lo hi c = true.
Proof.
  cbn [rest]. destruct s as [|x s]; [split; [intros [] | intros (c & [=] & _)]|].
  destruct (in_canonical_range i lo hi x) eqn:E; cbn [In].
  - split; [intros [<-|[]]; exists x; auto | intros (c & [= <- <-] & _); auto].
  - split; [intros [] | intros (c & [= <- <-] & Hc); congruence].
Qed.

Lemma in_rest_Chr i a s t :
  In t (rest i (Chr a) s)
  <-> exists c, s = String c t /\ (canonical i c =? canonical i a)%nat = true.
Proof.
  cbn [rest]. destruct s as [|x s]; [split; [intros [] | intros (c & [=] & _)]|].
  destruct (canonical i x =? canonical i a)%nat eqn:E; cbn [In].
  - split; [intros [<-|[]]; exists x; auto | intros (c & [= <- <-] & _); auto].
  - split; [intros [] | intros (c & [= <- <-] & Hc); congruence].
Qed.

Lemma in_rest_Alt i r1 r2 s t :
  In t (rest i (Alt r1 r2) s) <-> In t (rest i r1 s) \/ In t (rest i r2 s).
Proof. cbn [rest]. apply in_app_iff. Qed.

Lemma in_rest_Seq i r1 r2 s t :
  In t (rest i (Seq r1 r2) s) <-> exists u, In u (rest i r1 s) /\ In t (rest i r2 u).
Proof. cbn [rest]. apply in_flat_map. Qed.

Lemma hex_class_case_sensitive x :
  in_canonical_range false "a" "f" x
  || (in_canonical_range false "A" "F" x || in_canonical_range false "0" "9" x)
  = is_hex x.
Proof. destruct x as [[] [] [] [] [] [] [] []]; vm_compute; reflexivity. Qed.

Lemma hex_class_ignore_case x :
  in_canonical_range true "0" "9" x || in_canonical_range true "a" "f" x = is_hex x.
Proof. destruct x as [[] [] [] [] [] [] [] []]; vm_compute; reflexivity. Qed.

Lemma in_rest_hex_class s t :
  In t (rest false (Alt (Range "a" "f") (Alt (Range "A" "F") (Range "0" "9"))) s)
  <-> exists c, s = String c t /\ is_hex c = true.
Proof.
  rewrite !in_rest_Alt, !in_rest_Range. split.
  - intros [(c & -> & H) | [(c & -> & H) | (c & -> & H)]]; exists c; (split; [reflexivity|]);
      rewrite <- hex_class_case_sensitive, H; rewrite ?orb_true_r; reflexivity.
  - intros (c & -> & H). rewrite <- hex_class_case_sensitive in H.
    apply orb_true_iff in H as [H|H]; [left; eauto|].
    apply orb_true_iff in H as [H|H]; [right; left; eauto | right; right; eauto].
Qed.

Lemma in_rest_hex_class_i s t :
  In t (rest true (Alt (Range "0" "9") (Range "a" "f")) s)
  <-> exists c, s = String c t /\ is_hex c = true.
Proof.
  rewrite !in_rest_Alt, !in_rest_Range. split.
  - intros [(c & -> & H) | (c & -> & H)]; exists c; (split; [reflexivity|]);
      rewrite <- hex_class_ignore_case, H; rewrite ?orb_true_r; reflexivity.
  - intros (c & -> & H). rewrite <- hex_class_ignore_case in H.
    apply orb_true_iff in H as [H|H]; [left; eauto | right; eauto].
Qed.

Lemma in_rest_lower_hex_class s t :
  In t (rest false (Alt (Range "0" "9") (Range "a" "f")) s)
  <-> exists c, s = String c t /\ is_lower_hex c = true.
Proof.
  assert (forall x, in_canonical_range false "0" "9" x || in_canonical_range false "a" "f" x
                    = is_lower_hex x) as E
    by (intros x; destruct x as [[] [] [] [] [] [] [] []]; vm_compute; reflexivity).
  rewrite !in_rest_Alt, !in_rest_Range. split.
  - intros [(c & -> & H) | (c & -> & H)]; exists c; (split; [reflexivity|]);
      rewrite <- E, H; rewrite ?orb_true_r; reflexivity.
  - intros (c & -> & H). rewrite <- E in H.
    apply orb_true_iff in H as [H|H]; [left; eauto | right; eauto].
Qed.

Lemma string_append_empty (w : string) : w +:+ EmptyString = w.
Proof.
  induction w as [|c w IH]; [reflexivity|]. rewrite string_append_cons, IH. reflexivity.
Qed.

(** The pattern of the hash accepts exactly what the comment of the handler
    lists: hexadecimal digits in either case, at least 40 and at most 128 of
    them, an even number. *)
Lemma hash_pattern_spec (s : string) :
  test false hash_pattern s = true <->
  all is_hex s = true /\ Nat.even (String.length s) = true /\
  (40 <= String.length s <= 128)%nat.
Proof.
  rewrite test_true. unfold hash_pattern.
  change (rest false (Repeat ?r ?lo ?hi) s) with (repeat_rest (rest false r) lo hi s).
  cbn [rest]. rewrite in_repeat_rest. split.
  - intros (k & Hk & Hr).
    apply (reach_mul _ 2) in Hr.
    apply (reach_class is_hex _ in_rest_hex_class) in Hr as (w & -> & Hw & Ha).
    rewrite string_append_empty, Hw. split; [exact Ha|].
    split; [|lia]. rewrite Nat.even_mul. cbn. apply orb_true_r.
  - intros (Ha & He & Hl). apply Nat.even_spec in He as [k Hk].
    exists k. split; [lia|]. apply (reach_mul _ 2).
    apply (reach_class is_hex _ in_rest_hex_class). exists s.
    split; [symmetry; apply string_append_empty|]. split; [lia | exact Ha].
Qed.

Lemma toLowerCase_length s : String.length (toLowerCase s) = String.length s.
Proof. induction s as [|c s IH]; cbn; congruence. Qed.

Lemma lower_idem c : lower (lower c) = lower c.
Proof. destruct c as [[] [] [] [] [] [] [] []]; vm_compute; reflexivity. Qed.

Lemma toLowerCase_idem s : toLowerCase (toLowerCase s) = toLowerCase s.
Proof. induction s as [|c s IH]; cbn; [reflexivity|]. rewrite lower_idem, IH. reflexivity. Qed.

Lemma lower_hex c : is_lower_hex (lower c) = is_hex c.
Proof. destruct c as [[] [] [] [] [] [] [] []]; vm_compute; reflexivity. Qed.

Lemma all_lower_hex s : all is_lower_hex (toLowerCase s) = all is_hex s.
Proof. induction s as [|c s IH]; cbn; [reflexivity|]. rewrite lower_hex, IH. reflexivity. Qed.

Lemma canonical_zero i c : (canonical i c =? canonical i "0")%nat = Ascii.eqb c "0".
Proof. destruct i; destruct c as [[] [] [] [] [] [] [] []]; vm_compute; reflexivity. Qed.

Lemma canonical_x_i c : (canonical true c =? canonical true "x")%nat = Ascii.eqb (lower c) "x".
Proof. destruct c as [[] [] [] [] [] [] [] []]; vm_compute; reflexivity. Qed.

Lemma canonical_x c : (canonical false c =? canonical false "x")%nat = Ascii.eqb c "x".
Proof. destruct c as [[] [] [] [] [] [] [] []]; vm_compute; reflexivity. Qed.

Lemma lower_zero c : Ascii.eqb (lower c) "0" = Ascii.eqb c "0".
Proof. destruct c as [[] [] [] [] [] [] [] []]; vm_compute; reflexivity. Qed.

(** What the pattern of the address accepts, with the flag [i] and without. *)
Lemma tnt_address_pattern_i s :
  test true tnt_address_pattern s = true <->
  exists x w, s = String "0" (String x w) /\ lower x = "x"%char /\
              String.length w = 40%nat /\ all is_hex w = true.
Proof.
  rewrite test_true. unfold tnt_address_pattern.
  rewrite in_rest_Seq. split.
  - intros (u & Hu & H). apply in_rest_Chr in Hu as (c & -> & Hc).
    rewrite canonical_zero in Hc. apply Ascii.eqb_eq in Hc as ->.
    apply in_rest_Seq in H as (v & Hv & H). apply in_rest_Chr in Hv as (x & -> & Hx).
    rewrite canonical_x_i in Hx. apply Ascii.eqb_eq in Hx.
    change (rest true (Repeat ?r ?lo ?hi) v) with (repeat_rest (rest true r) lo hi v) in H.
    apply in_repeat_rest in H as (k & Hk & H). assert (k = 40%nat) as -> by lia.
    apply (reach_class is_hex _ in_rest_hex_class_i) in H as (w & -> & Hw & Ha).
    exists x, w. rewrite string_append_empty. auto.
  - intros (x & w & -> & Hx & Hw & Ha). exists (String x w). split.
    + apply in_rest_Chr. exists "0"%char. auto.
    + apply in_rest_Seq. exists w. split.
      * apply in_rest_Chr. exists x. split; [reflexivity|].
        rewrite canonical_x_i, Hx. reflexivity.
      * change (rest true (Repeat ?r ?lo ?hi) w) with (repeat_rest (rest true r) lo hi w).
        apply in_repeat_rest. exists 40%nat. split; [lia|].
        apply (reach_class is_hex _ in_rest_hex_class_i). exists w.
        rewrite string_append_empty. auto.
Qed.

Lemma tnt_address_pattern_exact s :
  test false tnt_address_pattern s = true <->
  exists w, s = String "0" (String "x" w) /\
            String.length w = 40%nat /\ all is_lower_hex w = true.
Proof.
  rewrite test_true. unfold tnt_address_pattern.
  rewrite in_rest_Seq. split.
  - intros (u & Hu & H). apply in_rest_Chr in Hu as (c & -> & Hc).
    rewrite canonical_zero in Hc. apply Ascii.eqb_eq in Hc as ->.
    apply in_rest_Seq in H as (v & Hv & H). apply in_rest_Chr in Hv as (x & -> & Hx).
    rewrite canonical_x in Hx. apply Ascii.eqb_eq in Hx as ->.
    change (rest false (Repeat ?r ?lo ?hi) v) with (repeat_rest (rest false r) lo hi v) in H.
    apply in_repeat_rest in H as (k & Hk & H). assert (k = 40%nat) as -> by lia.
    apply (reach_class is_lower_hex _ in_rest_lower_hex_class) in H as (w & -> & Hw & Ha).
    exists w. rewrite string_append_empty. auto.
  - intros (w & -> & Hw & Ha). exists (String "x" w). split.
    + apply in_rest_Chr. exists "0"%char. auto.
    + apply in_rest_Seq. exists w. split.
      * apply in_rest_Chr. exists "x"%char. auto.
      * change (rest false (Repeat ?r ?lo ?hi) w) with (repeat_rest (rest false r) lo hi w).
        apply in_repeat_rest. exists 40%nat. split; [lia|].
        apply (reach_class is_lower_hex _ in_rest_lower_hex_class). exists w.
        rewrite string_append_empty. auto.
Qed.

(** The address is accepted exactly when its lower case is an address in
    canonical form. *)
Lemma tnt_address_lower_case s :
  test true tnt_address_pattern s = test false tnt_address_pattern (toLowerCase s).
Proof.
  apply eq_true_iff_eq. rewrite tnt_address_pattern_i, tnt_address_pattern_exact. split.
  - intros (x & w & -> & Hx & Hw & Ha). exists (toLowerCase w).
    cbn [toLowerCase]. rewrite Hx, toLowerCase_length, all_lower_hex. auto.
  - intros (w & E & Hw & Ha). destruct s as [|c [|x s]]; try discriminate.
    cbn [toLowerCase] in E. injection E as E0 Ex <-.
    exists x, s. rewrite toLowerCase_length in Hw. rewrite all_lower_hex in Ha.
    apply (f_equal (fun c => Ascii.eqb c "0")) in E0. rewrite lower_zero in E0.
    apply Ascii.eqb_eq in E0 as ->. auto.
Qed.

(** The patterns on some texts. *)
Example bearer_pattern_example : test true bearer_pattern "BeArer" = true.
Proof. vm_compute. reflexivity. Qed.

Example tnt_address_pattern_example :
  test true tnt_address_pattern "0X0123456789abcdefABCDEF0123456789abcdefAB" = true
  /\ test true tnt_address_pattern "0X0123456789abcdefABCDEF0123456789abcdefA" = false.
Proof. split; vm_compute; reflexivity. Qed.

Example hash_pattern_example :
  test false hash_pattern "11cd8a380e8d5fd3ac47c1f880390341d40b11485e8ae946d8fa3d466f23fe89"
  = true.
Proof. vm_compute. reflexivity. Qed.

Example split_example : split "," "a,b,,c" = ["a"; "b"; EmptyString; "c"]%string.
Proof. reflexivity. Qed.

Example trim_example : trim "  a b  " = "a b"%string.
Proof. reflexivity. Qed.

End TextFacts.

(** ** The credentials of a request *)

Section CredentialFacts.
Import Stdlib.Strings.Ascii Text Api.

Lemma split_nonempty sep s : split sep s <> [].
Proof.
  destruct s as [|c s]; cbn [split]; [discriminate|].
  destruct (Ascii.eqb c sep); [discriminate|]. destruct (split sep s); discriminate.
Qed.

Lemma split_one sep s a : split sep s = [a] -> s = a.
Proof.
  revert a. induction s as [|c s IH]; intros a; cbn [split].
  - intros [= <-]. reflexivity.
  - destruct (Ascii.eqb c sep).
    + intros [= _ H]. contradiction (split_nonempty sep s H).
    + destruct (split sep s) as [|piece pieces] eqn:E; [contradiction (split_nonempty sep s E)|].
      intros [= <- ->]. rewrite (IH piece eq_refl). reflexivity.
Qed.

(** A string that splits in two is the two pieces around one separator. *)
Lemma split_two sep s a b : split sep s = [a; b] -> s = a +:+ String sep b.
Proof.
  revert a. induction s as [|c s IH]; intros a; cbn [split]; [discriminate|].
  destruct (Ascii.eqb_spec c sep) as [->|Hc].
  - intros [= <- H]. rewrite (split_one sep s b H). reflexivity.
  - destruct (split sep s) as [|piece pieces] eqn:E; [contradiction (split_nonempty sep s E)|].
    intros [= <- ->]. rewrite (IH piece eq_refl). reflexivity.
Qed.

Lemma canonical_letter (l c : ascii) :
  In l ["b"; "e"; "a"; "r"]%char ->
  (canonical true c =? canonical true l)%nat = Ascii.eqb (lower c) l.
Proof.
  intros [<-|[<-|[<-|[<-|[]]]]];
    destruct c as [[] [] [] [] [] [] [] []]; vm_compute; reflexivity.
Qed.

Lemma in_rest_letter l s t :
  In l ["b"; "e"; "a"; "r"]%char ->
  In t (rest true (Chr l) s) <-> exists c, s = String c t /\ lower c = l.
Proof.
  intros Hl. rewrite in_rest_Chr. split; intros (c & -> & H); exists c; (split; [reflexivity|]).
  - rewrite (canonical_letter l c Hl) in H. apply Ascii.eqb_eq, H.
  - rewrite (canonical_letter l c Hl). apply Ascii.eqb_eq, H.
Qed.

(** The scheme of the authorization is the word [bearer] in any case. *)
Lemma bearer_pattern_accepts s :
  test true bearer_pattern s = true <-> toLowerCase s = "bearer"%string.
Proof.
  rewrite test_true. unfold bearer_pattern.
  rewrite in_rest_Seq. setoid_rewrite in_rest_Seq. setoid_rewrite in_rest_Seq.
  setoid_rewrite in_rest_Seq. setoid_rewrite in_rest_Seq.
  setoid_rewrite in_rest_letter; [|cbn; tauto ..].
  split.
  - intros (? & (c1 & -> & H1) & ? & (c2 & -> & H2) & ? & (c3 & -> & H3)
            & ? & (c4 & -> & H4) & ? & (c5 & -> & H5) & (c6 & -> & H6)).
    cbn [toLowerCase]. rewrite H1, H2, H3, H4, H5, H6. reflexivity.
  - destruct s as [|c1 [|c2 [|c3 [|c4 [|c5 [|c6 [|c7 s]]]]]]]; try discriminate.
    cbn [toLowerCase]. intros [= ? ? ? ? ? ?].
    repeat (eexists; split; [eexists; split; [reflexivity | eassumption]|]).
    eexists; split; [reflexivity | eassumption].
Qed.

Lemma truthy_text (field : option string) :
  truthy field = true -> field = Some (text field) /\ text field <> EmptyString.
Proof.
  destruct field as [s|]; [|discriminate]. cbn. intros H. split; [reflexivity|].
  intros ->. discriminate H.
Qed.

(** What [credentials] lets through. *)
Lemma credentials_accept hs segs addr :
  credentials hs = inr (segs, addr) ->
  exists scheme mac given,
    header hs "authorization" = Some (scheme +:+ String " " mac)
    /\ segs = [scheme; mac]
    /\ toLowerCase scheme = "bearer"%string
    /\ header hs "tnt-address" = Some given
    /\ test true tnt_address_pattern given = true
    /\ addr = toLowerCase given.
Proof.
  unfold credentials.
  destruct (truthy (header hs "authorization")) eqn:Ha; [|discriminate].
  destruct (split " " (text (header hs "authorization"))) as [|scheme [|mac [|]]] eqn:Es;
    try discriminate.
  cbn [length Nat.eqb negb orb nth].
  destruct (test true bearer_pattern scheme) eqn:Hb; [|discriminate].
  destruct (truthy (header hs "tnt-address")) eqn:Ht; [|discriminate].
  destruct (test true tnt_address_pattern (text (header hs "tnt-address"))) eqn:Hp;
    [|discriminate].
  cbn [negb]. intros [= <- <-].
  apply truthy_text in Ha as [Ha _]. apply truthy_text in Ht as [Ht _].
  exists scheme, mac, (text (header hs "tnt-address")).
  rewrite <- (split_two _ _ _ _ Es). repeat split; try assumption.
  apply bearer_pattern_accepts, Hb.
Qed.

Lemma split_none sep s :
  all (fun c => negb (Ascii.eqb c sep)) s = true -> split sep s = [s].
Proof.
  induction s as [|c s IH]; [reflexivity|]. cbn [all split]. intros H.
  apply andb_true_iff in H as [Hc H]. apply negb_true_iff in Hc. rewrite Hc, (IH H).
  reflexivity.
Qed.

Lemma split_pair sep a b :
  all (fun c => negb (Ascii.eqb c sep)) a = true ->
  all (fun c => negb (Ascii.eqb c sep)) b = true ->
  split sep (a +:+ String sep b) = [a; b].
Proof.
  intros Ha Hb. induction a as [|c a IH].
  - rewrite string_append_nil. cbn [split]. rewrite Ascii.eqb_refl, (split_none _ _ Hb).
    reflexivity.
  - cbn [all] in Ha. apply andb_true_iff in Ha as [Hc Ha]. apply negb_true_iff in Hc.
    rewrite string_append_cons. cbn [split]. rewrite Hc, (IH Ha). reflexivity.
Qed.

Lemma bearer_no_space scheme :
  toLowerCase scheme = "bearer"%string ->
  all (fun c => negb (Ascii.eqb c " ")) scheme = true.
Proof.
  assert (forall c, In (lower c) ["b"; "e"; "a"; "r"]%char ->
                    negb (Ascii.eqb c " ") = true) as H.
  { intros c. destruct c as [[] [] [] [] [] [] [] []]; vm_compute; intros E;
      try reflexivity; repeat (destruct E as [E|E]; [discriminate E|]); destruct E. }
  destruct scheme as [|c1 [|c2 [|c3 [|c4 [|c5 [|c6 [|c7 s]]]]]]]; try discriminate.
  cbn [toLowerCase all]. intros [= H1 H2 H3 H4 H5 H6].
  rewrite (H c1) by (rewrite H1; cbn; tauto). rewrite (H c2) by (rewrite H2; cbn; tauto).
  rewrite (H c3) by (rewrite H3; cbn; tauto). rewrite (H c4) by (rewrite H4; cbn; tauto).
  rewrite (H c5) by (rewrite H5; cbn; tauto). rewrite (H c6) by (rewrite H6; cbn; tauto).
  reflexivity.
Qed.

(** What [credentials] makes of well-formed headers. *)
Lemma credentials_of hs scheme mac given :
  header hs "authorization" = Some (scheme +:+ String " " mac) ->
  toLowerCase scheme = "bearer"%string ->
  all (fun c => negb (Ascii.eqb c " ")) mac = true ->
  header hs "tnt-address" = Some given ->
  test true tnt_address_pattern given = true ->
  credentials hs = inr ([scheme; mac], toLowerCase given).
Proof.
  intros Ha Hb Hm Ht Hp. unfold credentials. rewrite Ha, Ht. cbn [text].
  assert (truthy (Some (scheme +:+ String " " mac)) = true) as ->.
  { destruct scheme; [discriminate Hb | reflexivity]. }
  rewrite (split_pair _ _ _ (bearer_no_space _ Hb) Hm).
  cbn [length Nat.eqb negb orb nth].
  apply bearer_pattern_accepts in Hb. rewrite Hb.
  assert (truthy (Some given) = true) as ->.
  { apply tnt_address_pattern_i in Hp as (x & w & -> & _). reflexivity. }
  rewrite Hp. reflexivity.
Qed.

End CredentialFacts.

(** ** The NIST value *)

Section NistFacts.
Import Stdlib.Strings.Ascii Text Number Nist.

(** *** Division by a thousand in doubles *)

Lemma round_half_even_ge n d : n / d <= round_half_even n d.
Proof. unfold round_half_even. repeat case_match; lia. Qed.

Lemma round_half_even_le n d : round_half_even n d <= n / d + 1.
Proof. unfold round_half_even. repeat case_match; lia. Qed.

(** With nine binary places or more, the rounded quotient by a thousand stays
    below the next integer. *)
Lemma round_half_even_scaled z P :
  0 <= z -> 512 <= P -> round_half_even (z * P) 1000 / P = z / 1000.
Proof.
  intros Hz HP.
  pose proof (Z.div_mod z 1000 ltac:(lia)) as Ez.
  pose proof (Z.mod_pos_bound z 1000 ltac:(lia)) as Bz.
  set (a := z / 1000) in *. set (r := z mod 1000) in *.
  assert (z * P = (a * P) * 1000 + r * P) as E by lia.
  pose proof (Z.div_mod (r * P) 1000 ltac:(lia)) as Er.
  pose proof (Z.mod_pos_bound (r * P) 1000 ltac:(lia)) as Br.
  set (q := r * P / 1000) in *. set (m := (r * P) mod 1000) in *.
  assert (z * P / 1000 = a * P + q) as Eq.
  { rewrite E, Z.add_comm, Z.div_add by lia. fold q. lia. }
  assert ((z * P) mod 1000 = m) as Em.
  { rewrite E, Z.add_comm, Z.mod_add by lia. reflexivity. }
  assert (0 <= q) as Hq0 by (apply Z.div_pos; nia).
  assert (q <= P - 1) as Hq1 by nia.
  unfold round_half_even. rewrite Eq, Em.
  assert (forall d, 0 <= q + d < P -> (a * P + q + d) / P = a) as Hdiv.
  { intros d Hd. replace (a * P + q + d) with (q + d + a * P) by lia.
    rewrite Z.div_add by lia. rewrite Z.div_small by lia. lia. }
  destruct (2 * m <? 1000) eqn:C1.
  - replace (a * P + q) with (a * P + q + 0) by lia. apply Hdiv. lia.
  - apply Z.ltb_ge in C1.
    assert (q + 1 < P) as Hq2 by nia.
    destruct (1000 <? 2 * m) eqn:C2; [|destruct (Z.even (a * P + q))].
    + replace (a * P + q + 1) with (a * P + q + 1) by lia. apply Hdiv. lia.
    + replace (a * P + q) with (a * P + q + 0) by lia. apply Hdiv. lia.
    + apply Hdiv. lia.
Qed.

Lemma floor_of_quotient_exact z :
  1000000000000 < z <= 2 ^ 53 -> floor_of_quotient z 1000 = z / 1000.
Proof.
  intros Hz. unfold floor_of_quotient.
  change (Z.log2 1000) with 9.
  assert (Z.log2 z <= 53) as Hl.
  { change 53 with (Z.log2 (2 ^ 53)). apply Z.log2_le_mono. lia. }
  assert (39 <= Z.log2 z) as Hl'.
  { change 39 with (Z.log2 (2 ^ 39)). apply Z.log2_le_mono. lia. }
  set (k := Z.log2 z - 9).
  set (e := (if z <? 1000 * 2 ^ k then k - 1 else k) - 52).
  assert (e <= -9) as He.
  { subst e. destruct (Z.eq_dec (Z.log2 z) 53) as [E|E].
    - assert (k = 44) as -> by (subst k; lia).
      assert ((z <? 1000 * 2 ^ 44) = true) as -> by (apply Z.ltb_lt; lia). lia.
    - destruct (z <? 1000 * 2 ^ k); subst k; lia. }
  assert ((e <? 0) = true) as -> by (apply Z.ltb_lt; lia).
  apply round_half_even_scaled; [lia|].
  change 512 with (2 ^ 9). apply Z.pow_le_mono_r; lia.
Qed.

(** The quotient is never rounded below its integer part. *)
Lemma floor_of_quotient_ge z :
  1000 <= z -> 1 <= floor_of_quotient z 1000.
Proof.
  intros Hz. unfold floor_of_quotient.
  change (Z.log2 1000) with 9.
  assert (9 <= Z.log2 z) as Hl.
  { change 9 with (Z.log2 1000). apply Z.log2_le_mono. lia. }
  pose proof (Z.log2_spec z ltac:(lia)) as [Hlo Hhi].
  set (k := Z.log2 z - 9) in *.
  assert (0 <= k) as Hk by (subst k; lia).
  assert (2 ^ Z.log2 z = 512 * 2 ^ k) as E2.
  { replace (Z.log2 z) with (9 + k) by (subst k; lia).
    rewrite Z.pow_add_r by lia. reflexivity. }
  set (e := (if z <? 1000 * 2 ^ k then k - 1 else k) - 52).
  assert (0 < 2 ^ k) as Hpk by (apply Z.pow_pos_nonneg; lia).
  destruct (e <? 0) eqn:Ce.
  - apply Z.ltb_lt in Ce.
    assert (0 < 2 ^ (- e)) as HP by (apply Z.pow_pos_nonneg; lia).
    apply Z.div_le_lower_bound; [lia|].
    pose proof (round_half_even_ge (z * 2 ^ (- e)) 1000) as Hr.
    assert (2 ^ (- e) <= z * 2 ^ (- e) / 1000); [|lia].
    apply Z.div_le_lower_bound; nia.
  - apply Z.ltb_ge in Ce.
    assert (0 < 2 ^ e) as HP by (apply Z.pow_pos_nonneg; lia).
    pose proof (round_half_even_ge z (1000 * 2 ^ e)) as Hr.
    assert (1 <= z / (1000 * 2 ^ e)); [|nia].
    apply Z.div_le_lower_bound; [lia|].
    assert (e <= k - 52) as He by (subst e; destruct (z <? 1000 * 2 ^ k); lia).
    clearbody e.
    assert (2 ^ e <= 2 ^ (k - 52)) as Hm by (apply Z.pow_le_mono_r; lia).
    assert (2 ^ k = 2 ^ (k - 52) * 2 ^ 52) as Ek.
    { rewrite <- Z.pow_add_r by lia. f_equal. lia. }
    assert (0 < 2 ^ (k - 52)) by (apply Z.pow_pos_nonneg; lia).
    lia.
Qed.

(** *** Reading back a printed integer *)

Lemma string_of_uint_digits d : all is_digit (NilEmpty.string_of_uint d) = true.
Proof. induction d; cbn [NilEmpty.string_of_uint all]; [reflexivity | rewrite IHd; reflexivity ..]. Qed.

Lemma digit_facts c :
  is_digit c = true ->
  is_space c = false /\ lower c = c /\ Ascii.eqb c ":" = false
  /\ sign_of (String c EmptyString) = (false, String c EmptyString)
  /\ is_Some (digit_value 10 c).
Proof.
  destruct c as [[] [] [] [] [] [] [] []]; vm_compute; intros H;
    try discriminate H; repeat split; eauto.
Qed.

Lemma sign_of_digit c s : is_digit c = true -> sign_of (String c s) = (false, String c s).
Proof.
  destruct c as [[] [] [] [] [] [] [] []]; vm_compute; intros H;
    try discriminate H; reflexivity.
Qed.

Lemma radix_of_digits s : all is_digit s = true -> radix_of s = (10, s).
Proof.
  destruct s as [|c [|c2 r]]; [reflexivity | |].
  - destruct c as [[] [] [] [] [] [] [] []]; reflexivity.
  - intros H. cbn [all] in H. apply andb_true_iff in H as [_ H].
    apply andb_true_iff in H as [H _].
    destruct (Ascii.eqb_spec c "0") as [->|Hc].
    + destruct c2 as [[] [] [] [] [] [] [] []]; try reflexivity; discriminate H.
    + destruct c as [[] [] [] [] [] [] [] []]; try reflexivity. contradiction Hc. reflexivity.
Qed.

Lemma value_uint_acc d t p :
  digits 10 t = [] ->
  fold_left (fun acc d => acc * 10 + d) (digits 10 (NilEmpty.string_of_uint d +:+ t)) (Z.pos p)
  = Z.pos (Pos.of_uint_acc d p).
Proof.
  intros Ht. revert p.
  induction d; intros p; cbn [NilEmpty.string_of_uint Pos.of_uint_acc];
    [rewrite string_append_nil, Ht; reflexivity | ..];
    rewrite string_append_cons; cbn [digits];
    match goal with |- context [digit_value 10 ?c] =>
      let v := eval vm_compute in (digit_value 10 c) in
      change (digit_value 10 c) with v end;
    cbn [fold_left]; rewrite <- IHd; f_equal; lia.
Qed.

Lemma value_uint d t :
  digits 10 t = [] ->
  value_of 10 (digits 10 (NilEmpty.string_of_uint d +:+ t)) = Z.of_N (Pos.of_uint d).
Proof.
  intros Ht. unfold value_of.
  induction d; cbn [NilEmpty.string_of_uint Pos.of_uint];
    [rewrite string_append_nil, Ht; reflexivity | ..];
    rewrite string_append_cons; cbn [digits];
    match goal with |- context [digit_value 10 ?c] =>
      let v := eval vm_compute in (digit_value 10 c) in
      change (digit_value 10 c) with v end;
    cbn [fold_left]; [exact IHd | ..];
    match goal with |- fold_left _ _ ?a = _ =>
      let v := eval vm_compute in a in change a with v end;
    rewrite (value_uint_acc d t _ Ht); reflexivity.
Qed.

Lemma digits_uint_nonempty d :
  d <> Decimal.Nil -> digits 10 (NilEmpty.string_of_uint d) <> [].
Proof. destruct d; [congruence | discriminate ..]. Qed.

Lemma to_uint_nonnil p : Pos.to_uint p <> Decimal.Nil.
Proof.
  intros E. pose proof (DecimalPos.Unsigned.of_to p) as H. rewrite E in H. discriminate H.
Qed.

Lemma ends_number_digits rest : ends_number rest = true -> digits 10 rest = [].
Proof.
  destruct rest as [|c rest]; [reflexivity|]. cbn [ends_number digits]. intros H.
  apply andb_true_iff in H as [H _]. apply andb_true_iff in H as [H _].
  apply negb_true_iff in H. revert H.
  destruct c as [[] [] [] [] [] [] [] []]; vm_compute; intros E; try reflexivity; discriminate E.
Qed.

Lemma radix_of_number s rest :
  all is_digit s = true -> s <> EmptyString -> ends_number rest = true ->
  radix_of (s +:+ rest) = (10, s +:+ rest).
Proof.
  intros Hs Hn Hr. destruct s as [|c s]; [contradiction Hn; reflexivity|].
  rewrite string_append_cons.
  destruct (Ascii.eqb_spec c "0") as [->|Hc].
  2:{ destruct (s +:+ rest); destruct c as [[] [] [] [] [] [] [] []]; try reflexivity;
        contradiction Hc; reflexivity. }
  destruct s as [|c2 s].
  - rewrite string_append_nil. destruct rest as [|x rest]; [reflexivity|].
    cbn [ends_number] in Hr. apply andb_true_iff in Hr as [Hr HX].
    apply andb_true_iff in Hr as [_ Hx].
    apply negb_true_iff in Hx, HX.
    destruct x as [[] [] [] [] [] [] [] []]; try reflexivity;
      first [discriminate Hx | discriminate HX].
  - rewrite string_append_cons. cbn [all] in Hs.
    apply andb_true_iff in Hs as [_ Hs]. apply andb_true_iff in Hs as [H2 _].
    destruct c2 as [[] [] [] [] [] [] [] []]; try reflexivity; discriminate H2.
Qed.

Lemma digits_number_nonempty s rest :
  all is_digit s = true -> s <> EmptyString -> digits 10 (s +:+ rest) <> [].
Proof.
  intros Hs Hn. destruct s as [|c s]; [contradiction Hn; reflexivity|].
  rewrite string_append_cons. cbn [digits all] in *.
  apply andb_true_iff in Hs as [Hc _].
  destruct (digit_facts c Hc) as (_ & _ & _ & _ & [d ->]). discriminate.
Qed.

Lemma parseInt_uint_rest d rest :
  d <> Decimal.Nil -> ends_number rest = true ->
  parseInt (NilEmpty.string_of_uint d +:+ rest) = to_double (Z.of_N (Pos.of_uint d))
  /\ parseInt (String "-" (NilEmpty.string_of_uint d +:+ rest))
     = to_double (- Z.of_N (Pos.of_uint d)).
Proof.
  intros Hd Hr.
  pose proof (string_of_uint_digits d) as Ha.
  assert (NilEmpty.string_of_uint d <> EmptyString) as Hne by (destruct d; [congruence | discriminate ..]).
  pose proof (digits_number_nonempty _ rest Ha Hne) as Hn.
  pose proof (value_uint d rest (ends_number_digits rest Hr)) as Hv.
  pose proof (radix_of_number _ rest Ha Hne Hr) as Hx.
  assert (exists c s, NilEmpty.string_of_uint d +:+ rest = String c s /\ is_digit c = true)
    as (c & s & E & Hc).
  { destruct (NilEmpty.string_of_uint d) as [|c s] eqn:E; [contradiction Hne; reflexivity|].
    exists c, (s +:+ rest). split; [reflexivity|]. cbn [all] in Ha.
    apply andb_true_iff in Ha. tauto. }
  destruct (digit_facts c Hc) as (Hs & _).
  unfold parseInt. split.
  - rewrite E. cbn [trimStart]. rewrite Hs, (sign_of_digit c s Hc), <- E, Hx.
    destruct (digits 10 (NilEmpty.string_of_uint d +:+ rest)) eqn:Ed;
      [contradiction Hn; reflexivity|].
    rewrite Hv. reflexivity.
  - cbn [trimStart]. change (is_space "-") with false. cbn [sign_of]. rewrite Hx.
    destruct (digits 10 (NilEmpty.string_of_uint d +:+ rest)) eqn:Ed;
      [contradiction Hn; reflexivity|].
    rewrite Hv. reflexivity.
Qed.

(** [parseInt] reads the integer that starts a text. *)
Lemma parseInt_decimal_rest z rest :
  ends_number rest = true -> parseInt (decimal z +:+ rest) = to_double z.
Proof.
  intros Hr. unfold decimal. destruct z as [|p|p]; cbn [Z.to_int NilZero.string_of_int].
  - destruct (parseInt_uint_rest (Decimal.D0 Decimal.Nil) rest ltac:(discriminate) Hr)
      as [H _]. exact H.
  - unfold NilZero.string_of_uint.
    destruct (Pos.to_uint p) eqn:E; [contradiction (to_uint_nonnil p E) | ..];
      rewrite <- E; destruct (parseInt_uint_rest (Pos.to_uint p) rest (to_uint_nonnil p) Hr)
        as [-> _];
      rewrite DecimalPos.Unsigned.of_to; reflexivity.
  - unfold NilZero.string_of_uint. rewrite string_append_cons.
    destruct (Pos.to_uint p) eqn:E; [contradiction (to_uint_nonnil p E) | ..];
      rewrite <- E; destruct (parseInt_uint_rest (Pos.to_uint p) rest (to_uint_nonnil p) Hr)
        as [_ ->];
      rewrite DecimalPos.Unsigned.of_to; reflexivity.
Qed.

(** [parseInt] reads a printed integer back, up to the precision of a
    double. *)
Lemma parseInt_decimal z : parseInt (decimal z) = to_double z.
Proof.
  rewrite <- (string_append_empty (decimal z)) at 1.
  apply parseInt_decimal_rest. reflexivity.
Qed.

Lemma plain_facts c : plain c = true -> lower c = c /\ Ascii.eqb c ":" = false.
Proof.
  destruct c as [[] [] [] [] [] [] [] []]; vm_compute; intros H;
    try discriminate H; split; reflexivity.
Qed.

Lemma decimal_plain z : all plain (decimal z) = true.
Proof.
  assert (forall d, all plain (NilEmpty.string_of_uint d) = true) as H
    by (induction d; cbn [NilEmpty.string_of_uint all]; [reflexivity | rewrite IHd; reflexivity ..]).
  assert (forall d, all plain (NilZero.string_of_uint d) = true) as H'
    by (intros d; destruct d; [reflexivity | apply (H _) ..]).
  unfold decimal. destruct (Z.to_int z); cbn [NilZero.string_of_int all]; rewrite ?H'; reflexivity.
Qed.

Lemma decimal_nonempty z : (0 < String.length (decimal z))%nat.
Proof.
  assert (forall d, d <> Decimal.Nil -> (0 < String.length (NilEmpty.string_of_uint d))%nat) as H
    by (intros d Hd; destruct d; [congruence | cbn; lia ..]).
  unfold decimal. destruct z as [|p|p]; cbn [Z.to_int NilZero.string_of_int];
    [cbn; lia | |].
  - unfold NilZero.string_of_uint. pose proof (H _ (to_uint_nonnil p)).
    destruct (Pos.to_uint p); [cbn; lia | assumption ..].
  - cbn [String.length]. lia.
Qed.

Lemma toLowerCase_append s t : toLowerCase (s +:+ t) = toLowerCase s +:+ toLowerCase t.
Proof.
  induction s as [|c s IH]; [rewrite !string_append_nil; reflexivity|].
  rewrite string_append_cons. cbn [toLowerCase]. rewrite string_append_cons, IH. reflexivity.
Qed.

Lemma toLowerCase_plain s : all plain s = true -> toLowerCase s = s.
Proof.
  induction s as [|c s IH]; [reflexivity|]. cbn [all toLowerCase]. intros H.
  apply andb_true_iff in H as [Hc H]. destruct (plain_facts c Hc) as [-> _].
  rewrite IH by exact H. reflexivity.
Qed.

Lemma split_first s t :
  all plain s = true -> hd EmptyString (split ":" (s +:+ String ":" t)) = s.
Proof.
  induction s as [|c s IH]; intros H.
  - rewrite string_append_nil. reflexivity.
  - cbn [all] in H. apply andb_true_iff in H as [Hc H].
    destruct (plain_facts c Hc) as [_ Hc'].
    rewrite string_append_cons. cbn [split]. rewrite Hc'.
    specialize (IH H). destruct (split ":" (s +:+ String ":" t)); cbn [hd] in *; congruence.
Qed.

Lemma to_double_time t : Z.abs t <= 8640000000000000 -> to_double t = Int t.
Proof.
  intros H. unfold to_double.
  assert ((Z.abs t <=? 2 ^ 53) = true) as -> by (apply Z.leb_le; lia). reflexivity.
Qed.

(** *** The two variables *)

Lemma parseInt_empty_first value :
  value = EmptyString -> falsy (parseInt (hd EmptyString (split ":" value))) = true.
Proof. intros ->. reflexivity. Qed.

(** X13.  After [updateNistVars], whatever the value given and the variables
    before: either both variables are [null] and one error was printed, or
    [nistLatest] is the value given, which is not the empty string, and
    [nistLatestEpoch] is a number that is neither NaN nor zero, and nothing
    was printed. *)
Theorem updateNistVars_keeps_pair (nistValue : option string) (v : vars) :
  let v' := updateNistVars nistValue v in
  match nistLatest v', nistLatestEpoch v' with
  | None, None => exists e, printed v' = printed v ++ [e]
  | Some value, Some n =>
      nistValue = Some value /\ value <> EmptyString /\ falsy n = false
      /\ printed v' = printed v
  | _, _ => False
  end.
Proof.
  unfold updateNistVars. destruct nistValue as [value|]; [|cbn; eauto].
  destruct (falsy (parseInt (hd EmptyString (split ":" value)))) eqn:F; [cbn; eauto|].
  cbn [nistLatest nistLatestEpoch printed].
  split; [reflexivity|]. split.
  { intros E. rewrite (parseInt_empty_first value E) in F. discriminate F. }
  split; [|reflexivity].
  destruct (parseInt (hd EmptyString (split ":" value))) as [|z|b]; cbn [gt].
  - discriminate F.
  - destruct (1000000000000 <? z) eqn:G; [|exact F].
    apply Z.ltb_lt in G. cbn [floor_thousandth falsy].
    pose proof (floor_of_quotient_ge z ltac:(lia)). apply Z.eqb_neq. lia.
  - destruct b; reflexivity.
Qed.

Lemma timeAndSeed_first p :
  hd EmptyString (split ":" (timeAndSeed p))
  = match timeStamp p with Some t => decimal t | None => "nan"%string end.
Proof.
  unfold timeAndSeed. rewrite toLowerCase_append.
  change (":" +:+ localRandomValue p) with (String ":" (localRandomValue p)).
  cbn [toLowerCase]. change (lower ":") with ":"%char.
  destruct (timeStamp p) as [t|]; cbn [time_text].
  - rewrite (toLowerCase_plain _ (decimal_plain t)).
    apply split_first, decimal_plain.
  - reflexivity.
Qed.

Lemma new_Date_range n t : new_Date n = Some t -> Z.abs t <= 8640000000000000.
Proof.
  destruct n as [|z]; [discriminate|]. cbn [new_Date].
  destruct (Z.abs z <=? 8640000000000000) eqn:E; [|discriminate].
  intros [= <-]. apply Z.leb_le, E.
Qed.

(** What [updateNistVars] makes of the value that the NIST service writes. *)
Lemma updateNistVars_timeAndSeed p n v :
  timeStamp p = new_Date n ->
  let v' := updateNistVars (Some (timeAndSeed p)) v in
  match timeStamp p with
  | Some t =>
      if t =? 0 then nistLatest v' = None /\ nistLatestEpoch v' = None
      else nistLatest v' = Some (timeAndSeed p)
           /\ nistLatestEpoch v' = Some (Int (if 1000000000000 <? t then t / 1000 else t))
  | None => nistLatest v' = None /\ nistLatestEpoch v' = None
  end.
Proof.
  intros Hn. unfold updateNistVars. rewrite timeAndSeed_first.
  destruct (timeStamp p) as [t|] eqn:Et; [|cbn; auto].
  symmetry in Hn. apply new_Date_range in Hn.
  rewrite parseInt_decimal, (to_double_time t Hn). cbn [falsy gt].
  destruct (t =? 0) eqn:E0; [cbn; auto|].
  cbn [nistLatest nistLatestEpoch]. split; [reflexivity|].
  destruct (1000000000000 <? t) eqn:G; [|reflexivity].
  apply Z.ltb_lt in G. cbn [floor_thousandth].
  rewrite floor_of_quotient_exact by lia. reflexivity.
Qed.

(** X14.  The NIST value from the service to the endpoint.  When the store
    answers, [getNistLatestAsync] leaves the lower case of 'time:seed' of the
    pulse under the key, and a second run on the same pulse writes and logs
    nothing.  [updateNistVars] on that value keeps it and takes as the epoch
    the time of the pulse in whole seconds when the time is above 10^12
    milliseconds, and the time itself (milliseconds taken for seconds) when it
    is at most 10^12 and not zero; for the time zero and for an invalid date
    it sets both variables to [null]. *)
Theorem nist_value_round_trip (p : pulse) (n : jsnum) (s : service) (v : vars) :
  timeStamp p = new_Date n -> get_error s = None -> set_error s = None ->
  let s' := (getNistLatestAsync (inr p) s).1 in
  let v' := updateNistVars (NIST_KEY_value s') v in
  NIST_KEY_value s' = Some (timeAndSeed p)
  /\ getNistLatestAsync (inr p) s' = (s', Ok tt)
  /\ match timeStamp p with
     | Some t =>
         if t =? 0 then nistLatest v' = None /\ nistLatestEpoch v' = None
         else nistLatest v' = Some (timeAndSeed p)
              /\ nistLatestEpoch v' = Some (Int (if 1000000000000 <? t then t / 1000 else t))
     | None => nistLatest v' = None /\ nistLatestEpoch v' = None
     end.
Proof.
  intros Hn Hg Hs s'.
  assert (NIST_KEY_value s' = Some (timeAndSeed p) /\ get_error s' = None) as [Ek Eg].
  { subst s'. unfold getNistLatestAsync. rewrite Hg.
    case_bool_decide as E; [cbn [fst]; auto|]. rewrite Hs. cbn. auto. }
  cbv zeta. split; [exact Ek|]. split.
  - unfold getNistLatestAsync. rewrite Eg, Ek, bool_decide_eq_true_2 by reflexivity. reflexivity.
  - rewrite Ek. exact (updateNistVars_timeAndSeed p n v Hn).
Qed.

End NistFacts.

(** ** The handler of [GET /proofs] *)

Section ProofsFacts.
Import Stdlib.Strings.Ascii Text Api.

Variable env : Env.
Variable GET_PROOFS_MAX_REST : Z.
Variable uuidTime_v1 : val -> result jsnum.
Variable uuidValidate : string -> Z -> bool.
Variable binaryToObject : option string -> JS (exn + val).
Variable findOne : string -> exn + option RegisteredNode.
Variable error_message : exn -> string.
Variable hmac_sha256_hex : string -> string -> string.

Abbreviation each := (getProofsByIDV1Async_each env uuidTime_v1 uuidValidate binaryToObject).
Abbreviation handler :=
  (getProofsByIDV1Async env GET_PROOFS_MAX_REST uuidTime_v1 uuidValidate binaryToObject
                        findOne error_message hmac_sha256_hex).
Abbreviation passed_gate := (Api.passed_gate env uuidTime_v1 uuidValidate).

Lemma each_reads requestedType hash_id w :
  same_reads w (each requestedType hash_id w).1
  /\ forall p, (each requestedType hash_id w).2 = Ok p -> p <> ProofNull ->
               passed_gate w hash_id.
Proof.
  assert (forall p, Ok ProofNull = Ok p -> p <> ProofNull -> passed_gate w hash_id) as Hnull.
  { intros p Hp Hn. injection Hp as Hp. symmetry in Hp. contradiction (Hn Hp). }
  assert (same_reads w w) as Hsame by (repeat split).
  destruct (each requestedType hash_id w) as [w' r] eqn:E. cbn [fst snd].
  unfold getProofsByIDV1Async_each in E.
  destruct (uuidValidate hash_id 1) eqn:Hv; cbn [negb] in E;
    [|injection E as <- <-; split; [exact Hsame | exact Hnull]].
  unfold bind at 1 in E. unfold lift_result in E.
  destruct (uuidTime_v1 (VStr hash_id)) as [t|e] eqn:Ht;
    [|injection E as <- <-; split; [exact Hsame | intros p Hp; discriminate Hp]].
  unfold bind at 1 in E. cbn [Date_now] in E.
  destruct (num_gt (num_sub (clock w) t) (maxDiff env)) eqn:Hg;
    [injection E as <- <-; split; [exact Hsame | exact Hnull]|].
  unfold bind at 1 in E. unfold redis_get in E.
  destruct (get_reply (io w)) as [err|] eqn:Hr;
    [injection E as <- <-; split; [exact Hsame | exact Hnull]|].
  assert (passed_gate w hash_id) as Hpass by (unfold Api.passed_gate; eauto 10).
  destruct requestedType.
  - injection E as <- <-. split; [exact Hsame | intros; exact Hpass].
  - unfold bind, liftJS in E.
    destruct (binaryToObject _ (objects w)) as [h [[err|obj]|e]];
      injection E as <- <-; (split; [repeat split | intros; exact Hpass]).
Qed.

Lemma same_reads_trans w1 w2 w3 : same_reads w1 w2 -> same_reads w2 w3 -> same_reads w1 w3.
Proof. unfold same_reads. intros (-> & -> & ->) (-> & -> & ->). auto. Qed.

Lemma passed_gate_same w w' id : same_reads w w' -> passed_gate w' id -> passed_gate w id.
Proof. unfold same_reads, Api.passed_gate. intros (-> & _ & ->). auto. Qed.

Lemma eachLimit_reads requestedType ids w :
  same_reads w (eachLimit (each requestedType) ids w).1
  /\ forall proofs, (eachLimit (each requestedType) ids w).2 = Ok proofs ->
       Forall2 (fun id p => p <> ProofNull -> passed_gate w id) ids proofs.
Proof.
  revert w. induction ids as [|id ids IH]; intros w.
  - split; [repeat split|]. intros proofs Hp. injection Hp as <-. constructor.
  - destruct (each_reads requestedType id w) as [Hs Hp].
    destruct (eachLimit (each requestedType) (id :: ids) w) as [w' r] eqn:E.
    cbn [eachLimit] in E. unfold bind at 1 in E.
    destruct (each requestedType id w) as [w1 [p|e]]; cbn [fst snd] in *.
    2:{ injection E as <- <-. split; [exact Hs|]. intros proofs Hq. discriminate Hq. }
    destruct (IH w1) as [Hs' Hp'].
    unfold bind at 1 in E.
    destruct (eachLimit (each requestedType) ids w1) as [w2 [ps|e]]; cbn [fst snd] in *.
    2:{ injection E as <- <-. split; [exact (same_reads_trans _ _ _ Hs Hs')|].
        intros proofs Hq. discriminate Hq. }
    injection E as <- <-. split; [exact (same_reads_trans _ _ _ Hs Hs')|].
    intros proofs Hq. injection Hq as <-. constructor; [exact (Hp p eq_refl)|].
    eapply Forall2_impl; [exact (Hp' ps eq_refl)|].
    cbn. intros id' p' H Hn. exact (passed_gate_same _ _ _ Hs (H Hn)).
Qed.

(** The handler up to the iteratees, for a request it answers with a body. *)
Lemma handler_send req w body :
  (handler req w).2 = Ok (Send body) ->
  exists segs addr ids node proofs,
    credentials (headers req) = inr (segs, addr)
    /\ requested uuidValidate req = inr ids
    /\ (1 <= Z.of_nat (length ids) <= GET_PROOFS_MAX_REST)
    /\ findOne addr = inr (Some node)
    /\ nth 1 segs EmptyString = hmac_sha256_hex (hmacKey node) (tntAddr node)
    /\ eachLimit (each (if accepts_jsonld req then JSONLD_MIME_TYPE else BASE64_MIME_TYPE))
                 (map trim ids) w
       = ((handler req w).1, Ok proofs)
    /\ body = zip (map trim ids) proofs.
Proof.
  unfold getProofsByIDV1Async.
  destruct (credentials (headers req)) as [[error message]|[segs addr]]; [discriminate|].
  destruct (requested uuidValidate req) as [refused|ids] eqn:Er.
  { unfold requested in Er.
    destruct (truthy (params_hash_id req)); [|destruct (truthy _); discriminate].
    destruct (uuidValidate _ 1); [discriminate|]. injection Er as <-. discriminate. }
  destruct (length ids =? 0)%nat eqn:E0; [discriminate|].
  destruct (GET_PROOFS_MAX_REST <? Z.of_nat (length ids)) eqn:Em; [discriminate|].
  destruct (findOne addr) as [message|[node|]] eqn:Ef; try discriminate.
  destruct (String.eqb (nth 1 segs EmptyString) _) eqn:Eh; [|discriminate].
  cbn [negb]. unfold bind.
  destruct (eachLimit _ (map trim ids) w) as [w' [proofs|e]] eqn:Ee; [|discriminate].
  cbn. intros [= <-]. exists segs, addr, ids, node, proofs.
  apply Nat.eqb_neq in E0. apply Z.ltb_ge in Em. apply String.eqb_eq in Eh.
  repeat split; try assumption; try reflexivity; lia.
Qed.

(** X15.  [getProofsByIDV1Async] sends a body only if the [authorization]
    header is the word bearer, in any case, one blank, and the HMAC of the
    address of a registered Node under its key, where the Node is the one the
    table holds for the lower case of the [tnt-address] header, which is an
    address in canonical form. *)
Theorem proofs_only_to_registered_nodes (req : request) (w : world)
        (body : list (string * proof_field)) :
  (handler req w).2 = Ok (Send body) ->
  exists scheme given node,
    header (headers req) "authorization"
    = Some (scheme +:+ " " +:+ hmac_sha256_hex (hmacKey node) (tntAddr node))
    /\ toLowerCase scheme = "bearer"%string
    /\ header (headers req) "tnt-address" = Some given
    /\ test false tnt_address_pattern (toLowerCase given) = true
    /\ findOne (toLowerCase given) = inr (Some node).
Proof.
  intros H. apply handler_send in H
    as (segs & addr & ids & node & proofs & Hc & _ & _ & Hf & Hm & _).
  apply credentials_accept in Hc
    as (scheme & mac & given & Ha & -> & Hb & Ht & Hp & ->).
  cbn [nth] in Hm. subst mac.
  exists scheme, given, node. rewrite <- tnt_address_lower_case. auto.
Qed.

Lemma eachLimit_length {A B} (f : A -> IO B) l w bs :
  (eachLimit f l w).2 = Ok bs -> length bs = length l.
Proof.
  revert w bs. induction l as [|a l IH]; intros w bs; cbn [eachLimit].
  - intros [= <-]. reflexivity.
  - unfold bind at 1. destruct (f a w) as [w1 [b|e]]; [|discriminate].
    unfold bind at 1. destruct (eachLimit f l w1) as [w2 [bs'|e]] eqn:E; [|discriminate].
    intros [= <-]. cbn [length]. f_equal. apply (IH w1). rewrite E. reflexivity.
Qed.

Lemma fst_zip_same {A B} (l : list A) (k : list B) :
  length k = length l -> map fst (zip l k) = l.
Proof.
  revert k. induction l as [|a l IH]; intros [|b k]; cbn; try discriminate; [reflexivity|].
  intros [= H]. rewrite (IH k H). reflexivity.
Qed.

(** X16.  The body that [getProofsByIDV1Async] sends lists the hash ids asked
    for, trimmed and in order: the path parameter alone if there is one (it is
    then a version 1 UUID), else the pieces of the [hashids] header between
    commas; at least one and at most [GET_PROOFS_MAX_REST] of them.  A proof
    that is not [null] belongs to a hash id that is a version 1 UUID not older
    than [maxDiff], on a store that answered; and the clock, the store and
    its replies are as they were. *)
Theorem proofs_answer_lists_requested_ids (req : request) (w : world)
        (body : list (string * proof_field)) :
  (handler req w).2 = Ok (Send body) ->
  let ids := if truthy (params_hash_id req) then [text (params_hash_id req)]
             else split "," (text (header (headers req) "hashids")) in
  map fst body = map trim ids
  /\ 1 <= Z.of_nat (length body) <= GET_PROOFS_MAX_REST
  /\ (truthy (params_hash_id req) = true -> uuidValidate (text (params_hash_id req)) 1 = true)
  /\ (forall id p, In (id, p) body -> p <> ProofNull -> passed_gate w id)
  /\ same_reads w (handler req w).1.
Proof.
  intros H. apply handler_send in H
    as (segs & addr & ids' & node & proofs & _ & Hr & Hn & _ & _ & He & ->).
  intros ids.
  assert (ids' = ids /\ (truthy (params_hash_id req) = true
                         -> uuidValidate (text (params_hash_id req)) 1 = true)) as [-> Hv].
  { subst ids. unfold requested in Hr. destruct (truthy (params_hash_id req)).
    - destruct (uuidValidate _ 1); [|discriminate]. injection Hr as <-. auto.
    - destruct (truthy (header (headers req) "hashids")) eqn:Ht.
      + injection Hr as <-. split; [reflexivity | discriminate].
      + injection Hr as <-. cbn in Hn. lia. }
  destruct (eachLimit_reads (if accepts_jsonld req then JSONLD_MIME_TYPE else BASE64_MIME_TYPE)
                            (map trim ids) w) as [Hs Hp].
  rewrite He in Hs, Hp. cbn [fst snd] in Hs, Hp. specialize (Hp proofs eq_refl).
  assert (length proofs = length (map trim ids)) as Hl.
  { apply (eachLimit_length
             (each (if accepts_jsonld req then JSONLD_MIME_TYPE else BASE64_MIME_TYPE))
             _ w). rewrite He. reflexivity. }
  split; [apply fst_zip_same, Hl|].
  split. { rewrite length_zip_with, Hl, Nat.min_id, length_map. exact Hn. }
  split; [exact Hv|]. split; [|exact Hs].
  intros id p Hin Hnn. clear He Hl.
  revert proofs Hp Hin. induction (map trim ids) as [|a l IH]; intros proofs Hp Hin.
  - destruct Hin.
  - inversion Hp as [|? b ? k Hab Hlk]; subst. cbn in Hin. destruct Hin as [[= -> ->]|Hin].
    + exact (Hab Hnn).
    + exact (IH k Hlk Hin).
Qed.





End ProofsFacts.

(** ** The handler of [POST /hash] *)

Section HashesFacts.
Import Stdlib.Strings.Ascii Text Number Nist Api.

Variable RMQ_WORK_OUT_AGG_QUEUE : string.
Variable BALANCE_CHECK_KEY_PREFIX : string.
Variable minTNTBalanceNeeded : string.
Variable findOne : string -> exn + option RegisteredNode.
Variable hmac_sha256_hex : string -> string -> string.
Variable blake2s : string -> list Z.
Context {uuid_state : Type}.
Variable uuidv1 : Z -> list Z -> uuid_state -> uuid_state * result string.
Variable utils_formatDateISO8601NoMs : Z -> string.
Variable utils_addMinutes : Z -> Z -> Z.
Variable utils_addSeconds : Z -> Z -> Z.
Variable start_of_local_hour : Z -> Z.
Context {float : Type}.
Variable parseFloat : option string -> float.

(** The table at a later time. *)
Variable findOne' : string -> exn + option RegisteredNode.

Abbreviation post_handler :=
  (postHashV1Async RMQ_WORK_OUT_AGG_QUEUE BALANCE_CHECK_KEY_PREFIX minTNTBalanceNeeded
                   findOne hmac_sha256_hex blake2s uuidv1 utils_formatDateISO8601NoMs
                   utils_addMinutes utils_addSeconds start_of_local_hour parseFloat).
Abbreviation respond :=
  (generatePostHashResponse blake2s uuidv1 utils_formatDateISO8601NoMs
                            utils_addMinutes utils_addSeconds start_of_local_hour parseFloat).

Lemma kept_refl (s : state uuid_state) : kept s s.
Proof. repeat split. Qed.

Lemma kept_trans (s1 s2 s3 : state uuid_state) : kept s1 s2 -> kept s2 s3 -> kept s1 s3.
Proof.
  unfold kept. intros (-> & -> & -> & -> & -> & -> & -> & ->) H. exact H.
Qed.

Lemma kept_print l (s : state uuid_state) : kept s (print l s).
Proof. repeat split. Qed.

Lemma kept_hmset k f (s : state uuid_state) : kept s (hmset k f s).
Proof. repeat split. Qed.

Lemma kept_expire k n (s : state uuid_state) : kept s (expire k n s).
Proof. repeat split. Qed.

Lemma balance_checked_kept a (s : state uuid_state) :
  kept s (balance_checked BALANCE_CHECK_KEY_PREFIX a s).1
  /\ hashes (balance_checked BALANCE_CHECK_KEY_PREFIX a s).1 = hashes s
  /\ expires_at (balance_checked BALANCE_CHECK_KEY_PREFIX a s).1 = expires_at s.
Proof.
  unfold balance_checked. destruct (enforcePrivateNodeStake s); [|repeat split].
  destruct (get_fault (replies_of s)); repeat split.
Qed.

Lemma from_table_kept a (s : state uuid_state) : kept s (from_table findOne a s).1.
Proof.
  unfold from_table. destruct (findOne a) as [e|[r|]]; cbn [fst];
    [apply kept_print | | apply kept_refl].
  destruct (hmset_fault (replies_of s)); [apply kept_print|].
  destruct (expire_fault _).
  - eapply kept_trans; [apply kept_hmset | apply kept_print].
  - eapply kept_trans; [apply kept_hmset | apply kept_expire].
Qed.

Lemma lookup_kept a (s : state uuid_state) : kept s (lookup findOne a s).1.
Proof.
  unfold lookup. destruct (hgetall_fault (replies_of s)).
  - eapply kept_trans; [apply kept_print | apply from_table_kept].
  - destruct (live s _) as [fields|]; [|apply from_table_kept].
    destruct (decide (fields = ∅)); [apply from_table_kept | apply kept_refl].
Qed.

Lemma authenticate_kept segs a (s : state uuid_state) :
  kept s (authenticate findOne hmac_sha256_hex segs a s).1.
Proof.
  unfold authenticate. pose proof (lookup_kept a s) as H.
  destruct (lookup findOne a s) as [s' [refusal|regNode]]; cbn [fst] in *; [exact H|].
  destruct (node_hmacKey regNode), (node_tntAddr regNode);
    try (eapply kept_trans; [exact H | apply kept_print]).
  destruct (negb _); exact H.
Qed.

(** The response, and the state it is generated in. *)
Lemma respond_ok submitted regNode (s s' : state uuid_state) resp :
  respond submitted regNode s = (s', Ok resp) ->
  hash resp = toLowerCase submitted
  /\ nist resp = (if truthy (nistLatest (vars s)) then text (nistLatest (vars s))
                  else EmptyString)
  /\ tnt_credit_balance resp = parseFloat (node_tntCredit regNode)
  /\ uuidv1 (now s) (1 :: blake2s (hashStr (now s) (hash resp) (nist resp))) (uuids s)
     = (uuids s', Ok (hash_id resp))
  /\ vars s' = vars s /\ replies_of s' = replies_of s /\ sent s' = sent s
  /\ errors s' = errors s /\ hashes s' = hashes s /\ expires_at s' = expires_at s
  /\ now s' = now s.
Proof.
  unfold generatePostHashResponse.
  destruct (uuidv1 _ _ (uuids s)) as [u [hashId|e]] eqn:E; [|discriminate].
  intros [= <- <-].
  cbn [hash nist tnt_credit_balance hash_id vars replies_of sent errors hashes expires_at
       now uuids with_uuids].
  rewrite E. repeat split.
Qed.

Lemma respond_sent submitted regNode (s : state uuid_state) :
  sent (respond submitted regNode s).1 = sent s.
Proof.
  unfold generatePostHashResponse. destruct (uuidv1 _ _ (uuids s)) as [u [hashId|e]]; reflexivity.
Qed.

(** The handler, for a request that it accepts. *)
Lemma post_accepted req (s s' : state uuid_state) resp :
  post_handler req s = (s', Ok (Accepted resp)) ->
  exists segs addr submitted s1 s2 s3 regNode,
    contentType req = "application/json"%string
    /\ credentials (post_headers req) = inr (segs, addr)
    /\ params req !! "hash"%string = Some (VStr submitted)
    /\ test false hash_pattern submitted = true
    /\ truthy (nistLatest (vars s)) && before (NTPEpoch s) (nistLatestEpoch (vars s)) = false
    /\ amqpChannel s = true
    /\ balance_checked BALANCE_CHECK_KEY_PREFIX addr s = (s1, true)
    /\ authenticate findOne hmac_sha256_hex segs addr s1 = (s2, inr regNode)
    /\ respond submitted regNode s2 = (s3, Ok resp)
    /\ sendToQueue_fault (replies_of s3) = None
    /\ s' = sendToQueue {| queue_name := RMQ_WORK_OUT_AGG_QUEUE;
                           hashObj_hash_id := hash_id resp;
                           hashObj_hash := hash resp;
                           hashObj_nist := nist resp;
                           queued_persistent := true |} s3.
Proof.
  unfold postHashV1Async.
  destruct (String.eqb (contentType req) "application/json") eqn:Ec; [|discriminate].
  cbn [negb].
  destruct (credentials (post_headers req)) as [[error message]|[segs addr]]; [discriminate|].
  destruct (params req !! "hash"%string) as [[| | | |submitted| |]|]; try discriminate.
  destruct (test false hash_pattern submitted) eqn:Eh; [|discriminate]. cbn [negb].
  destruct (truthy (nistLatest (vars s)) && before (NTPEpoch s) (nistLatestEpoch (vars s)))
    eqn:En; [discriminate|].
  destruct (amqpChannel s) eqn:Ea; [|discriminate]. cbn [negb].
  destruct (balance_checked BALANCE_CHECK_KEY_PREFIX addr s) as [s1 [|]] eqn:Eb; [|discriminate].
  destruct (authenticate findOne hmac_sha256_hex segs addr s1) as [s2 [[error message]|regNode]]
    eqn:Eauth; [discriminate|].
  destruct (respond submitted regNode s2) as [s3 [responseObj|e]] eqn:Er; [|discriminate].
  destruct (sendToQueue_fault (replies_of s3)) eqn:Eq; [discriminate|].
  intros [= <- <-]. apply String.eqb_eq in Ec.
  exists segs, addr, submitted, s1, s2, s3, regNode. repeat split; assumption.
Qed.

(** Whatever the answer, the handler sends nothing that it does not accept. *)
Lemma post_sent req (s : state uuid_state) :
  (forall resp, (post_handler req s).2 <> Ok (Accepted resp)) ->
  sent (post_handler req s).1 = sent s.
Proof.
  unfold postHashV1Async.
  destruct (negb (String.eqb (contentType req) "application/json")); [reflexivity|].
  destruct (credentials (post_headers req)) as [[error message]|[segs addr]]; [reflexivity|].
  destruct (params req !! "hash"%string) as [[| | | |submitted| |]|]; try reflexivity.
  destruct (negb (test false hash_pattern submitted)); [reflexivity|].
  destruct (truthy (nistLatest (vars s)) && before (NTPEpoch s) (nistLatestEpoch (vars s)));
    [reflexivity|].
  destruct (negb (amqpChannel s)); [reflexivity|].
  destruct (balance_checked_kept addr s) as [Hb _].
  destruct (balance_checked BALANCE_CHECK_KEY_PREFIX addr s) as [s1 [|]]; cbn [fst] in Hb;
    [|intros _; apply Hb].
  pose proof (authenticate_kept segs addr s1) as Ha.
  destruct (authenticate findOne hmac_sha256_hex segs addr s1) as [s2 [[error message]|regNode]];
    cbn [fst] in Ha; [intros _; cbn [fst]; rewrite (proj2 (proj2 (proj2 (proj2 (proj2 (proj2 (proj2 Ha))))))); apply Hb|].
  pose proof (respond_sent submitted regNode s2) as Hr.
  destruct (respond submitted regNode s2) as [s3 [responseObj|e]]; cbn [fst] in Hr.
  - destruct (sendToQueue_fault (replies_of s3)).
    + intros _. cbn [fst print sent].
      rewrite Hr, (proj2 (proj2 (proj2 (proj2 (proj2 (proj2 (proj2 Ha))))))). apply Hb.
    + intros H. contradiction (H responseObj). reflexivity.
  - intros _. cbn [fst].
    rewrite Hr, (proj2 (proj2 (proj2 (proj2 (proj2 (proj2 (proj2 Ha))))))). apply Hb.
Qed.

(** X18.  Whatever the request and the state, the handler of [POST /hash]
    sends to the queue exactly when it accepts: then one persistent message
    on [RMQ_WORK_OUT_AGG_QUEUE] with the [hash_id], [hash] and [nist] of the
    response, where the hash is the lower case of the submitted string, made
    of 40 to 128 hexadecimal digits, an even number of them, and the NIST
    value is [nistLatest] (the empty string when there is none).  In every
    other case, an exception of the uuid generator included, nothing is
    sent. *)
Theorem accepted_hash_is_queued (req : post) (s : state uuid_state) :
  let r := post_handler req s in
  match r.2 with
  | Ok (Accepted resp) =>
      exists submitted,
        params req !! "hash"%string = Some (VStr submitted)
        /\ all is_hex submitted = true
        /\ Nat.even (String.length submitted) = true
        /\ (40 <= String.length submitted <= 128)%nat
        /\ hash resp = toLowerCase submitted
        /\ all is_lower_hex (hash resp) = true
        /\ nist resp = (if truthy (nistLatest (vars s)) then text (nistLatest (vars s))
                        else EmptyString)
        /\ sent r.1 = sent s ++ [ {| queue_name := RMQ_WORK_OUT_AGG_QUEUE;
                                     hashObj_hash_id := hash_id resp;
                                     hashObj_hash := hash resp;
                                     hashObj_nist := nist resp;
                                     queued_persistent := true |} ]
  | _ => sent r.1 = sent s
  end.
Proof.
  intros r. subst r.
  destruct (post_handler req s) as [s' [[error message|resp]|e]] eqn:E; cbn [fst snd].
  - pose proof (post_sent req s) as H. rewrite E in H. apply H. intros resp. discriminate.
  - apply post_accepted in E
      as (segs & addr & submitted & s1 & s2 & s3 & regNode
          & _ & _ & Hp & Hh & _ & _ & Hb & Ha & Hr & _ & ->).
    apply hash_pattern_spec in Hh as (Hx & He & Hl).
    apply respond_ok in Hr as (Hhash & Hn & _ & _ & Hv & _ & Hs & _).
    pose proof (balance_checked_kept addr s) as [K1 _]. rewrite Hb in K1.
    pose proof (authenticate_kept segs addr s1) as K2. rewrite Ha in K2.
    pose proof (kept_trans _ _ _ K1 K2) as (Kv & _ & _ & _ & _ & _ & _ & Ks).
    cbn [fst] in Kv, Ks.
    exists submitted. rewrite Hhash, all_lower_hex. repeat split; try assumption; try lia.
    + rewrite Hn, Kv. reflexivity.
    + cbn [sendToQueue sent]. rewrite Hs, Ks. reflexivity.
  - pose proof (post_sent req s) as H. rewrite E in H. apply H. intros resp. discriminate.
Qed.

Lemma from_table_node a (s s' : state uuid_state) regNode :
  from_table findOne a s = (s', inr regNode) ->
  exists r, regNode = Row r /\ findOne a = inr (Some r).
Proof.
  unfold from_table. destruct (findOne a) as [e|[r|]]; try discriminate.
  intros [= _ <-]. eauto.
Qed.

Lemma from_table_refusal a (s s' : state uuid_state) error message :
  from_table findOne a s = (s', inl (error, message)) ->
  error = InternalServerError \/ error = InvalidCredentialsError.
Proof.
  unfold from_table. destruct (findOne a) as [e|[r|]]; intros [= _ <- _]; auto.
Qed.

Lemma lookup_node a (s s' : state uuid_state) regNode :
  lookup findOne a s = (s', inr regNode) ->
  (exists fields, regNode = Cached fields /\ hgetall_fault (replies_of s) = None
                  /\ live s (cache_key a) = Some fields /\ fields <> ∅ /\ s' = s)
  \/ (exists r, regNode = Row r /\ findOne a = inr (Some r)).
Proof.
  unfold lookup. destruct (hgetall_fault (replies_of s)) eqn:Eh.
  { intros H. right. exact (from_table_node _ _ _ _ H). }
  destruct (live s (cache_key a)) as [fields|] eqn:El.
  2:{ intros H. right. exact (from_table_node _ _ _ _ H). }
  destruct (decide (fields = ∅)) as [->|Hn].
  { intros H. right. exact (from_table_node _ _ _ _ H). }
  intros [= <- <-]. left. exists fields. auto.
Qed.

Lemma lookup_refusal a (s s' : state uuid_state) error message :
  lookup findOne a s = (s', inl (error, message)) ->
  error = InternalServerError \/ error = InvalidCredentialsError.
Proof.
  unfold lookup. destruct (hgetall_fault (replies_of s)).
  { apply from_table_refusal. }
  destruct (live s (cache_key a)) as [fields|]; [|apply from_table_refusal].
  destruct (decide (fields = ∅)); [apply from_table_refusal | discriminate].
Qed.

Lemma authenticate_node segs a (s s' : state uuid_state) regNode :
  authenticate findOne hmac_sha256_hex segs a s = (s', inr regNode) ->
  exists key data,
    node_hmacKey regNode = Some key /\ node_tntAddr regNode = Some data
    /\ nth 1 segs EmptyString = hmac_sha256_hex key data
    /\ lookup findOne a s = (s', inr regNode).
Proof.
  unfold authenticate.
  destruct (lookup findOne a s) as [s1 [[error message]|n]]; [discriminate|].
  destruct (node_hmacKey n) as [key|] eqn:Ek; [|discriminate].
  destruct (node_tntAddr n) as [data|] eqn:Ed; [|discriminate].
  destruct (String.eqb (nth 1 segs EmptyString) (hmac_sha256_hex key data)) eqn:E;
    [|discriminate].
  cbn [negb]. intros [= <- <-]. apply String.eqb_eq in E. eauto 10.
Qed.

Lemma authenticate_refusal segs a (s s' : state uuid_state) error message :
  authenticate findOne hmac_sha256_hex segs a s = (s', inl (error, message)) ->
  error = InternalServerError \/ error = InvalidCredentialsError.
Proof.
  unfold authenticate. pose proof (lookup_refusal a s) as H.
  destruct (lookup findOne a s) as [s1 [[error' message']|n]].
  { intros [= _ <- _]. exact (H _ _ _ eq_refl). }
  destruct (node_hmacKey n), (node_tntAddr n); try (intros [= _ <- _]; auto).
  destruct (negb _); [intros [= _ <- _]; auto | discriminate].
Qed.

Lemma live_same (s s' : state uuid_state) key :
  hashes s' = hashes s -> expires_at s' = expires_at s -> now s' = now s ->
  live s' key = live s key.
Proof. unfold live. intros -> -> ->. reflexivity. Qed.

(** The NIST value of an accepted hash, and the check of the clock. *)
Lemma accepted_nist req (s : state uuid_state) :
  match (post_handler req s).2 with
  | Ok (Accepted resp) =>
      nist resp = (if truthy (nistLatest (vars s)) then text (nistLatest (vars s))
                   else EmptyString)
      /\ truthy (nistLatest (vars s)) && before (NTPEpoch s) (nistLatestEpoch (vars s))
         = false
  | _ => True
  end.
Proof.
  destruct (post_handler req s) as [s' [[error message|resp]|e]] eqn:E; cbn [snd]; try exact I.
  apply post_accepted in E
    as (segs & addr & submitted & s1 & s2 & s3 & regNode
        & _ & _ & _ & _ & Hn & _ & Hb & Ha & Hr & _).
  split; [|exact Hn].
  apply respond_ok in Hr as (_ & Hnist & _).
  pose proof (balance_checked_kept addr s) as [K1 _]. rewrite Hb in K1.
  pose proof (authenticate_kept segs addr s1) as K2. rewrite Ha in K2.
  pose proof (kept_trans _ _ _ K1 K2) as (Kv & _). cbn [fst] in Kv.
  rewrite Hnist, Kv. reflexivity.
Qed.

(** X19.  A hash is accepted only from a JSON request, on an established
    channel, whose [authorization] header is the word bearer, in any case,
    one blank, and the HMAC of the address of a Node under its key, the Node
    being the one cached for the lower case of the [tnt-address] header (when
    the cache answers and holds it, unexpired) or else the one the table
    holds for it. *)
Theorem accepted_post_is_authenticated (req : post) (s : state uuid_state)
        (resp : response float) :
  (post_handler req s).2 = Ok (Accepted resp) ->
  contentType req = "application/json"%string
  /\ amqpChannel s = true
  /\ exists scheme given key data,
      header (post_headers req) "authorization"
      = Some (scheme +:+ " " +:+ hmac_sha256_hex key data)
      /\ toLowerCase scheme = "bearer"%string
      /\ header (post_headers req) "tnt-address" = Some given
      /\ test false tnt_address_pattern (toLowerCase given) = true
      /\ ((hgetall_fault (replies_of s) = None
           /\ exists fields,
               live s (cache_key (toLowerCase given)) = Some fields
               /\ fields !! "hmacKey"%string = Some key
               /\ fields !! "tntAddr"%string = Some data)
          \/ (exists r, findOne (toLowerCase given) = inr (Some r)
                        /\ key = hmacKey r /\ data = tntAddr r)).
Proof.
  destruct (post_handler req s) as [s' r] eqn:E. cbn [snd]. intros ->.
  apply post_accepted in E
    as (segs & addr & submitted & s1 & s2 & s3 & regNode
        & Hc & Hcr & _ & _ & _ & Hch & Hb & Ha & _).
  split; [exact Hc|]. split; [exact Hch|].
  apply credentials_accept in Hcr as (scheme & mac & given & Hauth & -> & Hbe & Ht & Hp & ->).
  apply authenticate_node in Ha as (key & data & Hk & Hd & Hm & Hl).
  cbn [nth] in Hm. subst mac.
  exists scheme, given, key, data. rewrite <- tnt_address_lower_case.
  repeat split; try assumption.
  pose proof (balance_checked_kept (toLowerCase given) s) as [K [Kh Ke]].
  rewrite Hb in K, Kh, Ke. cbn [fst] in K, Kh, Ke.
  destruct K as (_ & _ & _ & Kn & _ & _ & Kr & _).
  apply lookup_node in Hl as [(fields & -> & Hf & Hlive & _)|(r & -> & Hr)].
  - left. rewrite Kr in Hf. rewrite (live_same _ _ _ Kh Ke Kn) in Hlive.
    split; [exact Hf|]. exists fields. auto.
  - right. exists r. cbn in Hk, Hd. injection Hk as <-. injection Hd as <-. auto.
Qed.

(** X20.  With the NIST value of a pulse in [nistLatest] (the pulse has a
    valid time that is not zero), a hash is accepted only when the clock,
    rounded up to the second and one second more, has reached the epoch taken
    from the pulse: its time in whole seconds, or its time in milliseconds
    if that is at most 10^12.  The response then carries the NIST value. *)
Theorem accepted_post_after_nist_time (req : post) (s : state uuid_state)
        (resp : response float) (p : pulse) (t : Z) (v : Nist.vars) :
  vars s = updateNistVars (Some (timeAndSeed p)) v ->
  timeStamp p = Some t -> Z.abs t <= 8640000000000000 -> t <> 0 ->
  (post_handler req s).2 = Ok (Accepted resp) ->
  nist resp = timeAndSeed p
  /\ (if 1000000000000 <? t then t / 1000 else t) <= - (- now s / 1000) + 1.
Proof.
  intros Hv Ht Hr Hz.
  destruct (post_handler req s) as [s' r] eqn:E. cbn [snd]. intros ->.
  pose proof (accepted_nist req s) as Hn. rewrite E in Hn. cbn [fst snd] in Hn.
  destruct Hn as [Hn Hgate].
  assert (timeStamp p = new_Date (Num t)) as Hd.
  { rewrite Ht. cbn [new_Date]. apply Z.leb_le in Hr. rewrite Hr. reflexivity. }
  pose proof (updateNistVars_timeAndSeed p (Num t) v Hd) as Hu. cbv zeta in Hu.
  rewrite Ht, <- Hv in Hu. apply Z.eqb_neq in Hz. rewrite Hz in Hu. destruct Hu as [Hl He].
  assert (truthy (nistLatest (vars s)) = true) as Htr.
  { rewrite Hl. unfold timeAndSeed. rewrite Ht. cbn [time_text truthy].
    rewrite toLowerCase_append. destruct (toLowerCase (decimal t)) eqn:Ed.
    - apply (f_equal String.length) in Ed. rewrite toLowerCase_length in Ed.
      pose proof (decimal_nonempty t). cbn in Ed. lia.
    - reflexivity. }
  rewrite Htr, Hl in Hn. split; [exact Hn|].
  rewrite Htr, He in Hgate. cbn [andb before lt gt] in Hgate.
  unfold NTPEpoch in Hgate. apply Z.ltb_ge in Hgate. exact Hgate.
Qed.

Lemma cached_fields_nonempty r : cached_fields r <> ∅.
Proof. unfold cached_fields. apply insert_non_empty. Qed.

Lemma cached_fields_lookup r :
  cached_fields r !! "hmacKey"%string = Some (hmacKey r)
  /\ cached_fields r !! "tntAddr"%string = Some (tntAddr r).
Proof. split; reflexivity. Qed.

(** The state after a row was read from the table and cached. *)
Lemma from_table_caches a (s : state uuid_state) r :
  hmset_fault (replies_of s) = None -> expire_fault (replies_of s) = None ->
  live s (cache_key a) = None -> findOne a = inr (Some r) ->
  from_table findOne a s
  = (expire (cache_key a) (60 * 60 * 24) (hmset (cache_key a) (cached_fields r) s),
     inr (Row r))
  /\ hashes (from_table findOne a s).1 !! cache_key a = Some (cached_fields r)
  /\ expires_at (from_table findOne a s).1 !! cache_key a = Some (now s + 86400000).
Proof.
  intros Hm He Hl Hf. unfold from_table. rewrite Hf, Hm.
  change (replies_of (hmset ?k ?f s)) with (replies_of s). rewrite He.
  split; [reflexivity|].
  cbn [fst]. unfold expire, hmset. cbn [hashes expires_at now].
  unfold live at 2. cbn [hashes expires_at now]. rewrite Hl.
  rewrite lookup_insert_eq, lookup_delete_eq.
  split; [|rewrite lookup_insert_eq; reflexivity].
  cbn. rewrite (right_id ∅ (∪)). reflexivity.
Qed.

(** X21.  A Node that was read from the table (the cache held nothing for
    its address, and the store answered) is cached: for the next 24 hours, in
    any state with the same cache whose [hgetall] answers, the same
    credentials are authenticated from the cached fields whatever the table
    holds by then; from 24 hours on, the table is read again. *)
Theorem cached_node_authenticates (segs : list string) (a : string)
        (s later : state uuid_state) (r : RegisteredNode) :
  hgetall_fault (replies_of s) = None -> hmset_fault (replies_of s) = None ->
  expire_fault (replies_of s) = None ->
  live s (cache_key a) = None -> findOne a = inr (Some r) ->
  nth 1 segs EmptyString = hmac_sha256_hex (hmacKey r) (tntAddr r) ->
  let s' := (authenticate findOne hmac_sha256_hex segs a s).1 in
  hashes later = hashes s' -> expires_at later = expires_at s' ->
  hgetall_fault (replies_of later) = None ->
  (authenticate findOne hmac_sha256_hex segs a s).2 = inr (Row r)
  /\ (now later < now s + 86400000 ->
      authenticate findOne' hmac_sha256_hex segs a later
      = (later, inr (Cached (cached_fields r))))
  /\ (now s + 86400000 <= now later ->
      lookup findOne' a later = from_table findOne' a later).
Proof.
  intros Hg Hm He Hl Hf Hmac s' Hh Hx Hg'.
  destruct (from_table_caches a s r Hm He Hl Hf) as (Eft & Eh & Ex).
  assert (lookup findOne a s = from_table findOne a s) as El
    by (unfold lookup; rewrite Hg, Hl; reflexivity).
  assert (authenticate findOne hmac_sha256_hex segs a s
          = ((from_table findOne a s).1, inr (Row r))) as Ea.
  { unfold authenticate. rewrite El, Eft. cbn [node_hmacKey node_tntAddr fst].
    rewrite Hmac, String.eqb_refl. reflexivity. }
  subst s'. rewrite Ea in Hh, Hx |- *. cbn [fst snd] in *.
  split; [reflexivity|].
  assert (hashes later !! cache_key a = Some (cached_fields r)) as Eh' by (rewrite Hh; exact Eh).
  assert (expires_at later !! cache_key a = Some (now s + 86400000)) as Ex'
    by (rewrite Hx; exact Ex).
  split.
  - intros Hnow. unfold authenticate, lookup. rewrite Hg'. unfold live. rewrite Eh', Ex'.
    assert ((now s + 86400000 <=? now later) = false) as -> by (apply Z.leb_gt; lia).
    destruct (decide (cached_fields r = ∅)) as [E|_]; [contradiction (cached_fields_nonempty r E)|].
    cbn [node_hmacKey node_tntAddr]. destruct (cached_fields_lookup r) as [-> ->].
    rewrite Hmac, String.eqb_refl. reflexivity.
  - intros Hnow. unfold lookup. rewrite Hg'. unfold live. rewrite Eh', Ex'.
    assert ((now s + 86400000 <=? now later) = true) as -> by (apply Z.leb_le; lia).
    reflexivity.
Qed.

(** X22.  For a request that passed the checks of its content type,
    credentials, hash, clock and channel: when the balance check is enforced,
    the store answers and holds no balance key for the address, the handler
    answers [NotAuthorizedError] and changes nothing; in every other case,
    the store failing on the key included, it never answers
    [NotAuthorizedError]. *)
Theorem balance_refusal (req : post) (s : state uuid_state)
        (segs : list string) (a submitted : string) :
  contentType req = "application/json"%string ->
  credentials (post_headers req) = inr (segs, a) ->
  params req !! "hash"%string = Some (VStr submitted) ->
  test false hash_pattern submitted = true ->
  truthy (nistLatest (vars s)) && before (NTPEpoch s) (nistLatestEpoch (vars s)) = false ->
  amqpChannel s = true ->
  let absent := enforcePrivateNodeStake s = true /\ get_fault (replies_of s) = None
                /\ strings s !! (BALANCE_CHECK_KEY_PREFIX +:+ ":" +:+ a) = None in
  (absent ->
   post_handler req s
   = (s, Ok (Refused NotAuthorizedError
                     ("TNT address " +:+ a +:+ " does not have the minimum balance of "
                      +:+ minTNTBalanceNeeded +:+ " TNT for Node operation"))))
  /\ (~ absent ->
      forall message, (post_handler req s).2 <> Ok (Refused NotAuthorizedError message)).
Proof.
  intros Hc Hcr Hp Hh Hn Ha absent. unfold postHashV1Async.
  rewrite Hc, Hcr, Hp, Hh, Hn, Ha. cbn [String.eqb negb].
  change (String.eqb "application/json" "application/json") with true. cbn [negb].
  split.
  - intros (He & Hg & Hs). unfold balance_checked. rewrite He, Hg, Hs.
    rewrite bool_decide_eq_false_2 by (intros [x Hx]; discriminate Hx). reflexivity.
  - intros Hnot message.
    destruct (balance_checked BALANCE_CHECK_KEY_PREFIX a s) as [s1 [|]] eqn:Eb.
    + pose proof (authenticate_refusal segs a s1) as Hr.
      destruct (authenticate findOne hmac_sha256_hex segs a s1)
        as [s2 [[error message']|regNode]].
      * cbn [snd]. intros [= -> _]. destruct (Hr _ _ _ eq_refl); discriminate.
      * destruct (respond submitted regNode s2) as [s3 [responseObj|e]]; [|discriminate].
        destruct (sendToQueue_fault (replies_of s3)); discriminate.
    + exfalso. apply Hnot. unfold balance_checked in Eb.
      destruct (enforcePrivateNodeStake s); [|discriminate].
      destruct (get_fault (replies_of s)); [discriminate|].
      injection Eb as _ Eb. apply bool_decide_eq_false in Eb.
      repeat split. destruct (strings s !! _) eqn:E; [|reflexivity].
      contradiction Eb. eauto.
Qed.

(** X23.  For a JSON request with accepted credentials whose [hash] is a
    string: if the string is not made of hexadecimal digits, or its length is
    odd, below 40 or above 128, the handler answers [InvalidArgumentError]
    with 'invalid JSON body: bad hash submitted' and changes nothing;
    otherwise it never answers an [InvalidArgumentError]. *)
Theorem bad_hash_refused (req : post) (s : state uuid_state)
        (segs : list string) (a submitted : string) :
  contentType req = "application/json"%string ->
  credentials (post_headers req) = inr (segs, a) ->
  params req !! "hash"%string = Some (VStr submitted) ->
  let well_formed := all is_hex submitted = true
                     /\ Nat.even (String.length submitted) = true
                     /\ (40 <= String.length submitted <= 128)%nat in
  (~ well_formed ->
   post_handler req s
   = (s, Ok (Refused InvalidArgumentError "invalid JSON body: bad hash submitted")))
  /\ (well_formed ->
      forall message, (post_handler req s).2 <> Ok (Refused InvalidArgumentError message)).
Proof.
  intros Hc Hcr Hp well_formed. unfold postHashV1Async.
  rewrite Hc, Hcr, Hp.
  change (String.eqb "application/json" "application/json") with true. cbn [negb].
  split.
  - intros Hw. destruct (test false hash_pattern submitted) eqn:Eh; [|reflexivity].
    contradiction Hw. apply hash_pattern_spec, Eh.
  - intros Hw message. apply hash_pattern_spec in Hw. rewrite Hw. cbn [negb].
    destruct (truthy _ && before _ _); [discriminate|].
    destruct (negb (amqpChannel s)); [discriminate|].
    destruct (balance_checked BALANCE_CHECK_KEY_PREFIX a s) as [s1 [|]]; [|discriminate].
    pose proof (authenticate_refusal segs a s1) as Hr.
    destruct (authenticate findOne hmac_sha256_hex segs a s1)
      as [s2 [[error message']|regNode]].
    + cbn [snd]. intros [= -> _]. destruct (Hr _ _ _ eq_refl); discriminate.
    + destruct (respond submitted regNode s2) as [s3 [responseObj|e]]; [|discriminate].
      destruct (sendToQueue_fault (replies_of s3)); discriminate.
Qed.

Lemma from_table_row a (s : state uuid_state) r :
  findOne a = inr (Some r) -> (from_table findOne a s).2 = inr (Row r).
Proof. intros H. unfold from_table. rewrite H. reflexivity. Qed.

Lemma lookup_row a (s : state uuid_state) r :
  findOne a = inr (Some r) -> live s (cache_key a) = None ->
  (lookup findOne a s).2 = inr (Row r).
Proof.
  intros Hf Hl. unfold lookup. destruct (hgetall_fault (replies_of s));
    [|rewrite Hl]; apply from_table_row, Hf.
Qed.

Lemma authenticate_row segs a (s : state uuid_state) r :
  findOne a = inr (Some r) -> live s (cache_key a) = None ->
  nth 1 segs EmptyString = hmac_sha256_hex (hmacKey r) (tntAddr r) ->
  authenticate findOne hmac_sha256_hex segs a s
  = ((authenticate findOne hmac_sha256_hex segs a s).1, inr (Row r)).
Proof.
  intros Hf Hl Hm. unfold authenticate. pose proof (lookup_row a s r Hf Hl) as H.
  destruct (lookup findOne a s) as [s' n]. cbn [snd] in H. subst n.
  cbn [node_hmacKey node_tntAddr]. rewrite Hm, String.eqb_refl. reflexivity.
Qed.

(** X24.  A well-formed hash from a registered Node is accepted: for a JSON
    request with the HMAC of a Node of the table (no balance check, nothing
    cached for the address), a hash of 40 to 128 hexadecimal digits, an even
    number of them, a clock that has reached the NIST epoch, an established
    channel, a uuid generator and a queue that answer, the handler accepts
    with the response made of the generated hash id, the hash in lower case,
    the NIST value, the submission time and hints, and the credit of the
    Node, and sends that hash id, hash and NIST value to the queue. *)
Theorem registered_post_is_accepted (req : post) (s : state uuid_state)
        (scheme given submitted hashId : string) (r : RegisteredNode) (u : uuid_state) :
  contentType req = "application/json"%string ->
  header (post_headers req) "authorization"
  = Some (scheme +:+ " " +:+ hmac_sha256_hex (hmacKey r) (tntAddr r)) ->
  toLowerCase scheme = "bearer"%string ->
  all (fun c => negb (Ascii.eqb c " ")) (hmac_sha256_hex (hmacKey r) (tntAddr r)) = true ->
  header (post_headers req) "tnt-address" = Some given ->
  test true tnt_address_pattern given = true ->
  params req !! "hash"%string = Some (VStr submitted) ->
  all is_hex submitted = true -> Nat.even (String.length submitted) = true ->
  (40 <= String.length submitted <= 128)%nat ->
  truthy (nistLatest (vars s)) && before (NTPEpoch s) (nistLatestEpoch (vars s)) = false ->
  amqpChannel s = true ->
  enforcePrivateNodeStake s = false ->
  live s (cache_key (toLowerCase given)) = None ->
  findOne (toLowerCase given) = inr (Some r) ->
  let hashNIST := if truthy (nistLatest (vars s)) then text (nistLatest (vars s))
                  else EmptyString in
  uuidv1 (now s) (1 :: blake2s (hashStr (now s) (toLowerCase submitted) hashNIST)) (uuids s)
  = (u, Ok hashId) ->
  sendToQueue_fault (replies_of s) = None ->
  let responseObj :=
    {| hash_id := hashId;
       hash := toLowerCase submitted;
       nist := hashNIST;
       submitted_at := utils_formatDateISO8601NoMs (now s);
       hints := generateProcessingHints utils_formatDateISO8601NoMs utils_addMinutes
                                        utils_addSeconds start_of_local_hour (now s);
       tnt_credit_balance := parseFloat (Some (tntCredit r)) |} in
  (post_handler req s).2 = Ok (Accepted responseObj)
  /\ sent (post_handler req s).1
     = sent s ++ [ {| queue_name := RMQ_WORK_OUT_AGG_QUEUE;
                      hashObj_hash_id := hashId;
                      hashObj_hash := toLowerCase submitted;
                      hashObj_nist := hashNIST;
                      queued_persistent := true |} ].
Proof.
  intros Hc Ha Hb Hsp Ht Hp Hh Hx He Hl Hn Hch Hen Hlive Hf hashNIST Hu Hq responseObj.
  assert (header (post_headers req) "authorization"
          = Some (scheme +:+ String " " (hmac_sha256_hex (hmacKey r) (tntAddr r))))
    as Ha' by exact Ha.
  assert (test false hash_pattern submitted = true) as Hpat
    by (apply hash_pattern_spec; auto).
  set (a := toLowerCase given) in *.
  set (segs := [scheme; hmac_sha256_hex (hmacKey r) (tntAddr r)]).
  assert (authenticate findOne hmac_sha256_hex segs a s
          = ((authenticate findOne hmac_sha256_hex segs a s).1, inr (Row r))) as Eauth
    by (apply authenticate_row; [exact Hf | exact Hlive | reflexivity]).
  pose proof (authenticate_kept segs a s) as K.
  set (s2 := (authenticate findOne hmac_sha256_hex segs a s).1) in *.
  destruct K as (Kv & _ & _ & Kn & Ku & _ & Kr & Ks).
  unfold postHashV1Async.
  rewrite Hc, (credentials_of _ _ _ _ Ha' Hb Hsp Ht Hp), Hh, Hpat, Hn, Hch.
  change (String.eqb "application/json" "application/json") with true. cbn [negb].
  unfold balance_checked. rewrite Hen. fold a segs. rewrite Eauth.
  unfold generatePostHashResponse. rewrite Kv, Kn, Ku. fold hashNIST. rewrite Hu.
  change (replies_of (with_uuids u s2)) with (replies_of s2). rewrite Kr, Hq.
  cbn [fst snd sendToQueue sent with_uuids hash_id hash nist]. rewrite Ks.
  split; reflexivity.
Qed.

End HashesFacts.

(** ** The text that a hash id verifies *)

Section HashStrFacts.
Import Stdlib.Strings.Ascii Text Number Nist Api.

Abbreviation no_colon := (all (fun c => negb (Ascii.eqb c ":"))).

Lemma plain_no_colon s : all plain s = true -> no_colon s = true.
Proof.
  induction s as [|c s IH]; [reflexivity|]. cbn [all]. intros H.
  apply andb_true_iff in H as [Hc H]. destruct (plain_facts c Hc) as [_ ->].
  rewrite (IH H). reflexivity.
Qed.

Lemma lower_hex_no_colon s : all is_lower_hex s = true -> no_colon s = true.
Proof.
  assert (forall c, is_lower_hex c = true -> negb (Ascii.eqb c ":") = true) as Hc.
  { intros c. destruct c as [[] [] [] [] [] [] [] []]; vm_compute; intros E;
      try reflexivity; discriminate E. }
  induction s as [|c s IH]; [reflexivity|]. cbn [all]. intros H.
  apply andb_true_iff in H as [H1 H]. rewrite (Hc c H1), (IH H). reflexivity.
Qed.

Lemma colon_inside x y : no_colon (x +:+ String ":" y) = false.
Proof.
  induction x as [|c x IH]; [reflexivity|].
  rewrite string_append_cons. cbn [all]. rewrite IH. apply andb_false_r.
Qed.

(** A text up to its first colon, and the rest. *)
Lemma cut_first x x' r r' :
  no_colon x = true -> no_colon x' = true ->
  x +:+ String ":" r = x' +:+ String ":" r' -> x = x' /\ r = r'.
Proof.
  revert x'. induction x as [|c x IH]; intros [|c' x'] Hx Hx';
    rewrite ?string_append_nil, ?string_append_cons; intros E.
  - injection E as <-. auto.
  - injection E as <- _. discriminate Hx'.
  - injection E as -> _. discriminate Hx.
  - injection E as <- E. cbn [all] in Hx, Hx'.
    apply andb_true_iff in Hx as [_ Hx]. apply andb_true_iff in Hx' as [_ Hx'].
    destruct (IH x' Hx Hx' E) as [-> ->]. auto.
Qed.

(** A text up to its last colon. *)
Lemma cut_last n n' d d' :
  no_colon d = true -> no_colon d' = true ->
  n +:+ String ":" d = n' +:+ String ":" d' -> n = n'.
Proof.
  revert n'. induction n as [|c n IH]; intros [|c' n'] Hd Hd';
    rewrite ?string_append_nil, ?string_append_cons; intros E.
  - reflexivity.
  - injection E as _ E. rewrite E, colon_inside in Hd. discriminate Hd.
  - injection E as _ E. rewrite <- E, colon_inside in Hd'. discriminate Hd'.
  - injection E as <- E. rewrite (IH n' Hd Hd' E). reflexivity.
Qed.

Lemma decimal_inj z z' : decimal z = decimal z' -> z = z'.
Proof.
  assert (forall z, NilZero.int_of_string (decimal z) = Some (Z.to_int z)) as H.
  { intros x. unfold decimal. apply NilZero.isi; destruct x as [|p|p]; try discriminate;
      cbn [Z.to_int]; intros [= E]; exact (to_uint_nonnil p E). }
  intros E. apply (f_equal NilZero.int_of_string) in E. rewrite !H in E.
  injection E as E. exact (DecimalZ.to_int_inj _ _ E).
Qed.

Lemma hashStr_unfold t h n :
  hashStr t h n
  = decimal t +:+ String ":" (decimal (Z.of_nat (String.length (decimal t)))
    +:+ String ":" (h +:+ String ":" (decimal (Z.of_nat (String.length h))
    +:+ String ":" (n +:+ String ":" (decimal (Z.of_nat (String.length n))))))).
Proof.
  unfold hashStr, join. cbn [fold_left].
  rewrite !string_append_assoc.
  repeat (rewrite string_append_cons, string_append_nil). reflexivity.
Qed.

(** X25.  The text that the Node ID of a hash id verifies tells the time, the
    hash and the NIST value apart: two texts are equal only for the same time,
    the same hash and the same NIST value (the hashes being in lower-case
    hexadecimal digits, as the handler makes them). *)
Theorem hashStr_injective (t t' : Z) (h h' n n' : string) :
  all is_lower_hex h = true -> all is_lower_hex h' = true ->
  hashStr t h n = hashStr t' h' n' -> t = t' /\ h = h' /\ n = n'.
Proof.
  intros Hh Hh'. rewrite !hashStr_unfold. intros E.
  pose proof (fun z => plain_no_colon _ (decimal_plain z)) as Hd.
  apply cut_first in E as [Et E]; [|apply Hd ..].
  apply cut_first in E as [_ E]; [|apply Hd ..].
  apply cut_first in E as [Eh E]; [|apply lower_hex_no_colon; assumption ..].
  apply cut_first in E as [_ E]; [|apply Hd ..].
  apply cut_last in E; [|apply Hd ..].
  apply decimal_inj in Et. auto.
Qed.

End HashStrFacts.

(** ** The script that transfers tokens *)

Section TransferFacts.
Import Stdlib.Strings.Ascii Text Number TransferTokens.

Variable token_loaded : bool.
Variable sendTokens : string -> number -> exn + string.

(** X26.  The amount that the script transfers, when the token is loaded: for
    an amount text that starts with the decimal digits of an integer of at
    most 2^53 in absolute value (a minus sign included), whatever follows that
    is no digit (and no [x]), [sendTokens] is called once, with that integer:
    [1e18] transfers one base unit.  An integer beyond 2^53 is rounded to a
    double: 2^53 + 1 is transferred as 2^53.  With another number of
    arguments than two the script transfers nothing and exits with -1. *)
Theorem transferTokens_amount (node script toAddr rest : string) (z : Z) :
  token_loaded = true -> Z.abs z <= 2 ^ 53 -> ends_number rest = true ->
  transfers (transferTokens token_loaded sendTokens [node; script; toAddr; decimal z +:+ rest])
  = [(toAddr, Int z)]
  /\ transfers (transferTokens token_loaded sendTokens
                               [node; script; toAddr; decimal (2 ^ 53 + 1)])
     = [(toAddr, Int (2 ^ 53))]
  /\ forall argv, length argv <> 4%nat ->
       transferTokens token_loaded sendTokens argv
       = {| console := [InvalidNumberOfParams; Usage]; exit_code := Some (-1);
            transfers := [] |}.
Proof.
  intros Ht Hz Hr. split; [|split].
  - unfold transferTokens. rewrite Ht. cbn [length Nat.eqb negb nth].
    rewrite (parseInt_decimal_rest z rest Hr).
    assert (to_double z = Int z) as ->.
    { unfold to_double. apply Z.leb_le in Hz. rewrite Hz. reflexivity. }
    destruct (sendTokens toAddr (Int z)); reflexivity.
  - unfold transferTokens. rewrite Ht. cbn [length Nat.eqb negb nth].
    assert (parseInt (decimal (2 ^ 53 + 1)) = Int (2 ^ 53)) as -> by (vm_compute; reflexivity).
    destruct (sendTokens toAddr (Int (2 ^ 53))); reflexivity.
  - intros argv Hl. unfold transferTokens. apply Nat.eqb_neq in Hl. rewrite Hl. reflexivity.
Qed.

End TransferFacts.

(** ** The further statements at the concrete deployment *)

Lemma composed_message_decision_witness :
  composes demo_uuidTime demo_parse (demo_msg "payload" "cal")
           (demo_world demo_unroutable demo_subscription) (VRef 19%nat) (VRef 20%nat)
           (demo_cal_store demo_hash) /\
  (let run := processMessage demo_env demo_uuidTime demo_parse demo_schema demo_encode
                             (Some (demo_msg "payload" "cal"))
                             (demo_world demo_unroutable demo_subscription) in
   run.2 = Ok tt /\ settled run.1 = [(7%nat, Nack)]) /\
  (let down := with_connections true false (demo_world no_fault demo_subscription) in
   let run := processMessage demo_env demo_uuidTime demo_parse demo_schema demo_encode
                             (Some (demo_msg "payload" "cal")) down in
   amqpChannel down = false /\ settled run.1 = [] /\
   (run.2 = Throw TypeError \/ run.2 = Ok tt /\ thrown run.1 = [TypeError])).
Proof.
  split; [exact (proj1 (demo_stage_event demo_unroutable demo_subscription))|].
  split.
  - destruct (proj1 (composed_message_decision demo_env demo_uuidTime demo_parse demo_schema
                       demo_encode (demo_msg "payload" "cal")
                       (demo_world demo_unroutable demo_subscription)
                       (VRef 19%nat) (VRef 20%nat) (demo_cal_store demo_hash)
                       (proj1 (demo_stage_event demo_unroutable demo_subscription)) eq_refl)
                    eq_refl (or_intror (or_intror eq_refl)))
      as (Hok & _ & d & Hs & Hd).
    split; [exact Hok|]. rewrite Hs.
    assert (d = Nack) as ->; [|reflexivity].
    apply Hd. split; [reflexivity|]. right. right. right.
    split; [exists "api-1"%string, "cx-9"%string; reflexivity | eexists; reflexivity].
  - intros down run. split; [reflexivity|].
    exact (proj2 (composed_message_decision demo_env demo_uuidTime demo_parse demo_schema
                    demo_encode (demo_msg "payload" "cal") down
                    (VRef 19%nat) (VRef 20%nat) (demo_cal_store demo_hash)
                    (proj1 (demo_stage_event no_fault demo_subscription)) eq_refl)
                 (or_introl eq_refl)).
Defined.

Lemma proof_saved_iff_store_accepts_witness :
  composes demo_uuidTime demo_parse (demo_msg "payload" "cal")
           (demo_world demo_unroutable demo_subscription) (VRef 19%nat) (VRef 20%nat)
           (demo_cal_store demo_hash) /\
  redis_strings
    (processMessage demo_env demo_uuidTime demo_parse demo_schema demo_encode
                    (Some (demo_msg "payload" "cal"))
                    (demo_world demo_unroutable demo_subscription)).1
  !! demo_hashId
  = Some {| cached_value := "eJyrVkrOLypKTS5RslIqSk0sBgA=";
            cached_EX := 86400; cached_at := 1489964250000 |}.
Proof.
  split; [exact (proj1 (demo_stage_event demo_unroutable demo_subscription))|].
  rewrite (proj1 (proof_saved_iff_store_accepts demo_env demo_uuidTime demo_parse
                    demo_schema demo_encode (demo_msg "payload" "cal")
                    (demo_world demo_unroutable demo_subscription)
                    (VRef 19%nat) (VRef 20%nat) (demo_cal_store demo_hash)
                    (proj1 (demo_stage_event demo_unroutable demo_subscription)))
                 "eJyrVkrOLypKTS5RslIqSk0sBgA="%string eq_refl eq_refl eq_refl eq_refl).
  reflexivity.
Defined.

Lemma thrown_message_untouched_witness :
  let run := processMessage demo_env demo_uuidTime demo_parse_any demo_schema demo_encode
                            (Some (demo_msg "{" "cal"))
                            (demo_world no_fault demo_subscription) in
  run.2 = Throw SyntaxError /\ settled run.1 = [] /\ console run.1 = [].
Proof.
  intros run. split; [reflexivity|].
  pose proof (thrown_message_untouched demo_env demo_uuidTime demo_parse_any demo_schema
                demo_encode (Some (demo_msg "{" "cal"))
                (demo_world no_fault demo_subscription) SyntaxError eq_refl)
    as (_ & Hs & _ & _ & _ & Hc).
  split; [exact Hs | exact Hc].
Defined.

Lemma event_without_state_not_settled_witness :
  let run := processMessage demo_env demo_uuidTime demo_parse_any demo_schema demo_encode
                            (Some (demo_msg "{}" "btc"))
                            (demo_world no_fault demo_subscription) in
  demo_parse_any "{}" [] = ([empty_object], Ok (VRef 0%nat)) /\
  field [empty_object] (VRef 0%nat) "agg_state" = Some VUndef /\
  (exists e, run.2 = Throw e) /\ settled run.1 = [].
Proof.
  intros run. split; [reflexivity|]. split; [reflexivity|].
  pose proof (event_without_state_not_settled demo_env demo_uuidTime demo_parse_any
                demo_schema demo_encode (demo_msg "{}" "btc")
                (demo_world no_fault demo_subscription) [empty_object] (VRef 0%nat) VUndef
                (or_intror eq_refl) eq_refl (or_introl eq_refl) (or_introl eq_refl))
    as (He & Hs & _).
  split; [exact He | exact Hs].
Defined.

Lemma event_without_time_not_settled_witness :
  let run := processMessage demo_env demo_uuidTime demo_parse_any demo_schema demo_encode
                            (Some (demo_msg "untimed" "cal"))
                            (demo_world no_fault demo_subscription) in
  demo_uuidTime (VStr "not-a-uuid") = Throw (LibError "uuid version 1 expected") /\
  run.2 = Throw (LibError "uuid version 1 expected") /\ settled run.1 = [].
Proof.
  intros run. split; [reflexivity|].
  pose proof (event_without_time_not_settled demo_env demo_uuidTime demo_parse_any
                demo_schema demo_encode (demo_msg "untimed" "cal")
                (demo_world no_fault demo_subscription)
                [mk_object [("hash", demo_hash); ("hash_id", VStr "not-a-uuid")]]
                (VRef 0%nat) (VStr "not-a-uuid") (LibError "uuid version 1 expected")
                (or_introl eq_refl) eq_refl eq_refl eq_refl)
    as (He & Hs & _).
  split; [exact He | exact Hs].
Defined.

Lemma addBtcBranch_needs_calendar_branch_witness :
  let h := demo_store demo_hash ++ [empty_object] in
  field h (VRef 19%nat) "anchor_agg_state" = Some (VRef 11%nat) /\
  field h (VRef 19%nat) "btctx_state" = Some (VRef 14%nat) /\
  field h (VRef 19%nat) "btchead_state" = Some (VRef 18%nat) /\
  field h (VRef 20%nat) "branches" = Some VUndef /\
  (addBtcBranch (VRef 20%nat) (VRef 11%nat) (VRef 14%nat) (VRef 18%nat) h).2
  = Throw TypeError.
Proof.
  intros h. split; [reflexivity|]. split; [reflexivity|]. split; [reflexivity|].
  split; [reflexivity|].
  apply (addBtcBranch_needs_calendar_branch h (VRef 20%nat) (VRef 11%nat)
           (VRef 14%nat) (VRef 18%nat) VUndef eq_refl (or_introl eq_refl)).
Defined.

Lemma saved_proof_is_served_witness :
  stage_event demo_uuidTime demo_parse (demo_msg "payload" "cal")
              (demo_world no_fault demo_subscription) (VRef 19%nat) (VRef 20%nat)
              (demo_cal_store demo_hash) demo_hashId /\
  1489964248971 < clock (demo_world no_fault demo_subscription) /\
  1490050648971 - 1489964248971 <= maxDiff demo_env /\
  (getProofsByIDV1Async_each demo_env demo_uuidTime demo_uuidValidate demo_decode
     BASE64_MIME_TYPE demo_hashId
     (with_clock 1490050648971
        (processMessage demo_env demo_uuidTime demo_parse demo_schema demo_encode
                        (Some (demo_msg "payload" "cal"))
                        (demo_world no_fault demo_subscription)).1)).2
  = Ok (ProofBase64 "eJyrVkrOLypKTS5RslIqSk0sBgA=").
Proof.
  split; [exact (demo_stage_event no_fault demo_subscription)|].
  split; [reflexivity|]. split; [discriminate|].
  apply (saved_proof_is_served demo_env demo_env demo_uuidTime demo_parse demo_schema
           demo_encode demo_uuidValidate demo_decode (demo_msg "payload" "cal")
           (demo_world no_fault demo_subscription) (VRef 19%nat) (VRef 20%nat)
           (demo_cal_store demo_hash) demo_hashId "eJyrVkrOLypKTS5RslIqSk0sBgA="%string
           1489964248971 1490050648971
           (demo_stage_event no_fault demo_subscription)
           eq_refl eq_refl eq_refl eq_refl eq_refl eq_refl eq_refl eq_refl).
  - reflexivity.
  - discriminate.
Defined.

Section TaskAccumulatorDeployment.
Import TaskAccumulator.

Lemma drain_in_batches_witness :
  awaiting demo_accumulator = [] /\
  length [@None exn] = ceil_div (length (pools (vars demo_accumulator) AUDIT_SCORE_UPDATE_POOL))
                                (batchSize AUDIT_SCORE_UPDATE_POOL) /\
  let Q := run [Interval AUDIT_SCORE_UPDATE_POOL; Settled 0 None] demo_accumulator in
  settled (vars Q) = [(1%nat, Ack); (2%nat, Ack)] /\
  map enq_items (enqueued (vars Q)) = [["score"%string; "score"%string]] /\
  pools (vars Q) AUDIT_SCORE_UPDATE_POOL = [].
Proof.
  split; [reflexivity|]. split; [reflexivity|].
  pose proof (drain_in_batches AUDIT_SCORE_UPDATE_POOL demo_accumulator [None]
                               eq_refl eq_refl eq_refl eq_refl eq_refl)
    as (_ & He & Hs & Hp & _).
  cbv zeta in *.
  change (map (Settled 0) [None]) with [Settled 0 None] in He, Hs, Hp.
  split; [rewrite Hs; reflexivity|].
  split; [rewrite He; reflexivity | exact Hp].
Defined.

Lemma no_delivery_settled_twice_witness :
  let events := [ChannelEstablished; QueueInitialised;
                 Deliver (Some (demo_score 1)); Deliver (Some (demo_score 2));
                 Interval AUDIT_SCORE_UPDATE_POOL;
                 Deliver (Some (demo_msg "payload" "cal"));
                 Deliver (Some (demo_score 9)); Settled 0 None] in
  delivered events = [1; 2; 7; 9]%nat /\
  NoDup (held (run events start)) /\
  map fst (settled (vars (run events start))) = [7; 1; 2]%nat.
Proof.
  intros events. split; [reflexivity|]. split; [|reflexivity].
  apply (no_delivery_settled_twice events).
  apply (bool_decide_unpack _). vm_compute. exact I.
Defined.

Lemma rejected_drain_blocks_its_pool_witness :
  awaiting (run demo_channel_lost start) !! 0%nat = Some demo_suspended /\
  amqpChannel (vars (run demo_channel_lost start)) = false /\
  let R := run demo_reconnected (step (Settled 0 None) (run demo_channel_lost start)) in
  amqpChannel (vars R) = true /\
  draining (vars R) AUDIT_SCORE_UPDATE_POOL = true /\
  awaiting R = [] /\
  length (enqueued (vars R)) = 1%nat /\
  map item_msg (pools (vars R) AUDIT_SCORE_UPDATE_POOL) = [Some (demo_score 2)] /\
  settled (vars R) = [].
Proof.
  split; [reflexivity|]. split; [reflexivity|].
  pose proof (rejected_drain_blocks_its_pool demo_channel_lost demo_reconnected 0
                demo_suspended None eq_refl) as H.
  cbv zeta in H.
  specialize (H ltac:(discriminate) eq_refl ltac:(discriminate)).
  destruct H as (_ & Hd & _).
  split; [reflexivity|]. split; [exact Hd|].
  repeat split; reflexivity.
Defined.

End TaskAccumulatorDeployment.

(** ** The statements on the API service at the concrete deployment *)

Section ApiDeployment.
Import Stdlib.Strings.Ascii Text Number Nist Api.

Lemma bad_hash_refused_witness :
  demo_postHash demo_findOne (demo_post (VStr "xyz")) (demo_state true)
  = (demo_state true,
     Ok (Refused InvalidArgumentError "invalid JSON body: bad hash submitted"))
  /\ forall message,
       (demo_postHash demo_findOne (demo_post (VStr demo_hex)) (demo_state true)).2
       <> Ok (Refused InvalidArgumentError message).
Proof.
  split.
  - apply (bad_hash_refused "work.agg" "balance" "5000" demo_findOne demo_hmac demo_blake2s
             demo_uuidv1 demo_format demo_addMinutes demo_addSeconds demo_start_of_hour
             demo_parseFloat (demo_post (VStr "xyz")) (demo_state true)
             ["Bearer"; "2b7e151628aed2a60xab12cd34ef56ab12cd34ef56ab12cd34ef56ab12"]%string
             "0xab12cd34ef56ab12cd34ef56ab12cd34ef56ab12" "xyz"
             eq_refl eq_refl eq_refl).
    intros (H & _). discriminate H.
  - apply (bad_hash_refused "work.agg" "balance" "5000" demo_findOne demo_hmac demo_blake2s
             demo_uuidv1 demo_format demo_addMinutes demo_addSeconds demo_start_of_hour
             demo_parseFloat (demo_post (VStr demo_hex)) (demo_state true)
             ["Bearer"; "2b7e151628aed2a60xab12cd34ef56ab12cd34ef56ab12cd34ef56ab12"]%string
             "0xab12cd34ef56ab12cd34ef56ab12cd34ef56ab12" demo_hex
             eq_refl eq_refl eq_refl).
    repeat split; cbn; lia.
Defined.

Lemma nist_value_round_trip_witness :
  let s' := (getNistLatestAsync (inr demo_pulse) demo_service).1 in
  NIST_KEY_value s' = Some "1489964220000:9f2c7a11d0e4"%string
  /\ nistLatestEpoch (updateNistVars (NIST_KEY_value s')
                        {| nistLatest := None; nistLatestEpoch := None; printed := [] |})
     = Some (Int 1489964220).
Proof.
  destruct (nist_value_round_trip demo_pulse (Num 1489964220000) demo_service
              {| nistLatest := None; nistLatestEpoch := None; printed := [] |}
              eq_refl eq_refl eq_refl) as (Hk & _ & Hv).
  split; [exact Hk | exact (proj2 Hv)].
Defined.

Lemma proofs_only_to_registered_nodes_witness :
  (demo_getProofs demo_get demo_saved_world).2
  = Ok (Send [(demo_hashId, ProofBase64 "eJyrVkrOLypKTS5RslIqSk0sBgA="); ("bogus"%string, ProofNull)])
  /\ exists scheme given node,
       header (headers demo_get) "authorization"
       = Some (scheme +:+ " " +:+ demo_hmac (hmacKey node) (tntAddr node))
       /\ toLowerCase scheme = "bearer"%string
       /\ header (headers demo_get) "tnt-address" = Some given
       /\ test false tnt_address_pattern (toLowerCase given) = true
       /\ demo_findOne (toLowerCase given) = inr (Some node).
Proof.
  split; [vm_compute; reflexivity|].
  apply (proofs_only_to_registered_nodes demo_env 250 demo_uuidTime demo_uuidValidate
           demo_decode demo_findOne demo_error_message demo_hmac demo_get demo_saved_world
           [(demo_hashId, ProofBase64 "eJyrVkrOLypKTS5RslIqSk0sBgA=");
            ("bogus"%string, ProofNull)]).
  vm_compute. reflexivity.
Defined.

Lemma proofs_answer_lists_requested_ids_witness :
  (demo_getProofs demo_get demo_saved_world).2
  = Ok (Send [(demo_hashId, ProofBase64 "eJyrVkrOLypKTS5RslIqSk0sBgA="); ("bogus"%string, ProofNull)])
  /\ passed_gate demo_env demo_uuidTime demo_uuidValidate demo_saved_world demo_hashId.
Proof.
  split; [vm_compute; reflexivity|].
  destruct (proofs_answer_lists_requested_ids demo_env 250 demo_uuidTime demo_uuidValidate
              demo_decode demo_findOne demo_error_message demo_hmac demo_get demo_saved_world
              [(demo_hashId, ProofBase64 "eJyrVkrOLypKTS5RslIqSk0sBgA=");
               ("bogus"%string, ProofNull)])
    as (_ & _ & _ & H & _); [vm_compute; reflexivity|].
  apply (H demo_hashId (ProofBase64 "eJyrVkrOLypKTS5RslIqSk0sBgA=")); [left; reflexivity|].
  discriminate.
Defined.


Lemma accepted_post_is_authenticated_witness :
  (demo_postHash demo_findOne (demo_post (VStr demo_hex)) (demo_state false)).2
  = Ok (Accepted demo_response)
  /\ amqpChannel (demo_state false) = true.
Proof.
  split; [vm_compute; reflexivity|].
  refine (proj1 (proj2 (accepted_post_is_authenticated "work.agg" "balance" "5000"
                          demo_findOne demo_hmac demo_blake2s demo_uuidv1 demo_format
                          demo_addMinutes demo_addSeconds demo_start_of_hour demo_parseFloat
                          (demo_post (VStr demo_hex)) (demo_state false) demo_response _))).
  vm_compute. reflexivity.
Defined.

Lemma accepted_post_after_nist_time_witness :
  (demo_postHash demo_findOne (demo_post (VStr demo_hex)) (demo_state false)).2
  = Ok (Accepted demo_response)
  /\ nist demo_response = "1489964220000:9f2c7a11d0e4"%string
  /\ 1489964220 <= 1489964251.
Proof.
  split; [vm_compute; reflexivity|].
  exact (accepted_post_after_nist_time "work.agg" "balance" "5000" demo_findOne
           demo_hmac demo_blake2s demo_uuidv1 demo_format demo_addMinutes
           demo_addSeconds demo_start_of_hour demo_parseFloat
           (demo_post (VStr demo_hex)) (demo_state false) demo_response demo_pulse
           1489964220000
           {| nistLatest := None; nistLatestEpoch := None; printed := [] |}
           eq_refl eq_refl ltac:(apply Z.leb_le; vm_compute; reflexivity)
           ltac:(discriminate) ltac:(vm_compute; reflexivity)).
Defined.

Lemma cached_node_authenticates_witness :
  let segs := ["Bearer"; "2b7e151628aed2a60xab12cd34ef56ab12cd34ef56ab12cd34ef56ab12"]%string in
  let s' := (authenticate demo_findOne demo_hmac segs (tntAddr demo_node) (demo_state false)).1 in
  authenticate demo_findOne_nothing demo_hmac segs (tntAddr demo_node) (later_by 3600000 s')
  = (later_by 3600000 s', inr (Cached (cached_fields demo_node))).
Proof.
  intros segs s'.
  refine (proj1 (proj2 (cached_node_authenticates demo_findOne demo_hmac demo_findOne_nothing
                          segs (tntAddr demo_node) (demo_state false) (later_by 3600000 s')
                          demo_node eq_refl eq_refl eq_refl eq_refl eq_refl eq_refl
                          eq_refl eq_refl eq_refl)) _).
  vm_compute. reflexivity.
Defined.

Lemma balance_refusal_witness :
  demo_postHash demo_findOne (demo_post (VStr demo_hex)) (demo_state true)
  = (demo_state true,
     Ok (Refused NotAuthorizedError
                 ("TNT address 0xab12cd34ef56ab12cd34ef56ab12cd34ef56ab12"
                  +:+ " does not have the minimum balance of 5000 TNT for Node operation"))).
Proof.
  apply (proj1 (balance_refusal "work.agg" "balance" "5000" demo_findOne demo_hmac
                  demo_blake2s demo_uuidv1 demo_format demo_addMinutes demo_addSeconds
                  demo_start_of_hour demo_parseFloat (demo_post (VStr demo_hex))
                  (demo_state true)
                  ["Bearer"; "2b7e151628aed2a60xab12cd34ef56ab12cd34ef56ab12cd34ef56ab12"]%string
                  "0xab12cd34ef56ab12cd34ef56ab12cd34ef56ab12" demo_hex
                  eq_refl eq_refl eq_refl ltac:(vm_compute; reflexivity)
                  ltac:(vm_compute; reflexivity) eq_refl)).
  repeat split.
Defined.

Lemma hashStr_injective_witness :
  hashStr 1489964250000 "ab12" "1489964220000:9f2c7a11d0e4"
  = "1489964250000:13:ab12:4:1489964220000:9f2c7a11d0e4:26"%string
  /\ (1489964250000 = 1489964250000 /\ "ab12"%string = "ab12"%string
      /\ "1489964220000:9f2c7a11d0e4"%string = "1489964220000:9f2c7a11d0e4"%string).
Proof.
  split; [vm_compute; reflexivity|].
  exact (hashStr_injective 1489964250000 1489964250000 "ab12" "ab12"
           "1489964220000:9f2c7a11d0e4" "1489964220000:9f2c7a11d0e4"
           eq_refl eq_refl eq_refl).
Defined.

Lemma registered_post_is_accepted_witness :
  sent (demo_postHash demo_findOne (demo_post (VStr demo_hex)) (demo_state false)).1
  = [ {| queue_name := "work.agg";
         hashObj_hash_id := demo_hashId;
         hashObj_hash := "ab12cd34ef56ab12cd34ef56ab12cd34ef56ab12";
         hashObj_nist := "1489964220000:9f2c7a11d0e4";
         queued_persistent := true |} ].
Proof.
  refine (proj2 (registered_post_is_accepted "work.agg" "balance" "5000" demo_findOne
                   demo_hmac demo_blake2s demo_uuidv1 demo_format demo_addMinutes
                   demo_addSeconds demo_start_of_hour demo_parseFloat
                   (demo_post (VStr demo_hex)) (demo_state false)
                   "Bearer" "0XAB12CD34EF56AB12CD34EF56AB12CD34EF56AB12" demo_hex
                   demo_hashId demo_node 1%nat
                   eq_refl eq_refl eq_refl _ eq_refl _ eq_refl _ _ _ _ eq_refl eq_refl
                   eq_refl eq_refl _ eq_refl));
    try (vm_compute; reflexivity).
  change (String.length demo_hex) with 40%nat. lia.
Defined.

End ApiDeployment.

Section TransferDeployment.
Import Number TransferTokens.

Lemma transferTokens_amount_witness :
  transfers (transferTokens true demo_sendTokens
                            ["node"; "transferTokens.js"; Api.tntAddr demo_node; "1e18"]%string)
  = [(Api.tntAddr demo_node, Int 1)].
Proof.
  exact (proj1 (transferTokens_amount true demo_sendTokens "node" "transferTokens.js"
                  (Api.tntAddr demo_node) "e18" 1 eq_refl
                  ltac:(apply Z.leb_le; vm_compute; reflexivity) eq_refl)).
Defined.

End TransferDeployment.
